(** * MUSIC: nested grid store, level geometry and spectral coupler guards

    A shallow embedding of the parts of [src/mesh.hh] and
    [src/densities.cc] that carry the grid hierarchy of MUSIC:
    [refinement_mask], [MeshvarBnd], [GridHierarchy],
    [refinement_hierarchy], [normalize_density] and the entry guards of
    [fft_coarsen] / [fft_interpolate].

    Conventions of the embedding.
    - Machine integers are values of [Z]; every conversion and every
      unsigned operation of the source is written with its wrap-around
      ([to_unsigned], [to_size_t], [to_int], [to_index]).
    - [real_t], [double] and [long double] cells are exact rationals
      ([Qc]); rounding is outside the model.
    - A [std::vector] or a [new T[n]] block is a [list]; an index outside
      the block is undefined behaviour in C++, the model then reads a fixed
      default and drops the write, and the theorems state the bounds under
      which the source stays inside its blocks.
    - Storage obtained with [new real_t[n]] is indeterminate in C++; the
      model fills it with [0] and no theorem reads a cell before the source
      has written it.
    - A [throw] or a failed [assert] is a value of [res]. *)

From Stdlib Require Import ZArith Lia List Bool QArith Qcanon.
From stdpp Require Import base list numbers list_numbers strings.

Local Open Scope Z_scope.

(** ** Machine integers *)

Definition wrap_unsigned (w z : Z) : Z := z mod 2 ^ w.
Definition wrap_signed (w z : Z) : Z := (z + 2 ^ (w - 1)) mod 2 ^ w - 2 ^ (w - 1).

(** [unsigned], [size_t], [int], [ptrdiff_t] on the LP64 targets of MUSIC. *)
Definition to_unsigned : Z → Z := wrap_unsigned 32.
Definition to_size_t : Z → Z := wrap_unsigned 64.
Definition to_int : Z → Z := wrap_signed 32.
Definition to_index : Z → Z := wrap_signed 64.

(** ** Exceptions and assertions *)

Inductive error : Type :=
  | runtime_error (what : string)
  | assertion_failed (expr : string).

Inductive res (A : Type) : Type :=
  | Ok (a : A)
  | Throw (e : error).
Arguments Ok {A} a.
Arguments Throw {A} e.

Global Instance res_ret : MRet res := λ _ a, Ok a.
Global Instance res_bind : MBind res := λ _ _ k r,
  match r with
  | Ok a => k a
  | Throw e => Throw e
  end.

(** ** Vectors and loops *)

Definition in_vec {A} (v : list A) (i : Z) : bool :=
  (0 <=? i) && (i <? Z.of_nat (length v)).

(** [v[i]] *)
Definition vec_at {A} (d : A) (v : list A) (i : Z) : A :=
  if in_vec v i then default d (v !! Z.to_nat i) else d.

(** [v[i] = x] *)
Definition vec_set {A} (v : list A) (i : Z) (x : A) : list A :=
  if in_vec v i then <[Z.to_nat i := x]> v else v.

(** [v.back()] *)
Definition vec_back {A} (d : A) (v : list A) : A := default d (last v).

(** [for (i = lo; i < lo + n; ++i) body] *)
Definition for_range {S} (lo n : Z) (body : Z → S → S) (s : S) : S :=
  fold_left (fun s i => body i s) (seqZ lo n) s.

(** The index triples visited by
    [for (i < nx) for (j < ny) for (k < nz)], in that order. *)
Definition cells (nx ny nz : Z) : list (Z * Z * Z) :=
  i ← seqZ 0 nx; j ← seqZ 0 ny; k ← seqZ 0 nz; [(i, j, k)].

Definition for_cells {S} (nx ny nz : Z) (body : Z → Z → Z → S → S) (s : S) : S :=
  fold_left (fun s '(i, j, k) => body i j k s) (cells nx ny nz) s.

(** A loop whose body may throw: the first exception leaves the loop. *)
Fixpoint for_each_res {S A} (body : A → S → res S) (l : list A) (s : S) : res S :=
  match l with
  | [] => Ok s
  | a :: l => s' ← body a s; for_each_res body l s'
  end.

Definition for_range_res {S} (lo n : Z) (body : Z → S → res S) (s : S) : res S :=
  for_each_res body (seqZ lo n) s.

(** The eight statements that address the cells [(i+a, j+b, k+c)],
    [a, b, c] in [{0, 1}], in the order the source writes them. *)
Definition octet (i j k : Z) : list (Z * Z * Z) :=
  [(i, j, k); (i, j, k + 1); (i, j + 1, k); (i, j + 1, k + 1);
   (i + 1, j, k); (i + 1, j, k + 1); (i + 1, j + 1, k); (i + 1, j + 1, k + 1)].

(** [for (size_t i = 0; i < n; i += 2)] *)
Definition evens (n : Z) : list Z := Z.mul 2 <$> seqZ 0 ((n + 1) / 2).

(** ** [class refinement_mask] *)

Module refinement_mask.

Record t : Type := mk {
  mask_ : list Z;
  nx_ : Z;
  ny_ : Z;
  nz_ : Z
}.

(** [mask_.assign(nx_ * ny_ * nz_, value)] *)
Definition init (nx ny nz value : Z) : t :=
  {| mask_ := replicate (Z.to_nat (to_size_t (nx * ny * nz))) value;
     nx_ := nx; ny_ := ny; nz_ := nz |}.

(** [refinement_mask(nx, ny, nz, value)] *)
Definition new (nx ny nz value : Z) : t := init nx ny nz value.

Definition index (m : t) (i j k : Z) : Z :=
  to_size_t ((to_size_t i * ny_ m + to_size_t j) * nz_ m + to_size_t k).

(** [operator()(i, j, k)] as an rvalue *)
Definition get (m : t) (i j k : Z) : Z := vec_at 0 (mask_ m) (index m i j k).

(** [operator()(i, j, k) = v] *)
Definition set (m : t) (i j k v : Z) : t :=
  {| mask_ := vec_set (mask_ m) (index m i j k) v;
     nx_ := nx_ m; ny_ := ny_ m; nz_ := nz_ m |}.

Definition set_octet (m : t) (i j k v : Z) : t :=
  fold_left (fun m '(a, b, c) => set m a b c v) (octet i j k) m.

(** [count_flagged()] and [count_notflagged()] *)
Definition count_flagged (m : t) : Z :=
  for_range 0 (Z.of_nat (length (mask_ m))) (fun i count =>
    if negb (vec_at 0 (mask_ m) i =? 0) then to_size_t (count + 1) else count) 0.

Definition count_notflagged (m : t) : Z :=
  for_range 0 (Z.of_nat (length (mask_ m))) (fun i count =>
    if vec_at 0 (mask_ m) i =? 0 then to_size_t (count + 1) else count) 0.

End refinement_mask.

(** ** [class MeshvarBnd : Meshvar] *)

Module MeshvarBnd.

Record t : Type := mk {
  m_nx : Z;
  m_ny : Z;
  m_nz : Z;
  m_offx : Z;
  m_offy : Z;
  m_offz : Z;
  m_nbnd : Z;
  m_pdata : list Qc
}.

(** [MeshvarBnd(int nbnd, size_t nx, size_t ny, size_t nz,
                size_t xoff, size_t yoff, size_t zoff)]; the offsets
    reach the [int] members of [Meshvar] through its constructor. *)
Definition new (nbnd nx ny nz xoff yoff zoff : Z) : t :=
  let nb := to_int nbnd in
  let mx := to_size_t (to_size_t nx + to_int (2 * nb)) in
  let my := to_size_t (to_size_t ny + to_int (2 * nb)) in
  let mz := to_size_t (to_size_t nz + to_int (2 * nb)) in
  {| m_nx := mx; m_ny := my; m_nz := mz;
     m_offx := to_int (to_size_t xoff);
     m_offy := to_int (to_size_t yoff);
     m_offz := to_int (to_size_t zoff);
     m_nbnd := nb;
     m_pdata := replicate (Z.to_nat (to_size_t (mx * my * mz))) 0%Qc |}.

(** [size(dim)] of [MeshvarBnd]: the extent without the ghost margin. *)
Definition size (g : t) (dim : Z) : Z :=
  if dim =? 0 then to_size_t (m_nx g - to_int (2 * m_nbnd g))
  else if dim =? 1 then to_size_t (m_ny g - to_int (2 * m_nbnd g))
  else to_size_t (m_nz g - to_int (2 * m_nbnd g)).

(** [offset(dim)] *)
Definition offset (g : t) (dim : Z) : Z :=
  if dim =? 0 then m_offx g else if dim =? 1 then m_offy g else m_offz g.

(** [offset(dim) = v] through the reference-returning overload *)
Definition set_offset (g : t) (dim v : Z) : t :=
  {| m_nx := m_nx g; m_ny := m_ny g; m_nz := m_nz g;
     m_offx := if dim =? 0 then v else m_offx g;
     m_offy := if dim =? 0 then m_offy g else if dim =? 1 then v else m_offy g;
     m_offz := if dim =? 0 then m_offz g else if dim =? 1 then m_offz g else v;
     m_nbnd := m_nbnd g; m_pdata := m_pdata g |}.

Definition with_data (g : t) (d : list Qc) : t :=
  {| m_nx := m_nx g; m_ny := m_ny g; m_nz := m_nz g;
     m_offx := m_offx g; m_offy := m_offy g; m_offz := m_offz g;
     m_nbnd := m_nbnd g; m_pdata := d |}.

(** number of allocated cells, [m_nx * m_ny * m_nz] *)
Definition count (g : t) : Z := to_size_t (m_nx g * m_ny g * m_nz g).

(** [zero()] *)
Definition zero (g : t) : t :=
  with_data g (replicate (length (m_pdata g)) 0%Qc).

(** [operator()(int ix, int iy, int iz)]: position in [m_pdata] *)
Definition index (g : t) (ix iy iz : Z) : Z :=
  let iix := to_size_t (to_int (to_int ix + m_nbnd g)) in
  let iiy := to_size_t (to_int (to_int iy + m_nbnd g)) in
  let iiz := to_size_t (to_int (to_int iz + m_nbnd g)) in
  to_size_t ((iix * m_ny g + iiy) * m_nz g + iiz).

Definition get (g : t) (ix iy iz : Z) : Qc :=
  vec_at 0%Qc (m_pdata g) (index g ix iy iz).

Definition set (g : t) (ix iy iz : Z) (v : Qc) : t :=
  with_data g (vec_set (m_pdata g) (index g ix iy iz) v).

(** copy constructor: every member and all [m_nx * m_ny * m_nz] cells *)
Definition copy (v : t) : t := v.

(** [MeshvarBnd::operator=] : the extents and the cells, neither the
    offsets nor [m_nbnd] *)
Definition assign (g m : t) : t :=
  let g :=
    if negb ((m_nx g =? m_nx m) && (m_ny g =? m_ny m) && (m_nz g =? m_nz m)) then
      mk (m_nx m) (m_ny m) (m_nz m) (m_offx g) (m_offy g) (m_offz g) (m_nbnd g)
         (replicate (Z.to_nat (count m)) 0%Qc)
    else g in
  with_data g
    (for_range 0 (count g) (fun i d => vec_set d i (vec_at 0%Qc (m_pdata m) i))
       (m_pdata g)).

(** [Meshvar::operator+=], [-=], [*=], [/=] with a mesh on the right:
    [op] is the cell operation and [name] the operator in the message. *)
Definition elementwise (name : string) (op : Qc → Qc → Qc) (g v : t) : res t :=
  if negb (count v =? count g) then
    Throw (runtime_error
             ("Meshvar::operator" +:+ name +:+ " : attempt to operate on incompatible data"))
  else
    Ok (with_data g
          (for_range 0 (count g)
             (fun i d => vec_set d i (op (vec_at 0%Qc d i) (vec_at 0%Qc (m_pdata v) i)))
             (m_pdata g))).

(** the object behind a dangling or out-of-range grid pointer *)
Definition none : t := mk 0 0 0 0 0 0 0 [].

(** [Meshvar::operator*=(real_t x)], [+=], [/=], [-=] with a number on
    the right: [op] is the cell operation. *)
Definition scalar (op : Qc → Qc → Qc) (g : t) (x : Qc) : t :=
  with_data g
    (for_range 0 (count g) (fun i d => vec_set d i (op (vec_at 0%Qc d i) x)) (m_pdata g)).

End MeshvarBnd.

(** ** [class GridHierarchy] *)

Module GridHierarchy.

Record t : Type := mk {
  m_nbnd : Z;
  m_levelmin : Z;
  m_pgrids : list MeshvarBnd.t;
  m_xoffabs : list Z;
  m_yoffabs : list Z;
  m_zoffabs : list Z;
  m_ref_masks : list refinement_mask.t;
  bhave_refmask : bool
}.

Definition with_pgrids (gh : t) (v : list MeshvarBnd.t) : t :=
  mk (m_nbnd gh) (m_levelmin gh) v (m_xoffabs gh) (m_yoffabs gh) (m_zoffabs gh)
     (m_ref_masks gh) (bhave_refmask gh).
Definition with_offabs (gh : t) (x y z : list Z) : t :=
  mk (m_nbnd gh) (m_levelmin gh) (m_pgrids gh) x y z (m_ref_masks gh) (bhave_refmask gh).
Definition with_levelmin (gh : t) (l : Z) : t :=
  mk (m_nbnd gh) l (m_pgrids gh) (m_xoffabs gh) (m_yoffabs gh) (m_zoffabs gh)
     (m_ref_masks gh) (bhave_refmask gh).
Definition with_nbnd (gh : t) (n : Z) : t :=
  mk n (m_levelmin gh) (m_pgrids gh) (m_xoffabs gh) (m_yoffabs gh) (m_zoffabs gh)
     (m_ref_masks gh) (bhave_refmask gh).
Definition with_ref_masks (gh : t) (v : list refinement_mask.t) : t :=
  mk (m_nbnd gh) (m_levelmin gh) (m_pgrids gh) (m_xoffabs gh) (m_yoffabs gh) (m_zoffabs gh)
     v (bhave_refmask gh).
Definition with_bhave_refmask (gh : t) (b : bool) : t :=
  mk (m_nbnd gh) (m_levelmin gh) (m_pgrids gh) (m_xoffabs gh) (m_yoffabs gh) (m_zoffabs gh)
     (m_ref_masks gh) b.

(** [explicit GridHierarchy(size_t nbnd)] *)
Definition new (nbnd : Z) : t := mk nbnd 0 [] [] [] [] [] false.

(** [*m_pgrids[ilevel]] without a bounds check *)
Definition grid (gh : t) (ilevel : Z) : MeshvarBnd.t :=
  vec_at MeshvarBnd.none (m_pgrids gh) ilevel.

(** in-place change of [*m_pgrids[ilevel]] *)
Definition upd_grid (gh : t) (ilevel : Z) (f : MeshvarBnd.t → MeshvarBnd.t) : t :=
  with_pgrids gh (vec_set (m_pgrids gh) ilevel (f (grid gh ilevel))).

Definition mask (gh : t) (ilevel : Z) : refinement_mask.t :=
  vec_at (refinement_mask.mk [] 0 0 0) (m_ref_masks gh) ilevel.

Definition upd_mask (gh : t) (ilevel : Z) (f : refinement_mask.t → refinement_mask.t) : t :=
  with_ref_masks gh (vec_set (m_ref_masks gh) ilevel (f (mask gh ilevel))).

(** [levelmax()]: [m_pgrids.size() - 1] returned as [unsigned] *)
Definition levelmax (gh : t) : Z :=
  to_unsigned (to_size_t (Z.of_nat (length (m_pgrids gh)) - 1)).

Definition levelmin (gh : t) : Z := m_levelmin gh.

(** [get_grid(unsigned ilevel)] *)
Definition get_grid (gh : t) (ilevel : Z) : res MeshvarBnd.t :=
  if Z.of_nat (length (m_pgrids gh)) <=? ilevel
  then Throw (runtime_error "Fatal: attempt to access non-existent grid")
  else Ok (grid gh ilevel).

Definition offset (gh : t) (ilevel idim : Z) : Z :=
  MeshvarBnd.offset (grid gh ilevel) idim.

Definition size (gh : t) (ilevel idim : Z) : Z :=
  MeshvarBnd.size (grid gh ilevel) idim.

Definition offset_abs (gh : t) (ilevel idim : Z) : Z :=
  if idim =? 0 then vec_at 0 (m_xoffabs gh) ilevel
  else if idim =? 1 then vec_at 0 (m_yoffabs gh) ilevel
  else vec_at 0 (m_zoffabs gh) ilevel.

(** [deallocate()] *)
Definition deallocate (gh : t) : t :=
  mk (m_nbnd gh) 0 [] [] [] [] [] (bhave_refmask gh).

(** [create_base_hierarchy(unsigned lmax)] *)
Definition create_base_hierarchy (gh : t) (lmax : Z) : t :=
  let gh := deallocate gh in
  let gh := with_offabs (with_pgrids gh []) [] [] [] in
  let '(gh, n) :=
    for_range 0 (lmax + 1) (fun i '(gh, n) =>
      let gh := with_pgrids gh
                  (m_pgrids gh ++ [MeshvarBnd.new (m_nbnd gh) n n n 0 0 0]) in
      let gh := upd_grid gh i MeshvarBnd.zero in
      let n := to_size_t (n * 2) in
      let gh := with_offabs gh (m_xoffabs gh ++ [0]) (m_yoffabs gh ++ [0])
                               (m_zoffabs gh ++ [0]) in
      (gh, n)) (gh, 1) in
  let gh := with_levelmin gh lmax in
  for_range 0 (lmax + 1) (fun i gh =>
    with_ref_masks gh
      (m_ref_masks gh ++
         [refinement_mask.new (size gh i 0) (size gh i 1) (size gh i 2)
            (if i =? lmax then 0 else 1)])) gh.

(** [add_patch(unsigned xoff, yoff, zoff, unsigned nx, ny, nz)] *)
Definition add_patch (gh : t) (xoff yoff zoff nx ny nz : Z) : t :=
  let gh := with_pgrids gh
              (m_pgrids gh ++ [MeshvarBnd.new (m_nbnd gh) nx ny nz xoff yoff zoff]) in
  let gh := upd_grid gh (Z.of_nat (length (m_pgrids gh)) - 1) MeshvarBnd.zero in
  let push abs off :=
    abs ++ [to_int (to_unsigned (2 * to_unsigned (to_unsigned (vec_back 0 abs) + off)))] in
  let gh := with_offabs gh (push (m_xoffabs gh) xoff) (push (m_yoffabs gh) yoff)
                           (push (m_zoffabs gh) zoff) in
  with_ref_masks gh (m_ref_masks gh ++ [refinement_mask.new nx ny nz 0]).

(** [find_new_levelmin()] *)
Definition find_new_levelmin (gh : t) : t :=
  for_range 0 (levelmax gh + 1) (fun i gh =>
    let n := to_unsigned (Z.shiftl 1 i) in
    if (MeshvarBnd.size (grid gh i) 0 =? n) &&
       (MeshvarBnd.size (grid gh i) 1 =? n) &&
       (MeshvarBnd.size (grid gh i) 2 =? n)
    then with_levelmin gh i else gh) gh.

(** The reduction loop that both branches of [cut_patch] run over the
    coarse cells under the patch: [(coarsesum, coarsecount)]. *)
Definition coarse_reduction (gh : t) (ilevel nx ny nz ox oy oz : Z) : Qc * Z :=
  for_cells (nx / 2) (ny / 2) (nz / 2) (fun i j k '(coarsesum, coarsecount) =>
    ((coarsesum + MeshvarBnd.get (grid gh (ilevel - 1))
                    (to_unsigned (i + to_unsigned ox))
                    (to_unsigned (j + to_unsigned oy))
                    (to_unsigned (k + to_unsigned oz)))%Qc,
     to_size_t (coarsecount + 1))) (0%Qc, 0).

(** [cut_patch(unsigned ilevel, unsigned xoff, yoff, zoff,
               unsigned nx, ny, nz, bool enforce_coarse_mean)] *)
Definition cut_patch (gh : t) (ilevel xoff yoff zoff nx ny nz : Z)
    (enforce_coarse_mean : bool) : res t :=
  let dx := to_unsigned (xoff - to_unsigned (vec_at 0 (m_xoffabs gh) ilevel)) in
  let dy := to_unsigned (yoff - to_unsigned (vec_at 0 (m_yoffabs gh) ilevel)) in
  let dz := to_unsigned (zoff - to_unsigned (vec_at 0 (m_zoffabs gh) ilevel)) in
  if negb ((dx mod 2 =? 0) && (dy mod 2 =? 0) && (dz mod 2 =? 0)) then
    Throw (assertion_failed "dx % 2 == 0 && dy % 2 == 0 && dz % 2 == 0")
  else
    let top d o := to_unsigned (to_unsigned o + d / 2) in
    let dxtop := top dx (MeshvarBnd.offset (grid gh ilevel) 0) in
    let dytop := top dy (MeshvarBnd.offset (grid gh ilevel) 1) in
    let dztop := top dz (MeshvarBnd.offset (grid gh ilevel) 2) in
    let mnew := MeshvarBnd.new (m_nbnd gh) nx ny nz dxtop dytop dztop in
    let copied :=
      for_cells nx ny nz (fun i j k '(mnew, finesum, finecount) =>
        let mnew :=
          MeshvarBnd.set mnew i j k
            (MeshvarBnd.get (grid gh ilevel) (to_unsigned (i + dx))
               (to_unsigned (j + dy)) (to_unsigned (k + dz))) in
        (mnew, (finesum + MeshvarBnd.get mnew i j k)%Qc, to_size_t (finecount + 1)))
        (mnew, 0%Qc, 0) in
    let mnew := copied.1.1 in
    let finesum := copied.1.2 in
    let finecount := copied.2 in
    let gh := with_pgrids gh (vec_set (m_pgrids gh) ilevel mnew) in
    let bump abs d :=
      vec_set abs ilevel (to_int (to_unsigned (to_unsigned (vec_at 0 abs ilevel) + d))) in
    let gh := with_offabs gh (bump (m_xoffabs gh) dx) (bump (m_yoffabs gh) dy)
                             (bump (m_zoffabs gh) dz) in
    let gh :=
      if ilevel <? levelmax gh then
        let shift g dim d :=
          MeshvarBnd.set_offset g dim
            (to_int (to_unsigned (to_unsigned (MeshvarBnd.offset g dim) - d))) in
        upd_grid gh (ilevel + 1) (fun g => shift (shift (shift g 0 dx) 1 dy) 2 dz)
      else gh in
    let gh :=
      if enforce_coarse_mean then
        (* enforce top mean density over same patch; [mnew] is
           [m_pgrids[ilevel]] by now *)
        if levelmin gh <? ilevel then
          let ox := MeshvarBnd.offset (grid gh ilevel) 0 in
          let oy := MeshvarBnd.offset (grid gh ilevel) 1 in
          let oz := MeshvarBnd.offset (grid gh ilevel) 2 in
          let coarse := coarse_reduction gh ilevel nx ny nz ox oy oz in
          let coarsesum := (coarse.1 / Qc_of_Z coarse.2)%Qc in
          let finesum := (finesum / Qc_of_Z finecount)%Qc in
          for_cells nx ny nz (fun i j k gh =>
            upd_grid gh ilevel (fun g =>
              MeshvarBnd.set g i j k
                (MeshvarBnd.get g i j k + (coarsesum - finesum))%Qc)) gh
        else gh
      else
        (* enforce fine mean density over same patch *)
        if levelmin gh <? ilevel then
          let ox := MeshvarBnd.offset (grid gh ilevel) 0 in
          let oy := MeshvarBnd.offset (grid gh ilevel) 1 in
          let oz := MeshvarBnd.offset (grid gh ilevel) 2 in
          let coarse := coarse_reduction gh ilevel nx ny nz ox oy oz in
          let coarsesum := (coarse.1 / Qc_of_Z coarse.2)%Qc in
          let finesum := (finesum / Qc_of_Z finecount)%Qc in
          for_cells (nx / 2) (ny / 2) (nz / 2) (fun i j k gh =>
            upd_grid gh (ilevel - 1) (fun g =>
              let ci := to_unsigned (i + to_unsigned ox) in
              let cj := to_unsigned (j + to_unsigned oy) in
              let ck := to_unsigned (k + to_unsigned oz) in
              MeshvarBnd.set g ci cj ck
                (MeshvarBnd.get g ci cj ck - (coarsesum - finesum))%Qc)) gh
        else gh in
    Ok (find_new_levelmin gh).

(** [is_consistent(gh)], with [this] first *)
Definition is_consistent (this gh : t) : bool :=
  if negb (levelmax gh =? levelmax this) then false
  else if negb (levelmin gh =? levelmin this) then false
  else
    forallb (fun i =>
      forallb (fun j =>
        (size this (to_int i) j =? size gh (to_int i) j) &&
        (offset this (to_int i) j =? offset gh (to_int i) j))
        (seqZ 0 3))
      (seqZ (levelmin this) (levelmax this - levelmin this + 1)).

(** [operator+=], [-=], [*=], [/=] with a hierarchy on the right *)
Definition elementwise (name : string) (op : Qc → Qc → Qc) (this gh : t) : res t :=
  if negb (is_consistent this gh) then
    Throw (runtime_error
             ("GridHierarchy::operator" +:+ name +:+ " : attempt to operate on incompatible data"))
  else
    for_range_res 0 (Z.of_nat (length (m_pgrids this))) (fun i this =>
      g ← get_grid gh i;
      g' ← MeshvarBnd.elementwise name op (grid this i) g;
      Ok (with_pgrids this (vec_set (m_pgrids this) i g'))) this.

Definition operator_mul_assign := elementwise "*=" Qcmult.
Definition operator_div_assign := elementwise "/=" Qcdiv.
Definition operator_add_assign := elementwise "+=" Qcplus.
Definition operator_sub_assign := elementwise "-=" Qcminus.

(** [operator=] *)
Definition operator_assign (this gh : t) : res t :=
  let this := with_bhave_refmask this (bhave_refmask gh) in
  let this :=
    if bhave_refmask this then
      for_range 0 (levelmax gh + 1) (fun i this =>
        with_ref_masks this (m_ref_masks this ++ [mask gh i])) this
    else this in
  if negb (is_consistent this gh) then
    let this := with_pgrids this [] in
    this ← for_range_res 0 (levelmax gh + 1) (fun i this =>
              g ← get_grid gh i;
              Ok (with_pgrids this (m_pgrids this ++ [MeshvarBnd.copy g]))) this;
    let this := with_levelmin this (levelmin gh) in
    let this := with_nbnd this (m_nbnd gh) in
    Ok (with_offabs this (m_xoffabs gh) (m_yoffabs gh) (m_zoffabs gh))
  else
    for_range_res 0 (Z.of_nat (length (m_pgrids this))) (fun i this =>
      g ← get_grid gh i;
      Ok (upd_grid this i (fun mine => MeshvarBnd.assign mine g))) this.

(** One level of the first loop of [add_refinement_mask]: the mask of
    [ilevel] is reset and every 2x2x2 block takes the answer of the
    region generator for its first cell. [query_point l X Y Z] is
    [the_region_generator->query_point(xq, l)] at
    [xq = (X, Y, Z) * dx + 0.5 * dx + shift], [dx = 1 / 2^l]. *)
Definition flag_level (query_point : Z → Z → Z → Z → bool) (gh : t) (ilevel : Z) : t :=
  let gh := upd_mask gh ilevel (fun _ =>
              refinement_mask.init (size gh ilevel 0) (size gh ilevel 1)
                (size gh ilevel 2) 0) in
  fold_left (fun gh '(i, j, k) =>
      let mask_val :=
        if query_point ilevel (to_size_t (offset_abs gh ilevel 0 + i))
             (to_size_t (offset_abs gh ilevel 1 + j))
             (to_size_t (offset_abs gh ilevel 2 + k))
           || (ilevel =? to_int (levelmin gh))
        then 1 else -1 in
      upd_mask gh ilevel (fun m => refinement_mask.set_octet m i j k mask_val))
    (i ← evens (size gh ilevel 0); j ← evens (size gh ilevel 1);
     k ← evens (size gh ilevel 2); [(i, j, k)]) gh.

(** One level of the second loop of [add_refinement_mask]. *)
Definition refine_level (gh : t) (ilevel : Z) : t :=
  for_cells (size gh ilevel 0) (size gh ilevel 1) (size gh ilevel 2) (fun i j k gh =>
    let ifine d c := to_int (2 * to_int c - 2 * to_int (offset gh (ilevel + 1) d)) in
    let f0 := ifine 0 i in
    let f1 := ifine 1 j in
    let f2 := ifine 2 k in
    if (0 <=? f0) && (f0 <? to_int (size gh (ilevel + 1) 0)) &&
       (0 <=? f1) && (f1 <? to_int (size gh (ilevel + 1) 1)) &&
       (0 <=? f2) && (f2 <? to_int (size gh (ilevel + 1) 2))
    then
      let fine_is_flagged :=
        existsb (fun '(a, b, c) => 0 <? refinement_mask.get (mask gh (ilevel + 1)) a b c)
          (octet f0 f1 f2) in
      if fine_is_flagged then
        let gh := upd_mask gh ilevel (fun m => refinement_mask.set m i j k 2) in
        upd_mask gh (ilevel + 1) (fun m => refinement_mask.set_octet m f0 f1 f2 1)
      else gh
    else gh) gh.

(** [add_refinement_mask(const double *shift)] *)
Definition add_refinement_mask (query_point : Z → Z → Z → Z → bool) (gh : t) : t :=
  let gh := with_bhave_refmask gh false in
  if negb (m_levelmin gh =? levelmax gh) then
    let lmax := to_int (levelmax gh) in
    let lmin := to_int (levelmin gh) in
    let gh := fold_left (flag_level query_point) (reverse (seqZ lmin (lmax - lmin + 1))) gh in
    let gh := with_bhave_refmask gh true in
    for_range lmin (lmax - lmin) (fun ilevel gh => refine_level gh ilevel) gh
  else gh.

(** [operator*=(T x)], [/=], [+=], [-=] with a number on the right *)
Definition scalar (op : Qc → Qc → Qc) (gh : t) (x : Qc) : t :=
  for_range 0 (Z.of_nat (length (m_pgrids gh))) (fun i gh =>
    upd_grid gh i (fun g => MeshvarBnd.scalar op g x)) gh.

Definition operator_mul_scalar := scalar Qcmult.
Definition operator_div_scalar := scalar Qcdiv.
Definition operator_add_scalar := scalar Qcplus.
Definition operator_sub_scalar := scalar Qcminus.

(** [zero()] *)
Definition zero (gh : t) : t :=
  for_range 0 (Z.of_nat (length (m_pgrids gh))) (fun i gh =>
    upd_grid gh i MeshvarBnd.zero) gh.

(** [explicit GridHierarchy(const GridHierarchy<T> &gh)]: the members
    start out empty, [m_nbnd] and [m_levelmin] are assigned after the
    grids. *)
Definition copy (gh : t) : res t :=
  this ← for_range_res 0 (levelmax gh + 1) (fun i this =>
            g ← get_grid gh i;
            Ok (with_pgrids this (m_pgrids this ++ [MeshvarBnd.copy g])))
          (mk 0 0 [] [] [] [] [] false);
  let this := with_nbnd this (m_nbnd gh) in
  let this := with_levelmin this (m_levelmin gh) in
  let this := with_offabs this (m_xoffabs gh) (m_yoffabs gh) (m_zoffabs gh) in
  let this := with_bhave_refmask this (bhave_refmask gh) in
  Ok (if bhave_refmask this then
        for_range 0 (Z.of_nat (length (m_ref_masks gh))) (fun i this =>
          with_ref_masks this (m_ref_masks this ++ [mask gh i])) this
      else this).

(** [is_refined(unsigned ilevel, int i, int j, int k)] *)
Definition is_refined (gh : t) (ilevel i j k : Z) : bool :=
  if bhave_refmask gh then refinement_mask.get (mask gh ilevel) i j k =? 2
  else if ilevel =? levelmax gh then false
  else
    let next := to_int (to_unsigned (ilevel + 1)) in
    let lo d := offset gh next d in
    let hi d := to_int (lo d + Z.quot (to_int (size gh next d)) 2) in
    if (i <? lo 0) || (hi 0 <=? i) || (j <? lo 1) || (hi 1 <=? j)
       || (k <? lo 2) || (hi 2 <=? k)
    then false else true.

(** [is_in_mask(unsigned ilevel, int i, int j, int k)] *)
Definition is_in_mask (gh : t) (ilevel i j k : Z) : bool :=
  if bhave_refmask gh then 0 <=? refinement_mask.get (mask gh ilevel) i j k else true.

(** [count_leaf_cells(unsigned lmin, unsigned lmax)]: the level counts
    down in [int], the cell indices count up in [unsigned] *)
Definition count_leaf_cells (gh : t) (lmin lmax : Z) : res Z :=
  for_each_res (fun ilevel npcount =>
      g ← get_grid gh (to_unsigned ilevel);
      Ok (for_cells (MeshvarBnd.size g 0) (MeshvarBnd.size g 1) (MeshvarBnd.size g 2)
            (fun i j k npcount =>
               if is_in_mask gh (to_unsigned ilevel) (to_int i) (to_int j) (to_int k)
                  && negb (is_refined gh (to_unsigned ilevel) (to_int i) (to_int j) (to_int k))
               then to_size_t (npcount + 1) else npcount) npcount))
    (reverse (seqZ (to_int lmin) (to_int lmax - to_int lmin + 1))) 0.

(** [count_leaf_cells(void)] *)
Definition count_leaf_cells_all (gh : t) : res Z :=
  count_leaf_cells gh (levelmin gh) (levelmax gh).

End GridHierarchy.

(** ** [class refinement_hierarchy]

    The integer geometry record: [offsets_], [absoffsets_], [len_],
    [levelmin_], [levelmax_]. The [double] members ([x0_], [xl_], ...) are
    derived from these by a multiplication with the cell width and feed
    nothing back into them; they are left out. *)

Module refinement_hierarchy.

(** [index3_t = std::array<ptrdiff_t, 3>] *)
Definition index3_t : Type := Z * Z * Z.

Definition nth3 (v : index3_t) (d : Z) : Z :=
  let '(x, y, z) := v in if d =? 0 then x else if d =? 1 then y else z.

Definition set3 (v : index3_t) (d x : Z) : index3_t :=
  let '(a, b, c) := v in
  if d =? 0 then (x, b, c) else if d =? 1 then (a, x, c) else (a, b, x).

Record t : Type := mk {
  offsets_ : list index3_t;
  absoffsets_ : list index3_t;
  len_ : list index3_t;
  levelmin_ : Z;
  levelmax_ : Z
}.

Definition with_offsets (rh : t) (v : list index3_t) : t :=
  mk v (absoffsets_ rh) (len_ rh) (levelmin_ rh) (levelmax_ rh).
Definition with_absoffsets (rh : t) (v : list index3_t) : t :=
  mk (offsets_ rh) v (len_ rh) (levelmin_ rh) (levelmax_ rh).
Definition with_len (rh : t) (v : list index3_t) : t :=
  mk (offsets_ rh) (absoffsets_ rh) v (levelmin_ rh) (levelmax_ rh).
Definition with_levelmin (rh : t) (l : Z) : t :=
  mk (offsets_ rh) (absoffsets_ rh) (len_ rh) l (levelmax_ rh).

Definition zero3 : index3_t := (0, 0, 0).

(** [offset_abs(ilevel, dim)], [offset(ilevel, dim)], [size(ilevel, dim)] *)
Definition offset_abs (rh : t) (ilevel dim : Z) : Z :=
  nth3 (vec_at zero3 (absoffsets_ rh) ilevel) dim.
Definition offset (rh : t) (ilevel dim : Z) : Z :=
  nth3 (vec_at zero3 (offsets_ rh) ilevel) dim.
Definition size (rh : t) (ilevel dim : Z) : Z :=
  to_size_t (nth3 (vec_at zero3 (len_ rh) ilevel) dim).

Definition levelmin (rh : t) : Z := levelmin_ rh.
Definition levelmax (rh : t) : Z := levelmax_ rh.

(** [offsets_[ilevel][idim] = v] and [absoffsets_[ilevel][idim] = v] *)
Definition set_offset (rh : t) (ilevel idim v : Z) : t :=
  with_offsets rh
    (vec_set (offsets_ rh) ilevel (set3 (vec_at zero3 (offsets_ rh) ilevel) idim v)).
Definition set_absoffset (rh : t) (ilevel idim v : Z) : t :=
  with_absoffsets rh
    (vec_set (absoffsets_ rh) ilevel (set3 (vec_at zero3 (absoffsets_ rh) ilevel) idim v)).

(** The constructor, from "determine relative offsets between grids"
    on. What precedes it computes the boxes ([absoffsets_], [len_]) of
    the levels above [levelmin_] from the configuration and the region
    generator in [double] arithmetic and leaves [offsets_] at zero; the
    model starts from the state reached there. *)
Definition relative_offsets (rh : t) : t :=
  fold_left (fun rh ilevel =>
      for_range 0 3 (fun idim rh =>
        set_offset rh ilevel idim
          (to_index (Z.quot (offset_abs rh ilevel idim) 2
                     - offset_abs rh (to_unsigned (ilevel - 1)) idim))) rh)
    (reverse (seqZ (levelmin_ rh + 1) (levelmax_ rh - levelmin_ rh))) rh.

(** "do a forward sweep to ensure that absolute offsets are also
    correct now" *)
Definition forward_sweep (rh : t) : t :=
  for_range (levelmin_ rh + 1) (levelmax_ rh - levelmin_ rh) (fun ilevel rh =>
    for_range 0 3 (fun idim rh =>
      set_absoffset rh ilevel idim
        (to_index (2 * offset_abs rh (to_unsigned (ilevel - 1)) idim
                   + 2 * offset rh ilevel idim))) rh) rh.

Definition resolve_offsets (rh : t) : t := forward_sweep (relative_offsets rh).

(** [find_new_levelmin()] *)
Definition find_new_levelmin (rh : t) : t :=
  for_range 0 (levelmax rh + 1) (fun i rh =>
    let n := to_unsigned (Z.shiftl 1 i) in
    if decide (vec_at zero3 (absoffsets_ rh) i = zero3
               ∧ vec_at zero3 (len_ rh) i = (n, n, n))
    then with_levelmin rh i else rh) rh.

(** [adjust_level(unsigned ilevel, int nx, ny, nz, int oax, oay, oaz)] *)
Definition adjust_level (rh : t) (ilevel nx ny nz oax oay oaz : Z) : t :=
  let dx := to_int (to_index (offset_abs rh ilevel 0 - oax)) in
  let dy := to_int (to_index (offset_abs rh ilevel 1 - oay)) in
  let dz := to_int (to_index (offset_abs rh ilevel 2 - oaz)) in
  let rh := set_offset rh ilevel 0 (to_index (offset rh ilevel 0 - Z.quot dx 2)) in
  let rh := set_offset rh ilevel 1 (to_index (offset rh ilevel 1 - Z.quot dy 2)) in
  let rh := set_offset rh ilevel 2 (to_index (offset rh ilevel 2 - Z.quot dz 2)) in
  let rh := set_absoffset rh ilevel 0 oax in
  let rh := set_absoffset rh ilevel 1 oay in
  let rh := set_absoffset rh ilevel 2 oaz in
  let rh := with_len rh (vec_set (len_ rh) ilevel (nx, ny, nz)) in
  let rh :=
    if ilevel <? levelmax_ rh then
      let rh := set_offset rh (ilevel + 1) 0 (to_index (offset rh (ilevel + 1) 0 + dx)) in
      let rh := set_offset rh (ilevel + 1) 1 (to_index (offset rh (ilevel + 1) 1 + dy)) in
      set_offset rh (ilevel + 1) 2 (to_index (offset rh (ilevel + 1) 2 + dz))
    else rh in
  find_new_levelmin rh.

(** [gcd(int a, int b)]: [b == 0 ? a : gcd(b, a % b)]. The second
    argument shrinks in magnitude at every call, so [|b| + 1] calls reach
    [b == 0]. *)
Fixpoint gcd_calls (n : nat) (a b : Z) : Z :=
  match n with
  | O => a
  | S n => if b =? 0 then a else gcd_calls n b (Z.rem a b)
  end.

Definition gcd (a b : Z) : Z := gcd_calls (S (Z.abs_nat b)) a b.

(** The [while] loop of [get_shift_unit]: [fuel] bounds the number of
    tests; [1 << level_m] is an [int] for [level_m <= 30] only. *)
Fixpoint shift_level (fuel : nat) (base_unit levelmin level_m : Z) : option Z :=
  match fuel with
  | O => None
  | S fuel =>
      if to_int (base_unit * to_int (Z.shiftl 1 level_m)) <? to_int (Z.shiftl 1 levelmin)
      then shift_level fuel base_unit levelmin (to_int (level_m + 1))
      else Some level_m
  end.

(** [get_shift_unit(int base_unit, int levelmin)] *)
Definition get_shift_unit (base_unit levelmin : Z) : option Z :=
  level_m ← shift_level 31 base_unit levelmin 0;
  Some (Z.max 1
          (to_int (Z.quot (to_int (Z.shiftl 1 levelmin))
                     (gcd (to_int (base_unit * to_int (Z.shiftl 1 level_m)))
                        (to_int (Z.shiftl 1 levelmin)))))).

End refinement_hierarchy.

(** ** [densities.cc] *)

(** [normalize_density(grid_hierarchy &delta)] *)
Definition normalize_density (delta : GridHierarchy.t) : res GridHierarchy.t :=
  let levelmin := GridHierarchy.levelmin delta in
  let levelmax := GridHierarchy.levelmax delta in
  g ← GridHierarchy.get_grid delta levelmin;
  let nx := MeshvarBnd.size g 0 in
  let ny := MeshvarBnd.size g 1 in
  let nz := MeshvarBnd.size g 2 in
  let sum :=
    for_cells (to_int nx) ny nz (fun ix iy iz sum =>
      (sum + MeshvarBnd.get (GridHierarchy.grid delta levelmin) ix iy iz)%Qc) 0%Qc in
  let sum := (sum / Qc_of_Z (to_size_t (nx * ny * nz)))%Qc in
  for_range_res levelmin (levelmax - levelmin + 1) (fun i delta =>
    g ← GridHierarchy.get_grid delta i;
    let nx := MeshvarBnd.size g 0 in
    let ny := MeshvarBnd.size g 1 in
    let nz := MeshvarBnd.size g 2 in
    Ok (for_cells (to_int nx) ny nz (fun ix iy iz delta =>
          GridHierarchy.upd_grid delta i (fun g =>
            MeshvarBnd.set g ix iy iz (MeshvarBnd.get g ix iy iz - sum)%Qc)) delta))
    delta.

(** [normalize_levelmin_density(grid_hierarchy &delta)] *)
Definition normalize_levelmin_density (delta : GridHierarchy.t) : res GridHierarchy.t :=
  let levelmin := GridHierarchy.levelmin delta in
  g ← GridHierarchy.get_grid delta levelmin;
  let nx := MeshvarBnd.size g 0 in
  let ny := MeshvarBnd.size g 1 in
  let nz := MeshvarBnd.size g 2 in
  let sum :=
    for_cells (to_int nx) ny nz (fun ix iy iz sum =>
      (sum + MeshvarBnd.get (GridHierarchy.grid delta levelmin) ix iy iz)%Qc) 0%Qc in
  let sum := (sum / Qc_of_Z (to_size_t (nx * ny * nz)))%Qc in
  g ← GridHierarchy.get_grid delta levelmin;
  let nx := MeshvarBnd.size g 0 in
  let ny := MeshvarBnd.size g 1 in
  let nz := MeshvarBnd.size g 2 in
  Ok (for_cells (to_int nx) ny nz (fun ix iy iz delta =>
        GridHierarchy.upd_grid delta levelmin (fun g =>
          MeshvarBnd.set g ix iy iz (MeshvarBnd.get g ix iy iz - sum)%Qc)) delta).

(** The spectral coupler. Both routines are templates over the two grid
    types; what they do to the cells goes through FFTW and [double]
    trigonometry and stays abstract here ([coarsen_cells],
    [interpolate_cells]). The model keeps what the routines read from the
    extents before they transform. *)
Section spectral_coupler.

Context {m1 m2 : Type}.
Variable size1 : m1 → Z → Z.
Variable size2 : m2 → Z → Z.
Variable coarsen_cells : m1 → m2 → m2.
Variable interpolate_cells : m1 → m2 → Z → bool → m2.

(** [fft_coarsen(m1 &v, m2 &V)]: returns the coarse grid [V] *)
Definition fft_coarsen (v : m1) (V : m2) : res m2 :=
  let '(nxf, nyf, nzf) := (size1 v 0, size1 v 1, size1 v 2) in
  let '(nxF, nyF, nzF) := (size2 V 0, size2 V 1, size2 V 2) in
  Ok (coarsen_cells v V).

(** [fft_interpolate(m1 &V, m2 &v, int margin, bool from_basegrid)]:
    returns the fine grid [v] *)
Definition fft_interpolate (V : m1) (v : m2) (margin : Z) (from_basegrid : bool)
    : res m2 :=
  let '(nxf, nyf, nzf) := (size2 v 0, size2 v 1, size2 v 2) in
  if negb ((nxf mod 2 =? 0) && (nyf mod 2 =? 0) && (nzf mod 2 =? 0)) then
    Throw (assertion_failed "nxf % 2 == 0 && nyf % 2 == 0 && nzf % 2 == 0")
  else Ok (interpolate_cells V v margin from_basegrid).

End spectral_coupler.

(** ** [plugins/output_swift.cc] *)

Module swift_output_plugin.

Definition GAS_PARTTYPE : Z := 0.
Definition COARSE_DM_DEFAULT_PARTTYPE : Z := 2.
Definition STAR_PARTTYPE : Z := 4.

(** [nPart[i][type] = dims]: the entries are [unsigned int] *)
Definition set_nPart (nPart : list (list Z)) (i type dims : Z) : list (list Z) :=
  vec_set nPart i (vec_set (vec_at [] nPart i) type (to_unsigned dims)).

(** [countLeafCells(gh)]: [(npfine, npart, npcoarse)]; [multimass] is
    [levelmax_ != levelmin_] of the plugin. *)
Definition countLeafCells (multimass : bool) (gh : GridHierarchy.t) : res (Z * Z * Z) :=
  npfine ← GridHierarchy.count_leaf_cells gh (GridHierarchy.levelmax gh)
              (GridHierarchy.levelmax gh);
  npart ← GridHierarchy.count_leaf_cells gh (GridHierarchy.levelmin gh)
             (GridHierarchy.levelmax gh);
  if multimass then
    npcoarse ← GridHierarchy.count_leaf_cells gh (GridHierarchy.levelmin gh)
                  (to_unsigned (GridHierarchy.levelmax gh - 1));
    Ok (npfine, npart, npcoarse)
  else Ok (npfine, npart, 0).

(** The "update header" loop of [__write_gas_position]: the particles
    of the finest level are dealt to the files. [ceil] is applied to a
    quotient of integers, which reaches it as a [double]. *)
Definition gas_header (npfine numFiles : Z) (nPart : list (list Z)) : list (list Z) :=
  (for_range 0 numFiles (fun i '(nPart, offset) =>
     let dims := to_size_t (npfine / to_size_t numFiles) in
     let dims := if i =? to_unsigned (numFiles - 1) then to_size_t (npfine - offset) else dims in
     (set_nPart nPart i GAS_PARTTYPE dims, to_size_t (offset + dims)))
     (nPart, 0)).1.


End swift_output_plugin.

(** * Properties *)

(** ** Machine integers *)

Lemma to_size_t_small z : 0 ≤ z < 2 ^ 64 → to_size_t z = z.
Proof. intros H. unfold to_size_t, wrap_unsigned. apply Z.mod_small. lia. Qed.

Lemma to_unsigned_small z : 0 ≤ z < 2 ^ 32 → to_unsigned z = z.
Proof. intros H. unfold to_unsigned, wrap_unsigned. apply Z.mod_small. lia. Qed.

Lemma to_int_small z : - 2 ^ 31 ≤ z < 2 ^ 31 → to_int z = z.
Proof.
  intros H. unfold to_int, wrap_signed.
  change (32 - 1) with 31. rewrite Z.mod_small; lia.
Qed.

Lemma to_index_small z : - 2 ^ 63 ≤ z < 2 ^ 63 → to_index z = z.
Proof.
  intros H. unfold to_index, wrap_signed.
  change (64 - 1) with 63. rewrite Z.mod_small; lia.
Qed.

Lemma to_unsigned_range z : 0 ≤ to_unsigned z < 2 ^ 32.
Proof. unfold to_unsigned, wrap_unsigned. apply Z.mod_pos_bound. lia. Qed.

Lemma to_size_t_range z : 0 ≤ to_size_t z < 2 ^ 64.
Proof. unfold to_size_t, wrap_unsigned. apply Z.mod_pos_bound. lia. Qed.

Lemma to_unsigned_parity z : to_unsigned z mod 2 = z mod 2.
Proof.
  unfold to_unsigned, wrap_unsigned.
  apply Z.mod_mod_divide. exists (2 ^ 31). reflexivity.
Qed.

Lemma to_unsigned_sub_inner a b : to_unsigned (a - to_unsigned b) = to_unsigned (a - b).
Proof. unfold to_unsigned, wrap_unsigned. apply Zminus_mod_idemp_r. Qed.

Lemma to_unsigned_add_inner a b : to_unsigned (to_unsigned a + b) = to_unsigned (a + b).
Proof. unfold to_unsigned, wrap_unsigned. apply Zplus_mod_idemp_l. Qed.

Lemma to_unsigned_sub_inner_l a b : to_unsigned (to_unsigned a - b) = to_unsigned (a - b).
Proof. unfold to_unsigned, wrap_unsigned. apply Zminus_mod_idemp_l. Qed.

Lemma to_int_to_unsigned z : to_int (to_unsigned z) = to_int z.
Proof.
  unfold to_int, to_unsigned, wrap_signed, wrap_unsigned.
  f_equal. rewrite Zplus_mod_idemp_l. reflexivity.
Qed.

Lemma to_int_to_size_t z : to_int (to_size_t z) = to_int z.
Proof.
  unfold to_int, to_size_t, wrap_signed, wrap_unsigned. f_equal.
  rewrite <- (Zplus_mod_idemp_l (z mod _)).
  rewrite Z.mod_mod_divide by (exists (2 ^ 32); reflexivity).
  apply Zplus_mod_idemp_l.
Qed.

(** the extent survives the detour through the padded extent *)
Lemma size_t_add_sub a b : to_size_t (to_size_t (to_size_t a + b) - b) = to_size_t a.
Proof.
  unfold to_size_t, wrap_unsigned.
  rewrite Zminus_mod_idemp_l.
  replace (a `mod` 2 ^ 64 + b - b) with (a `mod` 2 ^ 64) by lia.
  apply Z.mod_mod. lia.
Qed.

(** ** Vectors *)

Lemma in_vec_true {A} (v : list A) i :
  in_vec v i = true ↔ 0 ≤ i < Z.of_nat (length v).
Proof. unfold in_vec. rewrite andb_true_iff, Z.leb_le, Z.ltb_lt. tauto. Qed.

Lemma vec_at_lookup {A} (d : A) v i x :
  0 ≤ i → v !! Z.to_nat i = Some x → vec_at d v i = x.
Proof.
  intros Hi Hx. unfold vec_at.
  assert (in_vec v i = true) as ->.
  { apply in_vec_true. apply lookup_lt_Some in Hx. lia. }
  rewrite Hx. reflexivity.
Qed.

Lemma vec_at_app_last {A} (d : A) v x : vec_at d (v ++ [x]) (Z.of_nat (length v)) = x.
Proof.
  apply vec_at_lookup; [lia|].
  rewrite Nat2Z.id. apply list_lookup_middle. reflexivity.
Qed.

Lemma vec_at_app_l {A} (d : A) v w i :
  0 ≤ i < Z.of_nat (length v) → vec_at d (v ++ w) i = vec_at d v i.
Proof.
  intros Hi. unfold vec_at.
  assert (in_vec (v ++ w) i = true) as ->.
  { apply in_vec_true. rewrite length_app. lia. }
  assert (in_vec v i = true) as -> by (apply in_vec_true; lia).
  rewrite lookup_app_l by lia. reflexivity.
Qed.

Lemma vec_set_app_last {A} (v : list A) x y :
  vec_set (v ++ [x]) (Z.of_nat (length v)) y = v ++ [y].
Proof.
  unfold vec_set.
  assert (in_vec (v ++ [x]) (Z.of_nat (length v)) = true) as ->.
  { apply in_vec_true. rewrite length_app. simpl. lia. }
  rewrite Nat2Z.id.
  replace (length v) with (length v + 0)%nat at 1 by lia.
  rewrite insert_app_r. reflexivity.
Qed.

Lemma length_vec_set {A} (v : list A) i x : length (vec_set v i x) = length v.
Proof. unfold vec_set. destruct (in_vec v i); [apply length_insert | reflexivity]. Qed.

Lemma vec_at_set_eq {A} (d : A) v i x :
  0 ≤ i < Z.of_nat (length v) → vec_at d (vec_set v i x) i = x.
Proof.
  intros Hi. unfold vec_at.
  assert (in_vec (vec_set v i x) i = true) as ->.
  { apply in_vec_true. rewrite length_vec_set. lia. }
  unfold vec_set. assert (in_vec v i = true) as -> by (apply in_vec_true; lia).
  rewrite list_lookup_insert_eq by lia. reflexivity.
Qed.

Lemma vec_at_set_ne {A} (d : A) v i j x :
  i ≠ j → vec_at d (vec_set v i x) j = vec_at d v j.
Proof.
  intros Hne. unfold vec_at.
  assert (in_vec (vec_set v i x) j = in_vec v j) as ->.
  { unfold in_vec. rewrite length_vec_set. reflexivity. }
  destruct (in_vec v j) eqn:Hj; [|reflexivity].
  unfold vec_set. destruct (in_vec v i) eqn:Hi; [|reflexivity].
  apply in_vec_true in Hi, Hj.
  rewrite list_lookup_insert_ne by lia. reflexivity.
Qed.

Lemma for_range_S {S} lo (n : nat) (body : Z → S → S) s :
  for_range lo (Z.of_nat (Datatypes.S n)) body s
  = body (lo + Z.of_nat n) (for_range lo (Z.of_nat n) body s).
Proof. unfold for_range. rewrite seqZ_S, fold_left_app. reflexivity. Qed.

Lemma for_range_0 {S} lo (body : Z → S → S) s : for_range lo 0 body s = s.
Proof. reflexivity. Qed.

(** ** C8: [get_grid] *)

(** C8. For a level index at or beyond the number of stored levels
    [get_grid] throws the non-existent-grid runtime error and yields no
    grid; for an index below it, it yields the grid stored for that
    level. *)
Theorem get_grid_bounds_checked (gh : GridHierarchy.t) (ilevel : Z) :
  0 ≤ ilevel →
  (Z.of_nat (length (GridHierarchy.m_pgrids gh)) ≤ ilevel →
     GridHierarchy.get_grid gh ilevel
     = Throw (runtime_error "Fatal: attempt to access non-existent grid"))
  ∧ (ilevel < Z.of_nat (length (GridHierarchy.m_pgrids gh)) →
     ∃ g, GridHierarchy.m_pgrids gh !! Z.to_nat ilevel = Some g
          ∧ GridHierarchy.get_grid gh ilevel = Ok g).
Proof.
  intros H0. unfold GridHierarchy.get_grid. split; intros H.
  - apply Z.leb_le in H. rewrite H. reflexivity.
  - apply Z.leb_gt in H as H'. rewrite H'.
    destruct (GridHierarchy.m_pgrids gh !! Z.to_nat ilevel) as [g|] eqn:Hg.
    + exists g. split; [reflexivity|]. f_equal.
      unfold GridHierarchy.grid. apply vec_at_lookup; assumption.
    + apply lookup_ge_None in Hg. lia.
Qed.

Lemma get_grid_bounds_checked_witness :
  let gh := GridHierarchy.add_patch (GridHierarchy.new 0) 0 0 0 2 2 2 in
  0 ≤ 1
  ∧ ((Z.of_nat (length (GridHierarchy.m_pgrids gh)) ≤ 1 →
        GridHierarchy.get_grid gh 1
        = Throw (runtime_error "Fatal: attempt to access non-existent grid"))
     ∧ (1 < Z.of_nat (length (GridHierarchy.m_pgrids gh)) →
        ∃ g, GridHierarchy.m_pgrids gh !! Z.to_nat 1 = Some g
             ∧ GridHierarchy.get_grid gh 1 = Ok g)).
Proof.
  intros gh. split; [lia|].
  apply (get_grid_bounds_checked gh 1). lia.
Defined.

(** ** C4: [create_base_hierarchy] *)

Lemma MeshvarBnd_size_new nb nx ny nz xo yo zo d :
  MeshvarBnd.size (MeshvarBnd.new nb nx ny nz xo yo zo) d
  = to_size_t (if d =? 0 then nx else if d =? 1 then ny else nz).
Proof.
  unfold MeshvarBnd.size, MeshvarBnd.new. cbn [MeshvarBnd.m_nx MeshvarBnd.m_ny
    MeshvarBnd.m_nz MeshvarBnd.m_nbnd].
  destruct (d =? 0); [|destruct (d =? 1)]; apply size_t_add_sub.
Qed.

Lemma MeshvarBnd_size_zero g d : MeshvarBnd.size (MeshvarBnd.zero g) d = MeshvarBnd.size g d.
Proof. reflexivity. Qed.

Lemma MeshvarBnd_offset_new nb nx ny nz xo yo zo d :
  MeshvarBnd.offset (MeshvarBnd.new nb nx ny nz xo yo zo) d
  = to_int (if d =? 0 then xo else if d =? 1 then yo else zo).
Proof.
  unfold MeshvarBnd.offset, MeshvarBnd.new. cbn [MeshvarBnd.m_offx MeshvarBnd.m_offy
    MeshvarBnd.m_offz].
  destruct (d =? 0); [|destruct (d =? 1)]; apply to_int_to_size_t.
Qed.

(** the grid that [create_base_hierarchy] stores for level [i] *)
Definition base_grid (nbnd i : Z) : MeshvarBnd.t :=
  let n := to_size_t (2 ^ i) in
  MeshvarBnd.zero (MeshvarBnd.new nbnd n n n 0 0 0).

Lemma size_t_double i : 0 ≤ i → to_size_t (to_size_t (2 ^ i) * 2) = to_size_t (2 ^ (i + 1)).
Proof.
  intros Hi. unfold to_size_t, wrap_unsigned.
  rewrite Zmult_mod_idemp_l. f_equal. rewrite Z.pow_add_r by lia. lia.
Qed.

Lemma create_base_levels nbnd b (k : nat) :
  for_range 0 (Z.of_nat k) (fun i '(gh, n) =>
      let gh := GridHierarchy.with_pgrids gh
                  (GridHierarchy.m_pgrids gh
                     ++ [MeshvarBnd.new (GridHierarchy.m_nbnd gh) n n n 0 0 0]) in
      let gh := GridHierarchy.upd_grid gh i MeshvarBnd.zero in
      let n := to_size_t (n * 2) in
      let gh := GridHierarchy.with_offabs gh (GridHierarchy.m_xoffabs gh ++ [0])
                  (GridHierarchy.m_yoffabs gh ++ [0]) (GridHierarchy.m_zoffabs gh ++ [0]) in
      (gh, n))
    (GridHierarchy.mk nbnd 0 [] [] [] [] [] b, 1)
  = (GridHierarchy.mk nbnd 0 (base_grid nbnd <$> seqZ 0 (Z.of_nat k))
       (replicate k 0) (replicate k 0) (replicate k 0) [] b,
     to_size_t (2 ^ Z.of_nat k)).
Proof.
  induction k as [|k IH].
  - reflexivity.
  - rewrite for_range_S, IH. clear IH.
    rewrite seqZ_S, fmap_app. cbn [fmap list_fmap].
    unfold GridHierarchy.upd_grid, GridHierarchy.grid, GridHierarchy.with_pgrids,
      GridHierarchy.with_offabs.
    cbn [GridHierarchy.m_pgrids GridHierarchy.m_nbnd GridHierarchy.m_levelmin
         GridHierarchy.m_xoffabs GridHierarchy.m_yoffabs GridHierarchy.m_zoffabs
         GridHierarchy.m_ref_masks GridHierarchy.bhave_refmask].
    assert (Z.of_nat (length (base_grid nbnd <$> seqZ 0 (Z.of_nat k))) = 0 + Z.of_nat k)
      as Hlen by (rewrite length_fmap, length_seqZ; lia).
    rewrite <- Hlen, vec_at_app_last, vec_set_app_last.
    rewrite Hlen, size_t_double by lia.
    rewrite <- !replicate_S_end.
    replace (Z.of_nat k + 1) with (Z.of_nat (S k)) by lia.
    reflexivity.
Qed.

Lemma create_base_masks_frame (k : nat) lmax gh :
  let gh' :=
    for_range 0 (Z.of_nat k) (fun i gh =>
      GridHierarchy.with_ref_masks gh
        (GridHierarchy.m_ref_masks gh ++
           [refinement_mask.new (GridHierarchy.size gh i 0) (GridHierarchy.size gh i 1)
              (GridHierarchy.size gh i 2) (if i =? lmax then 0 else 1)])) gh in
  GridHierarchy.m_pgrids gh' = GridHierarchy.m_pgrids gh
  ∧ GridHierarchy.m_levelmin gh' = GridHierarchy.m_levelmin gh.
Proof.
  induction k as [|k IH]; [split; reflexivity|].
  cbn zeta in *. rewrite for_range_S. exact IH.
Qed.

Lemma create_base_hierarchy_grids gh lmax :
  0 ≤ lmax →
  GridHierarchy.m_pgrids (GridHierarchy.create_base_hierarchy gh lmax)
  = (base_grid (GridHierarchy.m_nbnd gh) <$> seqZ 0 (lmax + 1))
  ∧ GridHierarchy.levelmin (GridHierarchy.create_base_hierarchy gh lmax) = lmax.
Proof.
  intros Hl. unfold GridHierarchy.create_base_hierarchy, GridHierarchy.deallocate.
  unfold GridHierarchy.levelmin.
  change (GridHierarchy.with_offabs (GridHierarchy.with_pgrids ?g []) [] [] [])
    with (GridHierarchy.mk (GridHierarchy.m_nbnd gh) 0 [] [] [] [] []
            (GridHierarchy.bhave_refmask gh)).
  replace (lmax + 1) with (Z.of_nat (Z.to_nat (lmax + 1))) by lia.
  rewrite create_base_levels.
  match goal with
  | |- context [for_range 0 _ ?body ?g] =>
      pose proof (create_base_masks_frame (Z.to_nat (lmax + 1)) lmax g) as [Hg Hm]
  end.
  rewrite Hg, Hm. split; reflexivity.
Qed.

(** C4. After [create_base_hierarchy(lmax)], [levelmin()] is [lmax] and
    [get_grid(i)->size(d)] is [2^i] for every level [0 <= i <= lmax] and
    every dimension; [lmax < 64] keeps [2^i] inside [size_t]. *)
Theorem create_base_hierarchy_extents (gh : GridHierarchy.t) (lmax : Z) :
  0 ≤ lmax < 64 →
  GridHierarchy.levelmin (GridHierarchy.create_base_hierarchy gh lmax) = lmax
  ∧ ∀ i d, 0 ≤ i ≤ lmax →
      ∃ g, GridHierarchy.get_grid (GridHierarchy.create_base_hierarchy gh lmax) i = Ok g
           ∧ MeshvarBnd.size g d = 2 ^ i.
Proof.
  intros Hl. destruct (create_base_hierarchy_grids gh lmax) as [Hg Hm]; [lia|].
  split; [exact Hm|]. intros i d Hi.
  exists (base_grid (GridHierarchy.m_nbnd gh) i). split.
  - unfold GridHierarchy.get_grid, GridHierarchy.grid. rewrite Hg.
    rewrite length_fmap, length_seqZ.
    assert ((Z.of_nat (Z.to_nat (lmax + 1)) <=? i) = false) as -> by (apply Z.leb_gt; lia).
    f_equal. apply vec_at_lookup; [lia|].
    rewrite list_lookup_fmap, lookup_seqZ_lt by lia.
    cbn. do 2 f_equal. lia.
  - unfold base_grid. rewrite MeshvarBnd_size_zero, MeshvarBnd_size_new.
    assert (0 < 2 ^ i) by (apply Z.pow_pos_nonneg; lia).
    assert (2 ^ i < 2 ^ 64) by (apply Z.pow_lt_mono_r; lia).
    rewrite (to_size_t_small (2 ^ i)) by lia.
    destruct (d =? 0); [|destruct (d =? 1)]; apply to_size_t_small; lia.
Qed.

Lemma create_base_hierarchy_extents_witness :
  0 ≤ 3 < 64
  ∧ (GridHierarchy.levelmin (GridHierarchy.create_base_hierarchy (GridHierarchy.new 4) 3) = 3
     ∧ ∀ i d, 0 ≤ i ≤ 3 →
         ∃ g, GridHierarchy.get_grid
                (GridHierarchy.create_base_hierarchy (GridHierarchy.new 4) 3) i = Ok g
              ∧ MeshvarBnd.size g d = 2 ^ i).
Proof.
  split; [lia|]. apply (create_base_hierarchy_extents (GridHierarchy.new 4) 3). lia.
Defined.

(** ** C5: [add_patch] *)

Definition pick (d x y z : Z) : Z := if d =? 0 then x else if d =? 1 then y else z.

Lemma add_patch_fields gh xoff yoff zoff nx ny nz :
  let gh' := GridHierarchy.add_patch gh xoff yoff zoff nx ny nz in
  let push abs off :=
    abs ++ [to_int (to_unsigned (2 * to_unsigned (to_unsigned (vec_back 0 abs) + off)))] in
  GridHierarchy.m_pgrids gh'
  = GridHierarchy.m_pgrids gh
      ++ [MeshvarBnd.zero (MeshvarBnd.new (GridHierarchy.m_nbnd gh) nx ny nz xoff yoff zoff)]
  ∧ GridHierarchy.m_xoffabs gh' = push (GridHierarchy.m_xoffabs gh) xoff
  ∧ GridHierarchy.m_yoffabs gh' = push (GridHierarchy.m_yoffabs gh) yoff
  ∧ GridHierarchy.m_zoffabs gh' = push (GridHierarchy.m_zoffabs gh) zoff
  ∧ GridHierarchy.m_levelmin gh' = GridHierarchy.m_levelmin gh
  ∧ GridHierarchy.m_nbnd gh' = GridHierarchy.m_nbnd gh.
Proof.
  cbn zeta. unfold GridHierarchy.add_patch, GridHierarchy.upd_grid, GridHierarchy.grid.
  cbn [GridHierarchy.with_ref_masks GridHierarchy.with_offabs GridHierarchy.with_pgrids
       GridHierarchy.m_pgrids GridHierarchy.m_nbnd GridHierarchy.m_levelmin
       GridHierarchy.m_xoffabs GridHierarchy.m_yoffabs GridHierarchy.m_zoffabs
       GridHierarchy.m_ref_masks GridHierarchy.bhave_refmask].
  rewrite length_app. cbn [length].
  replace (Z.of_nat (length (GridHierarchy.m_pgrids gh) + 1) - 1)
    with (Z.of_nat (length (GridHierarchy.m_pgrids gh))) by lia.
  rewrite vec_at_app_last, vec_set_app_last. repeat split; reflexivity.
Qed.

Lemma vec_back_at {A} (d : A) (v : list A) :
  v ≠ [] → vec_back d v = vec_at d v (Z.of_nat (length v) - 1).
Proof.
  intros Hv. unfold vec_back, vec_at.
  assert (0 < length v)%nat by (destruct v; [congruence | simpl; lia]).
  assert (in_vec v (Z.of_nat (length v) - 1) = true) as -> by (apply in_vec_true; lia).
  rewrite last_lookup. do 2 f_equal. lia.
Qed.

Lemma doubled_offset_exact a off :
  - 2 ^ 31 ≤ 2 * (a + off) < 2 ^ 31 →
  to_int (to_unsigned (2 * to_unsigned (to_unsigned a + off))) = 2 * (a + off).
Proof.
  intros H. rewrite to_int_to_unsigned, to_unsigned_add_inner.
  rewrite <- (to_int_small (2 * (a + off))) by lia.
  rewrite <- (to_int_to_unsigned (2 * to_unsigned _)), <- (to_int_to_unsigned (2 * (a + off))).
  f_equal. unfold to_unsigned, wrap_unsigned. apply Zmult_mod_idemp_r.
Qed.

Lemma add_patch_level (gh : GridHierarchy.t) (xoff yoff zoff nx ny nz : Z) :
  let L := Z.of_nat (length (GridHierarchy.m_pgrids gh)) - 1 in
  let gh' := GridHierarchy.add_patch gh xoff yoff zoff nx ny nz in
  0 ≤ L →
  length (GridHierarchy.m_xoffabs gh) = length (GridHierarchy.m_pgrids gh) →
  length (GridHierarchy.m_yoffabs gh) = length (GridHierarchy.m_pgrids gh) →
  length (GridHierarchy.m_zoffabs gh) = length (GridHierarchy.m_pgrids gh) →
  0 ≤ nx < 2 ^ 32 → 0 ≤ ny < 2 ^ 32 → 0 ≤ nz < 2 ^ 32 →
  0 ≤ xoff < 2 ^ 31 → 0 ≤ yoff < 2 ^ 31 → 0 ≤ zoff < 2 ^ 31 →
  (∀ d, - 2 ^ 31 ≤ 2 * (GridHierarchy.offset_abs gh L d + pick d xoff yoff zoff) < 2 ^ 31) →
  Z.of_nat (length (GridHierarchy.m_pgrids gh')) - 1 = L + 1
  ∧ ∃ g, GridHierarchy.get_grid gh' (L + 1) = Ok g
      ∧ ∀ d, MeshvarBnd.size g d = pick d nx ny nz
             ∧ MeshvarBnd.offset g d = pick d xoff yoff zoff
             ∧ GridHierarchy.offset_abs gh' (L + 1) d
               = 2 * (GridHierarchy.offset_abs gh L d + pick d xoff yoff zoff).
Proof.
  intros L gh' HL Hx Hy Hz Hnx Hny Hnz Hox Hoy Hoz Habs.
  destruct (add_patch_fields gh xoff yoff zoff nx ny nz)
    as (Hg & Hax & Hay & Haz & _ & _).
  fold gh' in Hg, Hax, Hay, Haz. cbn zeta in Hax, Hay, Haz.
  assert (Z.of_nat (length (GridHierarchy.m_pgrids gh)) = L + 1) as HlenL by lia.
  split; [rewrite Hg, length_app; simpl; lia|].
  exists (MeshvarBnd.zero (MeshvarBnd.new (GridHierarchy.m_nbnd gh) nx ny nz xoff yoff zoff)).
  split.
  - unfold GridHierarchy.get_grid, GridHierarchy.grid. rewrite Hg, length_app. cbn [length].
    assert ((Z.of_nat (length (GridHierarchy.m_pgrids gh) + 1) <=? L + 1) = false) as ->
      by (apply Z.leb_gt; lia).
    rewrite <- HlenL, vec_at_app_last. reflexivity.
  - intros d. rewrite MeshvarBnd_size_zero, MeshvarBnd_size_new.
    change (MeshvarBnd.offset (MeshvarBnd.zero ?g) d) with (MeshvarBnd.offset g d).
    rewrite MeshvarBnd_offset_new.
    assert (∀ abs off,
      length abs = length (GridHierarchy.m_pgrids gh) →
      - 2 ^ 31 ≤ 2 * (vec_at 0 abs L + off) < 2 ^ 31 →
      vec_at 0 (abs ++ [to_int (to_unsigned (2 * to_unsigned (to_unsigned (vec_back 0 abs) + off)))])
        (L + 1) = 2 * (vec_at 0 abs L + off)) as Hpush.
    { intros abs off Hlen Hr.
      assert (abs ≠ []) by (intros ->; simpl in Hlen; lia).
      replace (L + 1) with (Z.of_nat (length abs)) by lia.
      rewrite vec_at_app_last, vec_back_at by assumption.
      replace (Z.of_nat (length abs) - 1) with L by lia.
      apply doubled_offset_exact. exact Hr. }
    specialize (Habs d). unfold GridHierarchy.offset_abs, pick in *.
    rewrite Hax, Hay, Haz.
    destruct (d =? 0); [|destruct (d =? 1)];
      (split; [apply to_size_t_small; lia|]);
      (split; [apply to_int_small; lia|]);
      apply Hpush; assumption.
Qed.

(** C5. [add_patch(xoff, yoff, zoff, nx, ny, nz)] on a hierarchy whose
    finest level is [L] appends level [L+1] with [size(d)] equal to the
    given extents, relative offset equal to the given offsets and absolute
    offset [2 * (absolute offset of level L + given offset)] in each
    dimension [d]; in particular a patch of extent (64,64,64) at relative
    offset (10,10,10) has [size(0) = 64] and absolute offset
    [2 * (parent absolute offset) + 2 * 10]. The arguments are [unsigned];
    the offsets and the doubled sums are assumed to fit the [int] members
    that store them. *)
Theorem add_patch_geometry (gh : GridHierarchy.t) (xoff yoff zoff nx ny nz : Z) :
  let L := Z.of_nat (length (GridHierarchy.m_pgrids gh)) - 1 in
  let gh' := GridHierarchy.add_patch gh xoff yoff zoff nx ny nz in
  0 ≤ L →
  length (GridHierarchy.m_xoffabs gh) = length (GridHierarchy.m_pgrids gh) →
  length (GridHierarchy.m_yoffabs gh) = length (GridHierarchy.m_pgrids gh) →
  length (GridHierarchy.m_zoffabs gh) = length (GridHierarchy.m_pgrids gh) →
  0 ≤ nx < 2 ^ 32 → 0 ≤ ny < 2 ^ 32 → 0 ≤ nz < 2 ^ 32 →
  0 ≤ xoff < 2 ^ 31 → 0 ≤ yoff < 2 ^ 31 → 0 ≤ zoff < 2 ^ 31 →
  (∀ d, - 2 ^ 31 ≤ 2 * (GridHierarchy.offset_abs gh L d + pick d xoff yoff zoff) < 2 ^ 31) →
  (Z.of_nat (length (GridHierarchy.m_pgrids gh')) - 1 = L + 1
   ∧ ∃ g, GridHierarchy.get_grid gh' (L + 1) = Ok g
       ∧ ∀ d, MeshvarBnd.size g d = pick d nx ny nz
              ∧ MeshvarBnd.offset g d = pick d xoff yoff zoff
              ∧ GridHierarchy.offset_abs gh' (L + 1) d
                = 2 * (GridHierarchy.offset_abs gh L d + pick d xoff yoff zoff))
  ∧ ((nx, ny, nz) = (64, 64, 64) → (xoff, yoff, zoff) = (10, 10, 10) →
     ∃ g, GridHierarchy.get_grid gh' (L + 1) = Ok g
       ∧ MeshvarBnd.size g 0 = 64
       ∧ ∀ d, GridHierarchy.offset_abs gh' (L + 1) d
              = 2 * GridHierarchy.offset_abs gh L d + 2 * 10).
Proof.
  intros L gh' HL Hx Hy Hz Hnx Hny Hnz Hox Hoy Hoz Habs.
  pose proof (add_patch_level gh xoff yoff zoff nx ny nz HL Hx Hy Hz Hnx Hny Hnz
                Hox Hoy Hoz Habs) as [Hlen (g & Hg & Hd)].
  fold L gh' in Hlen, Hg, Hd.
  split; [split; [exact Hlen | exists g; split; [exact Hg | exact Hd]]|].
  intros Hn Ho. injection Hn as -> -> ->. injection Ho as -> -> ->.
  exists g. split; [exact Hg|]. split.
  - apply (Hd 0).
  - intros d. destruct (Hd d) as (_ & _ & ->). unfold pick.
    destruct (d =? 0); [|destruct (d =? 1)]; lia.
Qed.

Lemma add_patch_geometry_witness :
  let gh := GridHierarchy.create_base_hierarchy (GridHierarchy.new 0) 2 in
  let L := Z.of_nat (length (GridHierarchy.m_pgrids gh)) - 1 in
  let gh' := GridHierarchy.add_patch gh 10 10 10 64 64 64 in
  (Z.of_nat (length (GridHierarchy.m_pgrids gh')) - 1 = L + 1
   ∧ ∃ g, GridHierarchy.get_grid gh' (L + 1) = Ok g
       ∧ ∀ d, MeshvarBnd.size g d = pick d 64 64 64
              ∧ MeshvarBnd.offset g d = pick d 10 10 10
              ∧ GridHierarchy.offset_abs gh' (L + 1) d
                = 2 * (GridHierarchy.offset_abs gh L d + pick d 10 10 10))
  ∧ ((64, 64, 64) = (64, 64, 64) → (10, 10, 10) = (10, 10, 10) →
     ∃ g, GridHierarchy.get_grid gh' (L + 1) = Ok g
       ∧ MeshvarBnd.size g 0 = 64
       ∧ ∀ d, GridHierarchy.offset_abs gh' (L + 1) d
              = 2 * GridHierarchy.offset_abs gh L d + 2 * 10).
Proof.
  intros gh L gh'.
  apply (add_patch_geometry gh 10 10 10 64 64 64); try lia.
  - vm_compute. congruence.
  - reflexivity.
  - reflexivity.
  - reflexivity.
  - intros d. unfold GridHierarchy.offset_abs, pick.
    destruct (d =? 0); [|destruct (d =? 1)]; vm_compute; split; congruence.
Defined.

(** ** Loops over cells *)

Lemma elem_of_cells nx ny nz i j k :
  (i, j, k) ∈ cells nx ny nz ↔ (0 ≤ i < nx ∧ 0 ≤ j < ny ∧ 0 ≤ k < nz).
Proof.
  unfold cells. rewrite list_elem_of_bind. split.
  - intros (i' & H & Hi). apply elem_of_seqZ in Hi.
    apply list_elem_of_bind in H as (j' & H & Hj). apply elem_of_seqZ in Hj.
    apply list_elem_of_bind in H as (k' & H & Hk). apply elem_of_seqZ in Hk.
    apply list_elem_of_singleton in H. injection H as -> -> ->. lia.
  - intros (Hi & Hj & Hk). exists i. split; [|apply elem_of_seqZ; lia].
    apply list_elem_of_bind. exists j. split; [|apply elem_of_seqZ; lia].
    apply list_elem_of_bind. exists k. split; [|apply elem_of_seqZ; lia].
    apply list_elem_of_singleton. reflexivity.
Qed.

Lemma NoDup_cells nx ny nz : NoDup (cells nx ny nz).
Proof.
  unfold cells. apply NoDup_bind; [| |apply NoDup_seqZ].
  - intros i1 i2 [[a b] c] _ _ H1 H2.
    apply list_elem_of_bind in H1 as (j1 & H1 & _).
    apply list_elem_of_bind in H1 as (k1 & H1 & _).
    apply list_elem_of_bind in H2 as (j2 & H2 & _).
    apply list_elem_of_bind in H2 as (k2 & H2 & _).
    apply list_elem_of_singleton in H1, H2. congruence.
  - intros i _. apply NoDup_bind; [| |apply NoDup_seqZ].
    + intros j1 j2 [[a b] c] _ _ H1 H2.
      apply list_elem_of_bind in H1 as (k1 & H1 & _).
      apply list_elem_of_bind in H2 as (k2 & H2 & _).
      apply list_elem_of_singleton in H1, H2. congruence.
    + intros j _. apply NoDup_bind; [| |apply NoDup_seqZ].
      * intros k1 k2 [[a b] c] _ _ H1 H2.
        apply list_elem_of_singleton in H1, H2. congruence.
      * intros k _. apply NoDup_singleton.
Qed.

Lemma length_bind_const {A B} (f : A → list B) (l : list A) (c : nat) :
  (∀ x, length (f x) = c) → length (l ≫= f) = (length l * c)%nat.
Proof.
  intros Hf. induction l as [|x l IH]; [reflexivity|].
  csimpl. rewrite length_app, Hf, IH. lia.
Qed.

Lemma length_cells nx ny nz :
  0 ≤ nx → 0 ≤ ny → 0 ≤ nz → Z.of_nat (length (cells nx ny nz)) = nx * ny * nz.
Proof.
  intros Hx Hy Hz. unfold cells.
  rewrite (length_bind_const _ _ (Z.to_nat ny * Z.to_nat nz)).
  - rewrite length_seqZ. lia.
  - intros i. rewrite (length_bind_const _ _ (Z.to_nat nz)).
    + rewrite length_seqZ. lia.
    + intros j. rewrite (length_bind_const _ _ 1%nat).
      * rewrite length_seqZ. lia.
      * reflexivity.
Qed.

(** the sum that a reduction loop over [l] accumulates *)
Definition sum_over (l : list (Z * Z * Z)) (f : Z → Z → Z → Qc) : Qc :=
  fold_left (fun s '(i, j, k) => (s + f i j k)%Qc) l 0%Qc.

(** the mean of [f] over the cells [l] *)
Definition mean_over (l : list (Z * Z * Z)) (f : Z → Z → Z → Qc) : Qc :=
  (sum_over l f / Qc_of_Z (Z.of_nat (length l)))%Qc.

Lemma fold_sum_shift (l : list (Z * Z * Z)) (f : Z → Z → Z → Qc) (s : Qc) :
  fold_left (fun s '(i, j, k) => (s + f i j k)%Qc) l s = (s + sum_over l f)%Qc.
Proof.
  unfold sum_over. revert s. induction l as [|[[i j] k] l IH]; intros s; cbn [fold_left].
  - ring.
  - rewrite IH, (IH (0 + f i j k)%Qc). ring.
Qed.

Lemma sum_over_cons i j k l f :
  sum_over ((i, j, k) :: l) f = (f i j k + sum_over l f)%Qc.
Proof.
  unfold sum_over at 1. cbn [fold_left]. rewrite fold_sum_shift. ring.
Qed.

Lemma sum_over_ext l f g :
  (∀ i j k, (i, j, k) ∈ l → f i j k = g i j k) → sum_over l f = sum_over l g.
Proof.
  induction l as [|[[i j] k] l IH]; intros H; [reflexivity|].
  rewrite !sum_over_cons, IH.
  - rewrite H; [reflexivity | apply list_elem_of_here].
  - intros. apply H. apply list_elem_of_further. assumption.
Qed.

Lemma sum_over_shift l f (c : Qc) :
  sum_over l (fun i j k => (f i j k + c)%Qc)
  = (sum_over l f + Qc_of_Z (Z.of_nat (length l)) * c)%Qc.
Proof.
  induction l as [|[[i j] k] l IH].
  - unfold sum_over. cbn [fold_left length]. change (Z.of_nat 0) with 0.
    rewrite Z2Qc_inj_0. ring.
  - rewrite !sum_over_cons, IH. cbn [length].
    rewrite Nat2Z.inj_succ, <- Z.add_1_r, Z2Qc_inj_add, Z2Qc_inj_1. ring.
Qed.

(** shifting every cell by [c] shifts the mean by [c] *)
Lemma mean_over_shift l f (c : Qc) :
  l ≠ [] → mean_over l (fun i j k => (f i j k + c)%Qc) = (mean_over l f + c)%Qc.
Proof.
  intros Hl. unfold mean_over. rewrite sum_over_shift.
  assert (Qc_of_Z (Z.of_nat (length l)) ≠ 0%Qc) as Hn.
  { rewrite <- Z2Qc_inj_0. intros H%Z2Qc_inj. destruct l; [congruence | simpl in H; lia]. }
  field. exact Hn.
Qed.

Lemma mean_over_ext l f g :
  (∀ i j k, (i, j, k) ∈ l → f i j k = g i j k) → mean_over l f = mean_over l g.
Proof. intros H. unfold mean_over. rewrite (sum_over_ext l f g H). reflexivity. Qed.

(** a reduction loop that carries a sum and a counter *)
Lemma fold_sum_count (l : list (Z * Z * Z)) (f : Z → Z → Z → Qc) (s : Qc) (c : Z) :
  0 ≤ c → c + Z.of_nat (length l) < 2 ^ 64 →
  fold_left (fun st '(i, j, k) =>
      (fun i j k '(s, c) => ((s + f i j k)%Qc, to_size_t (c + 1))) i j k st) l (s, c)
  = ((s + sum_over l f)%Qc, c + Z.of_nat (length l)).
Proof.
  revert s c. induction l as [|[[i j] k] l IH]; intros s c Hc Hlen.
  - cbn. f_equal; [ring | lia].
  - cbn [fold_left length] in *. rewrite to_size_t_small by lia.
    rewrite IH by lia. rewrite sum_over_cons. f_equal; [ring | lia].
Qed.

Lemma fold_left_preserves {S A} (P : S → Prop) (f : S → A → S) (l : list A) (s : S) :
  P s → (∀ s a, a ∈ l → P s → P (f s a)) → P (fold_left f l s).
Proof.
  revert s. induction l as [|a l IH]; intros s Hs Hf; [exact Hs|].
  cbn. apply IH.
  - apply Hf; [apply list_elem_of_here | exact Hs].
  - intros s' a' Ha'. apply Hf. apply list_elem_of_further. exact Ha'.
Qed.

(** ** Cells of a [MeshvarBnd] *)

(** The block of [g] is as large as its extents say, is addressable with
    [size_t], and the extents hold [int] indices and the ghost margin. *)
Record grid_ok (g : MeshvarBnd.t) : Prop := {
  ok_nbnd : 0 ≤ MeshvarBnd.m_nbnd g;
  ok_nx : 2 * MeshvarBnd.m_nbnd g ≤ MeshvarBnd.m_nx g < 2 ^ 31;
  ok_ny : 2 * MeshvarBnd.m_nbnd g ≤ MeshvarBnd.m_ny g < 2 ^ 31;
  ok_nz : 2 * MeshvarBnd.m_nbnd g ≤ MeshvarBnd.m_nz g < 2 ^ 31;
  ok_addr : MeshvarBnd.m_nx g * MeshvarBnd.m_ny g * MeshvarBnd.m_nz g < 2 ^ 64;
  ok_len : Z.of_nat (length (MeshvarBnd.m_pdata g))
           = MeshvarBnd.m_nx g * MeshvarBnd.m_ny g * MeshvarBnd.m_nz g
}.

(** [(i, j, k)] addresses a cell of the block, ghost margin included *)
Definition in_block (g : MeshvarBnd.t) (i j k : Z) : Prop :=
  - MeshvarBnd.m_nbnd g ≤ i < MeshvarBnd.m_nx g - MeshvarBnd.m_nbnd g
  ∧ - MeshvarBnd.m_nbnd g ≤ j < MeshvarBnd.m_ny g - MeshvarBnd.m_nbnd g
  ∧ - MeshvarBnd.m_nbnd g ≤ k < MeshvarBnd.m_nz g - MeshvarBnd.m_nbnd g.

(** two grids of the same shape: extents, offsets and margin *)
Definition same_shape (g g' : MeshvarBnd.t) : Prop :=
  MeshvarBnd.with_data g [] = MeshvarBnd.with_data g' []
  ∧ length (MeshvarBnd.m_pdata g) = length (MeshvarBnd.m_pdata g').

Lemma same_shape_refl g : same_shape g g.
Proof. split; reflexivity. Qed.

Lemma same_shape_trans g1 g2 g3 : same_shape g1 g2 → same_shape g2 g3 → same_shape g1 g3.
Proof. intros [H1 H2] [H3 H4]. split; congruence. Qed.

Lemma same_shape_fields g g' :
  same_shape g g' →
  MeshvarBnd.m_nx g = MeshvarBnd.m_nx g' ∧ MeshvarBnd.m_ny g = MeshvarBnd.m_ny g'
  ∧ MeshvarBnd.m_nz g = MeshvarBnd.m_nz g' ∧ MeshvarBnd.m_nbnd g = MeshvarBnd.m_nbnd g'
  ∧ MeshvarBnd.m_offx g = MeshvarBnd.m_offx g' ∧ MeshvarBnd.m_offy g = MeshvarBnd.m_offy g'
  ∧ MeshvarBnd.m_offz g = MeshvarBnd.m_offz g'.
Proof.
  intros [H _]. unfold MeshvarBnd.with_data in H. injection H. intros. repeat split; assumption.
Qed.

Lemma same_shape_set g i j k v : same_shape g (MeshvarBnd.set g i j k v).
Proof.
  split; [reflexivity|]. unfold MeshvarBnd.set, MeshvarBnd.with_data.
  cbn [MeshvarBnd.m_pdata]. rewrite length_vec_set. reflexivity.
Qed.

Lemma same_shape_ok g g' : same_shape g g' → grid_ok g → grid_ok g'.
Proof.
  intros Hs [? ? ? ? ? ?]. pose proof (same_shape_fields _ _ Hs) as (? & ? & ? & ? & _).
  destruct Hs as [_ Hl]. split; try lia.
Qed.

Lemma same_shape_in_block g g' i j k : same_shape g g' → in_block g i j k → in_block g' i j k.
Proof.
  intros Hs. pose proof (same_shape_fields _ _ Hs) as (? & ? & ? & ? & _).
  unfold in_block. lia.
Qed.

Lemma same_shape_size g g' d : same_shape g g' → MeshvarBnd.size g d = MeshvarBnd.size g' d.
Proof.
  intros Hs. pose proof (same_shape_fields _ _ Hs) as (Hx & Hy & Hz & Hb & _).
  unfold MeshvarBnd.size. rewrite Hx, Hy, Hz, Hb. reflexivity.
Qed.

Lemma same_shape_offset g g' d :
  same_shape g g' → MeshvarBnd.offset g d = MeshvarBnd.offset g' d.
Proof.
  intros Hs. pose proof (same_shape_fields _ _ Hs) as (_ & _ & _ & _ & Hx & Hy & Hz).
  unfold MeshvarBnd.offset. rewrite Hx, Hy, Hz. reflexivity.
Qed.

Lemma index_in_block g i j k :
  grid_ok g → in_block g i j k →
  MeshvarBnd.index g i j k
  = ((i + MeshvarBnd.m_nbnd g) * MeshvarBnd.m_ny g + (j + MeshvarBnd.m_nbnd g))
    * MeshvarBnd.m_nz g + (k + MeshvarBnd.m_nbnd g)
  ∧ 0 ≤ MeshvarBnd.index g i j k < Z.of_nat (length (MeshvarBnd.m_pdata g)).
Proof.
  intros [Hb Hx Hy Hz Ha Hl] (Hi & Hj & Hk).
  unfold MeshvarBnd.index. rewrite Hl.
  set (nb := MeshvarBnd.m_nbnd g) in *. set (nx := MeshvarBnd.m_nx g) in *.
  set (ny := MeshvarBnd.m_ny g) in *. set (nz := MeshvarBnd.m_nz g) in *.
  rewrite (to_int_small i), (to_int_small j), (to_int_small k) by lia.
  rewrite (to_int_small (i + nb)), (to_int_small (j + nb)), (to_int_small (k + nb)) by lia.
  rewrite (to_size_t_small (i + nb)), (to_size_t_small (j + nb)),
    (to_size_t_small (k + nb)) by lia.
  assert (0 ≤ (i + nb) * ny + (j + nb) ≤ nx * ny - 1) as Hrow by nia.
  assert (0 ≤ ((i + nb) * ny + (j + nb)) * nz + (k + nb) ≤ nx * ny * nz - 1) as Hcell by nia.
  rewrite to_size_t_small by lia. split; [reflexivity | lia].
Qed.

Lemma index_inj g i j k i' j' k' :
  grid_ok g → in_block g i j k → in_block g i' j' k' →
  MeshvarBnd.index g i j k = MeshvarBnd.index g i' j' k' → (i, j, k) = (i', j', k').
Proof.
  intros Hok Hc Hc' Heq.
  destruct (index_in_block g i j k Hok Hc) as [E _].
  destruct (index_in_block g i' j' k' Hok Hc') as [E' _].
  rewrite E, E' in Heq. clear E E'.
  destruct Hok as [Hb Hx Hy Hz _ _]. destruct Hc as (Hi & Hj & Hk).
  destruct Hc' as (Hi' & Hj' & Hk').
  set (nb := MeshvarBnd.m_nbnd g) in *. set (ny := MeshvarBnd.m_ny g) in *.
  set (nz := MeshvarBnd.m_nz g) in *.
  assert (k = k' ∧ (i + nb) * ny + (j + nb) = (i' + nb) * ny + (j' + nb)) as [-> Hrow].
  { assert ((i + nb) * ny + (j + nb) = (i' + nb) * ny + (j' + nb)) by nia. split; nia. }
  assert (j = j' ∧ i = i') as [-> ->] by (assert (i = i') by nia; split; nia).
  reflexivity.
Qed.

Lemma get_set_eq g i j k v :
  grid_ok g → in_block g i j k → MeshvarBnd.get (MeshvarBnd.set g i j k v) i j k = v.
Proof.
  intros Hok Hc. destruct (index_in_block g i j k Hok Hc) as [_ Hr].
  unfold MeshvarBnd.get, MeshvarBnd.set.
  change (MeshvarBnd.index (MeshvarBnd.with_data g ?d) i j k) with (MeshvarBnd.index g i j k).
  cbn [MeshvarBnd.m_pdata MeshvarBnd.with_data]. apply vec_at_set_eq. exact Hr.
Qed.

Lemma get_set_ne g i j k i' j' k' v :
  grid_ok g → in_block g i j k → in_block g i' j' k' → (i, j, k) ≠ (i', j', k') →
  MeshvarBnd.get (MeshvarBnd.set g i j k v) i' j' k' = MeshvarBnd.get g i' j' k'.
Proof.
  intros Hok Hc Hc' Hne. unfold MeshvarBnd.get, MeshvarBnd.set.
  change (MeshvarBnd.index (MeshvarBnd.with_data g ?d) i' j' k')
    with (MeshvarBnd.index g i' j' k').
  cbn [MeshvarBnd.m_pdata MeshvarBnd.with_data]. apply vec_at_set_ne.
  intros Heq. apply Hne. eapply index_inj; eassumption.
Qed.

(** A loop that rewrites the cells [l] of one grid, each from its own old
    value: the cells of [l] hold the new value, every other cell of the
    block is untouched, the shape stays. *)
Section cell_update_loop.

Variable F : Z → Z → Z → Qc → Qc.

Definition update_cells (l : list (Z * Z * Z)) (g : MeshvarBnd.t) : MeshvarBnd.t :=
  fold_left (fun g '(i, j, k) => MeshvarBnd.set g i j k (F i j k (MeshvarBnd.get g i j k)))
    l g.

Lemma update_cells_shape l g : same_shape g (update_cells l g).
Proof.
  unfold update_cells. apply fold_left_preserves; [apply same_shape_refl|].
  intros g' [[i j] k] _ Hs. eapply same_shape_trans; [exact Hs | apply same_shape_set].
Qed.

Lemma update_cells_outside l g i j k :
  grid_ok g → (∀ a b c, (a, b, c) ∈ l → in_block g a b c) → in_block g i j k →
  (i, j, k) ∉ l →
  MeshvarBnd.get (update_cells l g) i j k = MeshvarBnd.get g i j k.
Proof.
  revert g. induction l as [|[[a b] c] l IH]; intros g Hok Hl Hc Hnot; [reflexivity|].
  unfold update_cells. cbn [fold_left]. fold (update_cells l).
  pose proof (same_shape_set g a b c (F a b c (MeshvarBnd.get g a b c))) as Hs.
  rewrite IH.
  - apply get_set_ne; [assumption | | assumption |].
    + apply Hl. apply list_elem_of_here.
    + intros Heq. apply Hnot. rewrite Heq. apply list_elem_of_here.
  - eapply same_shape_ok; eassumption.
  - intros a' b' c' H'. eapply same_shape_in_block; [exact Hs|].
    apply Hl. apply list_elem_of_further. exact H'.
  - eapply same_shape_in_block; eassumption.
  - intros H'. apply Hnot. apply list_elem_of_further. exact H'.
Qed.

Lemma update_cells_inside l g i j k :
  grid_ok g → (∀ a b c, (a, b, c) ∈ l → in_block g a b c) → NoDup l →
  (i, j, k) ∈ l →
  MeshvarBnd.get (update_cells l g) i j k = F i j k (MeshvarBnd.get g i j k).
Proof.
  revert g. induction l as [|[[a b] c] l IH]; intros g Hok Hl Hnd Hin.
  - apply elem_of_nil in Hin. contradiction.
  - unfold update_cells. cbn [fold_left]. fold (update_cells l).
    pose proof (same_shape_set g a b c (F a b c (MeshvarBnd.get g a b c))) as Hs.
    apply NoDup_cons in Hnd as [Hnot Hnd].
    assert (in_block g a b c) as Habc by (apply Hl; apply list_elem_of_here).
    assert (∀ a' b' c', (a', b', c') ∈ l →
              in_block (MeshvarBnd.set g a b c (F a b c (MeshvarBnd.get g a b c))) a' b' c')
      as Hl'.
    { intros a' b' c' H'. eapply same_shape_in_block; [exact Hs|].
      apply Hl. apply list_elem_of_further. exact H'. }
    apply elem_of_cons in Hin as [Heq | Hin].
    + injection Heq as -> -> ->.
      rewrite update_cells_outside.
      * apply get_set_eq; assumption.
      * eapply same_shape_ok; eassumption.
      * exact Hl'.
      * eapply same_shape_in_block; eassumption.
      * exact Hnot.
    + rewrite IH; [| eapply same_shape_ok; eassumption | exact Hl' | exact Hnd | exact Hin].
      f_equal. apply get_set_ne; [assumption | assumption | |].
      * apply Hl. apply list_elem_of_further. exact Hin.
      * intros Heq. apply Hnot. rewrite Heq. exact Hin.
Qed.

End cell_update_loop.

(** ** Levels of a [GridHierarchy] *)

Lemma vec_set_at_same {A} (d : A) v i : vec_set v i (vec_at d v i) = v.
Proof.
  unfold vec_set, vec_at. destruct (in_vec v i) eqn:Hi; [|reflexivity].
  apply in_vec_true in Hi.
  destruct (v !! Z.to_nat i) as [x|] eqn:Hx.
  - apply list_insert_id. exact Hx.
  - apply lookup_ge_None in Hx. lia.
Qed.

Lemma vec_set_set {A} (v : list A) i x y : vec_set (vec_set v i x) i y = vec_set v i y.
Proof.
  unfold vec_set at 1 3. unfold in_vec. rewrite length_vec_set. fold (in_vec v i).
  destruct (in_vec v i) eqn:Hi; [|unfold vec_set; rewrite Hi; reflexivity].
  unfold vec_set. rewrite Hi. apply list_insert_insert_eq.
Qed.

Lemma vec_at_out {A} (d : A) v i : ¬ (0 ≤ i < Z.of_nat (length v)) → vec_at d v i = d.
Proof.
  intros Hi. unfold vec_at. destruct (in_vec v i) eqn:E; [|reflexivity].
  apply in_vec_true in E. contradiction.
Qed.

Lemma upd_grid_id gh l : GridHierarchy.upd_grid gh l (fun g => g) = gh.
Proof.
  unfold GridHierarchy.upd_grid, GridHierarchy.grid. rewrite vec_set_at_same.
  destruct gh. reflexivity.
Qed.

Lemma upd_grid_compose gh l f f' :
  GridHierarchy.upd_grid (GridHierarchy.upd_grid gh l f) l f'
  = GridHierarchy.upd_grid gh l (fun g => f' (f g)).
Proof.
  unfold GridHierarchy.upd_grid, GridHierarchy.grid, GridHierarchy.with_pgrids.
  cbn [GridHierarchy.m_pgrids GridHierarchy.m_nbnd GridHierarchy.m_levelmin
       GridHierarchy.m_xoffabs GridHierarchy.m_yoffabs GridHierarchy.m_zoffabs
       GridHierarchy.m_ref_masks GridHierarchy.bhave_refmask].
  rewrite vec_set_set. f_equal.
  destruct (decide (0 ≤ l < Z.of_nat (length (GridHierarchy.m_pgrids gh)))) as [Hl|Hl].
  - rewrite vec_at_set_eq by exact Hl. reflexivity.
  - unfold vec_set. destruct (in_vec _ l) eqn:E; [|reflexivity].
    apply in_vec_true in E. contradiction.
Qed.

(** a loop whose every iteration changes the grid of one and the same
    level is a loop on that grid *)
Lemma upd_grid_fold {A} (U : A → MeshvarBnd.t → MeshvarBnd.t) l (cs : list A) gh :
  fold_left (fun gh c => GridHierarchy.upd_grid gh l (U c)) cs gh
  = GridHierarchy.upd_grid gh l (fun g => fold_left (fun g c => U c g) cs g).
Proof.
  revert gh. induction cs as [|c cs IH]; intros gh; cbn [fold_left].
  - symmetry. apply upd_grid_id.
  - rewrite IH, upd_grid_compose. reflexivity.
Qed.

Lemma grid_upd_grid_eq gh l f :
  0 ≤ l < Z.of_nat (length (GridHierarchy.m_pgrids gh)) →
  GridHierarchy.grid (GridHierarchy.upd_grid gh l f) l = f (GridHierarchy.grid gh l).
Proof. intros Hl. unfold GridHierarchy.upd_grid, GridHierarchy.grid at 1. cbn. apply vec_at_set_eq. exact Hl. Qed.

Lemma grid_upd_grid_ne gh l l' f :
  l ≠ l' → GridHierarchy.grid (GridHierarchy.upd_grid gh l f) l' = GridHierarchy.grid gh l'.
Proof. intros Hl. unfold GridHierarchy.upd_grid, GridHierarchy.grid at 1. cbn. apply vec_at_set_ne. exact Hl. Qed.

Lemma find_new_levelmin_levelmin gh :
  ∃ lm, GridHierarchy.find_new_levelmin gh = GridHierarchy.with_levelmin gh lm.
Proof.
  unfold GridHierarchy.find_new_levelmin, for_range.
  generalize (seqZ 0 (GridHierarchy.levelmax gh + 1)). intros l.
  apply (fold_left_preserves (fun s => ∃ lm, s = GridHierarchy.with_levelmin gh lm)).
  - exists (GridHierarchy.m_levelmin gh). destruct gh. reflexivity.
  - intros s i _ [lm ->].
    destruct (_ && _); [exists i | exists lm]; reflexivity.
Qed.

Lemma grid_find_new_levelmin gh l :
  GridHierarchy.grid (GridHierarchy.find_new_levelmin gh) l = GridHierarchy.grid gh l.
Proof. destruct (find_new_levelmin_levelmin gh) as [lm ->]. reflexivity. Qed.

(** ** [cut_patch]: the stages of the source *)

(** [dx], [dy], [dz] *)
Definition cut_delta (abs : list Z) (ilevel off : Z) : Z :=
  to_unsigned (off - to_unsigned (vec_at 0 abs ilevel)).

(** the assertion of [cut_patch] *)
Definition cut_assertion (gh : GridHierarchy.t) (ilevel xoff yoff zoff : Z) : bool :=
  (cut_delta (GridHierarchy.m_xoffabs gh) ilevel xoff mod 2 =? 0)
  && (cut_delta (GridHierarchy.m_yoffabs gh) ilevel yoff mod 2 =? 0)
  && (cut_delta (GridHierarchy.m_zoffabs gh) ilevel zoff mod 2 =? 0).

Lemma cut_patch_guard gh ilevel xoff yoff zoff nx ny nz e :
  (cut_assertion gh ilevel xoff yoff zoff = false →
   GridHierarchy.cut_patch gh ilevel xoff yoff zoff nx ny nz e
   = Throw (assertion_failed "dx % 2 == 0 && dy % 2 == 0 && dz % 2 == 0"))
  ∧ (cut_assertion gh ilevel xoff yoff zoff = true →
     ∃ gh', GridHierarchy.cut_patch gh ilevel xoff yoff zoff nx ny nz e = Ok gh').
Proof.
  unfold GridHierarchy.cut_patch. fold (cut_delta (GridHierarchy.m_xoffabs gh) ilevel xoff).
  fold (cut_delta (GridHierarchy.m_yoffabs gh) ilevel yoff).
  fold (cut_delta (GridHierarchy.m_zoffabs gh) ilevel zoff).
  fold (cut_assertion gh ilevel xoff yoff zoff).
  split; intros ->; cbn [negb]; [reflexivity | eexists; reflexivity].
Qed.

Lemma cut_delta_parity abs ilevel off :
  cut_delta abs ilevel off mod 2 = (off - vec_at 0 abs ilevel) mod 2.
Proof. unfold cut_delta. rewrite to_unsigned_sub_inner. apply to_unsigned_parity. Qed.

(** C9. [cut_patch] asserts that the requested absolute offset differs
    from the current one by an even amount in every dimension: one odd
    difference makes the assertion fail, and when all three are even the
    call passes the assertion and returns. *)
Theorem cut_patch_even_difference (gh : GridHierarchy.t)
    (ilevel xoff yoff zoff nx ny nz : Z) (enforce_coarse_mean : bool) :
  let difference d := pick d xoff yoff zoff - GridHierarchy.offset_abs gh ilevel d in
  ((∃ d, 0 ≤ d ≤ 2 ∧ difference d mod 2 ≠ 0) →
   GridHierarchy.cut_patch gh ilevel xoff yoff zoff nx ny nz enforce_coarse_mean
   = Throw (assertion_failed "dx % 2 == 0 && dy % 2 == 0 && dz % 2 == 0"))
  ∧ ((∀ d, 0 ≤ d ≤ 2 → difference d mod 2 = 0) →
     ∃ gh', GridHierarchy.cut_patch gh ilevel xoff yoff zoff nx ny nz enforce_coarse_mean
            = Ok gh').
Proof.
  intros difference.
  destruct (cut_patch_guard gh ilevel xoff yoff zoff nx ny nz enforce_coarse_mean)
    as [Hfail Hpass].
  assert (difference 0 = xoff - vec_at 0 (GridHierarchy.m_xoffabs gh) ilevel) as H0
    by reflexivity.
  assert (difference 1 = yoff - vec_at 0 (GridHierarchy.m_yoffabs gh) ilevel) as H1
    by reflexivity.
  assert (difference 2 = zoff - vec_at 0 (GridHierarchy.m_zoffabs gh) ilevel) as H2
    by reflexivity.
  split.
  - intros (d & Hd & Hodd). apply Hfail. unfold cut_assertion.
    rewrite !cut_delta_parity, <- H0, <- H1, <- H2.
    assert (d = 0 ∨ d = 1 ∨ d = 2) as [-> | [-> | ->]] by lia;
      apply Z.eqb_neq in Hodd; rewrite Hodd.
    + reflexivity.
    + apply andb_false_iff. left. apply andb_false_r.
    + apply andb_false_r.
  - intros Heven. apply Hpass. unfold cut_assertion.
    rewrite !cut_delta_parity, <- H0, <- H1, <- H2.
    rewrite (Heven 0), (Heven 1), (Heven 2) by lia. reflexivity.
Qed.

Lemma cut_patch_even_difference_witness :
  let gh := GridHierarchy.create_base_hierarchy (GridHierarchy.new 1) 1 in
  GridHierarchy.cut_patch gh 1 1 0 0 2 2 2 true
  = Throw (assertion_failed "dx % 2 == 0 && dy % 2 == 0 && dz % 2 == 0")
  ∧ ∃ gh', GridHierarchy.cut_patch gh 1 0 0 0 2 2 2 true = Ok gh'.
Proof.
  intros gh. split.
  - apply (cut_patch_even_difference gh 1 1 0 0 2 2 2 true).
    exists 0. split; [lia|]. vm_compute. congruence.
  - apply (cut_patch_even_difference gh 1 0 0 0 2 2 2 true).
    intros d Hd. assert (d = 0 ∨ d = 1 ∨ d = 2) as [-> | [-> | ->]] by lia; reflexivity.
Defined.
(** ** Fresh grids *)

(** the extents fit: [int] indices and a block that [size_t] addresses *)
Definition extents_fit (nbnd nx ny nz : Z) : Prop :=
  0 ≤ nbnd ∧ 0 ≤ nx ∧ 0 ≤ ny ∧ 0 ≤ nz
  ∧ nx + 2 * nbnd < 2 ^ 31 ∧ ny + 2 * nbnd < 2 ^ 31 ∧ nz + 2 * nbnd < 2 ^ 31
  ∧ (nx + 2 * nbnd) * (ny + 2 * nbnd) * (nz + 2 * nbnd) < 2 ^ 64.

Lemma new_fields nbnd nx ny nz xo yo zo :
  extents_fit nbnd nx ny nz →
  let g := MeshvarBnd.new nbnd nx ny nz xo yo zo in
  MeshvarBnd.m_nbnd g = nbnd
  ∧ MeshvarBnd.m_nx g = nx + 2 * nbnd
  ∧ MeshvarBnd.m_ny g = ny + 2 * nbnd
  ∧ MeshvarBnd.m_nz g = nz + 2 * nbnd
  ∧ grid_ok g.
Proof.
  intros (Hb & Hx & Hy & Hz & Hmx & Hmy & Hmz & Ha). cbn zeta.
  unfold MeshvarBnd.new.
  rewrite (to_int_small nbnd) by lia. rewrite (to_int_small (2 * nbnd)) by lia.
  rewrite (to_size_t_small nx), (to_size_t_small ny), (to_size_t_small nz) by lia.
  rewrite (to_size_t_small (nx + _)), (to_size_t_small (ny + _)),
    (to_size_t_small (nz + _)) by lia.
  assert (0 ≤ (nx + 2 * nbnd) * (ny + 2 * nbnd) * (nz + 2 * nbnd)) by nia.
  rewrite (to_size_t_small (_ * _ * _)) by lia.
  cbn [MeshvarBnd.m_nbnd MeshvarBnd.m_nx MeshvarBnd.m_ny MeshvarBnd.m_nz].
  repeat split; cbn [MeshvarBnd.m_nbnd MeshvarBnd.m_nx MeshvarBnd.m_ny MeshvarBnd.m_nz
                     MeshvarBnd.m_pdata]; try lia.
  rewrite length_replicate. lia.
Qed.

Lemma new_in_block nbnd nx ny nz xo yo zo i j k :
  extents_fit nbnd nx ny nz → 0 ≤ i < nx → 0 ≤ j < ny → 0 ≤ k < nz →
  in_block (MeshvarBnd.new nbnd nx ny nz xo yo zo) i j k.
Proof.
  intros Hfit Hi Hj Hk.
  destruct (new_fields nbnd nx ny nz xo yo zo Hfit) as (Hb & Hx & Hy & Hz & _).
  unfold in_block. rewrite Hb, Hx, Hy, Hz. destruct Hfit as (? & _). lia.
Qed.

(** The copy loop of [cut_patch]: every listed cell of the fresh grid
    takes its source value, which the loop adds up and counts. *)
Lemma copy_loop (v : Z → Z → Z → Qc) (l : list (Z * Z * Z)) g s c :
  grid_ok g → (∀ i j k, (i, j, k) ∈ l → in_block g i j k) →
  0 ≤ c → c + Z.of_nat (length l) < 2 ^ 64 →
  fold_left (fun st '(i, j, k) =>
      (fun i j k '(mnew, finesum, finecount) =>
         let mnew := MeshvarBnd.set mnew i j k (v i j k) in
         (mnew, (finesum + MeshvarBnd.get mnew i j k)%Qc, to_size_t (finecount + 1)))
        i j k st) l (g, s, c)
  = (update_cells (fun i j k _ => v i j k) l g, (s + sum_over l v)%Qc,
     c + Z.of_nat (length l)).
Proof.
  revert g s c. induction l as [|[[i j] k] l IH]; intros g s c Hok Hl Hc Hlen.
  - unfold update_cells, sum_over. cbn [fold_left length].
    f_equal; [f_equal; ring | lia].
  - cbn [fold_left length] in *.
    pose proof (same_shape_set g i j k (v i j k)) as Hs.
    assert (in_block g i j k) as Hijk by (apply Hl; apply list_elem_of_here).
    rewrite get_set_eq by assumption. rewrite to_size_t_small by lia.
    rewrite IH.
    + rewrite sum_over_cons. unfold update_cells at 2. cbn [fold_left].
      fold (update_cells (fun i j k (_ : Qc) => v i j k) l).
      f_equal; [f_equal; ring | lia].
    + eapply same_shape_ok; eassumption.
    + intros a b c' H'. eapply same_shape_in_block; [exact Hs|].
      apply Hl. apply list_elem_of_further. exact H'.
    + lia.
    + lia.
Qed.

(** the value that the copy loop of [cut_patch] stores in cell [(i, j, k)] *)
Definition cut_source (gh : GridHierarchy.t) (ilevel xoff yoff zoff i j k : Z) : Qc :=
  MeshvarBnd.get (GridHierarchy.grid gh ilevel)
    (to_unsigned (i + cut_delta (GridHierarchy.m_xoffabs gh) ilevel xoff))
    (to_unsigned (j + cut_delta (GridHierarchy.m_yoffabs gh) ilevel yoff))
    (to_unsigned (k + cut_delta (GridHierarchy.m_zoffabs gh) ilevel zoff)).

(** [dxtop], [dytop], [dztop] *)
Definition cut_top (d o : Z) : Z := to_unsigned (to_unsigned o + d / 2).

(** [mnew] as allocated *)
Definition cut_fresh (gh : GridHierarchy.t) (ilevel xoff yoff zoff nx ny nz : Z)
    : MeshvarBnd.t :=
  MeshvarBnd.new (GridHierarchy.m_nbnd gh) nx ny nz
    (cut_top (cut_delta (GridHierarchy.m_xoffabs gh) ilevel xoff)
       (MeshvarBnd.offset (GridHierarchy.grid gh ilevel) 0))
    (cut_top (cut_delta (GridHierarchy.m_yoffabs gh) ilevel yoff)
       (MeshvarBnd.offset (GridHierarchy.grid gh ilevel) 1))
    (cut_top (cut_delta (GridHierarchy.m_zoffabs gh) ilevel zoff)
       (MeshvarBnd.offset (GridHierarchy.grid gh ilevel) 2)).

(** [mnew] after the copy loop *)
Definition cut_filled (gh : GridHierarchy.t) (ilevel xoff yoff zoff nx ny nz : Z)
    : MeshvarBnd.t :=
  update_cells (fun i j k _ => cut_source gh ilevel xoff yoff zoff i j k)
    (cells nx ny nz) (cut_fresh gh ilevel xoff yoff zoff nx ny nz).

(** the hierarchy after "replace in hierarchy" and "update offsets" *)
Definition cut_placed (gh : GridHierarchy.t) (ilevel xoff yoff zoff : Z)
    (mnew : MeshvarBnd.t) : GridHierarchy.t :=
  let dx := cut_delta (GridHierarchy.m_xoffabs gh) ilevel xoff in
  let dy := cut_delta (GridHierarchy.m_yoffabs gh) ilevel yoff in
  let dz := cut_delta (GridHierarchy.m_zoffabs gh) ilevel zoff in
  let gh := GridHierarchy.with_pgrids gh (vec_set (GridHierarchy.m_pgrids gh) ilevel mnew) in
  let bump abs d :=
    vec_set abs ilevel (to_int (to_unsigned (to_unsigned (vec_at 0 abs ilevel) + d))) in
  let gh := GridHierarchy.with_offabs gh (bump (GridHierarchy.m_xoffabs gh) dx)
              (bump (GridHierarchy.m_yoffabs gh) dy) (bump (GridHierarchy.m_zoffabs gh) dz) in
  if ilevel <? GridHierarchy.levelmax gh then
    let shift g dim d :=
      MeshvarBnd.set_offset g dim
        (to_int (to_unsigned (to_unsigned (MeshvarBnd.offset g dim) - d))) in
    GridHierarchy.upd_grid gh (ilevel + 1) (fun g => shift (shift (shift g 0 dx) 1 dy) 2 dz)
  else gh.

(** the two means of [cut_patch] and their difference *)
Definition cut_coarse_mean (gh : GridHierarchy.t) (ilevel nx ny nz ox oy oz : Z) : Qc :=
  let coarse := GridHierarchy.coarse_reduction gh ilevel nx ny nz ox oy oz in
  (coarse.1 / Qc_of_Z coarse.2)%Qc.

(** the hierarchy after the mean correction, before [find_new_levelmin] *)
Definition cut_corrected (gh : GridHierarchy.t) (ilevel nx ny nz : Z)
    (enforce_coarse_mean : bool) (finesum : Qc) (finecount : Z) : GridHierarchy.t :=
  let ox := MeshvarBnd.offset (GridHierarchy.grid gh ilevel) 0 in
  let oy := MeshvarBnd.offset (GridHierarchy.grid gh ilevel) 1 in
  let oz := MeshvarBnd.offset (GridHierarchy.grid gh ilevel) 2 in
  let c := (cut_coarse_mean gh ilevel nx ny nz ox oy oz - finesum / Qc_of_Z finecount)%Qc in
  if enforce_coarse_mean then
    if GridHierarchy.levelmin gh <? ilevel then
      for_cells nx ny nz (fun i j k gh =>
        GridHierarchy.upd_grid gh ilevel (fun g =>
          MeshvarBnd.set g i j k (MeshvarBnd.get g i j k + c)%Qc)) gh
    else gh
  else
    if GridHierarchy.levelmin gh <? ilevel then
      for_cells (nx / 2) (ny / 2) (nz / 2) (fun i j k gh =>
        GridHierarchy.upd_grid gh (ilevel - 1) (fun g =>
          let ci := to_unsigned (i + to_unsigned ox) in
          let cj := to_unsigned (j + to_unsigned oy) in
          let ck := to_unsigned (k + to_unsigned oz) in
          MeshvarBnd.set g ci cj ck (MeshvarBnd.get g ci cj ck - c)%Qc)) gh
    else gh.

Lemma copy_loop_source (old : MeshvarBnd.t) (dx dy dz : Z) (l : list (Z * Z * Z)) g s c :
  grid_ok g → (∀ i j k, (i, j, k) ∈ l → in_block g i j k) →
  0 ≤ c → c + Z.of_nat (length l) < 2 ^ 64 →
  fold_left (fun st '(i, j, k) =>
      (fun i j k '(mnew, finesum, finecount) =>
         let mnew :=
           MeshvarBnd.set mnew i j k
             (MeshvarBnd.get old (to_unsigned (i + dx)) (to_unsigned (j + dy))
                (to_unsigned (k + dz))) in
         (mnew, (finesum + MeshvarBnd.get mnew i j k)%Qc, to_size_t (finecount + 1)))
        i j k st) l (g, s, c)
  = (update_cells (fun i j k _ =>
        MeshvarBnd.get old (to_unsigned (i + dx)) (to_unsigned (j + dy))
          (to_unsigned (k + dz))) l g,
     (s + sum_over l (fun i j k =>
        MeshvarBnd.get old (to_unsigned (i + dx)) (to_unsigned (j + dy))
          (to_unsigned (k + dz))))%Qc,
     c + Z.of_nat (length l)).
Proof.
  apply (copy_loop (fun i j k =>
           MeshvarBnd.get old (to_unsigned (i + dx)) (to_unsigned (j + dy))
             (to_unsigned (k + dz)))).
Qed.

Lemma cut_copy_loop gh ilevel xoff yoff zoff nx ny nz :
  extents_fit (GridHierarchy.m_nbnd gh) nx ny nz →
  for_cells nx ny nz (fun i j k '(mnew, finesum, finecount) =>
      let mnew :=
        MeshvarBnd.set mnew i j k
          (MeshvarBnd.get (GridHierarchy.grid gh ilevel)
             (to_unsigned (i + cut_delta (GridHierarchy.m_xoffabs gh) ilevel xoff))
             (to_unsigned (j + cut_delta (GridHierarchy.m_yoffabs gh) ilevel yoff))
             (to_unsigned (k + cut_delta (GridHierarchy.m_zoffabs gh) ilevel zoff))) in
      (mnew, (finesum + MeshvarBnd.get mnew i j k)%Qc, to_size_t (finecount + 1)))
    (cut_fresh gh ilevel xoff yoff zoff nx ny nz, 0%Qc, 0)
  = (cut_filled gh ilevel xoff yoff zoff nx ny nz,
     sum_over (cells nx ny nz) (cut_source gh ilevel xoff yoff zoff),
     nx * ny * nz).
Proof.
  intros Hfit. pose proof Hfit as (Hb & Hx & Hy & Hz & Hmx & Hmy & Hmz & Ha).
  assert (nx * ny * nz < 2 ^ 64) by nia.
  unfold for_cells. rewrite copy_loop_source.
  - rewrite length_cells by lia. rewrite Qcplus_0_l, Z.add_0_l.
    unfold cut_filled, cut_source. reflexivity.
  - apply new_fields. exact Hfit.
  - intros i j k Hc. apply elem_of_cells in Hc.
    apply new_in_block; [exact Hfit | lia..].
  - lia.
  - rewrite length_cells by lia. lia.
Qed.

Lemma cut_patch_stages gh ilevel xoff yoff zoff nx ny nz e :
  cut_assertion gh ilevel xoff yoff zoff = true →
  extents_fit (GridHierarchy.m_nbnd gh) nx ny nz →
  GridHierarchy.cut_patch gh ilevel xoff yoff zoff nx ny nz e
  = Ok (GridHierarchy.find_new_levelmin
          (cut_corrected
             (cut_placed gh ilevel xoff yoff zoff
                (cut_filled gh ilevel xoff yoff zoff nx ny nz))
             ilevel nx ny nz e
             (sum_over (cells nx ny nz) (cut_source gh ilevel xoff yoff zoff))
             (nx * ny * nz))).
Proof.
  intros Hassert Hfit.
  pose proof (cut_copy_loop gh ilevel xoff yoff zoff nx ny nz Hfit) as Hcopy.
  unfold cut_fresh, cut_top in Hcopy.
  unfold GridHierarchy.cut_patch.
  fold (cut_delta (GridHierarchy.m_xoffabs gh) ilevel xoff).
  fold (cut_delta (GridHierarchy.m_yoffabs gh) ilevel yoff).
  fold (cut_delta (GridHierarchy.m_zoffabs gh) ilevel zoff).
  fold (cut_assertion gh ilevel xoff yoff zoff). rewrite Hassert. cbn [negb].
  rewrite Hcopy. reflexivity.
Qed.

Lemma cut_placed_levelmin gh ilevel xoff yoff zoff m :
  GridHierarchy.levelmin (cut_placed gh ilevel xoff yoff zoff m) = GridHierarchy.levelmin gh.
Proof. unfold cut_placed. cbn zeta. destruct (_ <? _); reflexivity. Qed.

Lemma cut_placed_length gh ilevel xoff yoff zoff m :
  length (GridHierarchy.m_pgrids (cut_placed gh ilevel xoff yoff zoff m))
  = length (GridHierarchy.m_pgrids gh).
Proof.
  unfold cut_placed. cbn zeta. destruct (_ <? _); cbn; rewrite ?length_vec_set; reflexivity.
Qed.

Lemma cut_placed_grid_same gh ilevel xoff yoff zoff m :
  0 ≤ ilevel < Z.of_nat (length (GridHierarchy.m_pgrids gh)) →
  GridHierarchy.grid (cut_placed gh ilevel xoff yoff zoff m) ilevel = m.
Proof.
  intros Hl. unfold cut_placed. cbn zeta.
  destruct (_ <? _); [rewrite grid_upd_grid_ne by lia|];
    unfold GridHierarchy.grid; cbn; apply vec_at_set_eq; exact Hl.
Qed.

Lemma cut_placed_grid_below gh ilevel xoff yoff zoff m l :
  l < ilevel →
  GridHierarchy.grid (cut_placed gh ilevel xoff yoff zoff m) l = GridHierarchy.grid gh l.
Proof.
  intros Hl. unfold cut_placed. cbn zeta.
  destruct (_ <? _); [rewrite grid_upd_grid_ne by lia|];
    unfold GridHierarchy.grid; cbn; apply vec_at_set_ne; lia.
Qed.

(** [operator()] takes [int] indices: an [unsigned] sum with an offset
    addresses the cell of the signed sum *)
Lemma to_int_add_unsigned a b : to_int (to_unsigned (a + to_unsigned b)) = to_int (a + b).
Proof.
  rewrite to_int_to_unsigned. rewrite <- (to_int_to_unsigned (a + to_unsigned b)).
  rewrite <- (to_int_to_unsigned (a + b)). f_equal.
  unfold to_unsigned, wrap_unsigned. apply Zplus_mod_idemp_r.
Qed.

Lemma index_unsigned_sum g i j k ox oy oz :
  MeshvarBnd.index g (to_unsigned (i + to_unsigned ox)) (to_unsigned (j + to_unsigned oy))
    (to_unsigned (k + to_unsigned oz))
  = MeshvarBnd.index g (i + ox) (j + oy) (k + oz).
Proof.
  unfold MeshvarBnd.index. rewrite !to_int_add_unsigned. reflexivity.
Qed.

Lemma get_unsigned_sum g i j k ox oy oz :
  MeshvarBnd.get g (to_unsigned (i + to_unsigned ox)) (to_unsigned (j + to_unsigned oy))
    (to_unsigned (k + to_unsigned oz))
  = MeshvarBnd.get g (i + ox) (j + oy) (k + oz).
Proof. unfold MeshvarBnd.get. rewrite index_unsigned_sum. reflexivity. Qed.

Lemma set_unsigned_sum g i j k ox oy oz v :
  MeshvarBnd.set g (to_unsigned (i + to_unsigned ox)) (to_unsigned (j + to_unsigned oy))
    (to_unsigned (k + to_unsigned oz)) v
  = MeshvarBnd.set g (i + ox) (j + oy) (k + oz) v.
Proof. unfold MeshvarBnd.set. rewrite index_unsigned_sum. reflexivity. Qed.

Lemma in_block_int g i j k :
  grid_ok g → in_block g i j k →
  - 2 ^ 31 ≤ i < 2 ^ 31 ∧ - 2 ^ 31 ≤ j < 2 ^ 31 ∧ - 2 ^ 31 ≤ k < 2 ^ 31.
Proof. intros [? ? ? ? _ _] (? & ? & ?). lia. Qed.

Lemma cut_patch_passed gh ilevel xoff yoff zoff nx ny nz e gh' :
  GridHierarchy.cut_patch gh ilevel xoff yoff zoff nx ny nz e = Ok gh' →
  cut_assertion gh ilevel xoff yoff zoff = true.
Proof.
  intros Hres. destruct (cut_assertion gh ilevel xoff yoff zoff) eqn:Ha; [reflexivity|].
  destruct (cut_patch_guard gh ilevel xoff yoff zoff nx ny nz e) as [Hfail _].
  rewrite Hfail in Hres by exact Ha. discriminate.
Qed.

Lemma cut_filled_shape gh ilevel xoff yoff zoff nx ny nz :
  same_shape (cut_fresh gh ilevel xoff yoff zoff nx ny nz)
    (cut_filled gh ilevel xoff yoff zoff nx ny nz).
Proof. apply update_cells_shape. Qed.

Lemma cut_filled_cell gh ilevel xoff yoff zoff nx ny nz i j k :
  extents_fit (GridHierarchy.m_nbnd gh) nx ny nz →
  (i, j, k) ∈ cells nx ny nz →
  MeshvarBnd.get (cut_filled gh ilevel xoff yoff zoff nx ny nz) i j k
  = cut_source gh ilevel xoff yoff zoff i j k.
Proof.
  intros Hfit Hc. unfold cut_filled, cut_fresh.
  rewrite update_cells_inside; [reflexivity | | | apply NoDup_cells | exact Hc].
  - apply new_fields. exact Hfit.
  - intros a b c Habc. apply elem_of_cells in Habc. apply new_in_block; [exact Hfit | lia..].
Qed.

Lemma coarse_reduction_sum gh ilevel nx ny nz ox oy oz :
  0 ≤ nx → 0 ≤ ny → 0 ≤ nz → nx * ny * nz < 2 ^ 64 →
  cut_coarse_mean gh ilevel nx ny nz ox oy oz
  = mean_over (cells (nx / 2) (ny / 2) (nz / 2))
      (fun i j k => MeshvarBnd.get (GridHierarchy.grid gh (ilevel - 1))
                      (i + ox) (j + oy) (k + oz)).
Proof.
  intros Hx Hy Hz Ha. unfold cut_coarse_mean, GridHierarchy.coarse_reduction, for_cells.
  assert (0 ≤ nx / 2 ≤ nx ∧ 0 ≤ ny / 2 ≤ ny ∧ 0 ≤ nz / 2 ≤ nz) as (Hhx & Hhy & Hhz).
  { repeat split; try (apply Z.div_pos; lia); apply Z.div_le_upper_bound; lia. }
  assert (nx / 2 * (ny / 2) * (nz / 2) ≤ nx * ny * nz) as Hle.
  { apply Z.mul_le_mono_nonneg; [nia | | lia | lia].
    apply Z.mul_le_mono_nonneg; lia. }
  etransitivity.
  { apply (f_equal (fun p : Qc * Z => (p.1 / Qc_of_Z p.2)%Qc)).
    apply (fold_sum_count (cells (nx / 2) (ny / 2) (nz / 2))
             (fun i j k => MeshvarBnd.get (GridHierarchy.grid gh (ilevel - 1))
                             (to_unsigned (i + to_unsigned ox))
                             (to_unsigned (j + to_unsigned oy))
                             (to_unsigned (k + to_unsigned oz)))).
    - lia.
    - rewrite length_cells by lia. lia. }
  cbn [fst snd]. unfold mean_over. rewrite Qcplus_0_l, Z.add_0_l. f_equal.
  apply sum_over_ext. intros i j k _. apply get_unsigned_sum.
Qed.

(** ** C3: the mean correction of [cut_patch] *)

Lemma cells_nonempty nx ny nz : 0 < nx → 0 < ny → 0 < nz → cells nx ny nz ≠ [].
Proof.
  intros Hx Hy Hz Hnil.
  assert ((0, 0, 0) ∈ cells nx ny nz) as H by (apply elem_of_cells; lia).
  rewrite Hnil in H. apply elem_of_nil in H. exact H.
Qed.

Lemma half_extent n : 2 ≤ n → 0 < n / 2 ≤ n.
Proof.
  intros Hn. split.
  - apply Z.div_str_pos. lia.
  - apply Z.div_le_upper_bound; lia.
Qed.

Lemma for_cells_upd_grid (U : Z → Z → Z → MeshvarBnd.t → MeshvarBnd.t) l nx ny nz gh :
  for_cells nx ny nz (fun i j k gh => GridHierarchy.upd_grid gh l (U i j k)) gh
  = GridHierarchy.upd_grid gh l
      (fun g => fold_left (fun g '(i, j, k) => U i j k g) (cells nx ny nz) g).
Proof.
  unfold for_cells. generalize (cells nx ny nz). intros cs. revert gh.
  induction cs as [|[[i j] k] cs IH]; intros gh; cbn [fold_left].
  - symmetry. apply upd_grid_id.
  - rewrite IH, upd_grid_compose. reflexivity.
Qed.

(** the coarse cell under the patch cell block [(i, j, k)] *)
Definition under_patch (ox oy oz : Z) (c : Z * Z * Z) : Z * Z * Z :=
  let '(i, j, k) := c in (i + ox, j + oy, k + oz).

Global Instance under_patch_inj ox oy oz : Inj (=) (=) (under_patch ox oy oz).
Proof. intros [[i j] k] [[i' j'] k'] H. unfold under_patch in H. injection H. intros. f_equal; [f_equal|]; lia. Qed.

(** the last loop of [cut_patch] without [enforce_coarse_mean], as a
    loop over the coarse cells under the patch *)
Lemma coarse_loop_cells (c : Qc) ox oy oz (l : list (Z * Z * Z)) g :
  fold_left (fun g '(i, j, k) =>
      let ci := to_unsigned (i + to_unsigned ox) in
      let cj := to_unsigned (j + to_unsigned oy) in
      let ck := to_unsigned (k + to_unsigned oz) in
      MeshvarBnd.set g ci cj ck (MeshvarBnd.get g ci cj ck - c)%Qc) l g
  = update_cells (fun _ _ _ v => (v - c)%Qc) (under_patch ox oy oz <$> l) g.
Proof.
  revert g. induction l as [|[[i j] k] l IH]; intros g; [reflexivity|].
  cbn [fold_left fmap list_fmap]. cbn zeta.
  rewrite set_unsigned_sum, get_unsigned_sum, IH. reflexivity.
Qed.

(** C3. [cut_patch] on a level above [levelmin], in exact arithmetic.
    With [enforce_coarse_mean] every cell of the new patch is the copied
    value plus one constant, coarse mean minus fine mean, the patch mean
    is the mean of the coarse cells under the patch and the coarse level
    is unchanged. Without it the patch keeps the copied values and every
    coarse cell under the patch is lowered by that constant, so that the
    mean of these coarse cells is the patch mean. The coarse cells under
    the patch, [nx/2 * ny/2 * nz/2] of them from the patch's offset on,
    must lie in the coarse block, and no extent is below 2 (no empty
    mean). *)
Theorem cut_patch_mean_correction (gh gh' : GridHierarchy.t)
    (ilevel xoff yoff zoff nx ny nz : Z) (enforce_coarse_mean : bool) :
  let coarse := GridHierarchy.grid gh (ilevel - 1) in
  let coarse' := GridHierarchy.grid gh' (ilevel - 1) in
  let patch := GridHierarchy.grid gh' ilevel in
  let copied := cut_source gh ilevel xoff yoff zoff in
  let under (g : MeshvarBnd.t) i j k :=
    MeshvarBnd.get g (i + MeshvarBnd.offset patch 0) (j + MeshvarBnd.offset patch 1)
      (k + MeshvarBnd.offset patch 2) in
  let fine_cells := cells nx ny nz in
  let coarse_cells := cells (nx / 2) (ny / 2) (nz / 2) in
  let shift := (mean_over coarse_cells (under coarse) - mean_over fine_cells copied)%Qc in
  0 ≤ GridHierarchy.levelmin gh < ilevel →
  ilevel < Z.of_nat (length (GridHierarchy.m_pgrids gh)) →
  extents_fit (GridHierarchy.m_nbnd gh) nx ny nz →
  2 ≤ nx → 2 ≤ ny → 2 ≤ nz →
  grid_ok coarse →
  (∀ i j k, (i, j, k) ∈ coarse_cells →
     in_block coarse (i + MeshvarBnd.offset patch 0) (j + MeshvarBnd.offset patch 1)
       (k + MeshvarBnd.offset patch 2)) →
  GridHierarchy.cut_patch gh ilevel xoff yoff zoff nx ny nz enforce_coarse_mean = Ok gh' →
  if enforce_coarse_mean then
    (∀ i j k, (i, j, k) ∈ fine_cells →
       MeshvarBnd.get patch i j k = (copied i j k + shift)%Qc)
    ∧ mean_over fine_cells (MeshvarBnd.get patch) = mean_over coarse_cells (under coarse)
    ∧ coarse' = coarse
  else
    (∀ i j k, (i, j, k) ∈ fine_cells → MeshvarBnd.get patch i j k = copied i j k)
    ∧ (∀ i j k, (i, j, k) ∈ coarse_cells →
         under coarse' i j k = (under coarse i j k - shift)%Qc)
    ∧ mean_over coarse_cells (under coarse')
      = mean_over fine_cells (MeshvarBnd.get patch).
Proof.
  intros coarse coarse' patch copied under fine_cells coarse_cells shift
    Hlev Hlen Hfit Hnx Hny Hnz Hcok Hcin Hres.
  pose proof (cut_patch_passed _ _ _ _ _ _ _ _ _ _ Hres) as Hpass.
  rewrite (cut_patch_stages _ _ _ _ _ _ _ _ _ Hpass Hfit) in Hres.
  injection Hres as Hres.
  set (filled := cut_filled gh ilevel xoff yoff zoff nx ny nz) in *.
  set (placed := cut_placed gh ilevel xoff yoff zoff filled) in *.
  assert (0 ≤ ilevel < Z.of_nat (length (GridHierarchy.m_pgrids gh))) as Hil by lia.
  assert (GridHierarchy.grid placed ilevel = filled) as Hpl
    by (apply cut_placed_grid_same; exact Hil).
  assert (GridHierarchy.grid placed (ilevel - 1) = coarse) as Hpc
    by (apply cut_placed_grid_below; lia).
  assert (Z.of_nat (length (GridHierarchy.m_pgrids placed))
          = Z.of_nat (length (GridHierarchy.m_pgrids gh))) as Hplen
    by (unfold placed; rewrite cut_placed_length; reflexivity).
  pose proof Hfit as (Hb & Hx & Hy & Hz & Hmx & Hmy & Hmz & Ha).
  assert (nx * ny * nz < 2 ^ 64) as Hcount by nia.
  pose proof (half_extent nx Hnx) as Hhx. pose proof (half_extent ny Hny) as Hhy.
  pose proof (half_extent nz Hnz) as Hhz.
  assert (fine_cells ≠ []) as Hfne by (apply cells_nonempty; lia).
  assert (coarse_cells ≠ []) as Hcne by (apply cells_nonempty; lia).
  assert (grid_ok filled) as Hfok.
  { eapply same_shape_ok; [apply cut_filled_shape|]. apply new_fields. exact Hfit. }
  assert (∀ i j k, (i, j, k) ∈ fine_cells → in_block filled i j k) as Hfin.
  { intros i j k Hc. eapply same_shape_in_block; [apply cut_filled_shape|].
    apply elem_of_cells in Hc. apply new_in_block; [exact Hfit | lia..]. }
  (* the constant of the source *)
  assert ((GridHierarchy.levelmin placed <? ilevel) = true) as Hlm.
  { unfold placed. rewrite cut_placed_levelmin. apply Z.ltb_lt. lia. }
  unfold cut_corrected in Hres. rewrite Hlm, Hpl in Hres.
  rewrite (coarse_reduction_sum placed ilevel nx ny nz) in Hres by lia.
  rewrite Hpc in Hres.
  assert ((sum_over (cells nx ny nz) (cut_source gh ilevel xoff yoff zoff)
           / Qc_of_Z (nx * ny * nz))%Qc = mean_over fine_cells copied) as Hfm.
  { unfold mean_over, fine_cells. rewrite length_cells by lia. reflexivity. }
  rewrite Hfm in Hres. clear Hfm.
  destruct enforce_coarse_mean.
  - (* the patch is shifted *)
    rewrite for_cells_upd_grid in Hres.
    match type of Hres with
    | context [(MeshvarBnd.get _ _ _ _ + ?c)%Qc] => set (c0 := c) in Hres
    end.
    assert (patch = update_cells (fun _ _ _ v => (v + c0)%Qc) fine_cells filled) as Hpatch.
    { unfold patch. rewrite <- Hres, grid_find_new_levelmin, grid_upd_grid_eq by lia.
      rewrite Hpl. reflexivity. }
    assert (same_shape filled patch) as Hsh by (rewrite Hpatch; apply update_cells_shape).
    assert (c0 = shift) as Hc0.
    { unfold c0, shift, under, coarse_cells.
      rewrite !(same_shape_offset _ _ _ Hsh). reflexivity. }
    assert (∀ i j k, (i, j, k) ∈ fine_cells →
              MeshvarBnd.get patch i j k = (copied i j k + shift)%Qc) as Hcell.
    { intros i j k Hc. rewrite Hpatch.
      rewrite update_cells_inside; [| exact Hfok | exact Hfin | apply NoDup_cells | exact Hc].
      rewrite Hc0. f_equal. apply cut_filled_cell; assumption. }
    split; [exact Hcell|]. split.
    + rewrite (mean_over_ext _ _ (fun i j k => (copied i j k + shift)%Qc) Hcell).
      rewrite mean_over_shift by exact Hfne. unfold shift.
      generalize (mean_over coarse_cells (under coarse)) (mean_over fine_cells copied).
      intros a b. ring.
    + unfold coarse'. rewrite <- Hres, grid_find_new_levelmin, grid_upd_grid_ne by lia.
      exact Hpc.
  - (* the coarse cells under the patch are shifted *)
    rewrite for_cells_upd_grid in Hres.
    match type of Hres with
    | context [(MeshvarBnd.get _ _ _ _ - ?c)%Qc] => set (c0 := c) in Hres
    end.
    assert (patch = filled) as Hpatch.
    { unfold patch. rewrite <- Hres, grid_find_new_levelmin, grid_upd_grid_ne by lia.
      exact Hpl. }
    assert (c0 = shift) as Hc0.
    { unfold c0, shift, under, coarse_cells. rewrite Hpatch. reflexivity. }
    assert (coarse'
            = update_cells (fun _ _ _ v => (v - c0)%Qc)
                (under_patch (MeshvarBnd.offset patch 0) (MeshvarBnd.offset patch 1)
                   (MeshvarBnd.offset patch 2) <$> coarse_cells) coarse) as Hcoarse.
    { unfold coarse'. rewrite <- Hres, grid_find_new_levelmin, grid_upd_grid_eq by lia.
      rewrite Hpc, Hpatch. apply coarse_loop_cells. }
    assert (∀ i j k, (i, j, k) ∈ fine_cells → MeshvarBnd.get patch i j k = copied i j k)
      as Hcell.
    { intros i j k Hc. rewrite Hpatch. apply cut_filled_cell; assumption. }
    assert (∀ i j k, (i, j, k) ∈ coarse_cells →
              under coarse' i j k = (under coarse i j k - shift)%Qc) as Hunder.
    { intros i j k Hc. unfold under at 1. rewrite Hcoarse.
      rewrite update_cells_inside; [rewrite Hc0; reflexivity | exact Hcok | | |].
      - intros a b c Habc. apply list_elem_of_fmap in Habc as ([[i' j'] k'] & Heq & Hin).
        injection Heq as -> -> ->. apply Hcin. exact Hin.
      - apply NoDup_fmap; [apply _ | apply NoDup_cells].
      - apply list_elem_of_fmap. exists (i, j, k). split; [reflexivity | exact Hc]. }
    split; [exact Hcell|]. split; [exact Hunder|].
    rewrite (mean_over_ext _ _ (fun i j k => (under coarse i j k + - shift)%Qc)).
    + rewrite mean_over_shift by exact Hcne.
      rewrite (mean_over_ext _ _ copied Hcell). unfold shift.
      generalize (mean_over coarse_cells (under coarse)) (mean_over fine_cells copied).
      intros a b. ring.
    + intros i j k Hc. rewrite Hunder by exact Hc.
      generalize (under coarse i j k) shift. intros a b. ring.
Qed.

(** A patch of 2x2x2 cells of value 1 on level 2 over a coarse cell of
    value 5 on level 1, ghost margin 1. *)
Definition cut_example : GridHierarchy.t :=
  let gh := GridHierarchy.add_patch
              (GridHierarchy.create_base_hierarchy (GridHierarchy.new 1) 1) 0 0 0 2 2 2 in
  let gh := GridHierarchy.upd_grid gh 1 (fun g => MeshvarBnd.set g 0 0 0 (Qc_of_Z 5)) in
  for_cells 2 2 2 (fun i j k gh =>
    GridHierarchy.upd_grid gh 2 (fun g => MeshvarBnd.set g i j k (Qc_of_Z 1))) gh.

Definition cut_example_result (enforce_coarse_mean : bool) : GridHierarchy.t :=
  match GridHierarchy.cut_patch cut_example 2 0 0 0 2 2 2 enforce_coarse_mean with
  | Ok gh' => gh'
  | Throw _ => cut_example
  end.

Example cut_example_patch_cell :
  MeshvarBnd.get (GridHierarchy.grid (cut_example_result true) 2) 1 0 1 = Qc_of_Z 5
  ∧ MeshvarBnd.get (GridHierarchy.grid (cut_example_result true) 1) 0 0 0 = Qc_of_Z 5
  ∧ MeshvarBnd.get (GridHierarchy.grid (cut_example_result false) 2) 1 0 1 = Qc_of_Z 1
  ∧ MeshvarBnd.get (GridHierarchy.grid (cut_example_result false) 1) 0 0 0 = Qc_of_Z 1.
Proof. repeat split; apply Qc_is_canon; vm_compute; reflexivity. Qed.

Lemma cut_patch_mean_correction_witness :
  let patch := GridHierarchy.grid (cut_example_result true) 2 in
  mean_over (cells 2 2 2) (MeshvarBnd.get patch)
  = mean_over (cells 1 1 1)
      (fun i j k =>
         MeshvarBnd.get (GridHierarchy.grid cut_example 1)
           (i + MeshvarBnd.offset patch 0) (j + MeshvarBnd.offset patch 1)
           (k + MeshvarBnd.offset patch 2)).
Proof.
  intros patch.
  assert (GridHierarchy.cut_patch cut_example 2 0 0 0 2 2 2 true
          = Ok (cut_example_result true)) as Hres by (vm_compute; reflexivity).
  assert (extents_fit (GridHierarchy.m_nbnd cut_example) 2 2 2) as Hfit
    by (vm_compute; repeat split; congruence).
  assert (grid_ok (GridHierarchy.grid cut_example (2 - 1))) as Hok
    by (split; vm_compute; try split; congruence).
  assert (∀ i j k, (i, j, k) ∈ cells (2 / 2) (2 / 2) (2 / 2) →
            in_block (GridHierarchy.grid cut_example (2 - 1))
              (i + MeshvarBnd.offset (GridHierarchy.grid (cut_example_result true) 2) 0)
              (j + MeshvarBnd.offset (GridHierarchy.grid (cut_example_result true) 2) 1)
              (k + MeshvarBnd.offset (GridHierarchy.grid (cut_example_result true) 2) 2))
    as Hin.
  { intros i j k Hc. apply elem_of_cells in Hc. change (2 / 2) with 1 in Hc.
    assert (i = 0 ∧ j = 0 ∧ k = 0) as (-> & -> & ->) by lia.
    vm_compute. repeat split; congruence. }
  pose proof (cut_patch_mean_correction cut_example (cut_example_result true)
                2 0 0 0 2 2 2 true) as H.
  cbv zeta in H. specialize (H ltac:(vm_compute; split; congruence)
    ltac:(vm_compute; reflexivity) Hfit ltac:(lia) ltac:(lia) ltac:(lia) Hok Hin Hres).
  destruct H as (_ & H & _). exact H.
Defined.
(** ** C7: [normalize_density] *)

(** the logical cells of a grid, as [normalize_density] visits them *)
Definition logical_cells (g : MeshvarBnd.t) : list (Z * Z * Z) :=
  cells (to_int (MeshvarBnd.size g 0)) (MeshvarBnd.size g 1) (MeshvarBnd.size g 2).

(** what the second loop of [normalize_density] does to one level *)
Definition lowered (sum : Qc) (g : MeshvarBnd.t) : MeshvarBnd.t :=
  update_cells (fun _ _ _ v => (v - sum)%Qc) (logical_cells g) g.

Lemma size_ok g :
  grid_ok g →
  MeshvarBnd.size g 0 = MeshvarBnd.m_nx g - 2 * MeshvarBnd.m_nbnd g
  ∧ MeshvarBnd.size g 1 = MeshvarBnd.m_ny g - 2 * MeshvarBnd.m_nbnd g
  ∧ MeshvarBnd.size g 2 = MeshvarBnd.m_nz g - 2 * MeshvarBnd.m_nbnd g.
Proof.
  intros [Hb Hx Hy Hz _ _]. unfold MeshvarBnd.size.
  rewrite (to_int_small (2 * _)) by lia.
  change (0 =? 0) with true. change (1 =? 0) with false. change (1 =? 1) with true.
  change (2 =? 0) with false. change (2 =? 1) with false. cbv iota.
  rewrite !to_size_t_small by lia. repeat split.
Qed.

Lemma logical_cells_spec g i j k :
  grid_ok g →
  (i, j, k) ∈ logical_cells g
  ↔ 0 ≤ i < MeshvarBnd.size g 0 ∧ 0 ≤ j < MeshvarBnd.size g 1 ∧ 0 ≤ k < MeshvarBnd.size g 2.
Proof.
  intros Hok. unfold logical_cells. rewrite elem_of_cells.
  destruct (size_ok g Hok) as (H0 & _). destruct Hok as [Hb Hx Hy Hz _ _].
  rewrite to_int_small by lia. reflexivity.
Qed.

Lemma logical_cells_in_block g i j k :
  grid_ok g → (i, j, k) ∈ logical_cells g → in_block g i j k.
Proof.
  intros Hok Hc. apply logical_cells_spec in Hc; [|exact Hok].
  destruct (size_ok g Hok) as (H0 & H1 & H2).
  destruct Hok as [Hb Hx Hy Hz _ _]. unfold in_block. lia.
Qed.

Lemma lowered_cell sum g i j k :
  grid_ok g → (i, j, k) ∈ logical_cells g →
  MeshvarBnd.get (lowered sum g) i j k = (MeshvarBnd.get g i j k - sum)%Qc.
Proof.
  intros Hok Hc. unfold lowered.
  apply (update_cells_inside (fun _ _ _ v => (v - sum)%Qc)).
  - exact Hok.
  - intros a b c. apply logical_cells_in_block. exact Hok.
  - apply NoDup_cells.
  - exact Hc.
Qed.

Lemma get_grid_in_range gh i :
  0 ≤ i < Z.of_nat (length (GridHierarchy.m_pgrids gh)) →
  GridHierarchy.get_grid gh i = Ok (GridHierarchy.grid gh i).
Proof.
  intros Hi. unfold GridHierarchy.get_grid.
  assert ((Z.of_nat (length (GridHierarchy.m_pgrids gh)) <=? i) = false) as ->
    by (apply Z.leb_gt; lia).
  reflexivity.
Qed.

(** the level loop of [normalize_density] *)
Lemma normalize_levels (sum : Qc) (levels : list Z) (delta : GridHierarchy.t) :
  NoDup levels →
  (∀ l, l ∈ levels → 0 ≤ l < Z.of_nat (length (GridHierarchy.m_pgrids delta))) →
  ∃ delta',
    for_each_res (fun i delta =>
        g ← GridHierarchy.get_grid delta i;
        let nx := MeshvarBnd.size g 0 in
        let ny := MeshvarBnd.size g 1 in
        let nz := MeshvarBnd.size g 2 in
        Ok (for_cells (to_int nx) ny nz (fun ix iy iz delta =>
              GridHierarchy.upd_grid delta i (fun g =>
                MeshvarBnd.set g ix iy iz (MeshvarBnd.get g ix iy iz - sum)%Qc)) delta))
      levels delta = Ok delta'
    ∧ length (GridHierarchy.m_pgrids delta') = length (GridHierarchy.m_pgrids delta)
    ∧ ∀ l, GridHierarchy.grid delta' l
           = if decide (l ∈ levels) then lowered sum (GridHierarchy.grid delta l)
             else GridHierarchy.grid delta l.
Proof.
  revert delta. induction levels as [|i levels IH]; intros delta Hnd Hin.
  - exists delta. split; [reflexivity|]. split; [reflexivity|].
    intros l. destruct (decide (l ∈ [])) as [H|_]; [|reflexivity].
    apply elem_of_nil in H. contradiction.
  - apply NoDup_cons in Hnd as [Hnot Hnd].
    assert (0 ≤ i < Z.of_nat (length (GridHierarchy.m_pgrids delta))) as Hi
      by (apply Hin; apply list_elem_of_here).
    cbn [for_each_res]. rewrite get_grid_in_range by exact Hi.
    cbn [mbind res_bind]. cbn zeta.
    rewrite for_cells_upd_grid.
    set (delta1 := GridHierarchy.upd_grid delta i _).
    assert (length (GridHierarchy.m_pgrids delta1) = length (GridHierarchy.m_pgrids delta))
      as Hlen1 by (unfold delta1, GridHierarchy.upd_grid; cbn; apply length_vec_set).
    destruct (IH delta1 Hnd) as (delta' & Hrun & Hlen & Hgrid).
    { intros l Hl. rewrite Hlen1. apply Hin. apply list_elem_of_further. exact Hl. }
    exists delta'. split; [exact Hrun|]. split; [congruence|].
    intros l. rewrite Hgrid.
    destruct (decide (l = i)) as [->|Hne].
    + destruct (decide (i ∈ levels)) as [H|_]; [contradiction|].
      destruct (decide (i ∈ i :: levels)) as [_|H];
        [|exfalso; apply H; apply list_elem_of_here].
      unfold delta1. rewrite grid_upd_grid_eq by exact Hi. reflexivity.
    + assert (GridHierarchy.grid delta1 l = GridHierarchy.grid delta l) as ->
        by (unfold delta1; apply grid_upd_grid_ne; congruence).
      destruct (decide (l ∈ levels)) as [H|H].
      * destruct (decide (l ∈ i :: levels)) as [_|H'];
          [reflexivity | exfalso; apply H'; apply list_elem_of_further; exact H].
      * destruct (decide (l ∈ i :: levels)) as [H'|_]; [|reflexivity].
        apply elem_of_cons in H' as [?|?]; contradiction.
Qed.

Lemma logical_cells_count g :
  grid_ok g →
  to_size_t (MeshvarBnd.size g 0 * MeshvarBnd.size g 1 * MeshvarBnd.size g 2)
  = Z.of_nat (length (logical_cells g)).
Proof.
  intros Hok. destruct (size_ok g Hok) as (H0 & H1 & H2).
  pose proof Hok as [Hb Hx Hy Hz Ha _]. unfold logical_cells.
  rewrite to_int_small by lia. rewrite length_cells by lia.
  apply to_size_t_small. rewrite H0, H1, H2.
  assert (0 ≤ (MeshvarBnd.m_nx g - 2 * MeshvarBnd.m_nbnd g)
              * (MeshvarBnd.m_ny g - 2 * MeshvarBnd.m_nbnd g)) by nia.
  assert ((MeshvarBnd.m_nx g - 2 * MeshvarBnd.m_nbnd g)
          * (MeshvarBnd.m_ny g - 2 * MeshvarBnd.m_nbnd g)
          ≤ MeshvarBnd.m_nx g * MeshvarBnd.m_ny g) by nia.
  split; [nia|].
  assert ((MeshvarBnd.m_nx g - 2 * MeshvarBnd.m_nbnd g)
          * (MeshvarBnd.m_ny g - 2 * MeshvarBnd.m_nbnd g)
          * (MeshvarBnd.m_nz g - 2 * MeshvarBnd.m_nbnd g)
          ≤ MeshvarBnd.m_nx g * MeshvarBnd.m_ny g * MeshvarBnd.m_nz g); [|lia].
  apply Z.mul_le_mono_nonneg; lia.
Qed.

(** C7. In exact arithmetic, after [normalize_density] the mean over the
    cells of level [levelmin] is zero, and on every level from [levelmin]
    to [levelmax] every cell has been lowered by one and the same
    constant, the mean of level [levelmin] before the call. *)
Theorem normalize_density_zero_mean (delta : GridHierarchy.t) :
  let lmin := GridHierarchy.levelmin delta in
  let lmax := Z.of_nat (length (GridHierarchy.m_pgrids delta)) - 1 in
  let top := GridHierarchy.grid delta lmin in
  let mean := mean_over (logical_cells top) (MeshvarBnd.get top) in
  0 ≤ lmin ≤ lmax → lmax < 2 ^ 32 →
  (∀ l, lmin ≤ l ≤ lmax → grid_ok (GridHierarchy.grid delta l)) →
  logical_cells top ≠ [] →
  ∃ delta',
    normalize_density delta = Ok delta'
    ∧ mean_over (logical_cells top) (MeshvarBnd.get (GridHierarchy.grid delta' lmin)) = 0%Qc
    ∧ ∀ l i j k, lmin ≤ l ≤ lmax → (i, j, k) ∈ logical_cells (GridHierarchy.grid delta l) →
        MeshvarBnd.get (GridHierarchy.grid delta' l) i j k
        = (MeshvarBnd.get (GridHierarchy.grid delta l) i j k - mean)%Qc.
Proof.
  intros lmin lmax top mean Hl Hmax Hok Hne.
  assert (GridHierarchy.levelmax delta = lmax) as Hlmax.
  { unfold GridHierarchy.levelmax. fold lmax.
    rewrite (to_size_t_small lmax) by lia. apply to_unsigned_small. lia. }
  unfold normalize_density. fold lmin. rewrite Hlmax.
  rewrite get_grid_in_range by lia. fold top. cbn [mbind res_bind]. cbn zeta.
  assert (for_cells (to_int (MeshvarBnd.size top 0)) (MeshvarBnd.size top 1)
            (MeshvarBnd.size top 2)
            (fun ix iy iz sum => (sum + MeshvarBnd.get top ix iy iz)%Qc) 0%Qc
          = sum_over (logical_cells top) (MeshvarBnd.get top)) as -> by reflexivity.
  rewrite (logical_cells_count top) by (apply Hok; lia). fold (mean_over (logical_cells top) (MeshvarBnd.get top)).
  fold mean.
  destruct (normalize_levels mean (seqZ lmin (lmax - lmin + 1)) delta)
    as (delta' & Hrun & Hlen & Hgrid).
  { apply NoDup_seqZ. }
  { intros l Hin. apply elem_of_seqZ in Hin. lia. }
  exists delta'. split; [exact Hrun|].
  assert (∀ l i j k, lmin ≤ l ≤ lmax →
            (i, j, k) ∈ logical_cells (GridHierarchy.grid delta l) →
            MeshvarBnd.get (GridHierarchy.grid delta' l) i j k
            = (MeshvarBnd.get (GridHierarchy.grid delta l) i j k - mean)%Qc) as Hcells.
  { intros l i j k Hlr Hc. rewrite Hgrid.
    destruct (decide (l ∈ seqZ lmin (lmax - lmin + 1))) as [_|Hnot].
    - apply lowered_cell; [apply Hok; exact Hlr | exact Hc].
    - exfalso. apply Hnot. apply elem_of_seqZ. lia. }
  split; [|exact Hcells].
  rewrite (mean_over_ext _ _ (fun i j k => (MeshvarBnd.get top i j k + - mean)%Qc)).
  - rewrite mean_over_shift by exact Hne. fold mean. ring.
  - intros i j k Hc. rewrite (Hcells lmin i j k) by (try lia; exact Hc). fold top. ring.
Qed.

Lemma normalize_density_zero_mean_witness :
  ∃ delta',
    normalize_density cut_example = Ok delta'
    ∧ mean_over (logical_cells (GridHierarchy.grid cut_example 1))
        (MeshvarBnd.get (GridHierarchy.grid delta' 1)) = 0%Qc
    ∧ ∀ l i j k, 1 ≤ l ≤ 2 → (i, j, k) ∈ logical_cells (GridHierarchy.grid cut_example l) →
        MeshvarBnd.get (GridHierarchy.grid delta' l) i j k
        = (MeshvarBnd.get (GridHierarchy.grid cut_example l) i j k
           - mean_over (logical_cells (GridHierarchy.grid cut_example 1))
               (MeshvarBnd.get (GridHierarchy.grid cut_example 1)))%Qc.
Proof.
  apply (normalize_density_zero_mean cut_example).
  - vm_compute. split; congruence.
  - vm_compute. reflexivity.
  - intros l Hl. change (GridHierarchy.levelmin cut_example) with 1 in Hl.
    change (Z.of_nat (length (GridHierarchy.m_pgrids cut_example)) - 1) with 2 in Hl.
    assert (l = 1 ∨ l = 2) as [-> | ->] by lia;
      split; vm_compute; try split; congruence.
  - vm_compute. congruence.
Defined.

Example normalize_density_example :
  match normalize_density cut_example with
  | Ok delta' =>
      MeshvarBnd.get (GridHierarchy.grid delta' 1) 0 0 0 = (Qc_of_Z 5 - Qc_of_Z 5 / Qc_of_Z 8)%Qc
      ∧ MeshvarBnd.get (GridHierarchy.grid delta' 2) 1 1 1 = (Qc_of_Z 1 - Qc_of_Z 5 / Qc_of_Z 8)%Qc
      ∧ MeshvarBnd.get (GridHierarchy.grid delta' 0) 0 0 0 = 0%Qc
  | Throw _ => False
  end.
Proof. vm_compute. repeat split; apply Qc_is_canon; reflexivity. Qed.
(** ** C10: [operator=] and the arithmetic operators on a mismatch *)

Lemma for_each_res_app {S A} (body : A → S → res S) (l1 l2 : list A) (s : S) :
  for_each_res body (l1 ++ l2) s
  = (s' ← for_each_res body l1 s; for_each_res body l2 s').
Proof.
  revert s. induction l1 as [|a l1 IH]; intros s; [reflexivity|].
  cbn [app for_each_res]. destruct (body a s) as [s'|e]; [|reflexivity].
  cbn [mbind res_bind]. apply IH.
Qed.

(** [is_consistent] reads [this] through its grids and [m_levelmin] only *)
Lemma is_consistent_same_grids a b gh :
  GridHierarchy.m_pgrids a = GridHierarchy.m_pgrids b →
  GridHierarchy.m_levelmin a = GridHierarchy.m_levelmin b →
  GridHierarchy.is_consistent a gh = GridHierarchy.is_consistent b gh.
Proof.
  intros Hg Hl.
  unfold GridHierarchy.is_consistent, GridHierarchy.levelmax, GridHierarchy.levelmin,
    GridHierarchy.size, GridHierarchy.offset, GridHierarchy.grid.
  rewrite Hg, Hl. reflexivity.
Qed.

(** the two hierarchies differ in [levelmax], in [levelmin], or in an
    extent or a relative offset of a level from [levelmin] to [levelmax] *)
Definition geometry_mismatch (this gh : GridHierarchy.t) : Prop :=
  GridHierarchy.levelmax gh ≠ GridHierarchy.levelmax this
  ∨ GridHierarchy.levelmin gh ≠ GridHierarchy.levelmin this
  ∨ ∃ i d, GridHierarchy.levelmin this ≤ i ≤ GridHierarchy.levelmax this
      ∧ 0 ≤ i < 2 ^ 31 ∧ 0 ≤ d ≤ 2
      ∧ (GridHierarchy.size this i d ≠ GridHierarchy.size gh i d
         ∨ GridHierarchy.offset this i d ≠ GridHierarchy.offset gh i d).

Lemma mismatch_not_consistent this gh :
  geometry_mismatch this gh → GridHierarchy.is_consistent this gh = false.
Proof.
  intros Hmis. unfold GridHierarchy.is_consistent.
  destruct (GridHierarchy.levelmax gh =? GridHierarchy.levelmax this) eqn:E1;
    [|reflexivity].
  destruct (GridHierarchy.levelmin gh =? GridHierarchy.levelmin this) eqn:E2;
    [|reflexivity].
  cbn [negb]. apply Z.eqb_eq in E1, E2.
  destruct Hmis as [H | [H | (i & d & Hi & Hir & Hd & H)]]; [contradiction.. |].
  apply not_true_is_false. intros Hall.
  rewrite forallb_forall in Hall.
  assert (In i (seqZ (GridHierarchy.levelmin this)
                  (GridHierarchy.levelmax this - GridHierarchy.levelmin this + 1))) as Hin
    by (apply list_elem_of_In, elem_of_seqZ; lia).
  specialize (Hall i Hin). rewrite forallb_forall in Hall.
  assert (In d (seqZ 0 3)) as Hdin by (apply list_elem_of_In, elem_of_seqZ; lia).
  specialize (Hall d Hdin). rewrite to_int_small in Hall by lia.
  rewrite andb_true_iff, !Z.eqb_eq in Hall.
  destruct Hall as [Hs Ho]. destruct H; contradiction.
Qed.

(** the rebuild loop of [operator=]: the grids of [gh], copied in order *)
Lemma rebuild_loop gh (k : nat) this :
  (k ≤ length (GridHierarchy.m_pgrids gh))%nat →
  for_range_res 0 (Z.of_nat k) (fun i this =>
      g ← GridHierarchy.get_grid gh i;
      Ok (GridHierarchy.with_pgrids this
            (GridHierarchy.m_pgrids this ++ [MeshvarBnd.copy g]))) this
  = Ok (GridHierarchy.with_pgrids this
          (GridHierarchy.m_pgrids this ++ take k (GridHierarchy.m_pgrids gh))).
Proof.
  unfold for_range_res. induction k as [|k IH]; intros Hk.
  - cbn. rewrite app_nil_r. destruct this. reflexivity.
  - rewrite seqZ_S, Z.add_0_l, for_each_res_app, IH by lia.
    cbn [mbind res_bind for_each_res].
    rewrite get_grid_in_range by lia. cbn [mbind res_bind].
    f_equal. unfold GridHierarchy.with_pgrids. cbn. f_equal.
    rewrite <- app_assoc. f_equal.
    destruct (GridHierarchy.m_pgrids gh !! k) as [g|] eqn:Hg.
    + rewrite (take_S_r _ _ g Hg). f_equal. f_equal. unfold MeshvarBnd.copy.
      unfold GridHierarchy.grid. apply vec_at_lookup; [lia|]. rewrite Nat2Z.id. exact Hg.
    + apply lookup_ge_None in Hg. lia.
Qed.

Lemma masks_loop_frame gh n this :
  let this' :=
    for_range 0 n (fun i this =>
      GridHierarchy.with_ref_masks this
        (GridHierarchy.m_ref_masks this ++ [GridHierarchy.mask gh i])) this in
  GridHierarchy.m_pgrids this' = GridHierarchy.m_pgrids this
  ∧ GridHierarchy.m_levelmin this' = GridHierarchy.m_levelmin this
  ∧ GridHierarchy.bhave_refmask this' = GridHierarchy.bhave_refmask this.
Proof.
  cbn zeta. unfold for_range.
  apply (fold_left_preserves (fun s =>
    GridHierarchy.m_pgrids s = GridHierarchy.m_pgrids this
    ∧ GridHierarchy.m_levelmin s = GridHierarchy.m_levelmin this
    ∧ GridHierarchy.bhave_refmask s = GridHierarchy.bhave_refmask this)).
  - repeat split.
  - intros s i _ H. exact H.
Qed.

Lemma levelmax_of_levels gh :
  1 ≤ Z.of_nat (length (GridHierarchy.m_pgrids gh)) ≤ 2 ^ 32 →
  GridHierarchy.levelmax gh = Z.of_nat (length (GridHierarchy.m_pgrids gh)) - 1.
Proof.
  intros H. unfold GridHierarchy.levelmax.
  rewrite to_size_t_small by lia. apply to_unsigned_small. lia.
Qed.

(** C10, as amended. [operator=] does not treat a geometry mismatch as an
    error: when the two hierarchies differ in [levelmax], in [levelmin] or
    in an extent or relative offset of a level from [levelmin] to
    [levelmax], and the source stores at least one level, it drops its own
    grids and rebuilds itself from the source, grids, absolute offsets,
    [levelmin] and ghost-margin width; the element-wise arithmetic
    operators throw a runtime error on the same mismatch. *)
Theorem operator_assign_rebuilds_on_mismatch (this gh : GridHierarchy.t) :
  1 ≤ Z.of_nat (length (GridHierarchy.m_pgrids gh)) ≤ 2 ^ 32 →
  geometry_mismatch this gh →
  (∃ this',
     GridHierarchy.operator_assign this gh = Ok this'
     ∧ GridHierarchy.m_pgrids this' = GridHierarchy.m_pgrids gh
     ∧ GridHierarchy.m_xoffabs this' = GridHierarchy.m_xoffabs gh
     ∧ GridHierarchy.m_yoffabs this' = GridHierarchy.m_yoffabs gh
     ∧ GridHierarchy.m_zoffabs this' = GridHierarchy.m_zoffabs gh
     ∧ GridHierarchy.m_levelmin this' = GridHierarchy.m_levelmin gh
     ∧ GridHierarchy.m_nbnd this' = GridHierarchy.m_nbnd gh)
  ∧ GridHierarchy.operator_add_assign this gh
    = Throw (runtime_error
               "GridHierarchy::operator+= : attempt to operate on incompatible data")
  ∧ GridHierarchy.operator_sub_assign this gh
    = Throw (runtime_error
               "GridHierarchy::operator-= : attempt to operate on incompatible data")
  ∧ GridHierarchy.operator_mul_assign this gh
    = Throw (runtime_error
               "GridHierarchy::operator*= : attempt to operate on incompatible data")
  ∧ GridHierarchy.operator_div_assign this gh
    = Throw (runtime_error
               "GridHierarchy::operator/= : attempt to operate on incompatible data").
Proof.
  intros Hlen Hmis. pose proof (mismatch_not_consistent this gh Hmis) as Hinc.
  split.
  - unfold GridHierarchy.operator_assign.
    set (this1 := if GridHierarchy.bhave_refmask _ then _ else _).
    assert (GridHierarchy.m_pgrids this1 = GridHierarchy.m_pgrids this
            ∧ GridHierarchy.m_levelmin this1 = GridHierarchy.m_levelmin this) as [Hg1 Hl1].
    { unfold this1. destruct (GridHierarchy.bhave_refmask _); [|split; reflexivity].
      match goal with
      | |- context [for_range 0 ?n _ ?t] =>
          destruct (masks_loop_frame gh n t) as (Hg & Hl & _)
      end.
      split; [exact Hg | exact Hl]. }
    rewrite (is_consistent_same_grids this1 this gh Hg1 Hl1), Hinc. cbn [negb].
    rewrite (levelmax_of_levels gh Hlen).
    replace (Z.of_nat (length (GridHierarchy.m_pgrids gh)) - 1 + 1)
      with (Z.of_nat (length (GridHierarchy.m_pgrids gh))) by lia.
    rewrite rebuild_loop by lia. cbn [mbind res_bind].
    rewrite firstn_all. eexists. split; [reflexivity|]. repeat split.
  - unfold GridHierarchy.operator_add_assign, GridHierarchy.operator_sub_assign,
      GridHierarchy.operator_mul_assign, GridHierarchy.operator_div_assign,
      GridHierarchy.elementwise.
    rewrite Hinc. cbn [negb]. repeat split.
Qed.

Lemma for_each_res_throw_first {S A} (body : A → S → res S) (a : A) l (s : S) e :
  body a s = Throw e → for_each_res body (a :: l) s = Throw e.
Proof. intros H. cbn [for_each_res]. rewrite H. reflexivity. Qed.

(** [operator=] from a hierarchy without levels: the rebuild loop asks the
    source for level 0 *)
Lemma operator_assign_empty_source this gh :
  GridHierarchy.m_pgrids gh = [] → GridHierarchy.bhave_refmask gh = false →
  GridHierarchy.is_consistent this gh = false →
  GridHierarchy.operator_assign this gh
  = Throw (runtime_error "Fatal: attempt to access non-existent grid").
Proof.
  intros Hg Hb Hinc. unfold GridHierarchy.operator_assign.
  rewrite Hb.
  change (GridHierarchy.bhave_refmask (GridHierarchy.with_bhave_refmask this false))
    with false. cbv iota.
  match goal with
  | |- context [GridHierarchy.is_consistent ?t gh] =>
      rewrite (is_consistent_same_grids t this gh eq_refl eq_refl)
  end.
  rewrite Hinc. cbn [negb].
  assert (GridHierarchy.levelmax gh + 1 = 4294967296) as ->.
  { unfold GridHierarchy.levelmax. rewrite Hg. reflexivity. }
  unfold for_range_res. rewrite seqZ_cons by lia.
  rewrite (for_each_res_throw_first _ _ _ _
             (runtime_error "Fatal: attempt to access non-existent grid")).
  - reflexivity.
  - unfold GridHierarchy.get_grid. rewrite Hg. reflexivity.
Qed.

(** A hierarchy that [is_consistent] cannot tell from the fresh base
    hierarchy although their offsets differ: level 0 and level 1 have been
    cut at shifted origins, inside the ghost margin of width 4. *)
Definition shifted_example : GridHierarchy.t :=
  let gh := GridHierarchy.create_base_hierarchy (GridHierarchy.new 4) 1 in
  match GridHierarchy.cut_patch gh 0 2 0 0 1 1 1 false with
  | Ok gh =>
      match GridHierarchy.cut_patch gh 1 4 0 0 2 2 2 false with
      | Ok gh => gh
      | Throw _ => gh
      end
  | Throw _ => gh
  end.

(** The claim of C10 fails as stated. A hierarchy with one level and a
    hierarchy without levels differ in their level count, and assigning the
    second to the first throws. Two hierarchies that differ in the
    relative offset of level 0 and in the absolute offsets of both levels
    pass [is_consistent], and the assignment leaves the offsets of the
    target as they were. *)
Lemma operator_assign_mismatch_counterexample :
  (let this := GridHierarchy.create_base_hierarchy (GridHierarchy.new 0) 0 in
   let gh := GridHierarchy.new 0 in
   length (GridHierarchy.m_pgrids this) ≠ length (GridHierarchy.m_pgrids gh)
   ∧ GridHierarchy.operator_assign this gh
     = Throw (runtime_error "Fatal: attempt to access non-existent grid"))
  ∧ (let this := GridHierarchy.create_base_hierarchy (GridHierarchy.new 4) 1 in
     let gh := shifted_example in
     GridHierarchy.offset this 0 0 ≠ GridHierarchy.offset gh 0 0
     ∧ GridHierarchy.offset_abs this 1 0 ≠ GridHierarchy.offset_abs gh 1 0
     ∧ match GridHierarchy.operator_assign this gh with
       | Ok this' =>
           GridHierarchy.offset this' 0 0 ≠ GridHierarchy.offset gh 0 0
           ∧ GridHierarchy.offset_abs this' 1 0 ≠ GridHierarchy.offset_abs gh 1 0
       | Throw _ => False
       end).
Proof.
  split.
  - intros this gh. split.
    + vm_compute. congruence.
    + apply operator_assign_empty_source; reflexivity.
  - intros this gh. split; [vm_compute; congruence|]. split; [vm_compute; congruence|].
    vm_compute. split; congruence.
Qed.

Lemma operator_assign_rebuilds_on_mismatch_witness :
  let this := GridHierarchy.new 0 in
  let gh := GridHierarchy.create_base_hierarchy (GridHierarchy.new 1) 1 in
  ∃ this',
    GridHierarchy.operator_assign this gh = Ok this'
    ∧ GridHierarchy.m_pgrids this' = GridHierarchy.m_pgrids gh
    ∧ GridHierarchy.m_xoffabs this' = GridHierarchy.m_xoffabs gh
    ∧ GridHierarchy.m_yoffabs this' = GridHierarchy.m_yoffabs gh
    ∧ GridHierarchy.m_zoffabs this' = GridHierarchy.m_zoffabs gh
    ∧ GridHierarchy.m_levelmin this' = GridHierarchy.m_levelmin gh
    ∧ GridHierarchy.m_nbnd this' = GridHierarchy.m_nbnd gh.
Proof.
  intros this gh.
  apply (operator_assign_rebuilds_on_mismatch this gh).
  - vm_compute. split; congruence.
  - left. vm_compute. congruence.
Defined.

(** * Further properties *)

(** ** The doubling rule between relative and absolute offsets *)

(** [absoffsets_[L][d] == 2 * absoffsets_[L-1][d] + 2 * offsets_[L][d]] *)
Definition rh_rule (rh : refinement_hierarchy.t) (L d : Z) : Prop :=
  refinement_hierarchy.offset_abs rh L d
  = 2 * refinement_hierarchy.offset_abs rh (L - 1) d + 2 * refinement_hierarchy.offset rh L d.

(** the rule on every level above [lo], up to [levelmax] *)
Definition rh_consistent_above (lo : Z) (rh : refinement_hierarchy.t) : Prop :=
  ∀ L d, lo < L ≤ refinement_hierarchy.levelmax rh → 0 ≤ d ≤ 2 → rh_rule rh L d.

Definition rh_consistent (rh : refinement_hierarchy.t) : Prop :=
  rh_consistent_above (refinement_hierarchy.levelmin rh) rh.

(** the vectors hold the levels [0 .. levelmax_] *)
Definition rh_sized (rh : refinement_hierarchy.t) : Prop :=
  0 ≤ refinement_hierarchy.levelmin_ rh ≤ refinement_hierarchy.levelmax_ rh
  ∧ refinement_hierarchy.levelmax_ rh < 2 ^ 31
  ∧ Z.of_nat (length (refinement_hierarchy.offsets_ rh)) = refinement_hierarchy.levelmax_ rh + 1
  ∧ Z.of_nat (length (refinement_hierarchy.absoffsets_ rh))
    = refinement_hierarchy.levelmax_ rh + 1
  ∧ Z.of_nat (length (refinement_hierarchy.len_ rh)) = refinement_hierarchy.levelmax_ rh + 1.

Lemma nth3_set3 v d x d' :
  0 ≤ d ≤ 2 → 0 ≤ d' ≤ 2 →
  refinement_hierarchy.nth3 (refinement_hierarchy.set3 v d x) d'
  = if decide (d = d') then x else refinement_hierarchy.nth3 v d'.
Proof.
  intros Hd Hd'. destruct v as [[a b] c].
  assert (d = 0 ∨ d = 1 ∨ d = 2) as [-> | [-> | ->]] by lia;
    assert (d' = 0 ∨ d' = 1 ∨ d' = 2) as [-> | [-> | ->]] by lia; reflexivity.
Qed.

Lemma offset_set_offset rh l d v l' d' :
  0 ≤ l < Z.of_nat (length (refinement_hierarchy.offsets_ rh)) → 0 ≤ d ≤ 2 → 0 ≤ d' ≤ 2 →
  refinement_hierarchy.offset (refinement_hierarchy.set_offset rh l d v) l' d'
  = if decide (l = l' ∧ d = d') then v else refinement_hierarchy.offset rh l' d'.
Proof.
  intros Hl Hd Hd'. unfold refinement_hierarchy.offset, refinement_hierarchy.set_offset.
  cbn [refinement_hierarchy.offsets_ refinement_hierarchy.with_offsets].
  destruct (decide (l = l')) as [<-|Hne].
  - rewrite vec_at_set_eq by exact Hl. rewrite nth3_set3 by assumption.
    destruct (decide (d = d')); destruct (decide (l = l ∧ d = d')); tauto || reflexivity.
  - rewrite vec_at_set_ne by exact Hne.
    destruct (decide (l = l' ∧ d = d')); [tauto | reflexivity].
Qed.

Lemma offset_abs_set_absoffset rh l d v l' d' :
  0 ≤ l < Z.of_nat (length (refinement_hierarchy.absoffsets_ rh)) → 0 ≤ d ≤ 2 → 0 ≤ d' ≤ 2 →
  refinement_hierarchy.offset_abs (refinement_hierarchy.set_absoffset rh l d v) l' d'
  = if decide (l = l' ∧ d = d') then v else refinement_hierarchy.offset_abs rh l' d'.
Proof.
  intros Hl Hd Hd'. unfold refinement_hierarchy.offset_abs, refinement_hierarchy.set_absoffset.
  cbn [refinement_hierarchy.absoffsets_ refinement_hierarchy.with_absoffsets].
  destruct (decide (l = l')) as [<-|Hne].
  - rewrite vec_at_set_eq by exact Hl. rewrite nth3_set3 by assumption.
    destruct (decide (d = d')); destruct (decide (l = l ∧ d = d')); tauto || reflexivity.
  - rewrite vec_at_set_ne by exact Hne.
    destruct (decide (l = l' ∧ d = d')); [tauto | reflexivity].
Qed.

Lemma offset_abs_set_offset rh l d v l' d' :
  refinement_hierarchy.offset_abs (refinement_hierarchy.set_offset rh l d v) l' d'
  = refinement_hierarchy.offset_abs rh l' d'.
Proof. reflexivity. Qed.

Lemma offset_set_absoffset rh l d v l' d' :
  refinement_hierarchy.offset (refinement_hierarchy.set_absoffset rh l d v) l' d'
  = refinement_hierarchy.offset rh l' d'.
Proof. reflexivity. Qed.

Lemma rh_sized_set_offset rh l d v :
  rh_sized rh → rh_sized (refinement_hierarchy.set_offset rh l d v).
Proof.
  unfold rh_sized, refinement_hierarchy.set_offset. cbn. rewrite length_vec_set. tauto.
Qed.

Lemma rh_sized_set_absoffset rh l d v :
  rh_sized rh → rh_sized (refinement_hierarchy.set_absoffset rh l d v).
Proof.
  unfold rh_sized, refinement_hierarchy.set_absoffset. cbn. rewrite length_vec_set. tauto.
Qed.

Lemma for_range_3 {S} (body : Z → S → S) (s : S) :
  for_range 0 3 body s = body 2 (body 1 (body 0 s)).
Proof. reflexivity. Qed.

(** *** The two sweeps of the constructor *)

(** what the backward sweep stores at level [l], dimension [d] *)
Definition relative_value (rh : refinement_hierarchy.t) (l d : Z) : Z :=
  to_index (Z.quot (refinement_hierarchy.offset_abs rh l d) 2
            - refinement_hierarchy.offset_abs rh (to_unsigned (l - 1)) d).

(** the fields a sweep over the relative offsets leaves alone *)
Definition keeps_absolute (rh rh' : refinement_hierarchy.t) : Prop :=
  refinement_hierarchy.absoffsets_ rh' = refinement_hierarchy.absoffsets_ rh
  ∧ refinement_hierarchy.len_ rh' = refinement_hierarchy.len_ rh
  ∧ refinement_hierarchy.levelmin_ rh' = refinement_hierarchy.levelmin_ rh
  ∧ refinement_hierarchy.levelmax_ rh' = refinement_hierarchy.levelmax_ rh
  ∧ length (refinement_hierarchy.offsets_ rh') = length (refinement_hierarchy.offsets_ rh).

(** the fields a sweep over the absolute offsets leaves alone *)
Definition keeps_relative (rh rh' : refinement_hierarchy.t) : Prop :=
  refinement_hierarchy.offsets_ rh' = refinement_hierarchy.offsets_ rh
  ∧ refinement_hierarchy.len_ rh' = refinement_hierarchy.len_ rh
  ∧ refinement_hierarchy.levelmin_ rh' = refinement_hierarchy.levelmin_ rh
  ∧ refinement_hierarchy.levelmax_ rh' = refinement_hierarchy.levelmax_ rh
  ∧ length (refinement_hierarchy.absoffsets_ rh')
    = length (refinement_hierarchy.absoffsets_ rh).

Lemma keeps_absolute_refl rh : keeps_absolute rh rh.
Proof. repeat split. Qed.

Lemma keeps_absolute_trans a b c : keeps_absolute a b → keeps_absolute b c → keeps_absolute a c.
Proof. unfold keeps_absolute. intros (?&?&?&?&?) (?&?&?&?&?). repeat split; congruence. Qed.

Lemma keeps_absolute_set_offset rh l d v :
  keeps_absolute rh (refinement_hierarchy.set_offset rh l d v).
Proof.
  unfold keeps_absolute, refinement_hierarchy.set_offset. cbn.
  rewrite length_vec_set. repeat split.
Qed.

Lemma keeps_relative_refl rh : keeps_relative rh rh.
Proof. repeat split. Qed.

Lemma keeps_relative_trans a b c : keeps_relative a b → keeps_relative b c → keeps_relative a c.
Proof. unfold keeps_relative. intros (?&?&?&?&?) (?&?&?&?&?). repeat split; congruence. Qed.

Lemma keeps_relative_set_absoffset rh l d v :
  keeps_relative rh (refinement_hierarchy.set_absoffset rh l d v).
Proof.
  unfold keeps_relative, refinement_hierarchy.set_absoffset. cbn.
  rewrite length_vec_set. repeat split.
Qed.

Lemma keeps_absolute_offset_abs rh rh' l d :
  keeps_absolute rh rh' →
  refinement_hierarchy.offset_abs rh' l d = refinement_hierarchy.offset_abs rh l d.
Proof. intros (H&_). unfold refinement_hierarchy.offset_abs. rewrite H. reflexivity. Qed.

Lemma keeps_relative_offset rh rh' l d :
  keeps_relative rh rh' →
  refinement_hierarchy.offset rh' l d = refinement_hierarchy.offset rh l d.
Proof. intros (H&_). unfold refinement_hierarchy.offset. rewrite H. reflexivity. Qed.

(** one level of the backward sweep *)
Definition relative_level (ilevel : Z) (rh : refinement_hierarchy.t) : refinement_hierarchy.t :=
  for_range 0 3 (fun idim rh =>
    refinement_hierarchy.set_offset rh ilevel idim
      (to_index (Z.quot (refinement_hierarchy.offset_abs rh ilevel idim) 2
                 - refinement_hierarchy.offset_abs rh (to_unsigned (ilevel - 1)) idim))) rh.

Lemma relative_level_keeps l rh : keeps_absolute rh (relative_level l rh).
Proof.
  unfold relative_level. rewrite for_range_3.
  eapply keeps_absolute_trans; [|apply keeps_absolute_set_offset].
  eapply keeps_absolute_trans; [|apply keeps_absolute_set_offset].
  apply keeps_absolute_set_offset.
Qed.

Lemma relative_level_offset l rh l' d :
  0 ≤ l < Z.of_nat (length (refinement_hierarchy.offsets_ rh)) → 0 ≤ d ≤ 2 →
  refinement_hierarchy.offset (relative_level l rh) l' d
  = if decide (l = l') then relative_value rh l d else refinement_hierarchy.offset rh l' d.
Proof.
  intros Hl Hd. unfold relative_level. rewrite for_range_3.
  rewrite !offset_set_offset, !offset_abs_set_offset;
    rewrite ?length_vec_set; cbn; rewrite ?length_vec_set; try lia.
  unfold relative_value.
  repeat match goal with |- context [decide ?P] => destruct (decide P) as [?|?] end;
    try reflexivity; try (exfalso; lia).
  all: assert (d = 0 ∨ d = 1 ∨ d = 2) as [-> | [-> | ->]] by lia; try reflexivity; exfalso; lia.
Qed.

Lemma relative_offsets_fold rh (ls : list Z) :
  (∀ l, l ∈ ls → 0 ≤ l < Z.of_nat (length (refinement_hierarchy.offsets_ rh))) →
  let rh' := fold_left (fun rh l => relative_level l rh) ls rh in
  keeps_absolute rh rh'
  ∧ ∀ l d, 0 ≤ d ≤ 2 →
      refinement_hierarchy.offset rh' l d
      = if decide (l ∈ ls) then relative_value rh l d else refinement_hierarchy.offset rh l d.
Proof.
  revert rh. induction ls as [|a ls IH]; intros rh Hls; cbn zeta.
  - split; [apply keeps_absolute_refl|]. intros l d Hd.
    destruct (decide (l ∈ [])) as [H|_]; [inversion H | reflexivity].
  - cbn [fold_left].
    pose proof (relative_level_keeps a rh) as Hk.
    destruct (IH (relative_level a rh)) as [Hk' Hoff].
    { intros l Hl. destruct Hk as (_&_&_&_&->). apply Hls. apply list_elem_of_further, Hl. }
    split; [eapply keeps_absolute_trans; eassumption|].
    intros l d Hd. rewrite Hoff by exact Hd.
    assert (∀ l, relative_value (relative_level a rh) l d = relative_value rh l d) as Hv.
    { intros l0. unfold relative_value. rewrite !(keeps_absolute_offset_abs _ _ _ _ Hk).
      reflexivity. }
    destruct (decide (l ∈ ls)) as [Hin|Hnin].
    + rewrite Hv. destruct (decide (l ∈ a :: ls)) as [_|Hn]; [reflexivity|].
      exfalso. apply Hn, list_elem_of_further, Hin.
    + rewrite relative_level_offset by (try apply Hls; try apply list_elem_of_here; lia).
      destruct (decide (a = l)) as [->|Hne].
      * destruct (decide (l ∈ l :: ls)) as [_|Hn]; [reflexivity|].
        exfalso. apply Hn, list_elem_of_here.
      * destruct (decide (l ∈ a :: ls)) as [Hin|_]; [|reflexivity].
        apply elem_of_cons in Hin as [->|Hin]; [congruence | contradiction].
Qed.

Lemma relative_offsets_spec rh :
  rh_sized rh →
  let rh' := refinement_hierarchy.relative_offsets rh in
  keeps_absolute rh rh'
  ∧ ∀ l d, 0 ≤ d ≤ 2 →
      refinement_hierarchy.offset rh' l d
      = if decide (refinement_hierarchy.levelmin_ rh < l ≤ refinement_hierarchy.levelmax_ rh)
        then relative_value rh l d else refinement_hierarchy.offset rh l d.
Proof.
  intros (Hmm & Hmax & Hlo & Hla & Hll). cbn zeta.
  set (ls := reverse (seqZ (refinement_hierarchy.levelmin_ rh + 1)
                (refinement_hierarchy.levelmax_ rh - refinement_hierarchy.levelmin_ rh))).
  assert (∀ l, l ∈ ls ↔ refinement_hierarchy.levelmin_ rh < l ≤ refinement_hierarchy.levelmax_ rh)
    as Hin.
  { intros l. unfold ls. rewrite elem_of_reverse, elem_of_seqZ. lia. }
  destruct (relative_offsets_fold rh ls) as [Hk Hoff].
  { intros l Hl%Hin. lia. }
  split; [exact Hk|].
  intros l d Hd. unfold refinement_hierarchy.relative_offsets. fold ls.
  change (fold_left _ ls rh) with (fold_left (fun rh l => relative_level l rh) ls rh).
  rewrite Hoff by exact Hd.
  destruct (decide (l ∈ ls)) as [H|H]; destruct (decide (_ < l ≤ _)) as [H'|H'];
    try reflexivity; exfalso; apply Hin in H || (apply H, Hin, H'); tauto.
Qed.

(** one level of the forward sweep *)
Definition forward_level (ilevel : Z) (rh : refinement_hierarchy.t) : refinement_hierarchy.t :=
  for_range 0 3 (fun idim rh =>
    refinement_hierarchy.set_absoffset rh ilevel idim
      (to_index (2 * refinement_hierarchy.offset_abs rh (to_unsigned (ilevel - 1)) idim
                 + 2 * refinement_hierarchy.offset rh ilevel idim))) rh.

Lemma forward_level_keeps l rh : keeps_relative rh (forward_level l rh).
Proof.
  unfold forward_level. rewrite for_range_3.
  eapply keeps_relative_trans; [|apply keeps_relative_set_absoffset].
  eapply keeps_relative_trans; [|apply keeps_relative_set_absoffset].
  apply keeps_relative_set_absoffset.
Qed.

Lemma forward_level_offset_abs l rh l' d :
  1 ≤ l < Z.of_nat (length (refinement_hierarchy.absoffsets_ rh)) → l < 2 ^ 32 → 0 ≤ d ≤ 2 →
  refinement_hierarchy.offset_abs (forward_level l rh) l' d
  = if decide (l = l')
    then to_index (2 * refinement_hierarchy.offset_abs rh (l - 1) d
                   + 2 * refinement_hierarchy.offset rh l d)
    else refinement_hierarchy.offset_abs rh l' d.
Proof.
  intros Hl Hl32 Hd. unfold forward_level. rewrite for_range_3.
  rewrite (to_unsigned_small (l - 1)) by lia.
  rewrite !offset_abs_set_absoffset, !offset_set_absoffset;
    rewrite ?length_vec_set; cbn; rewrite ?length_vec_set; try lia.
  repeat match goal with |- context [decide ?P] => destruct (decide P) as [?|?] end;
    try reflexivity; try (exfalso; lia).
  all: assert (d = 0 ∨ d = 1 ∨ d = 2) as [-> | [-> | ->]] by lia; try reflexivity; exfalso; lia.
Qed.

(** After [k] levels of the forward sweep the levels it has visited
    satisfy the rule in the arithmetic of [index_t]. *)
Lemma forward_sweep_steps rh (k : nat) :
  rh_sized rh →
  refinement_hierarchy.levelmin_ rh + Z.of_nat k ≤ refinement_hierarchy.levelmax_ rh →
  let lmin := refinement_hierarchy.levelmin_ rh in
  let rh' := for_range (lmin + 1) (Z.of_nat k) forward_level rh in
  keeps_relative rh rh'
  ∧ (∀ L d, 0 ≤ d ≤ 2 → ¬ (lmin < L ≤ lmin + Z.of_nat k) →
       refinement_hierarchy.offset_abs rh' L d = refinement_hierarchy.offset_abs rh L d)
  ∧ (∀ L d, 0 ≤ d ≤ 2 → lmin < L ≤ lmin + Z.of_nat k →
       refinement_hierarchy.offset_abs rh' L d
       = to_index (2 * refinement_hierarchy.offset_abs rh' (L - 1) d
                   + 2 * refinement_hierarchy.offset rh L d)).
Proof.
  intros Hs. pose proof Hs as (Hmm & Hmax & Hlo & Hla & Hll). cbn zeta.
  induction k as [|k IH]; intros Hk.
  - rewrite for_range_0. split; [apply keeps_relative_refl|].
    split; [reflexivity|]. intros L d _ HL. exfalso. lia.
  - destruct IH as (Hkeep & Hout & Hin); [lia|].
    rewrite for_range_S.
    set (rhk := for_range (refinement_hierarchy.levelmin_ rh + 1) (Z.of_nat k) forward_level rh)
      in *.
    set (l := refinement_hierarchy.levelmin_ rh + 1 + Z.of_nat k).
    assert (1 ≤ l < Z.of_nat (length (refinement_hierarchy.absoffsets_ rhk))) as Hl.
    { destruct Hkeep as (_&_&_&_&->). unfold l. lia. }
    assert (l < 2 ^ 32) as Hl32 by (unfold l; lia).
    split; [eapply keeps_relative_trans; [exact Hkeep | apply forward_level_keeps]|].
    split.
    + intros L d Hd HL. rewrite forward_level_offset_abs by assumption.
      destruct (decide (l = L)) as [<-|_]; [exfalso; unfold l in HL; lia|].
      apply Hout; [exact Hd | lia].
    + intros L d Hd HL. rewrite !forward_level_offset_abs by assumption.
      destruct (decide (l = L - 1)) as [?|_]; [exfalso; unfold l in *; lia|].
      destruct (decide (l = L)) as [<-|Hne].
      * rewrite (keeps_relative_offset _ _ _ _ Hkeep). reflexivity.
      * apply Hin; [exact Hd | unfold l in Hne; lia].
Qed.

(** a bound on the absolute offset of the [j]-th level above
    [levelmin_] after the forward sweep, for boxes that are [int]s *)
Fixpoint sweep_bound (j : nat) : Z :=
  match j with
  | O => 2 ^ 31
  | S j => 2 * sweep_bound j + 2 ^ 33
  end.

Lemma sweep_bound_pos j : 0 < sweep_bound j.
Proof. induction j as [|j IH]; cbn [sweep_bound]; lia. Qed.

Lemma sweep_bound_mono j j' : (j ≤ j')%nat → sweep_bound j ≤ sweep_bound j'.
Proof.
  induction 1 as [|j' _ IH]; [lia|]. cbn [sweep_bound].
  pose proof (sweep_bound_pos j'). lia.
Qed.

Lemma sweep_bound_29 j : (j ≤ 29)%nat → sweep_bound j < 2 ^ 63.
Proof.
  intros Hj. apply Z.le_lt_trans with (sweep_bound 29); [apply sweep_bound_mono, Hj|].
  vm_compute. reflexivity.
Qed.

(** the boxes the sweeps start from hold [int] values *)
Definition int_boxes (rh : refinement_hierarchy.t) : Prop :=
  ∀ L d, refinement_hierarchy.levelmin_ rh ≤ L ≤ refinement_hierarchy.levelmax_ rh →
         0 ≤ d ≤ 2 → - 2 ^ 31 ≤ refinement_hierarchy.offset_abs rh L d ≤ 2 ^ 31.

Lemma relative_value_exact rh l d :
  int_boxes rh → 0 ≤ d ≤ 2 → 1 ≤ l < 2 ^ 32 →
  refinement_hierarchy.levelmin_ rh < l ≤ refinement_hierarchy.levelmax_ rh →
  relative_value rh l d
  = Z.quot (refinement_hierarchy.offset_abs rh l d) 2
    - refinement_hierarchy.offset_abs rh (l - 1) d
  ∧ - 2 ^ 32 ≤ relative_value rh l d ≤ 2 ^ 32.
Proof.
  intros Hb Hd Hl Hr. unfold relative_value. rewrite (to_unsigned_small (l - 1)) by lia.
  pose proof (Hb l d ltac:(lia) Hd) as H1. pose proof (Hb (l - 1) d ltac:(lia) Hd) as H2.
  assert (- 2 ^ 31 ≤ Z.quot (refinement_hierarchy.offset_abs rh l d) 2 ≤ 2 ^ 31) as H3.
  { split; [apply Z.quot_le_lower_bound | apply Z.quot_le_upper_bound]; lia. }
  rewrite to_index_small by lia. lia.
Qed.

Lemma forward_sweep_exact rh :
  rh_sized rh →
  refinement_hierarchy.levelmax_ rh - refinement_hierarchy.levelmin_ rh ≤ 29 →
  (∀ d, 0 ≤ d ≤ 2 →
     - 2 ^ 31 ≤ refinement_hierarchy.offset_abs rh (refinement_hierarchy.levelmin_ rh) d
     ≤ 2 ^ 31) →
  (∀ L d, 0 ≤ d ≤ 2 →
     refinement_hierarchy.levelmin_ rh < L ≤ refinement_hierarchy.levelmax_ rh →
     - 2 ^ 32 ≤ refinement_hierarchy.offset rh L d ≤ 2 ^ 32) →
  rh_consistent (refinement_hierarchy.forward_sweep rh).
Proof.
  intros Hs HK Hbase Hoff. pose proof Hs as (Hmm & Hmax & Hlo & Hla & Hll).
  set (K := Z.to_nat (refinement_hierarchy.levelmax_ rh - refinement_hierarchy.levelmin_ rh)).
  destruct (forward_sweep_steps rh K Hs) as (Hkeep & Hout & Hin); [unfold K; lia|].
  unfold refinement_hierarchy.forward_sweep.
  change (for_range _ _ _ rh)
    with (for_range (refinement_hierarchy.levelmin_ rh + 1)
            (refinement_hierarchy.levelmax_ rh - refinement_hierarchy.levelmin_ rh)
            forward_level rh).
  replace (refinement_hierarchy.levelmax_ rh - refinement_hierarchy.levelmin_ rh)
    with (Z.of_nat K) by (unfold K; lia).
  set (rh' := for_range _ _ _ rh) in *.
  assert (∀ (j : nat) d, (j ≤ K)%nat → 0 ≤ d ≤ 2 →
            - sweep_bound j
            ≤ refinement_hierarchy.offset_abs rh' (refinement_hierarchy.levelmin_ rh + Z.of_nat j) d
            ≤ sweep_bound j) as Hbound.
  { induction j as [|j IH]; intros d Hj Hd.
    - rewrite Z.add_0_r, Hout by lia. cbn [sweep_bound]. apply Hbase, Hd.
    - rewrite Hin by lia.
      replace (refinement_hierarchy.levelmin_ rh + Z.of_nat (S j) - 1)
        with (refinement_hierarchy.levelmin_ rh + Z.of_nat j) by lia.
      pose proof (IH d ltac:(lia) Hd) as Hj'.
      pose proof (Hoff (refinement_hierarchy.levelmin_ rh + Z.of_nat (S j)) d Hd ltac:(lia)) as Ho.
      pose proof (sweep_bound_29 (S j) ltac:(unfold K in Hj; lia)) as H29.
      cbn [sweep_bound] in *. rewrite to_index_small by lia. lia. }
  intros L d HL Hd. unfold rh_rule.
  destruct Hkeep as (Hko & _ & Hkmin & Hkmax & _).
  unfold refinement_hierarchy.levelmin, refinement_hierarchy.levelmax in HL.
  rewrite Hkmin, Hkmax in HL.
  rewrite Hin by lia.
  assert (refinement_hierarchy.offset rh' L d = refinement_hierarchy.offset rh L d) as ->.
  { unfold refinement_hierarchy.offset. rewrite Hko. reflexivity. }
  pose proof (Hbound (Z.to_nat (L - 1 - refinement_hierarchy.levelmin_ rh)) d
                ltac:(unfold K; lia) Hd) as Hb.
  replace (refinement_hierarchy.levelmin_ rh
           + Z.of_nat (Z.to_nat (L - 1 - refinement_hierarchy.levelmin_ rh)))
    with (L - 1) in Hb by lia.
  pose proof (sweep_bound_29 (S (Z.to_nat (L - 1 - refinement_hierarchy.levelmin_ rh)))
                ltac:(lia)) as H29.
  pose proof (Hoff L d Hd HL) as Ho.
  cbn [sweep_bound] in H29. apply to_index_small. lia.
Qed.

(** X1. The two sweeps that close the constructor establish the doubling
    rule: after them the absolute offset of every level above [levelmin_]
    is twice the absolute offset of the level below plus twice its own
    relative offset, in every dimension. The boxes the sweeps start from
    hold [int] values and there are at most 29 levels above [levelmin_],
    so that nothing leaves [index_t]. *)
Theorem resolve_offsets_doubling_rule rh :
  rh_sized rh →
  refinement_hierarchy.levelmax_ rh - refinement_hierarchy.levelmin_ rh ≤ 29 →
  int_boxes rh →
  rh_consistent (refinement_hierarchy.resolve_offsets rh).
Proof.
  intros Hs HK Hb. pose proof Hs as (Hmm & Hmax & Hlo & Hla & Hll).
  destruct (relative_offsets_spec rh Hs) as [Hkeep Hoff].
  pose proof Hkeep as (Hka & Hkl & Hkmin & Hkmax & Hklen).
  unfold refinement_hierarchy.resolve_offsets.
  apply forward_sweep_exact.
  - unfold rh_sized. rewrite Hka, Hkl, Hkmin, Hkmax, Hklen. exact Hs.
  - rewrite Hkmin, Hkmax. exact HK.
  - intros d Hd. rewrite (keeps_absolute_offset_abs _ _ _ _ Hkeep), Hkmin.
    apply Hb; [lia | exact Hd].
  - intros L d Hd HL. rewrite Hkmin, Hkmax in HL. rewrite Hoff by exact Hd.
    destruct (decide _) as [_|Hn]; [|exfalso; lia].
    apply relative_value_exact; [exact Hb | exact Hd | lia | exact HL].
Qed.

(** Two levels above a one-cell root: level 1 covers the domain with
    2x2x2 cells, level 2 is a 2x2x2 box whose corner was requested at
    absolute cell (3, 2, 2); the relative offsets are not computed yet. *)
Definition rh_boxes : refinement_hierarchy.t :=
  refinement_hierarchy.mk
    [refinement_hierarchy.zero3; refinement_hierarchy.zero3; refinement_hierarchy.zero3]
    [refinement_hierarchy.zero3; refinement_hierarchy.zero3; (3, 2, 2)]
    [(1, 1, 1); (2, 2, 2); (2, 2, 2)] 1 2.

Definition rh_example : refinement_hierarchy.t := refinement_hierarchy.resolve_offsets rh_boxes.

Lemma rh_example_fields :
  rh_example
  = refinement_hierarchy.mk
      [refinement_hierarchy.zero3; refinement_hierarchy.zero3; (1, 1, 1)]
      [refinement_hierarchy.zero3; refinement_hierarchy.zero3; (2, 2, 2)]
      [(1, 1, 1); (2, 2, 2); (2, 2, 2)] 1 2.
Proof. vm_compute. reflexivity. Qed.

Lemma rh_example_sized : rh_sized rh_example.
Proof. rewrite rh_example_fields. repeat split; vm_compute; congruence. Qed.

Lemma rh_example_consistent : rh_consistent rh_example.
Proof.
  rewrite rh_example_fields. intros L d HL Hd.
  change (refinement_hierarchy.levelmin _) with 1 in HL.
  change (refinement_hierarchy.levelmax _) with 2 in HL.
  assert (L = 2) as -> by lia.
  assert (d = 0 ∨ d = 1 ∨ d = 2) as [-> | [-> | ->]] by lia; vm_compute; reflexivity.
Qed.


Lemma resolve_offsets_doubling_rule_witness :
  rh_consistent (refinement_hierarchy.resolve_offsets rh_boxes).
Proof.
  apply (resolve_offsets_doubling_rule rh_boxes).
  - repeat split; vm_compute; congruence.
  - vm_compute. congruence.
  - intros L d HL Hd.
    change (refinement_hierarchy.levelmin_ rh_boxes) with 1 in HL.
    change (refinement_hierarchy.levelmax_ rh_boxes) with 2 in HL.
    assert (L = 1 ∨ L = 2) as [-> | ->] by lia;
      (assert (d = 0 ∨ d = 1 ∨ d = 2) as [-> | [-> | ->]] by lia);
      vm_compute; split; congruence.
Defined.


(** every stored offset is an [index_t] *)
Definition index_values (rh : refinement_hierarchy.t) : Prop :=
  ∀ L d, refinement_hierarchy.levelmin_ rh ≤ L ≤ refinement_hierarchy.levelmax_ rh →
         0 ≤ d ≤ 2 →
         - 2 ^ 63 ≤ refinement_hierarchy.offset_abs rh L d < 2 ^ 63
         ∧ - 2 ^ 63 ≤ refinement_hierarchy.offset rh L d < 2 ^ 63.

Lemma quot_double z : Z.quot (2 * z) 2 = z.
Proof. rewrite (Z.mul_comm 2 z). apply Z.quot_mul. lia. Qed.


(** X2. The two sweeps change no offset, relative or absolute, of a
    hierarchy that already obeys the doubling rule. *)
Theorem resolve_offsets_fixed_point rh :
  rh_sized rh → index_values rh → rh_consistent rh →
  ∀ L d, 0 ≤ d ≤ 2 →
    refinement_hierarchy.offset (refinement_hierarchy.resolve_offsets rh) L d
    = refinement_hierarchy.offset rh L d
    ∧ refinement_hierarchy.offset_abs (refinement_hierarchy.resolve_offsets rh) L d
      = refinement_hierarchy.offset_abs rh L d.
Proof.
  intros Hs Hv Hc. pose proof Hs as (Hmm & Hmax & Hlo & Hla & Hll).
  destruct (relative_offsets_spec rh Hs) as [Hkeep Hoff].
  pose proof Hkeep as (Hka & Hkl & Hkmin & Hkmax & Hklen).
  set (rh1 := refinement_hierarchy.relative_offsets rh) in *.
  assert (∀ L d, 0 ≤ d ≤ 2 →
            refinement_hierarchy.offset rh1 L d = refinement_hierarchy.offset rh L d) as Hoff1.
  { intros L d Hd. rewrite Hoff by exact Hd.
    destruct (decide _) as [HL|_]; [|reflexivity].
    unfold relative_value. rewrite (to_unsigned_small (L - 1)) by lia.
    pose proof (Hc L d HL Hd) as Hr. unfold rh_rule in Hr.
    destruct (Hv L d ltac:(lia) Hd) as [_ Ho].
    rewrite Hr.
    replace (2 * refinement_hierarchy.offset_abs rh (L - 1) d
             + 2 * refinement_hierarchy.offset rh L d)
      with (2 * (refinement_hierarchy.offset_abs rh (L - 1) d
                 + refinement_hierarchy.offset rh L d)) by lia.
    rewrite quot_double.
    replace (refinement_hierarchy.offset_abs rh (L - 1) d
             + refinement_hierarchy.offset rh L d - refinement_hierarchy.offset_abs rh (L - 1) d)
      with (refinement_hierarchy.offset rh L d) by lia.
    apply to_index_small. exact Ho. }
  assert (rh_sized rh1) as Hs1.
  { unfold rh_sized. rewrite Hka, Hkl, Hkmin, Hkmax, Hklen. exact Hs. }
  set (K := Z.to_nat (refinement_hierarchy.levelmax_ rh - refinement_hierarchy.levelmin_ rh)).
  destruct (forward_sweep_steps rh1 K Hs1) as (Hkeep2 & Hout & Hin);
    [rewrite Hkmin, Hkmax; unfold K; lia|].
  rewrite Hkmin in Hout, Hin.
  assert (refinement_hierarchy.resolve_offsets rh
          = for_range (refinement_hierarchy.levelmin_ rh + 1) (Z.of_nat K) forward_level rh1)
    as Hres.
  { unfold refinement_hierarchy.resolve_offsets, refinement_hierarchy.forward_sweep.
    fold rh1. rewrite Hkmin, Hkmax.
    replace (refinement_hierarchy.levelmax_ rh - refinement_hierarchy.levelmin_ rh)
      with (Z.of_nat K) by (unfold K; lia).
    reflexivity. }
  rewrite Hres. rewrite Hkmin in Hkeep2.
  set (rh2 := for_range _ _ _ rh1) in *.
  assert (∀ (j : nat) d, (j ≤ K)%nat → 0 ≤ d ≤ 2 →
            refinement_hierarchy.offset_abs rh2 (refinement_hierarchy.levelmin_ rh + Z.of_nat j) d
            = refinement_hierarchy.offset_abs rh
                (refinement_hierarchy.levelmin_ rh + Z.of_nat j) d) as Hsame.
  { induction j as [|j IH]; intros d Hj Hd.
    - rewrite Z.add_0_r, Hout by lia. apply keeps_absolute_offset_abs, Hkeep.
    - rewrite Hin by lia.
      replace (refinement_hierarchy.levelmin_ rh + Z.of_nat (S j) - 1)
        with (refinement_hierarchy.levelmin_ rh + Z.of_nat j) by lia.
      rewrite IH by (lia || exact Hd). rewrite Hoff1 by exact Hd.
      pose proof (Hc (refinement_hierarchy.levelmin_ rh + Z.of_nat (S j)) d
                    ltac:(unfold refinement_hierarchy.levelmin, refinement_hierarchy.levelmax,
                            K in *; lia) Hd) as Hr.
      unfold rh_rule in Hr.
      replace (refinement_hierarchy.levelmin_ rh + Z.of_nat (S j) - 1)
        with (refinement_hierarchy.levelmin_ rh + Z.of_nat j) in Hr by lia.
      rewrite <- Hr. apply to_index_small.
      apply (Hv _ d); [unfold K in Hj; lia | exact Hd]. }
  intros L d Hd. split.
  - rewrite (keeps_relative_offset _ _ _ _ Hkeep2). apply Hoff1, Hd.
  - destruct (decide (refinement_hierarchy.levelmin_ rh < L
                      ≤ refinement_hierarchy.levelmin_ rh + Z.of_nat K)) as [HL|HL].
    + pose proof (Hsame (Z.to_nat (L - refinement_hierarchy.levelmin_ rh)) d ltac:(lia) Hd) as H.
      replace (refinement_hierarchy.levelmin_ rh
               + Z.of_nat (Z.to_nat (L - refinement_hierarchy.levelmin_ rh))) with L in H by lia.
      exact H.
    + rewrite Hout by assumption. apply keeps_absolute_offset_abs, Hkeep.
Qed.

Lemma resolve_offsets_fixed_point_witness :
  refinement_hierarchy.offset (refinement_hierarchy.resolve_offsets rh_example) 2 0
  = refinement_hierarchy.offset rh_example 2 0
  ∧ refinement_hierarchy.offset_abs (refinement_hierarchy.resolve_offsets rh_example) 2 0
    = refinement_hierarchy.offset_abs rh_example 2 0.
Proof.
  apply (resolve_offsets_fixed_point rh_example); [| | |lia].
  - exact rh_example_sized.
  - rewrite rh_example_fields. intros L d HL Hd.
    change (refinement_hierarchy.levelmin_ _) with 1 in HL.
    change (refinement_hierarchy.levelmax_ _) with 2 in HL.
    assert (L = 1 ∨ L = 2) as [-> | ->] by lia;
      (assert (d = 0 ∨ d = 1 ∨ d = 2) as [-> | [-> | ->]] by lia);
      vm_compute; repeat split; congruence.
  - exact rh_example_consistent.
Defined.

(** *** [adjust_level] *)

(** level [i] covers the whole domain: the test of [find_new_levelmin] *)
Definition rh_full (rh : refinement_hierarchy.t) (i : Z) : Prop :=
  let n := to_unsigned (Z.shiftl 1 i) in
  vec_at refinement_hierarchy.zero3 (refinement_hierarchy.absoffsets_ rh) i
  = refinement_hierarchy.zero3
  ∧ vec_at refinement_hierarchy.zero3 (refinement_hierarchy.len_ rh) i = (n, n, n).

Lemma rh_find_new_levelmin_steps rh (k : nat) :
  ∃ lm, for_range 0 (Z.of_nat k) (fun i rh =>
          let n := to_unsigned (Z.shiftl 1 i) in
          if decide (vec_at refinement_hierarchy.zero3 (refinement_hierarchy.absoffsets_ rh) i
                     = refinement_hierarchy.zero3
                     ∧ vec_at refinement_hierarchy.zero3 (refinement_hierarchy.len_ rh) i
                       = (n, n, n))
          then refinement_hierarchy.with_levelmin rh i else rh) rh
        = refinement_hierarchy.with_levelmin rh lm
        ∧ ((lm = refinement_hierarchy.levelmin_ rh
            ∧ ∀ i, 0 ≤ i < Z.of_nat k → ¬ rh_full rh i)
           ∨ (0 ≤ lm < Z.of_nat k ∧ rh_full rh lm
              ∧ ∀ i, 0 ≤ i < Z.of_nat k → rh_full rh i → i ≤ lm)).
Proof.
  induction k as [|k (lm & Heq & Hlm)].
  - exists (refinement_hierarchy.levelmin_ rh). rewrite for_range_0.
    split; [destruct rh; reflexivity|]. left. split; [reflexivity | intros; lia].
  - rewrite for_range_S, Heq, Z.add_0_l. cbn zeta.
    change (refinement_hierarchy.absoffsets_ (refinement_hierarchy.with_levelmin rh lm))
      with (refinement_hierarchy.absoffsets_ rh).
    change (refinement_hierarchy.len_ (refinement_hierarchy.with_levelmin rh lm))
      with (refinement_hierarchy.len_ rh).
    destruct (decide _) as [Hfull|Hnfull].
    + exists (Z.of_nat k). split; [reflexivity|]. right.
      split; [lia|]. split; [exact Hfull|]. intros i Hi _. lia.
    + exists lm. split; [reflexivity|].
      destruct Hlm as [[-> Hnone] | (Hr & Hf & Hge)].
      * left. split; [reflexivity|]. intros i Hi.
        destruct (decide (i = Z.of_nat k)) as [->|Hne]; [exact Hnfull | apply Hnone; lia].
      * right. split; [lia|]. split; [exact Hf|]. intros i Hi Hfi.
        destruct (decide (i = Z.of_nat k)) as [->|Hne]; [contradiction | apply Hge; [lia | exact Hfi]].
Qed.

Lemma for_range_to_nat {S} lo n (body : Z → S → S) s :
  for_range lo n body s = for_range lo (Z.of_nat (Z.to_nat n)) body s.
Proof. unfold for_range, seqZ. rewrite Nat2Z.id. reflexivity. Qed.

Lemma rh_find_new_levelmin_cases rh :
  ∃ lm, refinement_hierarchy.find_new_levelmin rh = refinement_hierarchy.with_levelmin rh lm
        ∧ ((lm = refinement_hierarchy.levelmin_ rh
            ∧ ∀ i, 0 ≤ i ≤ refinement_hierarchy.levelmax_ rh → ¬ rh_full rh i)
           ∨ (0 ≤ lm ≤ refinement_hierarchy.levelmax_ rh ∧ rh_full rh lm
              ∧ ∀ i, 0 ≤ i ≤ refinement_hierarchy.levelmax_ rh → rh_full rh i → i ≤ lm)).
Proof.
  destruct (rh_find_new_levelmin_steps rh (Z.to_nat (refinement_hierarchy.levelmax_ rh + 1)))
    as (lm & Heq & Hlm).
  exists lm. split.
  - unfold refinement_hierarchy.find_new_levelmin, refinement_hierarchy.levelmax.
    rewrite for_range_to_nat. exact Heq.
  - destruct Hlm as [[-> Hnone] | (Hr & Hf & Hge)].
    + left. split; [reflexivity|]. intros i Hi. apply Hnone. lia.
    + right. split; [lia|]. split; [exact Hf|]. intros i Hi. apply Hge. lia.
Qed.

Lemma rh_find_new_levelmin_spec rh :
  ∃ lm, refinement_hierarchy.find_new_levelmin rh = refinement_hierarchy.with_levelmin rh lm
        ∧ (∀ i, 0 ≤ i ≤ refinement_hierarchy.levelmax_ rh → rh_full rh i → i ≤ lm).
Proof.
  destruct (rh_find_new_levelmin_cases rh) as (lm & Heq & Hlm).
  exists lm. split; [exact Heq|]. intros i Hi Hf.
  destruct Hlm as [[_ Hnone] | (_ & _ & Hge)]; [exfalso; exact (Hnone i Hi Hf) | exact (Hge i Hi Hf)].
Qed.

(** [adjust_level] up to the call of [find_new_levelmin] *)
Definition adjusted (rh : refinement_hierarchy.t) (ilevel nx ny nz oax oay oaz : Z)
    : refinement_hierarchy.t :=
  let dx := to_int (to_index (refinement_hierarchy.offset_abs rh ilevel 0 - oax)) in
  let dy := to_int (to_index (refinement_hierarchy.offset_abs rh ilevel 1 - oay)) in
  let dz := to_int (to_index (refinement_hierarchy.offset_abs rh ilevel 2 - oaz)) in
  let rh := refinement_hierarchy.set_offset rh ilevel 0
              (to_index (refinement_hierarchy.offset rh ilevel 0 - Z.quot dx 2)) in
  let rh := refinement_hierarchy.set_offset rh ilevel 1
              (to_index (refinement_hierarchy.offset rh ilevel 1 - Z.quot dy 2)) in
  let rh := refinement_hierarchy.set_offset rh ilevel 2
              (to_index (refinement_hierarchy.offset rh ilevel 2 - Z.quot dz 2)) in
  let rh := refinement_hierarchy.set_absoffset rh ilevel 0 oax in
  let rh := refinement_hierarchy.set_absoffset rh ilevel 1 oay in
  let rh := refinement_hierarchy.set_absoffset rh ilevel 2 oaz in
  let rh := refinement_hierarchy.with_len rh
              (vec_set (refinement_hierarchy.len_ rh) ilevel (nx, ny, nz)) in
  if ilevel <? refinement_hierarchy.levelmax_ rh then
    let rh := refinement_hierarchy.set_offset rh (ilevel + 1) 0
                (to_index (refinement_hierarchy.offset rh (ilevel + 1) 0 + dx)) in
    let rh := refinement_hierarchy.set_offset rh (ilevel + 1) 1
                (to_index (refinement_hierarchy.offset rh (ilevel + 1) 1 + dy)) in
    refinement_hierarchy.set_offset rh (ilevel + 1) 2
      (to_index (refinement_hierarchy.offset rh (ilevel + 1) 2 + dz))
  else rh.

Lemma adjust_level_adjusted rh ilevel nx ny nz oax oay oaz :
  refinement_hierarchy.adjust_level rh ilevel nx ny nz oax oay oaz
  = refinement_hierarchy.find_new_levelmin (adjusted rh ilevel nx ny nz oax oay oaz).
Proof. reflexivity. Qed.

(** the difference [dx], [dy] or [dz] of [adjust_level] *)
Definition adjust_delta (rh : refinement_hierarchy.t) (ilevel d oax oay oaz : Z) : Z :=
  to_int (to_index (refinement_hierarchy.offset_abs rh ilevel d - pick d oax oay oaz)).

Lemma offset_with_len rh v l d :
  refinement_hierarchy.offset (refinement_hierarchy.with_len rh v) l d
  = refinement_hierarchy.offset rh l d.
Proof. reflexivity. Qed.

Lemma offset_abs_with_len rh v l d :
  refinement_hierarchy.offset_abs (refinement_hierarchy.with_len rh v) l d
  = refinement_hierarchy.offset_abs rh l d.
Proof. reflexivity. Qed.

Ltac split_decides :=
  repeat match goal with |- context [decide ?P] => destruct (decide P) as [?|?] end.

Lemma adjusted_fields rh ilevel nx ny nz oax oay oaz :
  rh_sized rh → 0 ≤ ilevel ≤ refinement_hierarchy.levelmax_ rh →
  let rh' := adjusted rh ilevel nx ny nz oax oay oaz in
  refinement_hierarchy.levelmin_ rh' = refinement_hierarchy.levelmin_ rh
  ∧ refinement_hierarchy.levelmax_ rh' = refinement_hierarchy.levelmax_ rh
  ∧ (∀ L, L ≠ ilevel →
       vec_at refinement_hierarchy.zero3 (refinement_hierarchy.absoffsets_ rh') L
       = vec_at refinement_hierarchy.zero3 (refinement_hierarchy.absoffsets_ rh) L
       ∧ vec_at refinement_hierarchy.zero3 (refinement_hierarchy.len_ rh') L
         = vec_at refinement_hierarchy.zero3 (refinement_hierarchy.len_ rh) L)
  ∧ (∀ L d, 0 ≤ d ≤ 2 →
       refinement_hierarchy.offset_abs rh' L d
       = if decide (L = ilevel) then pick d oax oay oaz
         else refinement_hierarchy.offset_abs rh L d)
  ∧ (∀ L d, 0 ≤ d ≤ 2 →
       refinement_hierarchy.offset rh' L d
       = if decide (L = ilevel)
         then to_index (refinement_hierarchy.offset rh ilevel d
                        - Z.quot (adjust_delta rh ilevel d oax oay oaz) 2)
         else if decide (L = ilevel + 1 ∧ ilevel < refinement_hierarchy.levelmax_ rh)
         then to_index (refinement_hierarchy.offset rh (ilevel + 1) d
                        + adjust_delta rh ilevel d oax oay oaz)
         else refinement_hierarchy.offset rh L d).
Proof.
  intros (Hmm & Hmax & Hlo & Hla & Hll) Hi. cbn zeta. unfold adjusted. cbn zeta.
  change (refinement_hierarchy.levelmax_ (refinement_hierarchy.with_len _ _))
    with (refinement_hierarchy.levelmax_ rh).
  destruct (ilevel <? refinement_hierarchy.levelmax_ rh) eqn:Hlt;
    [apply Z.ltb_lt in Hlt | apply Z.ltb_ge in Hlt].
  all: split; [reflexivity|]; split; [reflexivity|]; split; [|split].
  all: try (intros L HL; cbn; rewrite !vec_at_set_ne by congruence; split; reflexivity).
  all: intros L d Hd; unfold adjust_delta.
  all: repeat first
         [ rewrite offset_abs_set_offset | rewrite offset_with_len | rewrite offset_abs_with_len
         | rewrite offset_set_absoffset
         | rewrite offset_set_offset by (cbn; rewrite ?length_vec_set; lia)
         | rewrite offset_abs_set_absoffset by (cbn; rewrite ?length_vec_set; lia) ].
  all: split_decides; try reflexivity; try (exfalso; lia).
  all: assert (d = 0 ∨ d = 1 ∨ d = 2) as [-> | [-> | ->]] by lia;
    try reflexivity; exfalso; lia.
Qed.

(** offsets below [2^29] in magnitude: a hierarchy of at most 29 levels *)
Definition small (z : Z) : Prop := - 2 ^ 29 < z < 2 ^ 29.

Lemma quot_even_half z : Z.even z = true → 2 * Z.quot z 2 = z.
Proof.
  intros He. apply Z.even_spec in He as [m ->].
  rewrite (Z.mul_comm 2 m), Z.quot_mul by lia. lia.
Qed.

(** X3. [adjust_level] keeps the doubling rule on every level above the
    new [levelmin_] when the new absolute offset of [ilevel] differs from
    the old one by an even amount in each dimension: the relative offset
    of [ilevel] takes half the difference and the one of [ilevel + 1]
    gives the whole difference back. Level [levelmin_] covers the domain
    and the offsets involved are below [2^29] in magnitude. *)
Theorem adjust_level_keeps_doubling_rule rh ilevel nx ny nz oax oay oaz :
  rh_sized rh →
  refinement_hierarchy.levelmin rh < ilevel ≤ refinement_hierarchy.levelmax rh →
  rh_full rh (refinement_hierarchy.levelmin rh) →
  (∀ d, 0 ≤ d ≤ 2 →
     Z.even (refinement_hierarchy.offset_abs rh ilevel d - pick d oax oay oaz) = true) →
  (∀ d, 0 ≤ d ≤ 2 →
     small (refinement_hierarchy.offset_abs rh ilevel d) ∧ small (pick d oax oay oaz)
     ∧ small (refinement_hierarchy.offset rh ilevel d)
     ∧ small (refinement_hierarchy.offset rh (ilevel + 1) d)) →
  rh_consistent rh →
  rh_consistent (refinement_hierarchy.adjust_level rh ilevel nx ny nz oax oay oaz).
Proof.
  intros Hs HL Hfull Heven Hsmall Hc.
  pose proof Hs as (Hmm & Hmax & Hlo & Hla & Hll).
  unfold refinement_hierarchy.levelmin, refinement_hierarchy.levelmax in HL, Hfull.
  rewrite adjust_level_adjusted.
  destruct (adjusted_fields rh ilevel nx ny nz oax oay oaz Hs ltac:(lia))
    as (Hmin' & Hmax' & Hsame & Habs & Hoff).
  set (rh' := adjusted rh ilevel nx ny nz oax oay oaz) in *.
  destruct (rh_find_new_levelmin_spec rh') as (lm & -> & Hge).
  assert (refinement_hierarchy.levelmin_ rh ≤ lm) as Hlm.
  { apply Hge; [lia|]. unfold rh_full.
    destruct (Hsame (refinement_hierarchy.levelmin_ rh) ltac:(lia)) as [-> ->].
    exact Hfull. }
  intros L d HLr Hd.
  unfold refinement_hierarchy.levelmin, refinement_hierarchy.levelmax in HLr.
  cbn [refinement_hierarchy.with_levelmin refinement_hierarchy.levelmin_
       refinement_hierarchy.levelmax_] in HLr.
  rewrite Hmax' in HLr.
  unfold rh_rule.
  change (refinement_hierarchy.offset_abs (refinement_hierarchy.with_levelmin rh' lm))
    with (refinement_hierarchy.offset_abs rh').
  change (refinement_hierarchy.offset (refinement_hierarchy.with_levelmin rh' lm))
    with (refinement_hierarchy.offset rh').
  rewrite !Habs, Hoff by exact Hd.
  destruct (Hsmall d Hd) as (Ha & Ho & Hr & Hr1). unfold small in *.
  assert (adjust_delta rh ilevel d oax oay oaz
          = refinement_hierarchy.offset_abs rh ilevel d - pick d oax oay oaz) as Hdelta.
  { unfold adjust_delta. change (2 ^ 29) with 536870912 in *.
    rewrite to_index_small by lia. apply to_int_small. lia. }
  rewrite Hdelta.
  pose proof (quot_even_half _ (Heven d Hd)) as Hhalf.
  pose proof (Hc L d ltac:(unfold refinement_hierarchy.levelmin,
                             refinement_hierarchy.levelmax; lia) Hd) as Hrule.
  unfold rh_rule in Hrule.
  change (2 ^ 29) with 536870912 in *.
  destruct (decide (L = ilevel)) as [->|Hne].
  - destruct (decide (ilevel - 1 = ilevel)) as [?|_]; [exfalso; lia|].
    rewrite to_index_small by lia. lia.
  - destruct (decide (L - 1 = ilevel)) as [He|Hne1].
    + destruct (decide _) as [_|Hn]; [|exfalso; lia].
      replace (ilevel + 1) with L by lia.
      replace (ilevel + 1) with L in Hr1 by lia.
      replace ilevel with (L - 1) in * by lia.
      rewrite to_index_small by lia. lia.
    + destruct (decide _) as [?|_]; [exfalso; lia|]. exact Hrule.
Qed.

Lemma adjust_level_keeps_doubling_rule_witness :
  rh_consistent (refinement_hierarchy.adjust_level rh_example 2 2 2 2 4 0 2).
Proof.
  apply (adjust_level_keeps_doubling_rule rh_example 2 2 2 2 4 0 2).
  - exact rh_example_sized.
  - vm_compute. split; [reflexivity | congruence].
  - vm_compute. split; reflexivity.
  - intros d Hd.
    assert (d = 0 ∨ d = 1 ∨ d = 2) as [-> | [-> | ->]] by lia; vm_compute; reflexivity.
  - intros d Hd.
    assert (d = 0 ∨ d = 1 ∨ d = 2) as [-> | [-> | ->]] by lia;
      vm_compute; repeat split; congruence.
  - exact rh_example_consistent.
Defined.


(** X4. After [adjust_level] the rule holds on level [ilevel] in
    dimension [d] exactly when the old and the new absolute offset differ
    by an even amount there: [dx / 2] drops the odd unit. *)
Theorem adjust_level_rule_iff_even rh ilevel nx ny nz oax oay oaz d :
  rh_sized rh →
  0 < ilevel ≤ refinement_hierarchy.levelmax rh → 0 ≤ d ≤ 2 →
  small (refinement_hierarchy.offset_abs rh ilevel d) → small (pick d oax oay oaz) →
  small (refinement_hierarchy.offset rh ilevel d) →
  rh_rule rh ilevel d →
  rh_rule (refinement_hierarchy.adjust_level rh ilevel nx ny nz oax oay oaz) ilevel d
  ↔ Z.even (refinement_hierarchy.offset_abs rh ilevel d - pick d oax oay oaz) = true.
Proof.
  intros Hs HL Hd Ha Ho Hr Hrule.
  pose proof Hs as (Hmm & Hmax & Hlo & Hla & Hll).
  unfold refinement_hierarchy.levelmax in HL.
  rewrite adjust_level_adjusted.
  destruct (adjusted_fields rh ilevel nx ny nz oax oay oaz Hs ltac:(lia))
    as (Hmin' & Hmax' & Hsame & Habs & Hoff).
  set (rh' := adjusted rh ilevel nx ny nz oax oay oaz) in *.
  destruct (rh_find_new_levelmin_spec rh') as (lm & -> & _).
  unfold rh_rule in *.
  change (refinement_hierarchy.offset_abs (refinement_hierarchy.with_levelmin rh' lm))
    with (refinement_hierarchy.offset_abs rh').
  change (refinement_hierarchy.offset (refinement_hierarchy.with_levelmin rh' lm))
    with (refinement_hierarchy.offset rh').
  rewrite !Habs, Hoff by exact Hd.
  destruct (decide (ilevel = ilevel)) as [_|?]; [|congruence].
  destruct (decide (ilevel - 1 = ilevel)) as [?|_]; [exfalso; lia|].
  unfold small in *. change (2 ^ 29) with 536870912 in *.
  assert (adjust_delta rh ilevel d oax oay oaz
          = refinement_hierarchy.offset_abs rh ilevel d - pick d oax oay oaz) as ->.
  { unfold adjust_delta. rewrite to_index_small by lia. apply to_int_small. lia. }
  set (D := refinement_hierarchy.offset_abs rh ilevel d - pick d oax oay oaz) in *.
  assert (- 536870912 ≤ Z.quot D 2 ≤ 536870912) as Hq.
  { split; [apply Z.quot_le_lower_bound | apply Z.quot_le_upper_bound]; lia. }
  rewrite to_index_small by lia.
  split.
  - intros H. apply Z.even_spec. exists (Z.quot D 2). lia.
  - intros He. pose proof (quot_even_half _ He). lia.
Qed.

Lemma adjust_level_rule_iff_even_witness :
  rh_rule (refinement_hierarchy.adjust_level rh_example 2 2 2 2 3 2 2) 2 0
  ↔ Z.even (refinement_hierarchy.offset_abs rh_example 2 0 - pick 0 3 2 2) = true.
Proof.
  apply (adjust_level_rule_iff_even rh_example 2 2 2 2 3 2 2 0).
  - exact rh_example_sized.
  - vm_compute. split; [reflexivity | congruence].
  - lia.
  - vm_compute. split; reflexivity.
  - vm_compute. split; reflexivity.
  - vm_compute. split; reflexivity.
  - vm_compute. reflexivity.
Defined.


(** X5. [refinement_hierarchy::find_new_levelmin] changes [levelmin_]
    only: to the largest level from 0 to [levelmax_] whose box starts at
    the origin and has [2^i] cells in each dimension, and not at all when
    there is no such level; [1 << i] needs [levelmax_ <= 30]. *)
Theorem rh_find_new_levelmin_largest_full rh :
  refinement_hierarchy.levelmax_ rh ≤ 30 →
  ∃ lm, refinement_hierarchy.find_new_levelmin rh = refinement_hierarchy.with_levelmin rh lm
        ∧ ((lm = refinement_hierarchy.levelmin_ rh
            ∧ ∀ i, 0 ≤ i ≤ refinement_hierarchy.levelmax_ rh → ¬ rh_full rh i)
           ∨ (0 ≤ lm ≤ refinement_hierarchy.levelmax_ rh ∧ rh_full rh lm
              ∧ ∀ i, 0 ≤ i ≤ refinement_hierarchy.levelmax_ rh → rh_full rh i → i ≤ lm)).
Proof. intros _. apply rh_find_new_levelmin_cases. Qed.

Lemma rh_find_new_levelmin_largest_full_witness :
  ∃ lm, refinement_hierarchy.find_new_levelmin rh_example
        = refinement_hierarchy.with_levelmin rh_example lm
        ∧ ((lm = refinement_hierarchy.levelmin_ rh_example
            ∧ ∀ i, 0 ≤ i ≤ refinement_hierarchy.levelmax_ rh_example → ¬ rh_full rh_example i)
           ∨ (0 ≤ lm ≤ refinement_hierarchy.levelmax_ rh_example ∧ rh_full rh_example lm
              ∧ ∀ i, 0 ≤ i ≤ refinement_hierarchy.levelmax_ rh_example →
                     rh_full rh_example i → i ≤ lm)).
Proof.
  apply (rh_find_new_levelmin_largest_full rh_example).
  vm_compute. congruence.
Defined.

(** *** [GridHierarchy::cut_patch] *)

Definition gh_rule (gh : GridHierarchy.t) (L d : Z) : Prop :=
  GridHierarchy.offset_abs gh L d
  = 2 * GridHierarchy.offset_abs gh (L - 1) d + 2 * GridHierarchy.offset gh L d.

Definition gh_consistent (gh : GridHierarchy.t) : Prop :=
  ∀ L d, GridHierarchy.levelmin gh < L ≤ GridHierarchy.levelmax gh → 0 ≤ d ≤ 2 →
         gh_rule gh L d.

(** one absolute offset per stored grid *)
Definition gh_sized (gh : GridHierarchy.t) : Prop :=
  0 ≤ GridHierarchy.m_levelmin gh
  ∧ 0 < Z.of_nat (length (GridHierarchy.m_pgrids gh)) < 2 ^ 31
  ∧ length (GridHierarchy.m_xoffabs gh) = length (GridHierarchy.m_pgrids gh)
  ∧ length (GridHierarchy.m_yoffabs gh) = length (GridHierarchy.m_pgrids gh)
  ∧ length (GridHierarchy.m_zoffabs gh) = length (GridHierarchy.m_pgrids gh).

(** the test of [GridHierarchy::find_new_levelmin] on level [i] *)
Definition gh_full (gh : GridHierarchy.t) (i : Z) : bool :=
  let n := to_unsigned (Z.shiftl 1 i) in
  (MeshvarBnd.size (GridHierarchy.grid gh i) 0 =? n)
  && (MeshvarBnd.size (GridHierarchy.grid gh i) 1 =? n)
  && (MeshvarBnd.size (GridHierarchy.grid gh i) 2 =? n).

Lemma gh_levelmax gh :
  gh_sized gh → GridHierarchy.levelmax gh = Z.of_nat (length (GridHierarchy.m_pgrids gh)) - 1.
Proof.
  intros (_ & Hl & _). unfold GridHierarchy.levelmax.
  rewrite to_size_t_small by lia. apply to_unsigned_small. lia.
Qed.

Lemma gh_find_new_levelmin_steps gh (k : nat) :
  ∃ lm, for_range 0 (Z.of_nat k) (fun i gh =>
          let n := to_unsigned (Z.shiftl 1 i) in
          if (MeshvarBnd.size (GridHierarchy.grid gh i) 0 =? n) &&
             (MeshvarBnd.size (GridHierarchy.grid gh i) 1 =? n) &&
             (MeshvarBnd.size (GridHierarchy.grid gh i) 2 =? n)
          then GridHierarchy.with_levelmin gh i else gh) gh
        = GridHierarchy.with_levelmin gh lm
        ∧ ((lm = GridHierarchy.m_levelmin gh
            ∧ ∀ i, 0 ≤ i < Z.of_nat k → gh_full gh i = false)
           ∨ (0 ≤ lm < Z.of_nat k ∧ gh_full gh lm = true
              ∧ ∀ i, 0 ≤ i < Z.of_nat k → gh_full gh i = true → i ≤ lm)).
Proof.
  induction k as [|k (lm & Heq & Hlm)].
  - exists (GridHierarchy.m_levelmin gh). rewrite for_range_0.
    split; [destruct gh; reflexivity|]. left. split; [reflexivity | intros; lia].
  - rewrite for_range_S, Heq, Z.add_0_l. cbn zeta.
    change (GridHierarchy.grid (GridHierarchy.with_levelmin gh lm))
      with (GridHierarchy.grid gh).
    fold (gh_full gh (Z.of_nat k)).
    destruct (gh_full gh (Z.of_nat k)) eqn:Hfull.
    + exists (Z.of_nat k). split; [reflexivity|]. right.
      split; [lia|]. split; [exact Hfull|]. intros i Hi _. lia.
    + exists lm. split; [reflexivity|].
      destruct Hlm as [[-> Hnone] | (Hr & Hf & Hge)].
      * left. split; [reflexivity|]. intros i Hi.
        destruct (decide (i = Z.of_nat k)) as [->|Hne]; [exact Hfull | apply Hnone; lia].
      * right. split; [lia|]. split; [exact Hf|]. intros i Hi Hfi.
        destruct (decide (i = Z.of_nat k)) as [->|Hne]; [congruence | apply Hge; [lia | exact Hfi]].
Qed.

Lemma gh_find_new_levelmin_cases gh :
  ∃ lm, GridHierarchy.find_new_levelmin gh = GridHierarchy.with_levelmin gh lm
        ∧ ((lm = GridHierarchy.m_levelmin gh
            ∧ ∀ i, 0 ≤ i ≤ GridHierarchy.levelmax gh → gh_full gh i = false)
           ∨ (0 ≤ lm ≤ GridHierarchy.levelmax gh ∧ gh_full gh lm = true
              ∧ ∀ i, 0 ≤ i ≤ GridHierarchy.levelmax gh → gh_full gh i = true → i ≤ lm)).
Proof.
  destruct (gh_find_new_levelmin_steps gh (Z.to_nat (GridHierarchy.levelmax gh + 1)))
    as (lm & Heq & Hlm).
  exists lm. split.
  - unfold GridHierarchy.find_new_levelmin. rewrite for_range_to_nat. exact Heq.
  - destruct Hlm as [[-> Hnone] | (Hr & Hf & Hge)].
    + left. split; [reflexivity|]. intros i Hi. apply Hnone. lia.
    + right. split; [lia|]. split; [exact Hf|]. intros i Hi. apply Hge. lia.
Qed.

Lemma gh_find_new_levelmin_spec gh :
  ∃ lm, GridHierarchy.find_new_levelmin gh = GridHierarchy.with_levelmin gh lm
        ∧ (∀ i, 0 ≤ i ≤ GridHierarchy.levelmax gh → gh_full gh i = true → i ≤ lm).
Proof.
  destruct (gh_find_new_levelmin_cases gh) as (lm & Heq & Hlm).
  exists lm. split; [exact Heq|]. intros i Hi Hf.
  destruct Hlm as [[_ Hnone] | (_ & _ & Hge)]; [|exact (Hge i Hi Hf)].
  rewrite (Hnone i Hi) in Hf. discriminate.
Qed.

(** the vector of absolute offsets of dimension [d] *)
Definition offabs (gh : GridHierarchy.t) (d : Z) : list Z :=
  if d =? 0 then GridHierarchy.m_xoffabs gh
  else if d =? 1 then GridHierarchy.m_yoffabs gh else GridHierarchy.m_zoffabs gh.

Lemma offset_abs_offabs gh L d :
  GridHierarchy.offset_abs gh L d = vec_at 0 (offabs gh d) L.
Proof. unfold GridHierarchy.offset_abs, offabs. destruct (d =? 0), (d =? 1); reflexivity. Qed.

(** [dx], [dy] or [dz] of [cut_patch] *)
Definition cut_delta_dim (gh : GridHierarchy.t) (ilevel d xoff yoff zoff : Z) : Z :=
  cut_delta (offabs gh d) ilevel (pick d xoff yoff zoff).

Lemma cut_placed_offset_abs gh ilevel xoff yoff zoff M L d :
  gh_sized gh → 0 ≤ ilevel < Z.of_nat (length (GridHierarchy.m_pgrids gh)) → 0 ≤ d ≤ 2 →
  GridHierarchy.offset_abs (cut_placed gh ilevel xoff yoff zoff M) L d
  = if decide (L = ilevel)
    then to_int (to_unsigned (to_unsigned (GridHierarchy.offset_abs gh ilevel d)
                              + cut_delta_dim gh ilevel d xoff yoff zoff))
    else GridHierarchy.offset_abs gh L d.
Proof.
  intros (_ & _ & Hx & Hy & Hz) Hi Hd. unfold cut_placed. cbn zeta.
  assert (∀ gh0 l f, GridHierarchy.offset_abs (GridHierarchy.upd_grid gh0 l f) L d
                     = GridHierarchy.offset_abs gh0 L d) as Hupd by reflexivity.
  destruct (_ <? _); rewrite ?Hupd.
  all: unfold GridHierarchy.offset_abs, cut_delta_dim, offabs, pick;
    cbn [GridHierarchy.with_offabs GridHierarchy.with_pgrids GridHierarchy.m_xoffabs
         GridHierarchy.m_yoffabs GridHierarchy.m_zoffabs GridHierarchy.m_pgrids].
  all: destruct (decide (L = ilevel)) as [->|Hne]; destruct (d =? 0), (d =? 1);
    first [ apply vec_at_set_eq; lia | apply vec_at_set_ne; lia ].
Qed.

Lemma offset_set_offset_dim g dim v d :
  0 ≤ dim ≤ 2 → 0 ≤ d ≤ 2 →
  MeshvarBnd.offset (MeshvarBnd.set_offset g dim v) d
  = if decide (dim = d) then v else MeshvarBnd.offset g d.
Proof.
  intros Hdim Hd. destruct g.
  assert (dim = 0 ∨ dim = 1 ∨ dim = 2) as [-> | [-> | ->]] by lia;
    assert (d = 0 ∨ d = 1 ∨ d = 2) as [-> | [-> | ->]] by lia; reflexivity.
Qed.

Lemma cut_placed_offset gh ilevel xoff yoff zoff M L d :
  gh_sized gh → 0 ≤ ilevel < Z.of_nat (length (GridHierarchy.m_pgrids gh)) → 0 ≤ d ≤ 2 →
  GridHierarchy.offset (cut_placed gh ilevel xoff yoff zoff M) L d
  = if decide (L = ilevel) then MeshvarBnd.offset M d
    else if decide (L = ilevel + 1 ∧ ilevel < GridHierarchy.levelmax gh)
    then to_int (to_unsigned (to_unsigned (GridHierarchy.offset gh (ilevel + 1) d)
                              - cut_delta_dim gh ilevel d xoff yoff zoff))
    else GridHierarchy.offset gh L d.
Proof.
  intros Hs Hi Hd. pose proof (gh_levelmax gh Hs) as Hmax.
  unfold GridHierarchy.offset.
  destruct (decide (L = ilevel)) as [->|Hne].
  { rewrite cut_placed_grid_same by exact Hi. reflexivity. }
  unfold cut_placed. cbn zeta.
  change (GridHierarchy.levelmax (GridHierarchy.with_offabs _ _ _ _))
    with (to_unsigned (to_size_t (Z.of_nat (length (vec_set (GridHierarchy.m_pgrids gh) ilevel M)) - 1))).
  rewrite length_vec_set. fold (GridHierarchy.levelmax gh).
  destruct (ilevel <? GridHierarchy.levelmax gh) eqn:Hlt;
    [apply Z.ltb_lt in Hlt | apply Z.ltb_ge in Hlt].
  - destruct (decide (L = ilevel + 1)) as [->|Hne1].
    + destruct (decide _) as [_|Hn]; [|exfalso; lia].
      rewrite grid_upd_grid_eq by (cbn; rewrite length_vec_set; lia).
      match goal with
      | |- context [GridHierarchy.grid ?g (ilevel + 1)] =>
          tryif constr_eq g gh then fail else
          assert (GridHierarchy.grid g (ilevel + 1) = GridHierarchy.grid gh (ilevel + 1)) as ->
            by (unfold GridHierarchy.grid; cbn; apply vec_at_set_ne; lia)
      end.
      unfold cut_delta_dim, offabs, pick.
      rewrite !offset_set_offset_dim by lia.
      assert (d = 0 ∨ d = 1 ∨ d = 2) as [-> | [-> | ->]] by lia; reflexivity.
    + destruct (decide _) as [?|_]; [exfalso; lia|].
      rewrite grid_upd_grid_ne by lia.
      unfold GridHierarchy.grid. cbn. rewrite vec_at_set_ne by lia. reflexivity.
  - destruct (decide _) as [?|_]; [exfalso; lia|].
    unfold GridHierarchy.grid. cbn. rewrite vec_at_set_ne by lia. reflexivity.
Qed.

(** two hierarchies with the same levels, absolute offsets and grid
    geometry, whatever the cells hold *)
Definition same_geometry (gh gh' : GridHierarchy.t) : Prop :=
  GridHierarchy.m_levelmin gh' = GridHierarchy.m_levelmin gh
  ∧ GridHierarchy.m_xoffabs gh' = GridHierarchy.m_xoffabs gh
  ∧ GridHierarchy.m_yoffabs gh' = GridHierarchy.m_yoffabs gh
  ∧ GridHierarchy.m_zoffabs gh' = GridHierarchy.m_zoffabs gh
  ∧ length (GridHierarchy.m_pgrids gh') = length (GridHierarchy.m_pgrids gh)
  ∧ ∀ L, same_shape (GridHierarchy.grid gh L) (GridHierarchy.grid gh' L).

Lemma same_geometry_refl gh : same_geometry gh gh.
Proof. repeat split; reflexivity. Qed.

Lemma same_geometry_upd_grid gh l F :
  (∀ g, same_shape g (F g)) → same_geometry gh (GridHierarchy.upd_grid gh l F).
Proof.
  intros HF. unfold same_geometry, GridHierarchy.upd_grid. cbn.
  rewrite length_vec_set. repeat split; try reflexivity.
  - destruct (decide (L = l)) as [->|Hne].
    + destruct (decide (0 ≤ l < Z.of_nat (length (GridHierarchy.m_pgrids gh)))) as [Hl|Hl].
      * unfold GridHierarchy.grid at 2. cbn. rewrite vec_at_set_eq by exact Hl.
        apply (proj1 (HF _)).
      * unfold vec_set. destruct (in_vec _ l) eqn:E; [|reflexivity].
        apply in_vec_true in E. contradiction.
    + unfold GridHierarchy.grid at 2. cbn. rewrite vec_at_set_ne by congruence. reflexivity.
  - destruct (decide (L = l)) as [->|Hne].
    + destruct (decide (0 ≤ l < Z.of_nat (length (GridHierarchy.m_pgrids gh)))) as [Hl|Hl].
      * unfold GridHierarchy.grid at 2. cbn. rewrite vec_at_set_eq by exact Hl.
        apply (proj2 (HF _)).
      * unfold vec_set. destruct (in_vec _ l) eqn:E; [|reflexivity].
        apply in_vec_true in E. contradiction.
    + unfold GridHierarchy.grid at 2. cbn. rewrite vec_at_set_ne by congruence. reflexivity.
Qed.

Lemma same_shape_cell_loop (U : Z → Z → Z → MeshvarBnd.t → Qc) (P : Z → Z → Z → Z * Z * Z)
    (cs : list (Z * Z * Z)) g :
  same_shape g
    (fold_left (fun g '(i, j, k) =>
       let '(a, b, c) := P i j k in MeshvarBnd.set g a b c (U i j k g)) cs g).
Proof.
  apply (fold_left_preserves (fun s => same_shape g s)); [apply same_shape_refl|].
  intros s [[i j] k] _ Hs. destruct (P i j k) as [[a b] c].
  eapply same_shape_trans; [exact Hs | apply same_shape_set].
Qed.

Lemma cut_corrected_geometry gh ilevel nx ny nz e fs fc :
  same_geometry gh (cut_corrected gh ilevel nx ny nz e fs fc).
Proof.
  unfold cut_corrected. cbn zeta.
  destruct e; destruct (_ <? _); try apply same_geometry_refl;
    rewrite for_cells_upd_grid; apply same_geometry_upd_grid; intros g.
  - apply (same_shape_cell_loop
             (fun i j k g => (MeshvarBnd.get g i j k + _)%Qc) (fun i j k => (i, j, k))).
  - apply (same_shape_cell_loop
             (fun i j k g => (MeshvarBnd.get g (to_unsigned (i + to_unsigned _))
                                (to_unsigned (j + to_unsigned _))
                                (to_unsigned (k + to_unsigned _)) - _)%Qc)
             (fun i j k => (to_unsigned (i + to_unsigned _), to_unsigned (j + to_unsigned _),
                            to_unsigned (k + to_unsigned _)))).
Qed.

Lemma same_geometry_offset gh gh' L d :
  same_geometry gh gh' → GridHierarchy.offset gh' L d = GridHierarchy.offset gh L d.
Proof.
  intros (_ & _ & _ & _ & _ & Hg). unfold GridHierarchy.offset.
  symmetry. apply same_shape_offset, Hg.
Qed.

Lemma same_geometry_offset_abs gh gh' L d :
  same_geometry gh gh' → GridHierarchy.offset_abs gh' L d = GridHierarchy.offset_abs gh L d.
Proof.
  intros (_ & Hx & Hy & Hz & _). unfold GridHierarchy.offset_abs.
  rewrite Hx, Hy, Hz. reflexivity.
Qed.

Lemma same_geometry_full gh gh' i : same_geometry gh gh' → gh_full gh' i = gh_full gh i.
Proof.
  intros (_ & _ & _ & _ & _ & Hg). unfold gh_full. cbn zeta.
  rewrite <- !(same_shape_size _ _ _ (Hg i)). reflexivity.
Qed.

(** [cut_patch] by stages, whatever the extents: the grid put in place
    has the geometry of the one allocated *)
Lemma cut_patch_geometry gh ilevel xoff yoff zoff nx ny nz e :
  cut_assertion gh ilevel xoff yoff zoff = true →
  ∃ M fs fc,
    same_shape (cut_fresh gh ilevel xoff yoff zoff nx ny nz) M
    ∧ GridHierarchy.cut_patch gh ilevel xoff yoff zoff nx ny nz e
      = Ok (GridHierarchy.find_new_levelmin
              (cut_corrected (cut_placed gh ilevel xoff yoff zoff M) ilevel nx ny nz e fs fc)).
Proof.
  intros Hassert.
  unfold GridHierarchy.cut_patch.
  fold (cut_delta (GridHierarchy.m_xoffabs gh) ilevel xoff).
  fold (cut_delta (GridHierarchy.m_yoffabs gh) ilevel yoff).
  fold (cut_delta (GridHierarchy.m_zoffabs gh) ilevel zoff).
  fold (cut_assertion gh ilevel xoff yoff zoff). rewrite Hassert. cbn [negb]. cbn zeta.
  match goal with
  | |- context [for_cells nx ny nz ?f (?m, 0%Qc, 0)] =>
      set (copied := for_cells nx ny nz f (m, 0%Qc, 0))
  end.
  exists copied.1.1, copied.1.2, copied.2. split.
  - unfold copied, for_cells.
    apply (fold_left_preserves
             (fun s => same_shape (cut_fresh gh ilevel xoff yoff zoff nx ny nz) s.1.1)).
    + apply same_shape_refl.
    + intros [[m s] c] [[i j] k] _ Hs. cbn in *.
      eapply same_shape_trans; [exact Hs | apply same_shape_set].
  - unfold cut_placed, cut_corrected, cut_coarse_mean. reflexivity.
Qed.

Lemma cut_fresh_offset gh ilevel xoff yoff zoff nx ny nz d :
  0 ≤ d ≤ 2 →
  MeshvarBnd.offset (cut_fresh gh ilevel xoff yoff zoff nx ny nz) d
  = to_int (to_unsigned (GridHierarchy.offset gh ilevel d)
            + cut_delta_dim gh ilevel d xoff yoff zoff / 2).
Proof.
  intros Hd. unfold cut_fresh, cut_top, cut_delta_dim, offabs, pick, GridHierarchy.offset.
  assert (d = 0 ∨ d = 1 ∨ d = 2) as [-> | [-> | ->]] by lia;
    cbn [MeshvarBnd.offset MeshvarBnd.new MeshvarBnd.m_offx MeshvarBnd.m_offy
         MeshvarBnd.m_offz Z.eqb Pos.eqb];
    rewrite to_int_to_size_t, to_int_to_unsigned; reflexivity.
Qed.

Lemma cut_assertion_dim gh ilevel xoff yoff zoff d :
  cut_assertion gh ilevel xoff yoff zoff = true → 0 ≤ d ≤ 2 →
  cut_delta_dim gh ilevel d xoff yoff zoff mod 2 = 0.
Proof.
  unfold cut_assertion. rewrite !andb_true_iff, !Z.eqb_eq. intros [[Hx Hy] Hz] Hd.
  unfold cut_delta_dim, offabs, pick.
  assert (d = 0 ∨ d = 1 ∨ d = 2) as [-> | [-> | ->]] by lia; assumption.
Qed.

(** X6. A call of [cut_patch] that returns keeps the doubling rule of the
    grid hierarchy on every level above the new [levelmin()], when the
    requested absolute offset is not below the current one in any
    dimension (the difference is computed in [unsigned]) and the offsets
    involved are below [2^29] in magnitude; level [levelmin()] has the
    extent of the whole domain. *)
Theorem cut_patch_keeps_doubling_rule gh ilevel xoff yoff zoff nx ny nz e gh' :
  gh_sized gh →
  GridHierarchy.levelmin gh < ilevel ≤ GridHierarchy.levelmax gh →
  gh_full gh (GridHierarchy.levelmin gh) = true →
  (∀ d, 0 ≤ d ≤ 2 →
     0 ≤ GridHierarchy.offset_abs gh ilevel d ≤ pick d xoff yoff zoff
     ∧ pick d xoff yoff zoff < 2 ^ 29
     ∧ small (GridHierarchy.offset gh ilevel d)
     ∧ small (GridHierarchy.offset gh (ilevel + 1) d)) →
  gh_consistent gh →
  GridHierarchy.cut_patch gh ilevel xoff yoff zoff nx ny nz e = Ok gh' →
  gh_consistent gh'.
Proof.
  intros Hs HL Hfull Hsmall Hc Hcut.
  pose proof (gh_levelmax gh Hs) as Hmax.
  pose proof Hs as (Hmin0 & Hlen & Hx & Hy & Hz).
  unfold GridHierarchy.levelmin in HL, Hfull.
  destruct (cut_assertion gh ilevel xoff yoff zoff) eqn:Hassert.
  2: { rewrite (proj1 (cut_patch_guard gh ilevel xoff yoff zoff nx ny nz e) Hassert) in Hcut.
       discriminate. }
  destruct (cut_patch_geometry gh ilevel xoff yoff zoff nx ny nz e Hassert)
    as (M & fs & fc & HM & Heq).
  rewrite Heq in Hcut. injection Hcut as <-.
  set (gh1 := cut_placed gh ilevel xoff yoff zoff M).
  pose proof (cut_corrected_geometry gh1 ilevel nx ny nz e fs fc) as Hgeo.
  set (gh2 := cut_corrected gh1 ilevel nx ny nz e fs fc) in *.
  assert (length (GridHierarchy.m_pgrids gh2) = length (GridHierarchy.m_pgrids gh)) as Hlen2.
  { destruct Hgeo as (_ & _ & _ & _ & -> & _). apply cut_placed_length. }
  assert (gh_sized gh2) as Hs2.
  { destruct Hgeo as (Hm & Hx2 & Hy2 & Hz2 & Hl2 & _).
    unfold gh_sized. rewrite Hm, Hx2, Hy2, Hz2, Hlen2.
    change (GridHierarchy.m_levelmin gh1) with (GridHierarchy.levelmin gh1).
    unfold gh1. rewrite cut_placed_levelmin.
    assert (∀ dd, length (offabs (cut_placed gh ilevel xoff yoff zoff M) dd)
                  = length (GridHierarchy.m_pgrids gh)) as Hoa.
    { intros dd. unfold offabs, cut_placed. cbn zeta.
      destruct (_ <? _); destruct (dd =? 0), (dd =? 1); cbn; rewrite length_vec_set; lia. }
    pose proof (Hoa 0) as H0. pose proof (Hoa 1) as H1. pose proof (Hoa 2) as H2.
    unfold offabs in H0, H1, H2. cbn [Z.eqb Pos.eqb] in H0, H1, H2.
    unfold GridHierarchy.levelmin. repeat split; assumption || lia. }
  assert (GridHierarchy.levelmax gh2 = GridHierarchy.levelmax gh) as Hmax2.
  { unfold GridHierarchy.levelmax. rewrite Hlen2. reflexivity. }
  destruct (gh_find_new_levelmin_spec gh2) as (lm & -> & Hge).
  assert (GridHierarchy.m_levelmin gh ≤ lm) as Hlm.
  { apply Hge; [lia|]. rewrite (same_geometry_full _ _ _ Hgeo).
    unfold gh_full, gh1. rewrite cut_placed_grid_below by lia. exact Hfull. }
  intros L d HLr Hd.
  change (GridHierarchy.levelmin (GridHierarchy.with_levelmin gh2 lm)) with lm in HLr.
  change (GridHierarchy.levelmax (GridHierarchy.with_levelmin gh2 lm))
    with (GridHierarchy.levelmax gh2) in HLr.
  rewrite Hmax2 in HLr.
  unfold gh_rule.
  change (GridHierarchy.offset_abs (GridHierarchy.with_levelmin gh2 lm))
    with (GridHierarchy.offset_abs gh2).
  change (GridHierarchy.offset (GridHierarchy.with_levelmin gh2 lm))
    with (GridHierarchy.offset gh2).
  rewrite !(same_geometry_offset_abs _ _ _ _ Hgeo), (same_geometry_offset _ _ _ _ Hgeo).
  unfold gh1.
  rewrite !cut_placed_offset_abs, cut_placed_offset by (assumption || lia).
  rewrite <- (same_shape_offset _ _ _ HM), cut_fresh_offset by exact Hd.
  destruct (Hsmall d Hd) as (Ha & Ho & Hr & Hr1). unfold small in *.
  pose proof (cut_assertion_dim gh ilevel xoff yoff zoff d Hassert Hd) as Hpar.
  assert (cut_delta_dim gh ilevel d xoff yoff zoff
          = pick d xoff yoff zoff - GridHierarchy.offset_abs gh ilevel d) as Hdelta.
  { unfold cut_delta_dim, cut_delta. rewrite <- offset_abs_offabs.
    change (2 ^ 29) with 536870912 in *.
    rewrite to_unsigned_sub_inner. apply to_unsigned_small. lia. }
  rewrite Hdelta in *.
  set (D := pick d xoff yoff zoff - GridHierarchy.offset_abs gh ilevel d) in *.
  assert (2 * (D / 2) = D) as Hhalf.
  { pose proof (Z.div_mod D 2 ltac:(lia)). lia. }
  pose proof (Hc L d ltac:(unfold GridHierarchy.levelmin; lia) Hd) as Hrule.
  unfold gh_rule in Hrule.
  change (2 ^ 29) with 536870912 in *.
  assert (to_int (to_unsigned (to_unsigned (GridHierarchy.offset_abs gh ilevel d) + D))
          = pick d xoff yoff zoff) as ->.
  { rewrite to_unsigned_add_inner, to_int_to_unsigned.
    replace (GridHierarchy.offset_abs gh ilevel d + D) with (pick d xoff yoff zoff)
      by (unfold D; lia).
    apply to_int_small. lia. }
  assert (to_int (to_unsigned (GridHierarchy.offset gh ilevel d) + D / 2)
          = GridHierarchy.offset gh ilevel d + D / 2) as ->.
  { rewrite <- to_int_to_unsigned, to_unsigned_add_inner, to_int_to_unsigned.
    apply to_int_small. lia. }
  assert (to_int (to_unsigned (to_unsigned (GridHierarchy.offset gh (ilevel + 1) d) - D))
          = GridHierarchy.offset gh (ilevel + 1) d - D) as ->.
  { rewrite to_unsigned_sub_inner_l, to_int_to_unsigned. apply to_int_small. lia. }
  destruct (decide (L = ilevel)) as [->|Hne].
  - destruct (decide (ilevel - 1 = ilevel)) as [?|_]; [exfalso; lia|]. lia.
  - destruct (decide (L - 1 = ilevel)) as [He|Hne1].
    + destruct (decide _) as [_|Hn]; [|exfalso; lia].
      replace (ilevel + 1) with L by lia.
      subst D. replace ilevel with (L - 1) in * by lia. lia.
    + destruct (decide _) as [?|_]; [exfalso; lia|]. exact Hrule.
Qed.

(** A 4x4x4 patch on level 3 at relative offset (1, 1, 1) over a full
    level 2, ghost margin 1, and what is left of it when it is cut to
    the 2x2x2 cells from absolute cell (4, 2, 6) on. *)
Definition shrink_example : GridHierarchy.t :=
  GridHierarchy.add_patch
    (GridHierarchy.create_base_hierarchy (GridHierarchy.new 1) 2) 1 1 1 4 4 4.

Definition shrink_example_result (enforce_coarse_mean : bool) : GridHierarchy.t :=
  match GridHierarchy.cut_patch shrink_example 3 4 2 6 2 2 2 enforce_coarse_mean with
  | Ok gh' => gh'
  | Throw _ => shrink_example
  end.

Lemma shrink_example_sized : gh_sized shrink_example.
Proof. repeat split; vm_compute; congruence. Qed.

Lemma shrink_example_consistent : gh_consistent shrink_example.
Proof.
  intros L d HL Hd.
  change (GridHierarchy.levelmin shrink_example) with 2 in HL.
  change (GridHierarchy.levelmax shrink_example) with 3 in HL.
  assert (L = 3) as -> by lia.
  assert (d = 0 ∨ d = 1 ∨ d = 2) as [-> | [-> | ->]] by lia; vm_compute; reflexivity.
Qed.


Lemma cut_patch_keeps_doubling_rule_witness : gh_consistent (shrink_example_result false).
Proof.
  apply (cut_patch_keeps_doubling_rule shrink_example 3 4 2 6 2 2 2 false).
  - exact shrink_example_sized.
  - vm_compute. split; [reflexivity | congruence].
  - vm_compute. reflexivity.
  - intros d Hd.
    assert (d = 0 ∨ d = 1 ∨ d = 2) as [-> | [-> | ->]] by lia;
      vm_compute; repeat split; congruence.
  - exact shrink_example_consistent.
  - vm_compute. reflexivity.
Defined.

Example shrink_example_offsets :
  GridHierarchy.offset (shrink_example_result false) 3 0 = 2
  ∧ GridHierarchy.offset (shrink_example_result false) 3 1 = 1
  ∧ GridHierarchy.offset (shrink_example_result false) 3 2 = 3
  ∧ GridHierarchy.offset_abs (shrink_example_result false) 3 0 = 4
  ∧ GridHierarchy.offset_abs (shrink_example_result false) 3 2 = 6.
Proof. vm_compute. repeat split; reflexivity. Qed.

(** X7. [GridHierarchy::find_new_levelmin] changes [m_levelmin] only: to
    the largest stored level whose grid has [2^i] cells in each
    dimension, and not at all when there is no such level. *)
Theorem gh_find_new_levelmin_largest_full gh :
  0 < Z.of_nat (length (GridHierarchy.m_pgrids gh)) ≤ 31 →
  let lmax := Z.of_nat (length (GridHierarchy.m_pgrids gh)) - 1 in
  ∃ lm, GridHierarchy.find_new_levelmin gh = GridHierarchy.with_levelmin gh lm
        ∧ ((lm = GridHierarchy.m_levelmin gh
            ∧ ∀ i, 0 ≤ i ≤ lmax → gh_full gh i = false)
           ∨ (0 ≤ lm ≤ lmax ∧ gh_full gh lm = true
              ∧ ∀ i, 0 ≤ i ≤ lmax → gh_full gh i = true → i ≤ lm)).
Proof.
  intros Hlen lmax.
  assert (GridHierarchy.levelmax gh = lmax) as Hmax.
  { unfold GridHierarchy.levelmax. fold lmax.
    rewrite (to_size_t_small lmax) by lia. apply to_unsigned_small. lia. }
  rewrite <- Hmax. apply gh_find_new_levelmin_cases.
Qed.

Lemma gh_find_new_levelmin_largest_full_witness :
  ∃ lm, GridHierarchy.find_new_levelmin cut_example = GridHierarchy.with_levelmin cut_example lm
        ∧ ((lm = GridHierarchy.m_levelmin cut_example
            ∧ ∀ i, 0 ≤ i ≤ 2 → gh_full cut_example i = false)
           ∨ (0 ≤ lm ≤ 2 ∧ gh_full cut_example lm = true
              ∧ ∀ i, 0 ≤ i ≤ 2 → gh_full cut_example i = true → i ≤ lm)).
Proof.
  apply (gh_find_new_levelmin_largest_full cut_example).
  vm_compute. split; [reflexivity | congruence].
Defined.


(** X8. [add_patch] keeps the doubling rule on the levels it finds and
    establishes it on the level it appends; [levelmin()] stays and
    [levelmax()] grows by one. *)
Theorem add_patch_keeps_doubling_rule (gh : GridHierarchy.t) (xoff yoff zoff nx ny nz : Z) :
  let L := Z.of_nat (length (GridHierarchy.m_pgrids gh)) - 1 in
  let gh' := GridHierarchy.add_patch gh xoff yoff zoff nx ny nz in
  gh_sized gh → L + 2 < 2 ^ 31 →
  0 ≤ nx < 2 ^ 32 → 0 ≤ ny < 2 ^ 32 → 0 ≤ nz < 2 ^ 32 →
  0 ≤ xoff < 2 ^ 31 → 0 ≤ yoff < 2 ^ 31 → 0 ≤ zoff < 2 ^ 31 →
  (∀ d, - 2 ^ 31 ≤ 2 * (GridHierarchy.offset_abs gh L d + pick d xoff yoff zoff) < 2 ^ 31) →
  gh_consistent gh →
  gh_sized gh' ∧ GridHierarchy.levelmin gh' = GridHierarchy.levelmin gh
  ∧ GridHierarchy.levelmax gh' = GridHierarchy.levelmax gh + 1 ∧ gh_consistent gh'.
Proof.
  intros L gh' Hs HL Hnx Hny Hnz Hox Hoy Hoz Habs Hc.
  pose proof (gh_levelmax gh Hs) as Hmax. fold L in Hmax.
  pose proof Hs as (Hmin0 & Hlen & Hx & Hy & Hz).
  destruct (add_patch_level gh xoff yoff zoff nx ny nz ltac:(lia) Hx Hy Hz Hnx Hny Hnz
              Hox Hoy Hoz Habs) as [Hlen' (g & Hg & Hd)].
  fold L gh' in Hlen', Hg, Hd.
  destruct (add_patch_fields gh xoff yoff zoff nx ny nz)
    as (Hpg & Hax & Hay & Haz & Hlm & _).
  fold gh' in Hpg, Hax, Hay, Haz, Hlm. cbn zeta in Hax, Hay, Haz.
  assert (gh_sized gh') as Hs'.
  { unfold gh_sized. rewrite Hlm, Hax, Hay, Haz, Hpg, !length_app. cbn [length].
    repeat split; lia. }
  pose proof (gh_levelmax gh' Hs') as Hmax'.
  split; [exact Hs'|]. split; [exact Hlm|]. split; [lia|].
  assert (∀ l d, 0 ≤ l ≤ L →
            GridHierarchy.offset_abs gh' l d = GridHierarchy.offset_abs gh l d) as Habs_old.
  { intros l d Hl. unfold GridHierarchy.offset_abs. rewrite Hax, Hay, Haz.
    destruct (d =? 0); [|destruct (d =? 1)]; apply vec_at_app_l; lia. }
  assert (∀ l d, 0 ≤ l ≤ L →
            GridHierarchy.offset gh' l d = GridHierarchy.offset gh l d) as Hoff_old.
  { intros l d Hl. unfold GridHierarchy.offset, GridHierarchy.grid. rewrite Hpg.
    f_equal. apply vec_at_app_l. lia. }
  intros l d Hl Hdim. unfold gh_rule.
  unfold GridHierarchy.levelmin in Hl. rewrite Hlm, Hmax', Hlen' in Hl.
  destruct (decide (l = L + 1)) as [->|Hne].
  - destruct (Hd d) as (_ & Ho & Ha).
    rewrite Ha. replace (L + 1 - 1) with L by lia.
    rewrite Habs_old by lia.
    assert (GridHierarchy.offset gh' (L + 1) d = pick d xoff yoff zoff) as ->.
    { unfold GridHierarchy.offset.
      unfold GridHierarchy.get_grid in Hg.
      destruct (_ <=? _); [discriminate|]. injection Hg as ->. exact Ho. }
    lia.
  - rewrite !Habs_old, Hoff_old by lia.
    apply Hc; [unfold GridHierarchy.levelmin; lia | exact Hdim].
Qed.

(** the three levels of [cut_example] obey the rule *)
Lemma cut_example_sized : gh_sized cut_example.
Proof. repeat split; vm_compute; congruence. Qed.

Lemma cut_example_consistent : gh_consistent cut_example.
Proof.
  intros L d HL Hd.
  change (GridHierarchy.levelmin cut_example) with 1 in HL.
  change (GridHierarchy.levelmax cut_example) with 2 in HL.
  assert (L = 2) as -> by lia.
  assert (d = 0 ∨ d = 1 ∨ d = 2) as [-> | [-> | ->]] by lia; vm_compute; reflexivity.
Qed.

Lemma add_patch_keeps_doubling_rule_witness :
  let gh' := GridHierarchy.add_patch cut_example 1 0 0 2 2 2 in
  gh_sized gh' ∧ GridHierarchy.levelmin gh' = GridHierarchy.levelmin cut_example
  ∧ GridHierarchy.levelmax gh' = GridHierarchy.levelmax cut_example + 1 ∧ gh_consistent gh'.
Proof.
  apply (add_patch_keeps_doubling_rule cut_example 1 0 0 2 2 2); try lia.
  - exact cut_example_sized.
  - vm_compute. reflexivity.
  - intros d. unfold GridHierarchy.offset_abs, pick.
    destruct (d =? 0); [|destruct (d =? 1)]; vm_compute; split; congruence.
  - exact cut_example_consistent.
Defined.

(** ** Cells of a mesh *)

(** X9. Writing a cell of the block, ghost margin included, and reading
    it back gives the value written; every other cell of the block, the
    extents and the offsets are left as they were. *)
Theorem meshvar_cell_round_trip g i j k v :
  grid_ok g → in_block g i j k →
  MeshvarBnd.get (MeshvarBnd.set g i j k v) i j k = v
  ∧ (∀ i' j' k', in_block g i' j' k' → (i', j', k') ≠ (i, j, k) →
       MeshvarBnd.get (MeshvarBnd.set g i j k v) i' j' k' = MeshvarBnd.get g i' j' k')
  ∧ (∀ d, MeshvarBnd.size (MeshvarBnd.set g i j k v) d = MeshvarBnd.size g d
          ∧ MeshvarBnd.offset (MeshvarBnd.set g i j k v) d = MeshvarBnd.offset g d).
Proof.
  intros Hok Hc. split; [apply get_set_eq; assumption|]. split.
  - intros i' j' k' Hc' Hne. apply get_set_ne; try assumption. congruence.
  - intros d. split; reflexivity.
Qed.

Lemma meshvar_cell_round_trip_witness :
  let g := MeshvarBnd.new 1 2 2 2 0 0 0 in
  MeshvarBnd.get (MeshvarBnd.set g (-1) 2 0 (Qc_of_Z 7)) (-1) 2 0 = Qc_of_Z 7
  ∧ (∀ i' j' k', in_block g i' j' k' → (i', j', k') ≠ (-1, 2, 0) →
       MeshvarBnd.get (MeshvarBnd.set g (-1) 2 0 (Qc_of_Z 7)) i' j' k'
       = MeshvarBnd.get g i' j' k')
  ∧ (∀ d, MeshvarBnd.size (MeshvarBnd.set g (-1) 2 0 (Qc_of_Z 7)) d = MeshvarBnd.size g d
          ∧ MeshvarBnd.offset (MeshvarBnd.set g (-1) 2 0 (Qc_of_Z 7)) d
            = MeshvarBnd.offset g d).
Proof.
  intros g. apply (meshvar_cell_round_trip g (-1) 2 0 (Qc_of_Z 7)).
  - split; vm_compute; try split; congruence.
  - vm_compute. repeat split; congruence.
Defined.

(** a loop that rewrites the first [n] entries of a vector, each from its
    index and its old value *)
Lemma pointwise_loop {A} (dflt : A) (f : Z → A → A) (n : nat) (d : list A) :
  let d' := for_range 0 (Z.of_nat n) (fun i d => vec_set d i (f i (vec_at dflt d i))) d in
  length d' = length d
  ∧ ∀ i, vec_at dflt d' i
         = if decide (0 ≤ i < Z.of_nat n ∧ i < Z.of_nat (length d))
           then f i (vec_at dflt d i) else vec_at dflt d i.
Proof.
  induction n as [|n IH]; cbn zeta.
  - rewrite for_range_0. split; [reflexivity|]. intros i.
    destruct (decide _) as [H|_]; [exfalso; lia | reflexivity].
  - rewrite for_range_S, Z.add_0_l. cbn zeta in IH. destruct IH as [Hlen Hat].
    set (dn := for_range 0 (Z.of_nat n) _ d) in *.
    split; [rewrite length_vec_set; exact Hlen|].
    intros i. destruct (decide (i = Z.of_nat n)) as [->|Hne].
    + destruct (decide (Z.of_nat n < Z.of_nat (length d))) as [Hin|Hout].
      * rewrite vec_at_set_eq by lia. rewrite Hat.
        destruct (decide (0 ≤ Z.of_nat n < Z.of_nat n ∧ _)) as [?|_]; [exfalso; lia|].
        destruct (decide _) as [_|Hn]; [reflexivity | exfalso; lia].
      * unfold vec_set. assert (in_vec dn (Z.of_nat n) = false) as ->.
        { unfold in_vec. rewrite Hlen. apply andb_false_iff. right. apply Z.ltb_ge. lia. }
        rewrite Hat.
        destruct (decide (0 ≤ Z.of_nat n < Z.of_nat n ∧ _)) as [?|_]; [exfalso; lia|].
        destruct (decide _) as [?|_]; [exfalso; lia | reflexivity].
    + rewrite vec_at_set_ne by congruence. rewrite Hat.
      destruct (decide (0 ≤ i < Z.of_nat n ∧ _)) as [H|H];
        destruct (decide (0 ≤ i < Z.of_nat (S n) ∧ _)) as [H'|H'];
        try reflexivity; exfalso; lia.
Qed.

Lemma vec_at_ext {A} (dflt : A) (l l' : list A) :
  length l = length l' →
  (∀ i, 0 ≤ i < Z.of_nat (length l) → vec_at dflt l i = vec_at dflt l' i) →
  l = l'.
Proof.
  intros Hlen Hat. apply list_eq. intros n.
  destruct (decide (n < length l)%nat) as [Hn|Hn].
  - specialize (Hat (Z.of_nat n) ltac:(lia)).
    unfold vec_at in Hat.
    assert (in_vec l (Z.of_nat n) = true) as E by (apply in_vec_true; lia).
    assert (in_vec l' (Z.of_nat n) = true) as E' by (apply in_vec_true; lia).
    rewrite E, E', Nat2Z.id in Hat.
    destruct (lookup_lt_is_Some_2 l n Hn) as [x Hx].
    destruct (lookup_lt_is_Some_2 l' n ltac:(lia)) as [x' Hx'].
    rewrite Hx, Hx' in *. cbn in Hat. congruence.
  - rewrite !lookup_ge_None_2 by lia. reflexivity.
Qed.

Lemma count_range g : 0 ≤ MeshvarBnd.count g < 2 ^ 64.
Proof. unfold MeshvarBnd.count. apply to_size_t_range. Qed.

(** X10. The element-wise operators of [Meshvar] compare the numbers of
    cells only: they throw when the two differ, and otherwise combine
    the cells position by position, whatever the two shapes are, and
    keep the shape of the left operand. *)
Theorem meshvar_elementwise_by_count name op g v :
  Z.of_nat (length (MeshvarBnd.m_pdata g)) = MeshvarBnd.count g →
  (MeshvarBnd.count v ≠ MeshvarBnd.count g →
   MeshvarBnd.elementwise name op g v
   = Throw (runtime_error
              ("Meshvar::operator" +:+ name +:+ " : attempt to operate on incompatible data")))
  ∧ (MeshvarBnd.count v = MeshvarBnd.count g →
     ∃ g', MeshvarBnd.elementwise name op g v = Ok g'
           ∧ same_shape g g'
           ∧ ∀ i, 0 ≤ i < MeshvarBnd.count g →
                  vec_at 0%Qc (MeshvarBnd.m_pdata g') i
                  = op (vec_at 0%Qc (MeshvarBnd.m_pdata g) i)
                       (vec_at 0%Qc (MeshvarBnd.m_pdata v) i)).
Proof.
  intros Hlen. unfold MeshvarBnd.elementwise. split.
  - intros Hne. apply Z.eqb_neq in Hne. rewrite Hne. reflexivity.
  - intros Heq. rewrite Heq, Z.eqb_refl. cbn [negb].
    eexists. split; [reflexivity|].
    pose proof (count_range g) as Hr.
    destruct (pointwise_loop 0%Qc
                (fun i x => op x (vec_at 0%Qc (MeshvarBnd.m_pdata v) i))
                (Z.to_nat (MeshvarBnd.count g)) (MeshvarBnd.m_pdata g)) as [Hl Hat].
    rewrite Z2Nat.id in Hl, Hat by lia.
    split.
    + split; [reflexivity|]. cbn [MeshvarBnd.m_pdata MeshvarBnd.with_data]. symmetry. exact Hl.
    + intros i Hi. cbn [MeshvarBnd.m_pdata MeshvarBnd.with_data]. rewrite Hat.
      destruct (decide _) as [_|Hn]; [reflexivity | exfalso; lia].
Qed.

Lemma meshvar_elementwise_by_count_witness :
  let g := MeshvarBnd.new 0 2 3 4 0 0 0 in
  let v := MeshvarBnd.new 0 4 3 2 0 0 0 in
  ∃ g', MeshvarBnd.elementwise "+=" Qcplus g v = Ok g'
        ∧ same_shape g g'
        ∧ ∀ i, 0 ≤ i < MeshvarBnd.count g →
               vec_at 0%Qc (MeshvarBnd.m_pdata g') i
               = (vec_at 0%Qc (MeshvarBnd.m_pdata g) i + vec_at 0%Qc (MeshvarBnd.m_pdata v) i)%Qc.
Proof.
  intros g v.
  apply (meshvar_elementwise_by_count "+=" Qcplus g v).
  - vm_compute. reflexivity.
  - vm_compute. reflexivity.
Defined.

(** X11. [MeshvarBnd::operator=] takes the extents and the cells of the
    right-hand side and keeps its own offsets and its own ghost width. *)
Theorem meshvar_assign_fields g m :
  Z.of_nat (length (MeshvarBnd.m_pdata m)) = MeshvarBnd.count m →
  Z.of_nat (length (MeshvarBnd.m_pdata g)) = MeshvarBnd.count g →
  let g' := MeshvarBnd.assign g m in
  MeshvarBnd.m_nx g' = MeshvarBnd.m_nx m ∧ MeshvarBnd.m_ny g' = MeshvarBnd.m_ny m
  ∧ MeshvarBnd.m_nz g' = MeshvarBnd.m_nz m
  ∧ MeshvarBnd.m_pdata g' = MeshvarBnd.m_pdata m
  ∧ MeshvarBnd.m_offx g' = MeshvarBnd.m_offx g ∧ MeshvarBnd.m_offy g' = MeshvarBnd.m_offy g
  ∧ MeshvarBnd.m_offz g' = MeshvarBnd.m_offz g
  ∧ MeshvarBnd.m_nbnd g' = MeshvarBnd.m_nbnd g.
Proof.
  intros Hm Hg. cbn zeta. unfold MeshvarBnd.assign.
  set (same := (MeshvarBnd.m_nx g =? MeshvarBnd.m_nx m)
               && (MeshvarBnd.m_ny g =? MeshvarBnd.m_ny m)
               && (MeshvarBnd.m_nz g =? MeshvarBnd.m_nz m)).
  set (g0 := if negb same then _ else g).
  assert (MeshvarBnd.m_nx g0 = MeshvarBnd.m_nx m ∧ MeshvarBnd.m_ny g0 = MeshvarBnd.m_ny m
          ∧ MeshvarBnd.m_nz g0 = MeshvarBnd.m_nz m
          ∧ MeshvarBnd.m_offx g0 = MeshvarBnd.m_offx g
          ∧ MeshvarBnd.m_offy g0 = MeshvarBnd.m_offy g
          ∧ MeshvarBnd.m_offz g0 = MeshvarBnd.m_offz g
          ∧ MeshvarBnd.m_nbnd g0 = MeshvarBnd.m_nbnd g
          ∧ Z.of_nat (length (MeshvarBnd.m_pdata g0)) = MeshvarBnd.count m)
    as (Hx & Hy & Hz & Hox & Hoy & Hoz & Hb & Hl0).
  { unfold g0. destruct same eqn:E; cbn [negb].
    - unfold same in E. apply andb_true_iff in E as [E Ez]. apply andb_true_iff in E as [Ex Ey].
      apply Z.eqb_eq in Ex, Ey, Ez. repeat split; try assumption.
      rewrite Hg. unfold MeshvarBnd.count. rewrite Ex, Ey, Ez. reflexivity.
    - cbn. repeat split. rewrite length_replicate.
      pose proof (count_range m). lia. }
  cbn [MeshvarBnd.with_data MeshvarBnd.m_nx MeshvarBnd.m_ny MeshvarBnd.m_nz MeshvarBnd.m_offx
       MeshvarBnd.m_offy MeshvarBnd.m_offz MeshvarBnd.m_nbnd MeshvarBnd.m_pdata].
  repeat (split; [assumption|]). split; [|repeat split; assumption].
  assert (MeshvarBnd.count g0 = MeshvarBnd.count m) as Hc
    by (unfold MeshvarBnd.count; rewrite Hx, Hy, Hz; reflexivity).
  rewrite Hc. pose proof (count_range m) as Hr.
  destruct (pointwise_loop 0%Qc (fun i _ => vec_at 0%Qc (MeshvarBnd.m_pdata m) i)
              (Z.to_nat (MeshvarBnd.count m)) (MeshvarBnd.m_pdata g0)) as [Hl Hat].
  rewrite Z2Nat.id in Hl, Hat by lia.
  apply (vec_at_ext 0%Qc).
  - apply Nat2Z.inj. rewrite Hl. lia.
  - intros i Hi. rewrite Hl in Hi. rewrite Hat.
    destruct (decide _) as [_|Hn]; [reflexivity | exfalso; lia].
Qed.

Lemma meshvar_assign_fields_witness :
  let g := MeshvarBnd.new 2 2 2 2 1 1 1 in
  let m := MeshvarBnd.set (MeshvarBnd.new 0 4 4 4 0 0 0) 1 2 3 (Qc_of_Z 9) in
  let g' := MeshvarBnd.assign g m in
  MeshvarBnd.m_nx g' = MeshvarBnd.m_nx m ∧ MeshvarBnd.m_ny g' = MeshvarBnd.m_ny m
  ∧ MeshvarBnd.m_nz g' = MeshvarBnd.m_nz m
  ∧ MeshvarBnd.m_pdata g' = MeshvarBnd.m_pdata m
  ∧ MeshvarBnd.m_offx g' = MeshvarBnd.m_offx g ∧ MeshvarBnd.m_offy g' = MeshvarBnd.m_offy g
  ∧ MeshvarBnd.m_offz g' = MeshvarBnd.m_offz g
  ∧ MeshvarBnd.m_nbnd g' = MeshvarBnd.m_nbnd g.
Proof.
  intros g m.
  apply (meshvar_assign_fields g m); vm_compute; reflexivity.
Defined.
(** ** Operations on every stored level *)

(** a loop that changes the grid of each of the first [n] levels *)
Lemma all_levels_loop (F : MeshvarBnd.t → MeshvarBnd.t) (n : nat) gh :
  let gh' := for_range 0 (Z.of_nat n) (fun i gh => GridHierarchy.upd_grid gh i F) gh in
  gh' = GridHierarchy.with_pgrids gh (GridHierarchy.m_pgrids gh')
  ∧ length (GridHierarchy.m_pgrids gh') = length (GridHierarchy.m_pgrids gh)
  ∧ ∀ l, GridHierarchy.grid gh' l
         = if decide (0 ≤ l < Z.of_nat n ∧ l < Z.of_nat (length (GridHierarchy.m_pgrids gh)))
           then F (GridHierarchy.grid gh l) else GridHierarchy.grid gh l.
Proof.
  induction n as [|n IH]; cbn zeta.
  - rewrite for_range_0. split; [destruct gh; reflexivity|]. split; [reflexivity|].
    intros l. destruct (decide _) as [H|_]; [exfalso; lia | reflexivity].
  - rewrite for_range_S, Z.add_0_l. cbn zeta in IH. destruct IH as (Hrec & Hlen & Hat).
    set (ghn := for_range 0 (Z.of_nat n) _ gh) in *.
    split; [|split].
    + rewrite Hrec at 1. reflexivity.
    + unfold GridHierarchy.upd_grid. cbn. rewrite length_vec_set. exact Hlen.
    + intros l. destruct (decide (l = Z.of_nat n)) as [->|Hne].
      * destruct (decide (Z.of_nat n < Z.of_nat (length (GridHierarchy.m_pgrids gh))))
          as [Hin|Hout].
        -- rewrite grid_upd_grid_eq by lia. rewrite Hat.
           destruct (decide (0 ≤ Z.of_nat n < Z.of_nat n ∧ _)) as [?|_]; [exfalso; lia|].
           destruct (decide _) as [_|Hn]; [reflexivity | exfalso; lia].
        -- unfold GridHierarchy.upd_grid, GridHierarchy.grid at 1. cbn.
           unfold vec_set. assert (in_vec (GridHierarchy.m_pgrids ghn) (Z.of_nat n) = false) as ->.
           { unfold in_vec. rewrite Hlen. apply andb_false_iff. right. apply Z.ltb_ge. lia. }
           fold (GridHierarchy.grid ghn (Z.of_nat n)). rewrite Hat.
           destruct (decide (0 ≤ Z.of_nat n < Z.of_nat n ∧ _)) as [?|_]; [exfalso; lia|].
           destruct (decide _) as [?|_]; [exfalso; lia | reflexivity].
      * rewrite grid_upd_grid_ne by congruence. rewrite Hat.
        destruct (decide (0 ≤ l < Z.of_nat n ∧ _)) as [H|H];
          destruct (decide (0 ≤ l < Z.of_nat (S n) ∧ _)) as [H'|H'];
          try reflexivity; exfalso; lia.
Qed.

Lemma count_ok g :
  grid_ok g → MeshvarBnd.count g = Z.of_nat (length (MeshvarBnd.m_pdata g)).
Proof.
  intros [Hb Hx Hy Hz Ha Hl]. unfold MeshvarBnd.count. rewrite Hl.
  apply to_size_t_small. split; [|lia].
  apply Z.mul_nonneg_nonneg; [apply Z.mul_nonneg_nonneg|]; lia.
Qed.

Lemma meshvar_scalar_cell op g x i j k :
  grid_ok g → in_block g i j k →
  same_shape g (MeshvarBnd.scalar op g x)
  ∧ MeshvarBnd.get (MeshvarBnd.scalar op g x) i j k = op (MeshvarBnd.get g i j k) x.
Proof.
  intros Hok Hc. pose proof (count_ok g Hok) as Hcount.
  destruct (index_in_block g i j k Hok Hc) as [_ Hidx].
  unfold MeshvarBnd.scalar.
  destruct (pointwise_loop 0%Qc (fun _ v => op v x) (Z.to_nat (MeshvarBnd.count g))
              (MeshvarBnd.m_pdata g)) as [Hl Hat].
  rewrite Z2Nat.id in Hl, Hat by lia.
  split.
  - split; [reflexivity|]. cbn [MeshvarBnd.m_pdata MeshvarBnd.with_data]. symmetry. exact Hl.
  - unfold MeshvarBnd.get.
    change (MeshvarBnd.index (MeshvarBnd.with_data g ?d) i j k) with (MeshvarBnd.index g i j k).
    cbn [MeshvarBnd.m_pdata MeshvarBnd.with_data]. rewrite Hat.
    destruct (decide _) as [_|Hn]; [reflexivity | exfalso; lia].
Qed.

Lemma meshvar_scalar_shape op g x : same_shape g (MeshvarBnd.scalar op g x).
Proof.
  unfold MeshvarBnd.scalar. pose proof (count_range g) as Hr.
  destruct (pointwise_loop 0%Qc (fun _ v => op v x) (Z.to_nat (MeshvarBnd.count g))
              (MeshvarBnd.m_pdata g)) as [Hl _].
  rewrite Z2Nat.id in Hl by lia.
  split; [reflexivity|]. cbn [MeshvarBnd.m_pdata MeshvarBnd.with_data]. symmetry. exact Hl.
Qed.

Lemma hierarchy_scalar_cells op gh x :
  (∀ l, 0 ≤ l < Z.of_nat (length (GridHierarchy.m_pgrids gh)) →
        grid_ok (GridHierarchy.grid gh l)) →
  let gh' := GridHierarchy.scalar op gh x in
  gh' = GridHierarchy.with_pgrids gh (GridHierarchy.m_pgrids gh')
  ∧ length (GridHierarchy.m_pgrids gh') = length (GridHierarchy.m_pgrids gh)
  ∧ (∀ l, same_shape (GridHierarchy.grid gh l) (GridHierarchy.grid gh' l))
  ∧ ∀ l i j k, 0 ≤ l < Z.of_nat (length (GridHierarchy.m_pgrids gh)) →
      in_block (GridHierarchy.grid gh l) i j k →
      MeshvarBnd.get (GridHierarchy.grid gh' l) i j k
      = op (MeshvarBnd.get (GridHierarchy.grid gh l) i j k) x.
Proof.
  intros Hok. cbn zeta. unfold GridHierarchy.scalar.
  destruct (all_levels_loop (fun g => MeshvarBnd.scalar op g x)
              (length (GridHierarchy.m_pgrids gh)) gh) as (Hrec & Hlen & Hat).
  split; [exact Hrec|]. split; [exact Hlen|]. split.
  - intros l. rewrite Hat. destruct (decide _); [apply meshvar_scalar_shape | apply same_shape_refl].
  - intros l i j k Hl Hc. rewrite Hat.
    destruct (decide _) as [_|Hn]; [|exfalso; lia].
    apply meshvar_scalar_cell; [apply Hok, Hl | exact Hc].
Qed.

(** X12. The operators of [GridHierarchy] with a number on the right
    apply the operation to every cell of every stored level, the ghost
    margins and the levels below [levelmin()] included, and change
    nothing but the cells. *)
Theorem hierarchy_scalar_every_cell op gh x :
  (∀ l, 0 ≤ l < Z.of_nat (length (GridHierarchy.m_pgrids gh)) →
        grid_ok (GridHierarchy.grid gh l)) →
  let gh' := GridHierarchy.scalar op gh x in
  gh' = GridHierarchy.with_pgrids gh (GridHierarchy.m_pgrids gh')
  ∧ length (GridHierarchy.m_pgrids gh') = length (GridHierarchy.m_pgrids gh)
  ∧ (∀ l, same_shape (GridHierarchy.grid gh l) (GridHierarchy.grid gh' l))
  ∧ ∀ l i j k, 0 ≤ l < Z.of_nat (length (GridHierarchy.m_pgrids gh)) →
      in_block (GridHierarchy.grid gh l) i j k →
      MeshvarBnd.get (GridHierarchy.grid gh' l) i j k
      = op (MeshvarBnd.get (GridHierarchy.grid gh l) i j k) x.
Proof. apply hierarchy_scalar_cells. Qed.

Lemma hierarchy_scalar_every_cell_witness :
  let gh' := GridHierarchy.operator_mul_scalar cut_example (Qc_of_Z 3) in
  gh' = GridHierarchy.with_pgrids cut_example (GridHierarchy.m_pgrids gh')
  ∧ length (GridHierarchy.m_pgrids gh') = length (GridHierarchy.m_pgrids cut_example)
  ∧ (∀ l, same_shape (GridHierarchy.grid cut_example l) (GridHierarchy.grid gh' l))
  ∧ ∀ l i j k, 0 ≤ l < Z.of_nat (length (GridHierarchy.m_pgrids cut_example)) →
      in_block (GridHierarchy.grid cut_example l) i j k →
      MeshvarBnd.get (GridHierarchy.grid gh' l) i j k
      = (MeshvarBnd.get (GridHierarchy.grid cut_example l) i j k * Qc_of_Z 3)%Qc.
Proof.
  apply (hierarchy_scalar_every_cell Qcmult cut_example (Qc_of_Z 3)).
  intros l Hl. change (Z.of_nat (length (GridHierarchy.m_pgrids cut_example))) with 3 in Hl.
  assert (l = 0 ∨ l = 1 ∨ l = 2) as [-> | [-> | ->]] by lia;
    split; vm_compute; try split; congruence.
Defined.

(** X13. After [zero()] every cell of every stored level reads zero and
    the geometry is as before; adding a number to the zeroed hierarchy
    makes every cell of every block that number. *)
Theorem hierarchy_zero_then_add gh x :
  (∀ l, 0 ≤ l < Z.of_nat (length (GridHierarchy.m_pgrids gh)) →
        grid_ok (GridHierarchy.grid gh l)) →
  let gh0 := GridHierarchy.zero gh in
  let ghx := GridHierarchy.operator_add_scalar gh0 x in
  gh0 = GridHierarchy.with_pgrids gh (GridHierarchy.m_pgrids gh0)
  ∧ (∀ l, same_shape (GridHierarchy.grid gh l) (GridHierarchy.grid gh0 l))
  ∧ (∀ l i j k, 0 ≤ l < Z.of_nat (length (GridHierarchy.m_pgrids gh)) →
       MeshvarBnd.get (GridHierarchy.grid gh0 l) i j k = 0%Qc)
  ∧ ∀ l i j k, 0 ≤ l < Z.of_nat (length (GridHierarchy.m_pgrids gh)) →
      in_block (GridHierarchy.grid gh l) i j k →
      MeshvarBnd.get (GridHierarchy.grid ghx l) i j k = x.
Proof.
  intros Hok gh0 ghx.
  destruct (all_levels_loop MeshvarBnd.zero (length (GridHierarchy.m_pgrids gh)) gh)
    as (Hrec & Hlen & Hat).
  fold (GridHierarchy.zero gh) in Hrec, Hlen, Hat. fold gh0 in Hrec, Hlen, Hat.
  assert (∀ l, same_shape (GridHierarchy.grid gh l) (GridHierarchy.grid gh0 l)) as Hshape.
  { intros l. rewrite Hat. destruct (decide _); [|apply same_shape_refl].
    split; [reflexivity|]. cbn. rewrite length_replicate. reflexivity. }
  assert (∀ l i j k, 0 ≤ l < Z.of_nat (length (GridHierarchy.m_pgrids gh)) →
            MeshvarBnd.get (GridHierarchy.grid gh0 l) i j k = 0%Qc) as Hzero.
  { intros l i j k Hl. rewrite Hat. destruct (decide _) as [_|Hn]; [|exfalso; lia].
    unfold MeshvarBnd.get, MeshvarBnd.zero. cbn [MeshvarBnd.m_pdata MeshvarBnd.with_data].
    unfold vec_at. destruct (in_vec _ _); [|reflexivity].
    destruct (replicate _ _ !! _) eqn:E; [|reflexivity].
    apply lookup_replicate in E as [-> _]. reflexivity. }
  split; [exact Hrec|]. split; [exact Hshape|]. split; [exact Hzero|].
  intros l i j k Hl Hc.
  destruct (hierarchy_scalar_cells Qcplus gh0 x) as (_ & _ & _ & Hcell).
  { intros l' Hl'. rewrite Hlen in Hl'. eapply same_shape_ok; [apply Hshape | apply Hok, Hl']. }
  unfold ghx, GridHierarchy.operator_add_scalar. rewrite Hcell.
  - rewrite Hzero by exact Hl. apply Qcplus_0_l.
  - rewrite Hlen. exact Hl.
  - eapply same_shape_in_block; [apply Hshape | exact Hc].
Qed.

Lemma hierarchy_zero_then_add_witness :
  let gh0 := GridHierarchy.zero cut_example in
  let ghx := GridHierarchy.operator_add_scalar gh0 (Qc_of_Z 4) in
  gh0 = GridHierarchy.with_pgrids cut_example (GridHierarchy.m_pgrids gh0)
  ∧ (∀ l, same_shape (GridHierarchy.grid cut_example l) (GridHierarchy.grid gh0 l))
  ∧ (∀ l i j k, 0 ≤ l < Z.of_nat (length (GridHierarchy.m_pgrids cut_example)) →
       MeshvarBnd.get (GridHierarchy.grid gh0 l) i j k = 0%Qc)
  ∧ ∀ l i j k, 0 ≤ l < Z.of_nat (length (GridHierarchy.m_pgrids cut_example)) →
      in_block (GridHierarchy.grid cut_example l) i j k →
      MeshvarBnd.get (GridHierarchy.grid ghx l) i j k = Qc_of_Z 4.
Proof.
  apply (hierarchy_zero_then_add cut_example (Qc_of_Z 4)).
  intros l Hl. change (Z.of_nat (length (GridHierarchy.m_pgrids cut_example))) with 3 in Hl.
  assert (l = 0 ∨ l = 1 ∨ l = 2) as [-> | [-> | ->]] by lia;
    split; vm_compute; try split; congruence.
Defined.
(** ** Refinement masks *)

(** the mask holds [nx_ * ny_ * nz_] flags *)
Record mask_ok (m : refinement_mask.t) : Prop := {
  mask_nx : 0 ≤ refinement_mask.nx_ m;
  mask_ny : 0 ≤ refinement_mask.ny_ m;
  mask_nz : 0 ≤ refinement_mask.nz_ m;
  mask_addr : refinement_mask.nx_ m * refinement_mask.ny_ m * refinement_mask.nz_ m < 2 ^ 64;
  mask_len : Z.of_nat (length (refinement_mask.mask_ m))
             = refinement_mask.nx_ m * refinement_mask.ny_ m * refinement_mask.nz_ m
}.

Definition in_mask (m : refinement_mask.t) (i j k : Z) : Prop :=
  0 ≤ i < refinement_mask.nx_ m ∧ 0 ≤ j < refinement_mask.ny_ m
  ∧ 0 ≤ k < refinement_mask.nz_ m.

Lemma mask_index_in m i j k :
  mask_ok m → in_mask m i j k →
  refinement_mask.index m i j k
  = (i * refinement_mask.ny_ m + j) * refinement_mask.nz_ m + k
  ∧ 0 ≤ refinement_mask.index m i j k < Z.of_nat (length (refinement_mask.mask_ m)).
Proof.
  intros [Hx Hy Hz Ha Hl] (Hi & Hj & Hk). unfold refinement_mask.index. rewrite Hl.
  set (nx := refinement_mask.nx_ m) in *. set (ny := refinement_mask.ny_ m) in *.
  set (nz := refinement_mask.nz_ m) in *.
  assert (0 ≤ i * ny + j ≤ nx * ny - 1) as Hrow by nia.
  assert (0 ≤ (i * ny + j) * nz + k ≤ nx * ny * nz - 1) as Hcell by nia.
  rewrite (to_size_t_small i), (to_size_t_small j), (to_size_t_small k) by nia.
  rewrite to_size_t_small by lia. split; [reflexivity | lia].
Qed.

Lemma mask_index_inj m i j k i' j' k' :
  mask_ok m → in_mask m i j k → in_mask m i' j' k' →
  refinement_mask.index m i j k = refinement_mask.index m i' j' k' → (i, j, k) = (i', j', k').
Proof.
  intros Hok Hc Hc' Heq.
  destruct (mask_index_in m i j k Hok Hc) as [E _].
  destruct (mask_index_in m i' j' k' Hok Hc') as [E' _].
  rewrite E, E' in Heq. clear E E'.
  destruct Hok as [Hx Hy Hz _ _]. destruct Hc as (Hi & Hj & Hk).
  destruct Hc' as (Hi' & Hj' & Hk').
  set (ny := refinement_mask.ny_ m) in *. set (nz := refinement_mask.nz_ m) in *.
  assert (k = k' ∧ i * ny + j = i' * ny + j') as [-> Hrow].
  { assert (i * ny + j = i' * ny + j') by nia. split; nia. }
  assert (j = j' ∧ i = i') as [-> ->] by (assert (i = i') by nia; split; nia).
  reflexivity.
Qed.

Lemma mask_ok_set m i j k v : mask_ok m → mask_ok (refinement_mask.set m i j k v).
Proof.
  intros [Hx Hy Hz Ha Hl]. split; cbn; try assumption. rewrite length_vec_set. exact Hl.
Qed.

Lemma mask_get_set_eq m i j k v :
  mask_ok m → in_mask m i j k →
  refinement_mask.get (refinement_mask.set m i j k v) i j k = v.
Proof.
  intros Hok Hc. destruct (mask_index_in m i j k Hok Hc) as [_ Hr].
  unfold refinement_mask.get, refinement_mask.set.
  change (refinement_mask.index (refinement_mask.mk ?d _ _ _) i j k)
    with (refinement_mask.index m i j k).
  cbn [refinement_mask.mask_]. apply vec_at_set_eq. exact Hr.
Qed.

Lemma mask_get_set_ne m i j k i' j' k' v :
  mask_ok m → in_mask m i j k → in_mask m i' j' k' → (i, j, k) ≠ (i', j', k') →
  refinement_mask.get (refinement_mask.set m i j k v) i' j' k' = refinement_mask.get m i' j' k'.
Proof.
  intros Hok Hc Hc' Hne. unfold refinement_mask.get, refinement_mask.set.
  change (refinement_mask.index (refinement_mask.mk ?d _ _ _) i' j' k')
    with (refinement_mask.index m i' j' k').
  cbn [refinement_mask.mask_]. apply vec_at_set_ne.
  intros Heq. apply Hne. eapply mask_index_inj; eassumption.
Qed.

Lemma mask_ok_init nx ny nz v :
  0 ≤ nx → 0 ≤ ny → 0 ≤ nz → nx * ny * nz < 2 ^ 64 →
  mask_ok (refinement_mask.init nx ny nz v).
Proof.
  intros Hx Hy Hz Ha. split; cbn; try assumption.
  rewrite length_replicate. rewrite to_size_t_small by nia. nia.
Qed.

Lemma mask_get_init nx ny nz v i j k :
  0 ≤ nx → 0 ≤ ny → 0 ≤ nz → nx * ny * nz < 2 ^ 64 →
  0 ≤ i < nx → 0 ≤ j < ny → 0 ≤ k < nz →
  refinement_mask.get (refinement_mask.init nx ny nz v) i j k = v.
Proof.
  intros Hx Hy Hz Ha Hi Hj Hk.
  pose proof (mask_ok_init nx ny nz v Hx Hy Hz Ha) as Hok.
  destruct (mask_index_in _ i j k Hok) as [_ Hr]; [split; [|split]; assumption|].
  unfold refinement_mask.get. unfold vec_at.
  rewrite (proj2 (in_vec_true _ _) Hr).
  destruct (_ !! _) eqn:E.
  - cbn in E. apply lookup_replicate in E as [-> _]. reflexivity.
  - apply lookup_ge_None in E. lia.
Qed.

(** X14. A refinement mask stores one flag per cell: after
    [init(nx, ny, nz, value)] every cell reads [value]; writing a cell
    and reading it back gives the flag written, and every other cell is
    left as it was. *)
Theorem mask_cell_round_trip nx ny nz value i j k v :
  0 ≤ nx → 0 ≤ ny → 0 ≤ nz → nx * ny * nz < 2 ^ 64 →
  0 ≤ i < nx → 0 ≤ j < ny → 0 ≤ k < nz →
  let m := refinement_mask.init nx ny nz value in
  refinement_mask.get m i j k = value
  ∧ refinement_mask.get (refinement_mask.set m i j k v) i j k = v
  ∧ ∀ i' j' k', 0 ≤ i' < nx → 0 ≤ j' < ny → 0 ≤ k' < nz → (i', j', k') ≠ (i, j, k) →
      refinement_mask.get (refinement_mask.set m i j k v) i' j' k' = value.
Proof.
  intros Hx Hy Hz Ha Hi Hj Hk m.
  pose proof (mask_ok_init nx ny nz value Hx Hy Hz Ha) as Hok. fold m in Hok.
  assert (in_mask m i j k) as Hc by (split; [|split]; assumption).
  split; [apply mask_get_init; assumption|].
  split; [apply mask_get_set_eq; assumption|].
  intros i' j' k' Hi' Hj' Hk' Hne.
  rewrite mask_get_set_ne; try assumption.
  - apply mask_get_init; assumption.
  - split; [|split]; assumption.
  - congruence.
Qed.

Lemma mask_cell_round_trip_witness :
  let m := refinement_mask.init 2 3 4 1 in
  refinement_mask.get m 1 2 3 = 1
  ∧ refinement_mask.get (refinement_mask.set m 1 2 3 (-1)) 1 2 3 = -1
  ∧ ∀ i' j' k', 0 ≤ i' < 2 → 0 ≤ j' < 3 → 0 ≤ k' < 4 → (i', j', k') ≠ (1, 2, 3) →
      refinement_mask.get (refinement_mask.set m 1 2 3 (-1)) i' j' k' = 1.
Proof. apply (mask_cell_round_trip 2 3 4 1 1 2 3 (-1)); lia. Defined.

(** the number of entries of [l] that [p] accepts *)
Definition tally {A} (p : A → bool) (l : list A) : Z :=
  Z.of_nat (sum_list_with (fun a => if p a then 1%nat else 0%nat) l).

Lemma tally_app {A} (p : A → bool) l l' : tally p (l ++ l') = tally p l + tally p l'.
Proof. unfold tally. rewrite sum_list_with_app. lia. Qed.

Lemma tally_range {A} (p : A → bool) l : 0 ≤ tally p l ≤ Z.of_nat (length l).
Proof.
  unfold tally. induction l as [|a l IH]; [cbn; lia|].
  cbn [sum_list_with length]. destruct (p a); lia.
Qed.

Lemma tally_negb {A} (p : A → bool) l :
  tally p l + tally (fun a => negb (p a)) l = Z.of_nat (length l).
Proof.
  unfold tally. induction l as [|a l IH]; [reflexivity|].
  cbn [sum_list_with length]. destruct (p a); cbn [negb]; lia.
Qed.

(** a counting loop over the entries of a vector *)
Lemma count_loop (p : Z → bool) (v : list Z) (n : nat) :
  (n ≤ length v)%nat → Z.of_nat (length v) < 2 ^ 64 →
  for_range 0 (Z.of_nat n) (fun i count =>
    if p (vec_at 0 v i) then to_size_t (count + 1) else count) 0
  = tally p (take n v).
Proof.
  intros Hn Hlen. induction n as [|n IH].
  - reflexivity.
  - rewrite for_range_S, Z.add_0_l, IH by lia.
    destruct (lookup_lt_is_Some_2 v n ltac:(lia)) as [x Hx].
    rewrite (take_S_r _ _ _ Hx), tally_app.
    assert (vec_at 0 v (Z.of_nat n) = x) as ->
      by (apply vec_at_lookup; [lia | rewrite Nat2Z.id; exact Hx]).
    pose proof (tally_range p (take n v)) as Hr. rewrite length_take in Hr.
    assert (tally p [x] = if p x then 1 else 0) as ->
      by (unfold tally; cbn [sum_list_with]; destruct (p x); reflexivity).
    destruct (p x).
    + rewrite to_size_t_small by lia. reflexivity.
    + lia.
Qed.

(** X15. [count_flagged()] is the number of nonzero flags of the mask,
    [count_notflagged()] the number of zero flags, and the two add up to
    the number of flags. *)
Theorem mask_counts_complement m :
  Z.of_nat (length (refinement_mask.mask_ m)) < 2 ^ 64 →
  refinement_mask.count_flagged m
  = tally (fun f => negb (f =? 0)) (refinement_mask.mask_ m)
  ∧ refinement_mask.count_notflagged m = tally (fun f => f =? 0) (refinement_mask.mask_ m)
  ∧ refinement_mask.count_flagged m + refinement_mask.count_notflagged m
    = Z.of_nat (length (refinement_mask.mask_ m)).
Proof.
  intros Hlen.
  assert (refinement_mask.count_flagged m
          = tally (fun f => negb (f =? 0)) (refinement_mask.mask_ m)) as Hf.
  { unfold refinement_mask.count_flagged.
    rewrite (count_loop (fun f => negb (f =? 0))) by (lia || exact Hlen).
    rewrite firstn_all. reflexivity. }
  assert (refinement_mask.count_notflagged m
          = tally (fun f => f =? 0) (refinement_mask.mask_ m)) as Hn.
  { unfold refinement_mask.count_notflagged.
    rewrite (count_loop (fun f => f =? 0)) by (lia || exact Hlen).
    rewrite firstn_all. reflexivity. }
  split; [exact Hf|]. split; [exact Hn|].
  rewrite Hf, Hn, Z.add_comm. apply tally_negb.
Qed.

Lemma mask_counts_complement_witness :
  let m := refinement_mask.set (refinement_mask.init 2 2 2 0) 1 0 1 2 in
  refinement_mask.count_flagged m
  = tally (fun f => negb (f =? 0)) (refinement_mask.mask_ m)
  ∧ refinement_mask.count_notflagged m = tally (fun f => f =? 0) (refinement_mask.mask_ m)
  ∧ refinement_mask.count_flagged m + refinement_mask.count_notflagged m
    = Z.of_nat (length (refinement_mask.mask_ m)).
Proof.
  intros m. apply (mask_counts_complement m). vm_compute. reflexivity.
Defined.
(** ** The copy constructor of [GridHierarchy] *)

Lemma copy_masks_loop gh (k : nat) this :
  (k ≤ length (GridHierarchy.m_ref_masks gh))%nat →
  for_range 0 (Z.of_nat k) (fun i this =>
    GridHierarchy.with_ref_masks this
      (GridHierarchy.m_ref_masks this ++ [GridHierarchy.mask gh i])) this
  = GridHierarchy.with_ref_masks this
      (GridHierarchy.m_ref_masks this ++ take k (GridHierarchy.m_ref_masks gh)).
Proof.
  induction k as [|k IH]; intros Hk.
  - rewrite for_range_0. cbn. rewrite app_nil_r. destruct this. reflexivity.
  - rewrite for_range_S, Z.add_0_l, IH by lia.
    unfold GridHierarchy.with_ref_masks. cbn. f_equal.
    rewrite <- app_assoc. f_equal.
    destruct (GridHierarchy.m_ref_masks gh !! k) as [m|] eqn:Hm.
    + rewrite (take_S_r _ _ m Hm). f_equal. f_equal.
      unfold GridHierarchy.mask. apply vec_at_lookup; [lia|]. rewrite Nat2Z.id. exact Hm.
    + apply lookup_ge_None in Hm. lia.
Qed.

(** X16. The copy constructor of [GridHierarchy] throws the
    non-existent-grid error when the source stores no level ([levelmax()]
    wraps and level 0 is asked for). From a source with levels it copies
    the grids, the absolute offsets, [m_levelmin], [m_nbnd] and
    [bhave_refmask], and the refinement masks only when [bhave_refmask]
    is set: otherwise the copy holds no mask at all. *)
Theorem hierarchy_copy_result gh :
  (GridHierarchy.m_pgrids gh = [] →
   GridHierarchy.copy gh = Throw (runtime_error "Fatal: attempt to access non-existent grid"))
  ∧ (1 ≤ Z.of_nat (length (GridHierarchy.m_pgrids gh)) ≤ 2 ^ 32 →
     GridHierarchy.copy gh
     = Ok (GridHierarchy.with_ref_masks gh
             (if GridHierarchy.bhave_refmask gh then GridHierarchy.m_ref_masks gh else []))).
Proof.
  split.
  - intros Hg. unfold GridHierarchy.copy.
    assert (GridHierarchy.levelmax gh + 1 = 4294967296) as ->.
    { unfold GridHierarchy.levelmax. rewrite Hg. reflexivity. }
    unfold for_range_res. rewrite seqZ_cons by lia.
    rewrite (for_each_res_throw_first _ _ _ _
               (runtime_error "Fatal: attempt to access non-existent grid")).
    + reflexivity.
    + unfold GridHierarchy.get_grid. rewrite Hg. reflexivity.
  - intros Hlen. unfold GridHierarchy.copy.
    rewrite levelmax_of_levels by exact Hlen.
    replace (Z.of_nat (length (GridHierarchy.m_pgrids gh)) - 1 + 1)
      with (Z.of_nat (length (GridHierarchy.m_pgrids gh))) by lia.
    rewrite rebuild_loop by lia. cbn [mbind res_bind]. cbn zeta.
    rewrite firstn_all. f_equal.
    change (GridHierarchy.bhave_refmask (GridHierarchy.with_bhave_refmask _ ?b)) with b.
    destruct (GridHierarchy.bhave_refmask gh) eqn:Hb.
    + rewrite copy_masks_loop by lia. rewrite firstn_all.
      destruct gh. cbn in *. subst. reflexivity.
    + destruct gh. cbn in *. subst. reflexivity.
Qed.

Lemma hierarchy_copy_result_witness :
  GridHierarchy.copy cut_example = Ok (GridHierarchy.with_ref_masks cut_example [])
  ∧ GridHierarchy.copy (GridHierarchy.new 4)
    = Throw (runtime_error "Fatal: attempt to access non-existent grid").
Proof.
  split.
  - apply (hierarchy_copy_result cut_example). vm_compute. split; congruence.
  - apply (hierarchy_copy_result (GridHierarchy.new 4)). reflexivity.
Defined.
(** ** Leaf cells *)

(** cell [c] of level [l] is counted by [count_leaf_cells] *)
Definition leaf (gh : GridHierarchy.t) (l : Z) (c : Z * Z * Z) : bool :=
  let '(i, j, k) := c in
  GridHierarchy.is_in_mask gh l (to_int i) (to_int j) (to_int k)
  && negb (GridHierarchy.is_refined gh l (to_int i) (to_int j) (to_int k)).

(** the cells of level [l] that [count_leaf_cells] visits *)
Definition level_cells (gh : GridHierarchy.t) (l : Z) : list (Z * Z * Z) :=
  cells (GridHierarchy.size gh l 0) (GridHierarchy.size gh l 1) (GridHierarchy.size gh l 2).

(** the number of leaf cells of level [l] *)
Definition leaves (gh : GridHierarchy.t) (l : Z) : Z := tally (leaf gh l) (level_cells gh l).

(** the number of leaf cells of the levels [ls] *)
Definition leaves_of (gh : GridHierarchy.t) (ls : list Z) : Z :=
  foldr Z.add 0 (leaves gh <$> ls).

Lemma to_size_t_add_inner a b : to_size_t (to_size_t a + b) = to_size_t (a + b).
Proof. unfold to_size_t, wrap_unsigned. apply Zplus_mod_idemp_l. Qed.

Lemma leaf_loop (p : Z * Z * Z → bool) (cs : list (Z * Z * Z)) (n : Z) :
  fold_left (fun npcount '(i, j, k) =>
      if p (i, j, k) then to_size_t (npcount + 1) else npcount) cs (to_size_t n)
  = to_size_t (n + tally p cs).
Proof.
  revert n. induction cs as [|[[i j] k] cs IH]; intros n.
  - cbn [fold_left]. change (tally p []) with 0. rewrite Z.add_0_r. reflexivity.
  - cbn [fold_left]. change ((i, j, k) :: cs) with ([(i, j, k)] ++ cs).
    rewrite tally_app.
    assert (tally p [(i, j, k)] = if p (i, j, k) then 1 else 0) as ->
      by (unfold tally; cbn [sum_list_with]; destruct (p (i, j, k)); reflexivity).
    destruct (p (i, j, k)).
    + rewrite to_size_t_add_inner, IH. f_equal; lia.
    + rewrite IH. f_equal; lia.
Qed.

Lemma leaves_of_app gh ls ls' : leaves_of gh (ls ++ ls') = leaves_of gh ls + leaves_of gh ls'.
Proof.
  unfold leaves_of. induction ls as [|l ls IH]; [cbn; lia|].
  cbn [fmap list_fmap app foldr] in *. rewrite IH. lia.
Qed.

(** the level loop of [count_leaf_cells] over stored levels *)
Lemma count_levels gh (ls : list Z) (n : Z) :
  (∀ l, l ∈ ls → 0 ≤ l < Z.of_nat (length (GridHierarchy.m_pgrids gh)) ∧ l < 2 ^ 32) →
  for_each_res (fun ilevel npcount =>
      g ← GridHierarchy.get_grid gh (to_unsigned ilevel);
      Ok (for_cells (MeshvarBnd.size g 0) (MeshvarBnd.size g 1) (MeshvarBnd.size g 2)
            (fun i j k npcount =>
               if GridHierarchy.is_in_mask gh (to_unsigned ilevel) (to_int i) (to_int j)
                    (to_int k)
                  && negb (GridHierarchy.is_refined gh (to_unsigned ilevel) (to_int i)
                             (to_int j) (to_int k))
               then to_size_t (npcount + 1) else npcount) npcount))
    ls (to_size_t n)
  = Ok (to_size_t (n + leaves_of gh ls)).
Proof.
  revert n. induction ls as [|l ls IH]; intros n Hls.
  - cbn. do 2 f_equal. lia.
  - assert (0 ≤ l < Z.of_nat (length (GridHierarchy.m_pgrids gh)) ∧ l < 2 ^ 32) as [Hl Hl32]
      by (apply Hls, list_elem_of_here).
    cbn [for_each_res]. rewrite (to_unsigned_small l) by lia.
    rewrite get_grid_in_range by exact Hl. cbn [mbind res_bind].
    unfold for_cells.
    rewrite (leaf_loop (leaf gh l)).
    rewrite IH by (intros l' Hl'; apply Hls, list_elem_of_further, Hl').
    do 2 f_equal. unfold leaves_of. cbn [fmap list_fmap foldr].
    unfold leaves, level_cells, GridHierarchy.size. lia.
Qed.

Lemma count_leaf_cells_levels gh lmin lmax :
  0 ≤ lmin ≤ lmax → lmax < Z.of_nat (length (GridHierarchy.m_pgrids gh)) → lmax < 2 ^ 31 →
  GridHierarchy.count_leaf_cells gh lmin lmax
  = Ok (to_size_t (leaves_of gh (reverse (seqZ lmin (lmax - lmin + 1))))).
Proof.
  intros Hmin Hmax H31. unfold GridHierarchy.count_leaf_cells.
  rewrite (to_int_small lmin), (to_int_small lmax) by lia.
  pose proof (count_levels gh (reverse (seqZ lmin (lmax - lmin + 1))) 0) as Hc.
  change (to_size_t 0) with 0 in Hc. apply Hc.
  intros l Hl. apply elem_of_reverse, elem_of_seqZ in Hl. lia.
Qed.

Lemma leaves_range gh l : 0 ≤ leaves gh l ≤ Z.of_nat (length (level_cells gh l)).
Proof. apply tally_range. Qed.

(** X17. [count_leaf_cells(lmin, lmax)] over stored levels is the number
    of cells of these levels that are in the mask and not refined, in
    [size_t]; the count of a range of levels is the sum of the counts of
    its upper and its lower part; and a range that reaches beyond the
    stored levels throws the non-existent-grid error. *)
Theorem count_leaf_cells_by_level gh lmin mid lmax :
  0 ≤ lmin ≤ mid → mid < lmax → lmax < 2 ^ 31 →
  (lmax < Z.of_nat (length (GridHierarchy.m_pgrids gh)) →
   ∃ upper lower,
     GridHierarchy.count_leaf_cells gh (mid + 1) lmax = Ok upper
     ∧ GridHierarchy.count_leaf_cells gh lmin mid = Ok lower
     ∧ GridHierarchy.count_leaf_cells gh lmin lmax = Ok (to_size_t (upper + lower))
     ∧ upper = to_size_t (leaves_of gh (seqZ (mid + 1) (lmax - mid)))
     ∧ lower = to_size_t (leaves_of gh (seqZ lmin (mid - lmin + 1))))
  ∧ (Z.of_nat (length (GridHierarchy.m_pgrids gh)) ≤ lmax →
     GridHierarchy.count_leaf_cells gh lmin lmax
     = Throw (runtime_error "Fatal: attempt to access non-existent grid")).
Proof.
  intros Hmin Hmid H31. split.
  - intros Hmax.
    assert (∀ ls, leaves_of gh (reverse ls) = leaves_of gh ls) as Hrev.
    { induction ls as [|l ls IH]; [reflexivity|].
      rewrite reverse_cons, leaves_of_app, IH. unfold leaves_of. cbn. lia. }
    rewrite !count_leaf_cells_levels by lia. rewrite !Hrev.
    eexists _, _. split; [reflexivity|]. split; [reflexivity|].
    split; [|split; f_equal; f_equal; f_equal; lia].
    f_equal.
    replace (lmax - lmin + 1) with ((mid - lmin + 1) + (lmax - mid)) by lia.
    rewrite seqZ_app by lia. rewrite leaves_of_app.
    replace (lmin + (mid - lmin + 1)) with (mid + 1) by lia.
    replace (lmax - (mid + 1) + 1) with (lmax - mid) by lia.
    unfold to_size_t, wrap_unsigned.
    rewrite <- Zplus_mod. f_equal. lia.
  - intros Hout. unfold GridHierarchy.count_leaf_cells.
    rewrite (to_int_small lmin), (to_int_small lmax) by lia.
    rewrite seqZ_app by lia. rewrite reverse_app.
    replace (lmin + (lmax - lmin)) with lmax by lia.
    assert (reverse (seqZ lmax 1) = [lmax]) as -> by reflexivity. cbn [app].
    apply for_each_res_throw_first.
    rewrite (to_unsigned_small lmax) by lia.
    unfold GridHierarchy.get_grid.
    assert ((Z.of_nat (length (GridHierarchy.m_pgrids gh)) <=? lmax) = true) as ->
      by (apply Z.leb_le; lia).
    reflexivity.
Qed.

Lemma count_leaf_cells_by_level_witness :
  ∃ upper lower,
    GridHierarchy.count_leaf_cells cut_example (1 + 1) 2 = Ok upper
    ∧ GridHierarchy.count_leaf_cells cut_example 1 1 = Ok lower
    ∧ GridHierarchy.count_leaf_cells cut_example 1 2 = Ok (to_size_t (upper + lower))
    ∧ upper = to_size_t (leaves_of cut_example (seqZ (1 + 1) (2 - 1)))
    ∧ lower = to_size_t (leaves_of cut_example (seqZ 1 (1 - 1 + 1))).
Proof.
  apply (count_leaf_cells_by_level cut_example 1 1 2); try lia.
  vm_compute. reflexivity.
Defined.

(** the patch of [cut_example] covers one of the eight cells of level 1 *)
Example cut_example_leaf_cells :
  GridHierarchy.count_leaf_cells cut_example 2 2 = Ok 8
  ∧ GridHierarchy.count_leaf_cells cut_example 1 1 = Ok 7
  ∧ GridHierarchy.count_leaf_cells_all cut_example = Ok 15.
Proof. vm_compute. repeat split; reflexivity. Qed.

(** without a refinement mask every cell of the finest level is a leaf *)
Lemma finest_leaves gh :
  GridHierarchy.bhave_refmask gh = false →
  let lmax := GridHierarchy.levelmax gh in
  leaves gh lmax = Z.of_nat (length (level_cells gh lmax)).
Proof.
  intros Hb lmax. unfold leaves, tally. f_equal.
  induction (level_cells gh lmax) as [|[[i j] k] cs IH]; [reflexivity|].
  cbn [sum_list_with length]. rewrite IH.
  unfold leaf, GridHierarchy.is_in_mask, GridHierarchy.is_refined. rewrite Hb.
  unfold lmax. rewrite Z.eqb_refl. reflexivity.
Qed.

(** X18. [countLeafCells] of the Swift plugin on a hierarchy with more
    than one level: the three counts are obtained, the count of all
    leaf cells is the sum of the count of the finest level and the count
    of the coarser levels, and without a refinement mask the count of
    the finest level is the number of its cells. *)
Theorem swift_leaf_counts_add_up gh :
  let lmin := GridHierarchy.levelmin gh in
  let lmax := Z.of_nat (length (GridHierarchy.m_pgrids gh)) - 1 in
  0 ≤ lmin < lmax → lmax < 2 ^ 31 →
  ∃ npfine npart npcoarse,
    swift_output_plugin.countLeafCells true gh = Ok (npfine, npart, npcoarse)
    ∧ npart = to_size_t (npfine + npcoarse)
    ∧ (GridHierarchy.bhave_refmask gh = false →
       npfine = to_size_t (GridHierarchy.size gh lmax 0 * GridHierarchy.size gh lmax 1
                           * GridHierarchy.size gh lmax 2)).
Proof.
  intros lmin lmax Hmin H31.
  assert (GridHierarchy.levelmax gh = lmax) as Hlmax.
  { unfold GridHierarchy.levelmax. fold lmax.
    rewrite (to_size_t_small lmax) by lia. apply to_unsigned_small. lia. }
  unfold swift_output_plugin.countLeafCells. fold lmin. rewrite Hlmax.
  rewrite (to_unsigned_small (lmax - 1)) by lia.
  rewrite !count_leaf_cells_levels by lia.
  cbn [mbind res_bind].
  eexists _, _, _. split; [reflexivity|].
  assert (∀ ls, leaves_of gh (reverse ls) = leaves_of gh ls) as Hrev.
  { induction ls as [|l ls IH]; [reflexivity|].
    rewrite reverse_cons, leaves_of_app, IH. unfold leaves_of. cbn. lia. }
  rewrite !Hrev. split.
  - replace (lmax - lmin + 1) with ((lmax - 1 - lmin + 1) + (lmax - lmax + 1)) by lia.
    rewrite seqZ_app by lia. rewrite leaves_of_app.
    replace (lmin + (lmax - 1 - lmin + 1)) with lmax by lia.
    unfold to_size_t, wrap_unsigned. rewrite <- Zplus_mod. f_equal. lia.
  - intros Hb. replace (lmax - lmax + 1) with 1 by lia.
    assert (seqZ lmax 1 = [lmax]) as -> by reflexivity.
    unfold leaves_of. cbn [fmap list_fmap foldr]. rewrite Z.add_0_r.
    pose proof (finest_leaves gh Hb) as Hf. cbn zeta in Hf. rewrite Hlmax in Hf.
    rewrite Hf. unfold level_cells. f_equal. apply length_cells.
    all: unfold GridHierarchy.size, MeshvarBnd.size;
      repeat destruct (_ =? _); apply to_size_t_range.
Qed.

Lemma swift_leaf_counts_add_up_witness :
  ∃ npfine npart npcoarse,
    swift_output_plugin.countLeafCells true cut_example = Ok (npfine, npart, npcoarse)
    ∧ npart = to_size_t (npfine + npcoarse)
    ∧ (GridHierarchy.bhave_refmask cut_example = false →
       npfine = to_size_t (GridHierarchy.size cut_example 2 0 * GridHierarchy.size cut_example 2 1
                           * GridHierarchy.size cut_example 2 2)).
Proof.
  apply (swift_leaf_counts_add_up cut_example).
  - vm_compute. split; [congruence | reflexivity].
  - vm_compute. reflexivity.
Defined.
(** ** The file split of the Swift plugin *)





(** a loop over the rows of a table that carries a running value *)
Section row_loop.

Context {S : Type}.
Variable R : Z → S → list Z → list Z.
Variable T : Z → S → S.
Variable s0 : S.



End row_loop.







(** ten particles in three files: three, three and four *)
Example gas_header_example :
  swift_output_plugin.gas_header 10 3 [replicate 6 0; replicate 6 0; replicate 6 0]
  = [[3; 0; 0; 0; 0; 0]; [3; 0; 0; 0; 0; 0]; [4; 0; 0; 0; 0; 0]].
Proof. vm_compute. reflexivity. Qed.





(** ** [normalize_levelmin_density] *)

(** X21. In exact arithmetic [normalize_levelmin_density] lowers every
    cell of level [levelmin()] by the mean of that level, which makes
    the mean of the level zero, and leaves the grid of every other
    level as it is: the finer levels keep their values, unlike under
    [normalize_density]. *)
Theorem normalize_levelmin_density_zero_mean (delta : GridHierarchy.t) :
  let lmin := GridHierarchy.levelmin delta in
  let top := GridHierarchy.grid delta lmin in
  let mean := mean_over (logical_cells top) (MeshvarBnd.get top) in
  0 ≤ lmin < Z.of_nat (length (GridHierarchy.m_pgrids delta)) →
  grid_ok top → logical_cells top ≠ [] →
  ∃ delta',
    normalize_levelmin_density delta = Ok delta'
    ∧ mean_over (logical_cells top) (MeshvarBnd.get (GridHierarchy.grid delta' lmin)) = 0%Qc
    ∧ (∀ i j k, (i, j, k) ∈ logical_cells top →
         MeshvarBnd.get (GridHierarchy.grid delta' lmin) i j k
         = (MeshvarBnd.get top i j k - mean)%Qc)
    ∧ ∀ l, l ≠ lmin → GridHierarchy.grid delta' l = GridHierarchy.grid delta l.
Proof.
  intros lmin top mean Hl Hok Hne.
  unfold normalize_levelmin_density. fold lmin.
  rewrite get_grid_in_range by lia. fold top. cbn [mbind res_bind]. cbn zeta.
  assert (for_cells (to_int (MeshvarBnd.size top 0)) (MeshvarBnd.size top 1)
            (MeshvarBnd.size top 2)
            (fun ix iy iz sum => (sum + MeshvarBnd.get top ix iy iz)%Qc) 0%Qc
          = sum_over (logical_cells top) (MeshvarBnd.get top)) as -> by reflexivity.
  rewrite (logical_cells_count top) by exact Hok.
  fold (mean_over (logical_cells top) (MeshvarBnd.get top)). fold mean.
  rewrite for_cells_upd_grid.
  eexists. split; [reflexivity|].
  assert (∀ i j k, (i, j, k) ∈ logical_cells top →
            MeshvarBnd.get
              (GridHierarchy.grid
                 (GridHierarchy.upd_grid delta lmin (fun g =>
                    fold_left (fun g '(i, j, k) =>
                        MeshvarBnd.set g i j k (MeshvarBnd.get g i j k - mean)%Qc)
                      (cells (to_int (MeshvarBnd.size top 0)) (MeshvarBnd.size top 1)
                         (MeshvarBnd.size top 2)) g)) lmin) i j k
            = (MeshvarBnd.get top i j k - mean)%Qc) as Hcells.
  { intros i j k Hc. rewrite grid_upd_grid_eq by lia. fold top.
    apply (lowered_cell mean top i j k Hok Hc). }
  split; [|split; [exact Hcells|]].
  - rewrite (mean_over_ext _ _ (fun i j k => (MeshvarBnd.get top i j k + - mean)%Qc)).
    + rewrite mean_over_shift by exact Hne. fold mean. ring.
    + intros i j k Hc. rewrite (Hcells i j k Hc). ring.
  - intros l Hln. apply grid_upd_grid_ne. congruence.
Qed.

Lemma normalize_levelmin_density_zero_mean_witness :
  ∃ delta',
    normalize_levelmin_density cut_example = Ok delta'
    ∧ mean_over (logical_cells (GridHierarchy.grid cut_example 1))
        (MeshvarBnd.get (GridHierarchy.grid delta' 1)) = 0%Qc
    ∧ (∀ i j k, (i, j, k) ∈ logical_cells (GridHierarchy.grid cut_example 1) →
         MeshvarBnd.get (GridHierarchy.grid delta' 1) i j k
         = (MeshvarBnd.get (GridHierarchy.grid cut_example 1) i j k
            - mean_over (logical_cells (GridHierarchy.grid cut_example 1))
                (MeshvarBnd.get (GridHierarchy.grid cut_example 1)))%Qc)
    ∧ ∀ l, l ≠ 1 → GridHierarchy.grid delta' l = GridHierarchy.grid cut_example l.
Proof.
  apply (normalize_levelmin_density_zero_mean cut_example).
  - vm_compute. split; congruence.
  - split; vm_compute; try split; congruence.
  - vm_compute. congruence.
Defined.
(** ** [gcd] and [get_shift_unit] *)

Lemma gcd_calls_fuel (n m : nat) a b :
  (Z.abs_nat b < n)%nat → (Z.abs_nat b < m)%nat →
  refinement_hierarchy.gcd_calls n a b = refinement_hierarchy.gcd_calls m a b.
Proof.
  revert m a b. induction n as [|n IH]; intros m a b Hn Hm; [lia|].
  destruct m as [|m]; [lia|]. cbn [refinement_hierarchy.gcd_calls].
  destruct (b =? 0) eqn:E; [reflexivity|]. apply Z.eqb_neq in E.
  assert (Z.abs (Z.rem a b) < Z.abs b) as Hrem by (apply Z.rem_bound_abs; exact E).
  apply IH; lia.
Qed.

Lemma gcd_calls_enough (n : nat) a b :
  (Z.abs_nat b < n)%nat →
  refinement_hierarchy.gcd_calls n a b = refinement_hierarchy.gcd a b.
Proof. intros Hn. unfold refinement_hierarchy.gcd. apply gcd_calls_fuel; lia. Qed.

(** the defining equation of the source *)
Lemma gcd_unfold a b :
  refinement_hierarchy.gcd a b
  = if b =? 0 then a else refinement_hierarchy.gcd b (Z.rem a b).
Proof.
  unfold refinement_hierarchy.gcd at 1. cbn [refinement_hierarchy.gcd_calls].
  destruct (b =? 0) eqn:E; [reflexivity|]. apply Z.eqb_neq in E.
  assert (Z.abs (Z.rem a b) < Z.abs b) as Hrem by (apply Z.rem_bound_abs; exact E).
  apply gcd_calls_enough. lia.
Qed.

Lemma gcd_abs a b : Z.abs (refinement_hierarchy.gcd a b) = Z.gcd a b.
Proof.
  remember (Z.abs_nat b) as n eqn:Hn. revert a b Hn.
  induction n as [n IH] using lt_wf_ind. intros a b Hn.
  rewrite gcd_unfold. destruct (b =? 0) eqn:E.
  - apply Z.eqb_eq in E. subst b. rewrite Z.gcd_0_r. reflexivity.
  - apply Z.eqb_neq in E.
    assert (Z.abs (Z.rem a b) < Z.abs b) as Hrem by (apply Z.rem_bound_abs; exact E).
    rewrite (IH (Z.abs_nat (Z.rem a b))) by lia || reflexivity.
    rewrite Z.gcd_comm, Z.gcd_rem by exact E. apply Z.gcd_comm.
Qed.

Lemma gcd_nonneg a b : 0 ≤ a → 0 ≤ b → 0 ≤ refinement_hierarchy.gcd a b.
Proof.
  remember (Z.abs_nat b) as n eqn:Hn. revert a b Hn.
  induction n as [n IH] using lt_wf_ind. intros a b Hn Ha Hb.
  rewrite gcd_unfold. destruct (b =? 0) eqn:E; [exact Ha|]. apply Z.eqb_neq in E.
  assert (0 ≤ Z.rem a b < b) as Hrem by (apply Z.rem_bound_pos; lia).
  apply (IH (Z.abs_nat (Z.rem a b))); lia.
Qed.

Lemma gcd_of_nonneg a b :
  0 ≤ a → 0 ≤ b → refinement_hierarchy.gcd a b = Z.gcd a b.
Proof.
  intros Ha Hb. rewrite <- gcd_abs. symmetry. apply Z.abs_eq. apply gcd_nonneg; assumption.
Qed.

(** X22. [gcd(a, b)] is the greatest common divisor of [a] and [b] up
    to its sign, and the greatest common divisor itself when neither
    argument is negative. *)
Theorem gcd_is_gcd a b :
  Z.abs (refinement_hierarchy.gcd a b) = Z.gcd a b
  ∧ (0 ≤ a → 0 ≤ b → refinement_hierarchy.gcd a b = Z.gcd a b).
Proof. split; [apply gcd_abs | apply gcd_of_nonneg]. Qed.

Lemma gcd_is_gcd_witness :
  refinement_hierarchy.gcd 12 18 = Z.gcd 12 18 ∧ refinement_hierarchy.gcd 4 (-6) = -2.
Proof.
  split; [|reflexivity].
  apply (gcd_is_gcd 12 18); lia.
Defined.

Lemma shiftl_one m : 0 ≤ m ≤ 30 → to_int (Z.shiftl 1 m) = 2 ^ m ∧ 1 ≤ 2 ^ m ≤ 2 ^ 30.
Proof.
  intros Hm. rewrite Z.shiftl_1_l.
  assert (0 < 2 ^ m) by (apply Z.pow_pos_nonneg; lia).
  assert (2 ^ m ≤ 2 ^ 30) by (apply Z.pow_le_mono_r; lia).
  split; [apply to_int_small; lia | lia].
Qed.

(** the [while] loop of [get_shift_unit] from [level_m = m] on *)
Lemma shift_level_run (fuel : nat) base_unit levelmin m :
  1 ≤ base_unit < 2 ^ 31 → 0 ≤ levelmin ≤ 30 → 0 ≤ m ≤ levelmin →
  (levelmin - m < Z.of_nat fuel) →
  (∀ m', 0 ≤ m' < m → base_unit * 2 ^ m' < 2 ^ levelmin) →
  ∃ level_m,
    refinement_hierarchy.shift_level fuel base_unit levelmin m = Some level_m
    ∧ m ≤ level_m ≤ levelmin
    ∧ 2 ^ levelmin ≤ base_unit * 2 ^ level_m < 2 ^ 31
    ∧ ∀ m', 0 ≤ m' < level_m → base_unit * 2 ^ m' < 2 ^ levelmin.
Proof.
  intros Hb Hl. revert m. induction fuel as [|fuel IH]; intros m Hm Hfuel Hbelow; [lia|].
  cbn [refinement_hierarchy.shift_level].
  destruct (shiftl_one m ltac:(lia)) as [-> Hpm].
  destruct (shiftl_one levelmin Hl) as [-> Hpl].
  assert (base_unit * 2 ^ m < 2 ^ 31) as Hfit.
  { destruct (decide (m = 0)) as [->|Hm0]; [rewrite Z.pow_0_r; lia|].
    pose proof (Hbelow (m - 1) ltac:(lia)) as Hprev.
    replace (2 ^ m) with (2 * 2 ^ (m - 1))
      by (rewrite <- Z.pow_succ_r by lia; f_equal; lia).
    lia. }
  rewrite (to_int_small (base_unit * 2 ^ m)) by nia.
  destruct (base_unit * 2 ^ m <? 2 ^ levelmin) eqn:E.
  - apply Z.ltb_lt in E.
    assert (m < levelmin) as Hlt.
    { destruct (decide (m = levelmin)) as [->|?]; [nia | lia]. }
    rewrite (to_int_small (m + 1)) by lia.
    destruct (IH (m + 1)) as (level_m & Hrun & Hr & Hu & Hmin); [lia | lia | |].
    + intros m' Hm'. destruct (decide (m' = m)) as [->|?]; [exact E | apply Hbelow; lia].
    + exists level_m. split; [exact Hrun|]. split; [lia|]. split; assumption.
  - apply Z.ltb_ge in E. exists m. split; [reflexivity|]. split; [lia|].
    split; [lia | exact Hbelow].
Qed.

(** X23. [get_shift_unit(base_unit, levelmin)] for a positive base unit
    and at most 30 levels: the loop stops at the least [level_m] with
    [base_unit * 2^level_m >= 2^levelmin], and the unit returned is
    [2^levelmin] divided by the greatest common divisor of that product
    and [2^levelmin]: it is at least 1, and a shift by that many cells
    of level [levelmin] is a whole number of [base_unit * 2^level_m]
    grid units. *)
Theorem get_shift_unit_congruent base_unit levelmin :
  1 ≤ base_unit < 2 ^ 31 → 0 ≤ levelmin ≤ 30 →
  ∃ level_m unit,
    refinement_hierarchy.shift_level 31 base_unit levelmin 0 = Some level_m
    ∧ refinement_hierarchy.get_shift_unit base_unit levelmin = Some unit
    ∧ 0 ≤ level_m ≤ levelmin
    ∧ 2 ^ levelmin ≤ base_unit * 2 ^ level_m
    ∧ (∀ m, 0 ≤ m < level_m → base_unit * 2 ^ m < 2 ^ levelmin)
    ∧ 1 ≤ unit
    ∧ unit * Z.gcd (base_unit * 2 ^ level_m) (2 ^ levelmin) = 2 ^ levelmin
    ∧ (2 ^ levelmin | unit * (base_unit * 2 ^ level_m)).
Proof.
  intros Hb Hl.
  destruct (shift_level_run 31 base_unit levelmin 0 Hb Hl ltac:(lia) ltac:(lia))
    as (level_m & Hrun & Hr & Hu & Hmin); [intros m' Hm'; lia|].
  unfold refinement_hierarchy.get_shift_unit. rewrite Hrun. cbn [mbind option_bind].
  destruct (shiftl_one level_m ltac:(lia)) as [-> Hpm].
  destruct (shiftl_one levelmin Hl) as [-> Hpl].
  set (U := base_unit * 2 ^ level_m) in *.
  rewrite (to_int_small U) by lia.
  pose proof (gcd_of_nonneg U (2 ^ levelmin) ltac:(lia) ltac:(lia)) as Hg. rewrite Hg.
  set (G := Z.gcd U (2 ^ levelmin)) in *.
  assert (0 ≤ G) as HG0 by apply Z.gcd_nonneg.
  destruct (Z.gcd_divide_r U (2 ^ levelmin)) as [r Hr2]. fold G in Hr2.
  destruct (Z.gcd_divide_l U (2 ^ levelmin)) as [u Hu2]. fold G in Hu2.
  assert (G ≠ 0) as HGn by (intros E0; rewrite E0, Z.mul_0_r in Hr2; lia).
  assert (0 < G) as HG by lia.
  assert (Z.quot (2 ^ levelmin) G = r) as Hq.
  { rewrite Hr2. apply Z.quot_mul. lia. }
  rewrite Hq.
  assert (1 ≤ r ≤ 2 ^ 30) as Hrr by nia.
  rewrite (to_int_small r) by lia.
  exists level_m, (Z.max 1 r). split; [reflexivity|]. split; [reflexivity|].
  rewrite Z.max_r by lia.
  split; [lia|]. split; [lia|]. split; [exact Hmin|]. split; [lia|].
  split; [symmetry; exact Hr2|]. exists u. fold U.
  transitivity (r * (u * G)); [f_equal; exact Hu2|].
  transitivity (u * (r * G)); [ring | f_equal; symmetry; exact Hr2].
Qed.

Lemma get_shift_unit_congruent_witness :
  ∃ level_m unit,
    refinement_hierarchy.shift_level 31 3 8 0 = Some level_m
    ∧ refinement_hierarchy.get_shift_unit 3 8 = Some unit
    ∧ 0 ≤ level_m ≤ 8
    ∧ 2 ^ 8 ≤ 3 * 2 ^ level_m
    ∧ (∀ m, 0 ≤ m < level_m → 3 * 2 ^ m < 2 ^ 8)
    ∧ 1 ≤ unit
    ∧ unit * Z.gcd (3 * 2 ^ level_m) (2 ^ 8) = 2 ^ 8
    ∧ (2 ^ 8 | unit * (3 * 2 ^ level_m)).
Proof. apply (get_shift_unit_congruent 3 8); lia. Defined.

(** a base unit of 1 or 2 leaves every shift free, a base unit of 3 asks
    for shifts by pairs of cells *)
Example get_shift_unit_examples :
  refinement_hierarchy.get_shift_unit 1 8 = Some 1
  ∧ refinement_hierarchy.get_shift_unit 2 8 = Some 1
  ∧ refinement_hierarchy.get_shift_unit 3 8 = Some 2.
Proof. vm_compute. repeat split; reflexivity. Qed.

(** ** Unigrids *)

Lemma tally_all {A} (p : A → bool) (l : list A) :
  (∀ a, a ∈ l → p a = true) → tally p l = Z.of_nat (length l).
Proof.
  unfold tally. induction l as [|a l IH]; intros Hp; [reflexivity|].
  cbn [sum_list_with length]. rewrite (Hp a) by apply list_elem_of_here.
  rewrite Nat2Z.inj_add, IH by (intros b Hb; apply Hp, list_elem_of_further, Hb). lia.
Qed.

Lemma tally_none {A} (p : A → bool) (l : list A) :
  (∀ a, a ∈ l → p a = false) → tally p l = 0.
Proof.
  unfold tally. induction l as [|a l IH]; intros Hp; [reflexivity|].
  cbn [sum_list_with]. rewrite (Hp a) by apply list_elem_of_here.
  rewrite Nat2Z.inj_add, IH by (intros b Hb; apply Hp, list_elem_of_further, Hb). lia.
Qed.

Lemma leaves_of_none gh (ls : list Z) :
  (∀ l, l ∈ ls → leaves gh l = 0) → leaves_of gh ls = 0.
Proof.
  unfold leaves_of. induction ls as [|l ls IH]; intros Hl; [reflexivity|].
  cbn [fmap list_fmap foldr].
  change (foldr Z.add 0 (list_fmap _ _ (leaves gh) ls)) with (foldr Z.add 0 (leaves gh <$> ls)).
  rewrite IH by (intros l' Hl'; apply Hl, list_elem_of_further, Hl').
  rewrite (Hl l) by apply list_elem_of_here. reflexivity.
Qed.

(** the hierarchy that [add_refinement_mask] leaves when there is one level *)
Definition unigrid (query_point : Z → Z → Z → Z → bool) (gh : GridHierarchy.t) (lmax : Z) :
    GridHierarchy.t :=
  GridHierarchy.add_refinement_mask query_point (GridHierarchy.create_base_hierarchy gh lmax).

Lemma unigrid_fields query_point gh lmax :
  0 ≤ lmax < 2 ^ 31 →
  GridHierarchy.m_pgrids (unigrid query_point gh lmax)
  = (base_grid (GridHierarchy.m_nbnd gh) <$> seqZ 0 (lmax + 1))
  ∧ GridHierarchy.levelmin (unigrid query_point gh lmax) = lmax
  ∧ GridHierarchy.levelmax (unigrid query_point gh lmax) = lmax
  ∧ GridHierarchy.bhave_refmask (unigrid query_point gh lmax) = false.
Proof.
  intros Hl. destruct (create_base_hierarchy_grids gh lmax) as [Hg Hm]; [lia|].
  assert (GridHierarchy.levelmax (GridHierarchy.create_base_hierarchy gh lmax) = lmax) as Hmax.
  { unfold GridHierarchy.levelmax. rewrite Hg, length_fmap, length_seqZ.
    rewrite Z2Nat.id by lia. replace (lmax + 1 - 1) with lmax by lia.
    rewrite (to_size_t_small lmax) by lia. apply to_unsigned_small. lia. }
  unfold unigrid, GridHierarchy.add_refinement_mask.
  change (GridHierarchy.m_levelmin (GridHierarchy.with_bhave_refmask ?g false))
    with (GridHierarchy.levelmin g).
  change (GridHierarchy.levelmax (GridHierarchy.with_bhave_refmask ?g false))
    with (GridHierarchy.levelmax g).
  rewrite Hm, Hmax, Z.eqb_refl. cbn [negb].
  change (GridHierarchy.m_pgrids (GridHierarchy.with_bhave_refmask ?g false))
    with (GridHierarchy.m_pgrids g).
  change (GridHierarchy.levelmin (GridHierarchy.with_bhave_refmask ?g false))
    with (GridHierarchy.levelmin g).
  repeat split; assumption.
Qed.

Lemma unigrid_geometry query_point gh lmax l d :
  0 ≤ l ≤ lmax → lmax < 64 →
  GridHierarchy.size (unigrid query_point gh lmax) l d = 2 ^ l
  ∧ GridHierarchy.offset (unigrid query_point gh lmax) l d = 0.
Proof.
  intros Hl Hmax.
  destruct (unigrid_fields query_point gh lmax) as (Hg & _); [lia|].
  unfold GridHierarchy.size, GridHierarchy.offset, GridHierarchy.grid. rewrite Hg.
  assert (vec_at MeshvarBnd.none (base_grid (GridHierarchy.m_nbnd gh) <$> seqZ 0 (lmax + 1)) l
          = base_grid (GridHierarchy.m_nbnd gh) l) as ->.
  { apply vec_at_lookup; [lia|].
    rewrite list_lookup_fmap, lookup_seqZ_lt by lia. cbn. do 2 f_equal. lia. }
  unfold base_grid. split.
  - rewrite MeshvarBnd_size_zero, MeshvarBnd_size_new.
    assert (0 < 2 ^ l) by (apply Z.pow_pos_nonneg; lia).
    assert (2 ^ l < 2 ^ 64) by (apply Z.pow_lt_mono_r; lia).
    rewrite (to_size_t_small (2 ^ l)) by lia.
    destruct (d =? 0); [|destruct (d =? 1)]; apply to_size_t_small; lia.
  - change (MeshvarBnd.offset (MeshvarBnd.zero ?g) d) with (MeshvarBnd.offset g d).
    rewrite MeshvarBnd_offset_new. destruct (d =? 0); [|destruct (d =? 1)]; reflexivity.
Qed.

Lemma unigrid_refined query_point gh lmax l i j k :
  0 ≤ l < lmax → lmax ≤ 30 → 0 ≤ i < 2 ^ l → 0 ≤ j < 2 ^ l → 0 ≤ k < 2 ^ l →
  GridHierarchy.is_refined (unigrid query_point gh lmax) l i j k = true.
Proof.
  intros Hl Hmax Hi Hj Hk. set (u := unigrid query_point gh lmax).
  destruct (unigrid_fields query_point gh lmax) as (Hg & Hlmin & Hlmax & Hb); [lia|].
  fold u in Hg, Hlmin, Hlmax, Hb.
  assert (0 < 2 ^ l) as Hpos by (apply Z.pow_pos_nonneg; lia).
  assert (2 ^ l ≤ 2 ^ 29) as H29 by (apply Z.pow_le_mono_r; lia).
  unfold GridHierarchy.is_refined. rewrite Hb, Hlmax.
  assert ((l =? lmax) = false) as -> by (apply Z.eqb_neq; lia).
  rewrite (to_unsigned_small (l + 1)) by lia. rewrite (to_int_small (l + 1)) by lia.
  assert (∀ d, GridHierarchy.size u (l + 1) d = 2 ^ (l + 1)) as Hs'
    by (intros d; apply unigrid_geometry; lia).
  assert (∀ d, GridHierarchy.offset u (l + 1) d = 0) as Ho'
    by (intros d; apply unigrid_geometry; lia).
  rewrite !Hs', !Ho'.
  assert (2 ^ (l + 1) = 2 * 2 ^ l) as -> by (rewrite Z.pow_add_r by lia; lia).
  rewrite (to_int_small (2 * 2 ^ l)) by lia.
  assert (Z.quot (2 * 2 ^ l) 2 = 2 ^ l) as ->
    by (rewrite Z.mul_comm; apply Z.quot_mul; lia).
  rewrite Z.add_0_l, (to_int_small (2 ^ l)) by lia.
  assert ((i <? 0) = false) as -> by (apply Z.ltb_ge; lia).
  assert ((j <? 0) = false) as -> by (apply Z.ltb_ge; lia).
  assert ((k <? 0) = false) as -> by (apply Z.ltb_ge; lia).
  assert ((2 ^ l <=? i) = false) as -> by (apply Z.leb_gt; lia).
  assert ((2 ^ l <=? j) = false) as -> by (apply Z.leb_gt; lia).
  assert ((2 ^ l <=? k) = false) as -> by (apply Z.leb_gt; lia).
  reflexivity.
Qed.

Lemma unigrid_leaves query_point gh lmax l :
  0 ≤ l ≤ lmax → lmax ≤ 30 →
  leaves (unigrid query_point gh lmax) l = if l =? lmax then 8 ^ lmax else 0.
Proof.
  intros Hl Hmax. set (u := unigrid query_point gh lmax).
  destruct (unigrid_fields query_point gh lmax) as (Hg & Hlmin & Hlmax & Hb); [lia|].
  fold u in Hg, Hlmin, Hlmax, Hb.
  assert (∀ d, GridHierarchy.size u l d = 2 ^ l) as Hs
    by (intros d; apply unigrid_geometry; lia).
  assert (0 < 2 ^ l) as Hpos by (apply Z.pow_pos_nonneg; lia).
  assert (2 ^ l ≤ 2 ^ 30) as H30 by (apply Z.pow_le_mono_r; lia).
  unfold leaves, level_cells. rewrite !Hs.
  destruct (l =? lmax) eqn:E.
  - apply Z.eqb_eq in E. subst l.
    rewrite tally_all.
    + rewrite length_cells by lia.
      replace 8 with (2 ^ 3) by reflexivity. rewrite <- Z.pow_mul_r by lia.
      replace (3 * lmax) with (lmax + lmax + lmax) by lia.
      rewrite !Z.pow_add_r by lia. reflexivity.
    + intros [[i j] k] _. unfold leaf, GridHierarchy.is_in_mask, GridHierarchy.is_refined.
      rewrite Hb, Hlmax, Z.eqb_refl. reflexivity.
  - apply Z.eqb_neq in E. apply tally_none.
    intros [[i j] k] Hc. apply elem_of_cells in Hc. destruct Hc as (Hi & Hj & Hk).
    unfold leaf, GridHierarchy.is_in_mask. rewrite Hb. cbn [andb].
    rewrite (to_int_small i), (to_int_small j), (to_int_small k) by lia.
    fold u. unfold u. rewrite unigrid_refined by lia. reflexivity.
Qed.

(** X24. A hierarchy with one refinement level: after
    [create_base_hierarchy(lmax)] and [add_refinement_mask], the mask is
    switched off, every cell of a level below [lmax] counts as refined,
    and [count_leaf_cells] over any range of levels that ends at [lmax],
    and [count_leaf_cells()] itself, is the number of cells of the finest
    grid, [8^lmax] taken in [size_t]; up to [lmax = 21] that is
    [8^lmax]. *)
Theorem unigrid_leaf_cells query_point gh lmin lmax :
  0 ≤ lmin ≤ lmax → lmax ≤ 30 →
  let u := GridHierarchy.add_refinement_mask query_point
             (GridHierarchy.create_base_hierarchy gh lmax) in
  GridHierarchy.bhave_refmask u = false
  ∧ GridHierarchy.count_leaf_cells u lmin lmax = Ok (to_size_t (8 ^ lmax))
  ∧ GridHierarchy.count_leaf_cells_all u = Ok (to_size_t (8 ^ lmax))
  ∧ (lmax ≤ 21 → to_size_t (8 ^ lmax) = 8 ^ lmax)
  ∧ ∀ l i j k, lmin ≤ l < lmax → 0 ≤ i < 2 ^ l → 0 ≤ j < 2 ^ l → 0 ≤ k < 2 ^ l →
      GridHierarchy.is_refined u l i j k = true.
Proof.
  intros Hmin Hmax u. change u with (unigrid query_point gh lmax). clear u.
  set (u := unigrid query_point gh lmax).
  destruct (unigrid_fields query_point gh lmax) as (Hg & Hlmin & Hlmax & Hb); [lia|].
  fold u in Hg, Hlmin, Hlmax, Hb.
  assert (∀ lo, 0 ≤ lo ≤ lmax →
            GridHierarchy.count_leaf_cells u lo lmax = Ok (to_size_t (8 ^ lmax))) as Hcount.
  { intros lo Hlo. rewrite count_leaf_cells_levels.
    - do 2 f_equal.
      replace (lmax - lo + 1) with ((lmax - lo) + 1) by lia.
      rewrite seqZ_app by lia. rewrite reverse_app, leaves_of_app.
      replace (lo + (lmax - lo)) with lmax by lia.
      assert (reverse (seqZ lmax 1) = [lmax]) as -> by reflexivity.
      rewrite (leaves_of_none u (reverse _)).
      + unfold leaves_of. cbn [fmap list_fmap foldr].
        unfold u. rewrite unigrid_leaves by lia. rewrite Z.eqb_refl. lia.
      + intros l Hl. apply elem_of_reverse, elem_of_seqZ in Hl.
        unfold u. rewrite unigrid_leaves by lia.
        assert ((l =? lmax) = false) as -> by (apply Z.eqb_neq; lia). reflexivity.
    - lia.
    - rewrite Hg, length_fmap, length_seqZ. lia.
    - lia. }
  split; [exact Hb|]. split; [apply Hcount; lia|].
  split; [unfold GridHierarchy.count_leaf_cells_all; rewrite Hlmin, Hlmax; apply Hcount; lia|].
  split.
  - intros H21. apply to_size_t_small. split; [apply Z.pow_nonneg; lia|].
    replace 8 with (2 ^ 3) by reflexivity. rewrite <- Z.pow_mul_r by lia.
    apply Z.pow_lt_mono_r; lia.
  - intros l i j k Hl Hi Hj Hk. apply unigrid_refined; lia.
Qed.

Lemma unigrid_leaf_cells_witness :
  let u := GridHierarchy.add_refinement_mask (fun _ _ _ _ => false)
             (GridHierarchy.create_base_hierarchy (GridHierarchy.new 4) 7) in
  GridHierarchy.bhave_refmask u = false
  ∧ GridHierarchy.count_leaf_cells u 3 7 = Ok (to_size_t (8 ^ 7))
  ∧ GridHierarchy.count_leaf_cells_all u = Ok (to_size_t (8 ^ 7))
  ∧ (7 ≤ 21 → to_size_t (8 ^ 7) = 8 ^ 7)
  ∧ ∀ l i j k, 3 ≤ l < 7 → 0 ≤ i < 2 ^ l → 0 ≤ j < 2 ^ l → 0 ≤ k < 2 ^ l →
      GridHierarchy.is_refined u l i j k = true.
Proof. apply (unigrid_leaf_cells (fun _ _ _ _ => false) (GridHierarchy.new 4) 3 7); lia. Defined.
(** ** The refinement mask of a hierarchy *)

(** [m_ref_masks] on its own, next to the hierarchy that holds the
    geometry: [add_refinement_mask] changes nothing else *)
Definition mask_at (ms : list refinement_mask.t) (l : Z) : refinement_mask.t :=
  vec_at (refinement_mask.mk [] 0 0 0) ms l.

Definition mask_upd (ms : list refinement_mask.t) (l : Z)
    (f : refinement_mask.t → refinement_mask.t) : list refinement_mask.t :=
  vec_set ms l (f (mask_at ms l)).

Lemma length_mask_upd ms l f : length (mask_upd ms l f) = length ms.
Proof. apply length_vec_set. Qed.

Lemma mask_at_upd_eq ms l f :
  0 ≤ l < Z.of_nat (length ms) → mask_at (mask_upd ms l f) l = f (mask_at ms l).
Proof. intros Hl. apply vec_at_set_eq. exact Hl. Qed.

Lemma mask_at_upd_ne ms l l' f : l ≠ l' → mask_at (mask_upd ms l f) l' = mask_at ms l'.
Proof. intros Hl. apply vec_at_set_ne. exact Hl. Qed.

Lemma mask_upd_upd ms l f g :
  mask_upd (mask_upd ms l f) l g = mask_upd ms l (fun m => g (f m)).
Proof.
  unfold mask_upd, mask_at.
  destruct (in_vec ms l) eqn:E.
  - apply in_vec_true in E. rewrite vec_at_set_eq by exact E. apply vec_set_set.
  - unfold vec_set at 2. rewrite E. unfold vec_set. rewrite E. reflexivity.
Qed.

Lemma fold_mask_upd {X} (F : X → refinement_mask.t → refinement_mask.t) (xs : list X) ms l :
  fold_left (fun ms x => mask_upd ms l (F x)) xs ms
  = mask_upd ms l (fun m => fold_left (fun m x => F x m) xs m).
Proof.
  revert ms. induction xs as [|x xs IH]; intros ms.
  - cbn [fold_left]. unfold mask_upd, mask_at. symmetry. apply vec_set_at_same.
  - cbn [fold_left]. rewrite IH, mask_upd_upd. reflexivity.
Qed.

Lemma fold_left_masks {X} (body : GridHierarchy.t → X → GridHierarchy.t)
    (body' : list refinement_mask.t → X → list refinement_mask.t) gh (xs : list X) :
  (∀ ms x, body (GridHierarchy.with_ref_masks gh ms) x
           = GridHierarchy.with_ref_masks gh (body' ms x)) →
  ∀ ms, fold_left body xs (GridHierarchy.with_ref_masks gh ms)
        = GridHierarchy.with_ref_masks gh (fold_left body' xs ms).
Proof.
  intros Hstep. induction xs as [|x xs IH]; intros ms; [reflexivity|].
  cbn [fold_left]. rewrite Hstep. apply IH.
Qed.

(** *** Cells and octets of one mask *)

Lemma in_mask_set m i j k v a b c :
  in_mask (refinement_mask.set m i j k v) a b c ↔ in_mask m a b c.
Proof. reflexivity. Qed.

Lemma mask_get_sets m (cs : list (Z * Z * Z)) v a b c :
  mask_ok m → (∀ i j k, (i, j, k) ∈ cs → in_mask m i j k) → in_mask m a b c →
  refinement_mask.get
    (fold_left (fun m '(i, j, k) => refinement_mask.set m i j k v) cs m) a b c
  = if decide ((a, b, c) ∈ cs) then v else refinement_mask.get m a b c.
Proof.
  revert m. induction cs as [|[[i j] k] cs IH]; intros m Hok Hcs Hc.
  - cbn [fold_left]. destruct (decide _) as [H|_]; [|reflexivity].
    apply elem_of_nil in H. destruct H.
  - cbn [fold_left].
    assert (in_mask m i j k) as Hijk by apply Hcs, list_elem_of_here.
    rewrite IH.
    + destruct (decide ((a, b, c) ∈ cs)) as [Hin|Hout].
      * rewrite decide_True by (apply list_elem_of_further, Hin). reflexivity.
      * destruct (decide ((a, b, c) = (i, j, k))) as [E|E].
        -- injection E as -> -> ->.
           rewrite decide_True by apply list_elem_of_here.
           apply mask_get_set_eq; assumption.
        -- rewrite decide_False.
           ++ apply mask_get_set_ne; try assumption. congruence.
           ++ intros H. apply elem_of_cons in H as [H|H]; [exact (E H) | exact (Hout H)].
    + apply mask_ok_set. exact Hok.
    + intros i' j' k' H. apply in_mask_set, Hcs, list_elem_of_further, H.
    + apply in_mask_set. exact Hc.
Qed.

Lemma mask_ok_sets m (cs : list (Z * Z * Z)) v :
  mask_ok m →
  let m' := fold_left (fun m '(i, j, k) => refinement_mask.set m i j k v) cs m in
  mask_ok m' ∧ refinement_mask.nx_ m' = refinement_mask.nx_ m
  ∧ refinement_mask.ny_ m' = refinement_mask.ny_ m
  ∧ refinement_mask.nz_ m' = refinement_mask.nz_ m.
Proof.
  revert m. induction cs as [|[[i j] k] cs IH]; intros m Hok;
    [exact (conj Hok (conj eq_refl (conj eq_refl eq_refl)))|].
  cbn [fold_left]. cbn zeta.
  destruct (IH (refinement_mask.set m i j k v) (mask_ok_set m i j k v Hok)) as (H & Hx & Hy & Hz).
  cbn [refinement_mask.set refinement_mask.nx_ refinement_mask.ny_ refinement_mask.nz_]
    in Hx, Hy, Hz.
  exact (conj H (conj Hx (conj Hy Hz))).
Qed.

Lemma elem_of_octet i j k a b c :
  (a, b, c) ∈ octet i j k
  ↔ (a = i ∨ a = i + 1) ∧ (b = j ∨ b = j + 1) ∧ (c = k ∨ c = k + 1).
Proof.
  unfold octet. rewrite !elem_of_cons, elem_of_nil. split.
  - intros H. repeat (destruct H as [H|H]; [injection H as -> -> ->; lia|]). destruct H.
  - intros ([-> | ->] & [-> | ->] & [-> | ->]); tauto.
Qed.

(** the first cell of the octet that holds [a]: [a] rounded down to an even index *)
Definition base (a : Z) : Z := 2 * (a / 2).

Lemma base_octet i j k a b c :
  Z.even i = true → Z.even j = true → Z.even k = true →
  (a, b, c) ∈ octet i j k ↔ (base a, base b, base c) = (i, j, k).
Proof.
  intros Hi Hj Hk. rewrite elem_of_octet.
  apply Z.even_spec in Hi as [i' ->], Hj as [j' ->], Hk as [k' ->].
  unfold base. split.
  - intros (Ha & Hb & Hc). f_equal; [f_equal|]; Z.div_mod_to_equations; lia.
  - intros H. injection H as Ha Hb Hc. Z.div_mod_to_equations. lia.
Qed.

Lemma octet_in_mask m i j k a b c :
  in_mask m i j k → in_mask m (i + 1) (j + 1) (k + 1) → (a, b, c) ∈ octet i j k →
  in_mask m a b c.
Proof.
  intros (Hi & Hj & Hk) (Hi' & Hj' & Hk') H. apply elem_of_octet in H.
  unfold in_mask. lia.
Qed.

Lemma mask_get_set_octet m i j k v a b c :
  mask_ok m → in_mask m i j k → in_mask m (i + 1) (j + 1) (k + 1) → in_mask m a b c →
  refinement_mask.get (refinement_mask.set_octet m i j k v) a b c
  = if decide ((a, b, c) ∈ octet i j k) then v else refinement_mask.get m a b c.
Proof.
  intros Hok H0 H1 Hc. unfold refinement_mask.set_octet.
  apply mask_get_sets; try assumption.
  intros i' j' k' H. exact (octet_in_mask m i j k i' j' k' H0 H1 H).
Qed.

Lemma mask_ok_set_octet m i j k v :
  mask_ok m →
  mask_ok (refinement_mask.set_octet m i j k v)
  ∧ refinement_mask.nx_ (refinement_mask.set_octet m i j k v) = refinement_mask.nx_ m
  ∧ refinement_mask.ny_ (refinement_mask.set_octet m i j k v) = refinement_mask.ny_ m
  ∧ refinement_mask.nz_ (refinement_mask.set_octet m i j k v) = refinement_mask.nz_ m.
Proof. intros Hok. apply (mask_ok_sets m (octet i j k) v Hok). Qed.

(** a loop that writes whole octets, each with a value of its own *)
Lemma mask_ok_octets (v : Z → Z → Z → Z) (bs : list (Z * Z * Z)) m :
  mask_ok m →
  let m' := fold_left (fun m '(i, j, k) => refinement_mask.set_octet m i j k (v i j k)) bs m in
  mask_ok m' ∧ refinement_mask.nx_ m' = refinement_mask.nx_ m
  ∧ refinement_mask.ny_ m' = refinement_mask.ny_ m
  ∧ refinement_mask.nz_ m' = refinement_mask.nz_ m.
Proof.
  revert m. induction bs as [|[[i j] k] bs IH]; intros m Hok;
    [exact (conj Hok (conj eq_refl (conj eq_refl eq_refl)))|].
  cbn [fold_left]. cbn zeta.
  destruct (mask_ok_set_octet m i j k (v i j k) Hok) as (Hok' & Hx & Hy & Hz).
  destruct (IH _ Hok') as (Hd & Hx' & Hy' & Hz'). cbn zeta in Hx', Hy', Hz'.
  rewrite Hx', Hy', Hz'. exact (conj Hd (conj Hx (conj Hy Hz))).
Qed.

Lemma mask_get_octets (v : Z → Z → Z → Z) (bs : list (Z * Z * Z)) m a b c :
  mask_ok m →
  (∀ i j k, (i, j, k) ∈ bs →
     Z.even i = true ∧ Z.even j = true ∧ Z.even k = true
     ∧ in_mask m i j k ∧ in_mask m (i + 1) (j + 1) (k + 1)) →
  in_mask m a b c →
  refinement_mask.get
    (fold_left (fun m '(i, j, k) => refinement_mask.set_octet m i j k (v i j k)) bs m) a b c
  = if decide ((base a, base b, base c) ∈ bs) then v (base a) (base b) (base c)
    else refinement_mask.get m a b c.
Proof.
  revert m. induction bs as [|[[i j] k] bs IH]; intros m Hok Hbs Hc.
  - cbn [fold_left].
    destruct (decide _) as [H|_]; [|reflexivity]. apply elem_of_nil in H. destruct H.
  - cbn [fold_left].
    destruct (Hbs i j k) as (Ei & Ej & Ek & H0 & H1); [apply list_elem_of_here|].
    destruct (mask_ok_set_octet m i j k (v i j k) Hok) as (Hok' & Hx & Hy & Hz).
    assert (∀ x y z, in_mask (refinement_mask.set_octet m i j k (v i j k)) x y z
                     ↔ in_mask m x y z) as Hin
      by (intros x y z; unfold in_mask; rewrite Hx, Hy, Hz; reflexivity).
    rewrite IH.
    + rewrite mask_get_set_octet by assumption.
      destruct (decide ((base a, base b, base c) ∈ bs)) as [Hb|Hb].
      * rewrite decide_True by (apply list_elem_of_further, Hb). reflexivity.
      * destruct (decide ((a, b, c) ∈ octet i j k)) as [Ho|Ho].
        -- apply base_octet in Ho; try assumption.
           injection Ho as E1 E2 E3. rewrite E1, E2, E3.
           rewrite decide_True by apply list_elem_of_here. reflexivity.
        -- rewrite decide_False; [reflexivity|].
           intros H. apply elem_of_cons in H as [H|H]; [|exact (Hb H)].
           apply Ho, base_octet; assumption.
    + exact Hok'.
    + intros i' j' k' H.
      destruct (Hbs i' j' k') as (? & ? & ? & ? & ?); [apply list_elem_of_further, H|].
      rewrite !Hin. tauto.
    + apply Hin. exact Hc.
Qed.
(** *** The first loop: flags from the region generator *)

(** the test on the first cell [(i, j, k)] of an octet of level [l]: the
    region generator accepts it, or [l] is the coarsest level *)
Definition flagged (query_point : Z → Z → Z → Z → bool) (gh : GridHierarchy.t)
    (l i j k : Z) : bool :=
  query_point l (to_size_t (GridHierarchy.offset_abs gh l 0 + i))
    (to_size_t (GridHierarchy.offset_abs gh l 1 + j))
    (to_size_t (GridHierarchy.offset_abs gh l 2 + k))
  || (l =? to_int (GridHierarchy.levelmin gh)).

(** [mask_val] of the octet that starts at [(i, j, k)] *)
Definition flag_value (query_point : Z → Z → Z → Z → bool) (gh : GridHierarchy.t)
    (l i j k : Z) : Z :=
  if flagged query_point gh l i j k then 1 else -1.

(** the flag of the octet that holds [(i, j, k)] *)
Definition flag_at (query_point : Z → Z → Z → Z → bool) (gh : GridHierarchy.t)
    (l i j k : Z) : Z :=
  flag_value query_point gh l (base i) (base j) (base k).

Definition bases (gh : GridHierarchy.t) (l : Z) : list (Z * Z * Z) :=
  i ← evens (GridHierarchy.size gh l 0); j ← evens (GridHierarchy.size gh l 1);
  k ← evens (GridHierarchy.size gh l 2); [(i, j, k)].

Definition flag_octet (query_point : Z → Z → Z → Z → bool) (gh : GridHierarchy.t) (l : Z)
    (b : Z * Z * Z) (m : refinement_mask.t) : refinement_mask.t :=
  let '(i, j, k) := b in
  refinement_mask.set_octet m i j k (flag_value query_point gh l i j k).

Definition flag_masks (query_point : Z → Z → Z → Z → bool) (gh : GridHierarchy.t) (l : Z)
    (ms : list refinement_mask.t) : list refinement_mask.t :=
  fold_left (fun ms b => mask_upd ms l (flag_octet query_point gh l b)) (bases gh l)
    (mask_upd ms l (fun _ =>
       refinement_mask.init (GridHierarchy.size gh l 0) (GridHierarchy.size gh l 1)
         (GridHierarchy.size gh l 2) 0)).

Lemma flag_level_masks query_point gh ms l :
  GridHierarchy.flag_level query_point (GridHierarchy.with_ref_masks gh ms) l
  = GridHierarchy.with_ref_masks gh (flag_masks query_point gh l ms).
Proof.
  unfold GridHierarchy.flag_level, flag_masks.
  match goal with
  | |- fold_left ?body ?xs _ = _ =>
      assert (∀ ms x, body (GridHierarchy.with_ref_masks gh ms) x
                      = GridHierarchy.with_ref_masks gh
                          (mask_upd ms l (flag_octet query_point gh l x))) as Hstep
        by (intros ms' [[i j] k]; reflexivity);
      exact (fold_left_masks body _ gh xs Hstep _)
  end.
Qed.

(** the mask of level [l] has the extents of the grid of level [l] *)
Definition level_ok (gh : GridHierarchy.t) (ms : list refinement_mask.t) (l : Z) : Prop :=
  mask_ok (mask_at ms l)
  ∧ refinement_mask.nx_ (mask_at ms l) = GridHierarchy.size gh l 0
  ∧ refinement_mask.ny_ (mask_at ms l) = GridHierarchy.size gh l 1
  ∧ refinement_mask.nz_ (mask_at ms l) = GridHierarchy.size gh l 2.

Definition in_level (gh : GridHierarchy.t) (l i j k : Z) : Prop :=
  0 ≤ i < GridHierarchy.size gh l 0 ∧ 0 ≤ j < GridHierarchy.size gh l 1
  ∧ 0 ≤ k < GridHierarchy.size gh l 2.

(** even extents that a mask can address *)
Definition even_sized (gh : GridHierarchy.t) (l : Z) : Prop :=
  (∀ d, 0 ≤ d ≤ 2 →
     Z.even (GridHierarchy.size gh l d) = true ∧ 0 ≤ GridHierarchy.size gh l d ≤ 2 ^ 30)
  ∧ GridHierarchy.size gh l 0 * GridHierarchy.size gh l 1 * GridHierarchy.size gh l 2 < 2 ^ 64.

Lemma elem_of_evens n i : i ∈ evens n ↔ ∃ t, i = 2 * t ∧ 0 ≤ t < (n + 1) / 2.
Proof.
  unfold evens. rewrite list_elem_of_fmap. split.
  - intros (t & -> & Ht). apply elem_of_seqZ in Ht. exists t. lia.
  - intros (t & -> & Ht). exists t. split; [reflexivity|]. apply elem_of_seqZ. lia.
Qed.

Lemma elem_of_bases gh l i j k :
  (i, j, k) ∈ bases gh l
  ↔ i ∈ evens (GridHierarchy.size gh l 0) ∧ j ∈ evens (GridHierarchy.size gh l 1)
    ∧ k ∈ evens (GridHierarchy.size gh l 2).
Proof.
  unfold bases. rewrite list_elem_of_bind. split.
  - intros (i' & H & Hi).
    apply list_elem_of_bind in H as (j' & H & Hj).
    apply list_elem_of_bind in H as (k' & H & Hk).
    apply list_elem_of_singleton in H. injection H as -> -> ->. tauto.
  - intros (Hi & Hj & Hk). exists i. split; [|exact Hi].
    apply list_elem_of_bind. exists j. split; [|exact Hj].
    apply list_elem_of_bind. exists k. split; [|exact Hk].
    apply list_elem_of_singleton. reflexivity.
Qed.

Lemma even_octet n i :
  Z.even n = true → i ∈ evens n → Z.even i = true ∧ 0 ≤ i ∧ i + 1 < n.
Proof.
  intros Hn Hi. apply Z.even_spec in Hn as [h ->].
  apply elem_of_evens in Hi as (t & -> & Ht).
  split; [apply Z.even_spec; exists t; reflexivity|].
  Z.div_mod_to_equations. lia.
Qed.

Lemma base_evens n a : 0 ≤ a < n → base a ∈ evens n.
Proof.
  intros Ha. apply elem_of_evens. exists (a / 2). split; [reflexivity|].
  Z.div_mod_to_equations. lia.
Qed.

Lemma flag_masks_spec query_point gh ms l :
  0 ≤ l < Z.of_nat (length ms) → even_sized gh l →
  length (flag_masks query_point gh l ms) = length ms
  ∧ (∀ l', l' ≠ l → mask_at (flag_masks query_point gh l ms) l' = mask_at ms l')
  ∧ level_ok gh (flag_masks query_point gh l ms) l
  ∧ ∀ i j k, in_level gh l i j k →
      refinement_mask.get (mask_at (flag_masks query_point gh l ms) l) i j k
      = flag_at query_point gh l i j k.
Proof.
  intros Hl [Hs Hcells]. unfold flag_masks. rewrite fold_mask_upd, mask_upd_upd.
  destruct (Hs 0) as [E0 B0]; [lia|]. destruct (Hs 1) as [E1 B1]; [lia|].
  destruct (Hs 2) as [E2 B2]; [lia|].
  set (nx := GridHierarchy.size gh l 0) in *. set (ny := GridHierarchy.size gh l 1) in *.
  set (nz := GridHierarchy.size gh l 2) in *.
  pose proof (mask_ok_init nx ny nz 0 ltac:(lia) ltac:(lia) ltac:(lia) Hcells) as Hok.
  assert (∀ i j k, (i, j, k) ∈ bases gh l →
            Z.even i = true ∧ Z.even j = true ∧ Z.even k = true
            ∧ in_mask (refinement_mask.init nx ny nz 0) i j k
            ∧ in_mask (refinement_mask.init nx ny nz 0) (i + 1) (j + 1) (k + 1)) as Hbs.
  { intros i j k H. apply elem_of_bases in H as (Hi & Hj & Hk).
    apply (even_octet nx) in Hi; [|exact E0]. apply (even_octet ny) in Hj; [|exact E1].
    apply (even_octet nz) in Hk; [|exact E2].
    unfold in_mask. cbn [refinement_mask.init refinement_mask.nx_ refinement_mask.ny_
                         refinement_mask.nz_]. repeat split; try tauto; lia. }
  split; [apply length_mask_upd|].
  split; [intros l' Hne; apply mask_at_upd_ne; congruence|].
  unfold level_ok. rewrite !mask_at_upd_eq by exact Hl.
  split.
  - destruct (mask_ok_octets (flag_value query_point gh l) (bases gh l)
                (refinement_mask.init nx ny nz 0) Hok) as (Hd & Hx & Hy & Hz).
    exact (conj Hd (conj Hx (conj Hy Hz))).
  - intros i j k (Hi & Hj & Hk). unfold flag_octet.
    rewrite (mask_get_octets (flag_value query_point gh l) (bases gh l)
               (refinement_mask.init nx ny nz 0) i j k Hok Hbs).
    + rewrite decide_True; [reflexivity|].
      apply elem_of_bases. fold nx ny nz.
      repeat split; apply base_evens; assumption.
    + unfold in_mask. cbn [refinement_mask.init refinement_mask.nx_ refinement_mask.ny_
                           refinement_mask.nz_]. lia.
Qed.

Lemma flag_levels_spec query_point gh (ls : list Z) ms :
  NoDup ls →
  (∀ l, l ∈ ls → 0 ≤ l < Z.of_nat (length ms) ∧ even_sized gh l) →
  let ms' := fold_left (fun ms l => flag_masks query_point gh l ms) ls ms in
  length ms' = length ms
  ∧ (∀ l, l ∉ ls → mask_at ms' l = mask_at ms l)
  ∧ ∀ l, l ∈ ls →
      level_ok gh ms' l
      ∧ ∀ i j k, in_level gh l i j k →
          refinement_mask.get (mask_at ms' l) i j k = flag_at query_point gh l i j k.
Proof.
  revert ms. induction ls as [|l ls IH]; intros ms Hnd Hls.
  - cbn [fold_left]. cbn zeta. split; [reflexivity|]. split; [reflexivity|].
    intros l H. apply elem_of_nil in H. destruct H.
  - cbn [fold_left]. cbn zeta. apply NoDup_cons in Hnd as [Hl Hnd].
    destruct (Hls l) as [Hrange Heven]; [apply list_elem_of_here|].
    destruct (flag_masks_spec query_point gh ms l Hrange Heven) as (Hlen & Hne & Hok & Hval).
    destruct (IH (flag_masks query_point gh l ms) Hnd) as (Hlen' & Hout & Hin).
    { intros l' Hl'. rewrite Hlen. apply Hls, list_elem_of_further, Hl'. }
    cbn zeta in Hlen', Hout, Hin. split; [congruence|]. split.
    + intros l' Hl'. rewrite Hout by (intros H; apply Hl', list_elem_of_further, H).
      apply Hne. intros ->. apply Hl', list_elem_of_here.
    + intros l' Hl'. apply elem_of_cons in Hl' as [-> | Hl'].
      * unfold level_ok. rewrite (Hout l Hl). split; [exact Hok | exact Hval].
      * apply Hin, Hl'.
Qed.

(** *** The second loop: refined cells *)

(** [ifine[d]] of the cell with index [c] in dimension [d] *)
Definition child (gh : GridHierarchy.t) (l d c : Z) : Z :=
  to_int (2 * to_int c - 2 * to_int (GridHierarchy.offset gh (l + 1) d)).

Definition refine_cell (gh : GridHierarchy.t) (l : Z) (c : Z * Z * Z)
    (ms : list refinement_mask.t) : list refinement_mask.t :=
  let '(i, j, k) := c in
  if (0 <=? child gh l 0 i) && (child gh l 0 i <? to_int (GridHierarchy.size gh (l + 1) 0)) &&
     (0 <=? child gh l 1 j) && (child gh l 1 j <? to_int (GridHierarchy.size gh (l + 1) 1)) &&
     (0 <=? child gh l 2 k) && (child gh l 2 k <? to_int (GridHierarchy.size gh (l + 1) 2))
  then
    if existsb (fun '(a, b, c) => 0 <? refinement_mask.get (mask_at ms (l + 1)) a b c)
         (octet (child gh l 0 i) (child gh l 1 j) (child gh l 2 k))
    then
      mask_upd (mask_upd ms l (fun m => refinement_mask.set m i j k 2)) (l + 1)
        (fun m => refinement_mask.set_octet m (child gh l 0 i) (child gh l 1 j)
                    (child gh l 2 k) 1)
    else ms
  else ms.

Definition refine_masks (gh : GridHierarchy.t) (l : Z) (ms : list refinement_mask.t) :
    list refinement_mask.t :=
  fold_left (fun ms c => refine_cell gh l c ms)
    (cells (GridHierarchy.size gh l 0) (GridHierarchy.size gh l 1) (GridHierarchy.size gh l 2))
    ms.

Lemma with_ref_masks_if gh (c : bool) ms ms' :
  GridHierarchy.with_ref_masks gh (if c then ms else ms')
  = if c then GridHierarchy.with_ref_masks gh ms else GridHierarchy.with_ref_masks gh ms'.
Proof. destruct c; reflexivity. Qed.

Lemma refine_level_masks gh ms l :
  GridHierarchy.refine_level (GridHierarchy.with_ref_masks gh ms) l
  = GridHierarchy.with_ref_masks gh (refine_masks gh l ms).
Proof.
  unfold GridHierarchy.refine_level, refine_masks, for_cells.
  match goal with
  | |- fold_left ?body ?xs _ = _ =>
      assert (∀ ms x, body (GridHierarchy.with_ref_masks gh ms) x
                      = GridHierarchy.with_ref_masks gh (refine_cell gh l x ms)) as Hstep
        by (intros ms' [[i j] k]; unfold refine_cell; rewrite !with_ref_masks_if; reflexivity);
      exact (fold_left_masks body _ gh xs Hstep _)
  end.
Qed.

(** the masks that [add_refinement_mask] leaves on a hierarchy with more
    than one level *)
Definition refined_masks (query_point : Z → Z → Z → Z → bool) (gh : GridHierarchy.t) :
    list refinement_mask.t :=
  let lmax := to_int (GridHierarchy.levelmax gh) in
  let lmin := to_int (GridHierarchy.levelmin gh) in
  for_range lmin (lmax - lmin) (fun l ms => refine_masks gh l ms)
    (fold_left (fun ms l => flag_masks query_point gh l ms)
       (reverse (seqZ lmin (lmax - lmin + 1))) (GridHierarchy.m_ref_masks gh)).

Lemma add_refinement_mask_masks query_point gh :
  GridHierarchy.m_levelmin gh ≠ GridHierarchy.levelmax gh →
  GridHierarchy.add_refinement_mask query_point gh
  = GridHierarchy.with_bhave_refmask
      (GridHierarchy.with_ref_masks gh (refined_masks query_point gh)) true.
Proof.
  intros Hne. unfold GridHierarchy.add_refinement_mask.
  change (GridHierarchy.m_levelmin (GridHierarchy.with_bhave_refmask gh false))
    with (GridHierarchy.m_levelmin gh).
  change (GridHierarchy.levelmax (GridHierarchy.with_bhave_refmask gh false))
    with (GridHierarchy.levelmax gh).
  change (GridHierarchy.levelmin (GridHierarchy.with_bhave_refmask gh false))
    with (GridHierarchy.levelmin gh).
  assert ((GridHierarchy.m_levelmin gh =? GridHierarchy.levelmax gh) = false) as ->
    by (apply Z.eqb_neq; exact Hne).
  cbn [negb]. cbn zeta.
  set (gf := GridHierarchy.with_bhave_refmask gh false).
  set (gt := GridHierarchy.with_bhave_refmask gh true).
  set (ls := reverse (seqZ _ _)).
  assert (fold_left (GridHierarchy.flag_level query_point) ls gf
          = GridHierarchy.with_ref_masks gf
              (fold_left (fun ms l => flag_masks query_point gh l ms) ls
                 (GridHierarchy.m_ref_masks gh))) as ->.
  { change gf with (GridHierarchy.with_ref_masks gf (GridHierarchy.m_ref_masks gh)) at 1.
    apply (fold_left_masks (GridHierarchy.flag_level query_point)
             (fun ms l => flag_masks query_point gh l ms) gf ls).
    intros ms l. apply (flag_level_masks query_point gf ms l). }
  change (GridHierarchy.with_bhave_refmask (GridHierarchy.with_ref_masks gf ?ms) true)
    with (GridHierarchy.with_ref_masks gt ms).
  unfold for_range, refined_masks.
  rewrite (fold_left_masks (fun s i => GridHierarchy.refine_level s i)
             (fun ms l => refine_masks gh l ms) gt).
  - reflexivity.
  - intros ms l. apply (refine_level_masks gt ms l).
Qed.

(** *** The masks that the two loops leave *)

(** the first child of the cell with index [c], in the cells of level [l + 1] *)
Definition fine (gh : GridHierarchy.t) (l d c : Z) : Z :=
  2 * c - 2 * GridHierarchy.offset gh (l + 1) d.

(** the cell [(i, j, k)] of level [l] lies under the grid of level [l + 1] *)
Definition has_fine (gh : GridHierarchy.t) (l i j k : Z) : bool :=
  (l <? GridHierarchy.levelmax gh)
  && ((0 <=? fine gh l 0 i) && (fine gh l 0 i <? GridHierarchy.size gh (l + 1) 0) &&
      (0 <=? fine gh l 1 j) && (fine gh l 1 j <? GridHierarchy.size gh (l + 1) 1) &&
      (0 <=? fine gh l 2 k) && (fine gh l 2 k <? GridHierarchy.size gh (l + 1) 2)).

(** the flag of the cell [(i, j, k)] of level [l]: [2] when its children
    are flagged, otherwise the flag of its own octet *)
Definition mask_value (query_point : Z → Z → Z → Z → bool) (gh : GridHierarchy.t)
    (l i j k : Z) : Z :=
  if has_fine gh l i j k
     && flagged query_point gh (l + 1) (fine gh l 0 i) (fine gh l 1 j) (fine gh l 2 k)
  then 2 else flag_at query_point gh l i j k.

(** what [add_refinement_mask] relies on: more than one level, one mask
    per grid, even extents that fit [int] and a mask, and offsets of the
    finer grids that fit [int] when doubled *)
Record mask_ready (gh : GridHierarchy.t) : Prop := {
  ready_levels :
    0 ≤ GridHierarchy.m_levelmin gh
    ∧ GridHierarchy.m_levelmin gh + 1 < Z.of_nat (length (GridHierarchy.m_pgrids gh))
    ∧ Z.of_nat (length (GridHierarchy.m_pgrids gh)) < 2 ^ 31;
  ready_masks :
    length (GridHierarchy.m_ref_masks gh) = length (GridHierarchy.m_pgrids gh);
  ready_sizes :
    ∀ l, GridHierarchy.m_levelmin gh ≤ l < Z.of_nat (length (GridHierarchy.m_pgrids gh)) →
         even_sized gh l;
  ready_offsets :
    ∀ l d, GridHierarchy.m_levelmin gh < l < Z.of_nat (length (GridHierarchy.m_pgrids gh)) →
           0 ≤ d ≤ 2 → 0 ≤ GridHierarchy.offset gh l d < 2 ^ 30
}.

Lemma existsb_const {A} (p : A → bool) (l : list A) (b : bool) :
  l ≠ [] → (∀ x, x ∈ l → p x = b) → existsb p l = b.
Proof.
  induction l as [|x l IH]; intros Hne Hp; [congruence|].
  cbn [existsb]. rewrite (Hp x) by apply list_elem_of_here.
  destruct l as [|y l]; [cbn; apply orb_false_r|].
  rewrite IH; [apply orb_diag | congruence |].
  intros z Hz. apply Hp, list_elem_of_further, Hz.
Qed.

Section refinement.

Variable query_point : Z → Z → Z → Z → bool.
Variable gh : GridHierarchy.t.
Hypothesis Hready : mask_ready gh.

Local Abbreviation lmin := (GridHierarchy.m_levelmin gh).
Local Abbreviation n := (Z.of_nat (length (GridHierarchy.m_pgrids gh))).

Lemma ready_levelmax : GridHierarchy.levelmax gh = n - 1.
Proof.
  destruct Hready as [(H0 & H1 & H2) _ _ _]. unfold GridHierarchy.levelmax.
  rewrite to_size_t_small by lia. apply to_unsigned_small. lia.
Qed.

(** the state of the second loop: the levels below [L] and the cells
    [done] of level [L] hold their final flag, the rest the flag of the
    first loop *)
Definition refine_inv (L : Z) (done : list (Z * Z * Z)) (ms : list refinement_mask.t) : Prop :=
  length ms = length (GridHierarchy.m_pgrids gh)
  ∧ ∀ M, lmin ≤ M < n →
      level_ok gh ms M
      ∧ ∀ i j k, in_level gh M i j k →
          refinement_mask.get (mask_at ms M) i j k
          = if (M <? L) || ((M =? L) && bool_decide ((i, j, k) ∈ done))
            then mask_value query_point gh M i j k
            else flag_at query_point gh M i j k.

Lemma refine_inv_keep L done ms i j k :
  mask_value query_point gh L i j k = flag_at query_point gh L i j k →
  refine_inv L done ms → refine_inv L (done ++ [(i, j, k)]) ms.
Proof.
  intros Hsame [Hlen Hinv]. split; [exact Hlen|].
  intros M HM. destruct (Hinv M HM) as [Hok Hval]. split; [exact Hok|].
  intros a b c Hc. rewrite (Hval a b c Hc).
  destruct (M <? L); [reflexivity|]. cbn [orb].
  destruct (M =? L) eqn:E; [|reflexivity]. cbn [andb]. apply Z.eqb_eq in E. subst M.
  destruct (bool_decide ((a, b, c) ∈ done)) eqn:D.
  - apply bool_decide_eq_true in D.
    rewrite bool_decide_eq_true_2 by (apply elem_of_app; left; exact D). reflexivity.
  - apply bool_decide_eq_false in D.
    destruct (decide ((a, b, c) = (i, j, k))) as [E|E].
    + injection E as -> -> ->.
      rewrite bool_decide_eq_true_2 by (apply elem_of_app; right; apply list_elem_of_here).
      symmetry. exact Hsame.
    + rewrite bool_decide_eq_false_2; [reflexivity|].
      intros H. apply elem_of_app in H as [H|H]; [exact (D H)|].
      apply list_elem_of_singleton in H. exact (E H).
Qed.

Lemma fine_child L d c :
  lmin ≤ L → L + 1 < n → 0 ≤ d ≤ 2 → 0 ≤ c < GridHierarchy.size gh L d →
  child gh L d c = fine gh L d c
  ∧ Z.even (fine gh L d c) = true
  ∧ to_int (GridHierarchy.size gh (L + 1) d) = GridHierarchy.size gh (L + 1) d
  ∧ Z.even (GridHierarchy.size gh (L + 1) d) = true.
Proof.
  intros HL HL' Hd Hc.
  destruct (ready_sizes gh Hready L ltac:(lia)) as [Hs _].
  destruct (ready_sizes gh Hready (L + 1) ltac:(lia)) as [Hs' _].
  pose proof (ready_offsets gh Hready (L + 1) d ltac:(lia) Hd) as Ho.
  destruct (Hs d Hd) as [_ Hb]. destruct (Hs' d Hd) as [He' Hb'].
  unfold child, fine.
  rewrite (to_int_small c), (to_int_small (GridHierarchy.offset gh (L + 1) d)) by lia.
  rewrite to_int_small by lia. rewrite (to_int_small (GridHierarchy.size _ _ _)) by lia.
  repeat split; try assumption.
  rewrite <- Z.mul_sub_distr_l. apply Z.even_spec. eexists. reflexivity.
Qed.

Lemma refine_cell_inv L done ms i j k :
  lmin ≤ L → L + 1 < n → in_level gh L i j k →
  refine_inv L done ms → refine_inv L (done ++ [(i, j, k)]) (refine_cell gh L (i, j, k) ms).
Proof.
  intros HL HL' (Hi & Hj & Hk) Hinv.
  destruct (fine_child L 0 i HL HL' ltac:(lia) Hi) as (C0 & E0 & T0 & S0).
  destruct (fine_child L 1 j HL HL' ltac:(lia) Hj) as (C1 & E1 & T1 & S1).
  destruct (fine_child L 2 k HL HL' ltac:(lia) Hk) as (C2 & E2 & T2 & S2).
  unfold refine_cell. rewrite C0, C1, C2, T0, T1, T2.
  assert (has_fine gh L i j k
          = ((0 <=? fine gh L 0 i) && (fine gh L 0 i <? GridHierarchy.size gh (L + 1) 0) &&
             (0 <=? fine gh L 1 j) && (fine gh L 1 j <? GridHierarchy.size gh (L + 1) 1) &&
             (0 <=? fine gh L 2 k) && (fine gh L 2 k <? GridHierarchy.size gh (L + 1) 2)))
    as Hfine.
  { unfold has_fine. rewrite ready_levelmax.
    assert ((L <? n - 1) = true) as -> by (apply Z.ltb_lt; lia). reflexivity. }
  rewrite <- Hfine.
  destruct (has_fine gh L i j k) eqn:Hhas; cycle 1.
  { apply refine_inv_keep; [|exact Hinv]. unfold mask_value. rewrite Hhas. reflexivity. }
  symmetry in Hfine. rewrite !andb_true_iff in Hfine.
  destruct Hfine as (((((F0 & F0') & F1) & F1') & F2) & F2').
  apply Z.leb_le in F0, F1, F2. apply Z.ltb_lt in F0', F1', F2'.
  set (f0 := fine gh L 0 i) in *. set (f1 := fine gh L 1 j) in *.
  set (f2 := fine gh L 2 k) in *.
  assert (f0 + 1 < GridHierarchy.size gh (L + 1) 0
          ∧ f1 + 1 < GridHierarchy.size gh (L + 1) 1
          ∧ f2 + 1 < GridHierarchy.size gh (L + 1) 2) as (G0 & G1 & G2).
  { apply Z.even_spec in E0 as [? E0], E1 as [? E1], E2 as [? E2].
    apply Z.even_spec in S0 as [? S0], S1 as [? S1], S2 as [? S2]. lia. }
  destruct Hinv as [Hlen Hinv].
  destruct (Hinv L ltac:(lia)) as [HokL HvalL].
  destruct (Hinv (L + 1) ltac:(lia)) as [HokL' HvalL'].
  assert (∀ a b c, (a, b, c) ∈ octet f0 f1 f2 →
            in_level gh (L + 1) a b c
            ∧ refinement_mask.get (mask_at ms (L + 1)) a b c
              = flag_value query_point gh (L + 1) f0 f1 f2) as Hoct.
  { intros a b c H.
    assert (in_level gh (L + 1) a b c) as Hc
      by (apply elem_of_octet in H; unfold in_level; lia).
    split; [exact Hc|]. rewrite (HvalL' a b c Hc).
    assert ((L + 1 <? L) = false) as -> by (apply Z.ltb_ge; lia).
    assert ((L + 1 =? L) = false) as -> by (apply Z.eqb_neq; lia).
    cbn [orb andb]. unfold flag_at.
    apply base_octet in H; try assumption. injection H as -> -> ->. reflexivity. }
  rewrite (existsb_const _ (octet f0 f1 f2) (flagged query_point gh (L + 1) f0 f1 f2)).
  2: { unfold octet. congruence. }
  2: { intros [[a b] c] H. destruct (Hoct a b c H) as [_ ->]. unfold flag_value.
       destruct (flagged _ _ _ _ _ _); reflexivity. }
  destruct (flagged query_point gh (L + 1) f0 f1 f2) eqn:Hflag; cycle 1.
  { apply refine_inv_keep; [|split; assumption]. unfold mask_value.
    fold f0 f1 f2. rewrite Hflag, andb_false_r. reflexivity. }
  assert (mask_value query_point gh L i j k = 2) as Hvalue.
  { unfold mask_value. fold f0 f1 f2. rewrite Hflag, Hhas. reflexivity. }
  assert (0 ≤ L < Z.of_nat (length ms) ∧ 0 ≤ L + 1 < Z.of_nat (length ms)) as [RL RL'].
  { rewrite Hlen. destruct Hready as [(? & ? & ?) _ _ _]. lia. }
  split; [rewrite !length_mask_upd; exact Hlen|].
  intros M HM. destruct (Hinv M HM) as [HokM HvalM].
  destruct (decide (M = L + 1)) as [-> | HneL'].
  - (* the finer level: the octet is written with the flag it has *)
    unfold level_ok. rewrite mask_at_upd_eq by (rewrite length_mask_upd; exact RL').
    rewrite mask_at_upd_ne by lia.
    destruct HokL' as (Hok & Hx & Hy & Hz).
    destruct (mask_ok_set_octet (mask_at ms (L + 1)) f0 f1 f2 1 Hok) as (Hok' & Hx' & Hy' & Hz').
    split; [rewrite Hx', Hy', Hz'; exact (conj Hok' (conj Hx (conj Hy Hz)))|].
    intros a b c Hc. pose proof (HvalL' a b c Hc) as Hv.
    assert ((L + 1 <? L) = false) as Hlt by (apply Z.ltb_ge; lia).
    assert ((L + 1 =? L) = false) as Heq by (apply Z.eqb_neq; lia).
    rewrite Hlt, Heq in Hv |- *. cbn [orb andb] in Hv |- *.
    rewrite mask_get_set_octet; try assumption;
      try (unfold in_mask; rewrite Hx, Hy, Hz; unfold in_level in Hc; lia).
    destruct (decide ((a, b, c) ∈ octet f0 f1 f2)) as [Ho|Ho]; [|exact Hv].
    unfold flag_at.
    apply base_octet in Ho; try assumption. injection Ho as -> -> ->.
    unfold flag_value. rewrite Hflag. reflexivity.
  - destruct (decide (M = L)) as [-> | HneL].
    + (* the level of the cell: it is marked as refined *)
      unfold level_ok. rewrite mask_at_upd_ne by lia.
      rewrite mask_at_upd_eq by exact RL.
      destruct HokL as (Hok & Hx & Hy & Hz).
      split; [exact (conj (mask_ok_set _ i j k 2 Hok) (conj Hx (conj Hy Hz)))|].
      intros a b c Hc.
      assert (in_mask (mask_at ms L) i j k) as Hin
        by (unfold in_mask; rewrite Hx, Hy, Hz; lia).
      assert (in_mask (mask_at ms L) a b c) as Hin'
        by (unfold in_mask; rewrite Hx, Hy, Hz; exact Hc).
      rewrite Z.ltb_irrefl, Z.eqb_refl. cbn [orb andb].
      destruct (decide ((a, b, c) = (i, j, k))) as [E|E].
      * injection E as -> -> ->. rewrite mask_get_set_eq by assumption.
        rewrite bool_decide_eq_true_2 by (apply elem_of_app; right; apply list_elem_of_here).
        symmetry. exact Hvalue.
      * rewrite mask_get_set_ne by (try assumption; congruence).
        rewrite (HvalL a b c Hc), Z.ltb_irrefl, Z.eqb_refl. cbn [orb andb].
        assert (bool_decide ((a, b, c) ∈ done ++ [(i, j, k)])
                = bool_decide ((a, b, c) ∈ done)) as ->; [|reflexivity].
        apply bool_decide_ext. rewrite elem_of_app, list_elem_of_singleton. tauto.
    + unfold level_ok. rewrite !mask_at_upd_ne by lia.
      split; [exact HokM|].
      intros a b c Hc. rewrite (HvalM a b c Hc).
      assert ((M =? L) = false) as -> by (apply Z.eqb_neq; lia). reflexivity.
Qed.

Lemma refine_cells_inv L (cs done : list (Z * Z * Z)) ms :
  lmin ≤ L → L + 1 < n → (∀ i j k, (i, j, k) ∈ cs → in_level gh L i j k) →
  refine_inv L done ms →
  refine_inv L (done ++ cs) (fold_left (fun ms c => refine_cell gh L c ms) cs ms).
Proof.
  intros HL HL'. revert done ms. induction cs as [|[[i j] k] cs IH]; intros done ms Hcs Hinv.
  - rewrite app_nil_r. exact Hinv.
  - cbn [fold_left].
    replace (done ++ (i, j, k) :: cs) with ((done ++ [(i, j, k)]) ++ cs)
      by (rewrite <- app_assoc; reflexivity).
    apply IH.
    + intros i' j' k' H. apply Hcs, list_elem_of_further, H.
    + apply refine_cell_inv; try assumption. apply Hcs, list_elem_of_here.
Qed.

Lemma refine_masks_inv L ms :
  lmin ≤ L → L + 1 < n → refine_inv L [] ms → refine_inv (L + 1) [] (refine_masks gh L ms).
Proof.
  intros HL HL' Hinv. unfold refine_masks.
  destruct (refine_cells_inv L
              (cells (GridHierarchy.size gh L 0) (GridHierarchy.size gh L 1)
                 (GridHierarchy.size gh L 2)) [] ms HL HL') as [Hlen H].
  { intros i j k Hc. apply elem_of_cells in Hc. exact Hc. }
  { exact Hinv. }
  split; [exact Hlen|]. intros M HM. destruct (H M HM) as [Hok Hval].
  split; [exact Hok|]. intros i j k Hc. rewrite (Hval i j k Hc). cbn [app].
  rewrite (bool_decide_eq_false_2 ((i, j, k) ∈ [])) by apply not_elem_of_nil.
  rewrite andb_false_r, orb_false_r.
  destruct (Z.ltb_spec M L) as [Hlt|Hge].
  - assert ((M <? L + 1) = true) as -> by (apply Z.ltb_lt; lia). reflexivity.
  - cbn [orb]. destruct (Z.eqb_spec M L) as [-> | Hne].
    + assert ((L <? L + 1) = true) as -> by (apply Z.ltb_lt; lia).
      rewrite bool_decide_eq_true_2 by (apply elem_of_cells; exact Hc). reflexivity.
    + assert ((M <? L + 1) = false) as -> by (apply Z.ltb_ge; lia). reflexivity.
Qed.

Lemma refine_levels_inv (t : nat) ms :
  lmin + Z.of_nat t < n → refine_inv lmin [] ms →
  refine_inv (lmin + Z.of_nat t) []
    (for_range lmin (Z.of_nat t) (fun l ms => refine_masks gh l ms) ms).
Proof.
  intros Ht Hinv. induction t as [|t IH].
  - rewrite for_range_0, Z.add_0_r. exact Hinv.
  - rewrite for_range_S.
    replace (lmin + Z.of_nat (S t)) with (lmin + Z.of_nat t + 1) by lia.
    apply refine_masks_inv; [lia | lia |]. apply IH. lia.
Qed.

(** the flags that [add_refinement_mask] leaves in [m_ref_masks] *)
Lemma refined_masks_values :
  length (refined_masks query_point gh) = length (GridHierarchy.m_pgrids gh)
  ∧ ∀ l, lmin ≤ l < n →
      level_ok gh (refined_masks query_point gh) l
      ∧ ∀ i j k, in_level gh l i j k →
          refinement_mask.get (mask_at (refined_masks query_point gh) l) i j k
          = mask_value query_point gh l i j k.
Proof.
  pose proof Hready as [(H0 & H1 & H2) Hmasks Hsizes _].
  unfold refined_masks. cbn zeta. rewrite ready_levelmax. unfold GridHierarchy.levelmin.
  rewrite (to_int_small (n - 1)), (to_int_small lmin) by lia.
  set (ls := reverse (seqZ lmin (n - 1 - lmin + 1))).
  destruct (flag_levels_spec query_point gh ls (GridHierarchy.m_ref_masks gh))
    as (Hlen & _ & Hflags).
  { unfold ls. rewrite reverse_Permutation. apply NoDup_seqZ. }
  { intros l Hl. apply elem_of_reverse, elem_of_seqZ in Hl. rewrite Hmasks.
    split; [lia|]. apply Hsizes. lia. }
  cbn zeta in Hlen, Hflags.
  set (ms := fold_left _ ls _) in *.
  assert (refine_inv lmin [] ms) as Hinv.
  { split; [congruence|]. intros M HM.
    destruct (Hflags M) as [Hok Hval]; [apply elem_of_reverse, elem_of_seqZ; lia|].
    split; [exact Hok|]. intros i j k Hc. rewrite (Hval i j k Hc).
    rewrite (bool_decide_eq_false_2 ((i, j, k) ∈ [])) by apply not_elem_of_nil.
    assert ((M <? lmin) = false) as -> by (apply Z.ltb_ge; lia).
    rewrite andb_false_r. reflexivity. }
  pose proof (refine_levels_inv (Z.to_nat (n - 1 - lmin)) ms ltac:(lia) Hinv) as [Hlen' H].
  rewrite Z2Nat.id in Hlen', H by lia.
  replace (lmin + (n - 1 - lmin)) with (n - 1) in H by lia.
  split; [exact Hlen'|]. intros l Hl. destruct (H l Hl) as [Hok Hval].
  split; [exact Hok|]. intros i j k Hc. rewrite (Hval i j k Hc).
  rewrite (bool_decide_eq_false_2 ((i, j, k) ∈ [])) by apply not_elem_of_nil.
  rewrite andb_false_r, orb_false_r.
  destruct (Z.ltb_spec l (n - 1)) as [Hlt|Hge]; [reflexivity|].
  unfold mask_value, has_fine. rewrite ready_levelmax.
  assert ((l <? n - 1) = false) as -> by (apply Z.ltb_ge; lia). reflexivity.
Qed.

End refinement.

(** [add_refinement_mask] on a hierarchy with more than one level *)
Lemma add_refinement_mask_result query_point gh :
  mask_ready gh →
  let gh' := GridHierarchy.add_refinement_mask query_point gh in
  GridHierarchy.bhave_refmask gh' = true
  ∧ GridHierarchy.m_pgrids gh' = GridHierarchy.m_pgrids gh
  ∧ GridHierarchy.levelmin gh' = GridHierarchy.levelmin gh
  ∧ GridHierarchy.levelmax gh' = GridHierarchy.levelmax gh
  ∧ length (GridHierarchy.m_ref_masks gh') = length (GridHierarchy.m_ref_masks gh)
  ∧ ∀ l i j k, GridHierarchy.levelmin gh ≤ l ≤ GridHierarchy.levelmax gh →
      in_level gh l i j k →
      refinement_mask.get (GridHierarchy.mask gh' l) i j k = mask_value query_point gh l i j k.
Proof.
  intros Hready gh'. pose proof (ready_levelmax gh Hready) as Hmax.
  pose proof Hready as [(H0 & H1 & H2) Hmasks _ _].
  destruct (refined_masks_values query_point gh Hready) as [Hlen Hval].
  unfold gh'. rewrite add_refinement_mask_masks by lia.
  split; [reflexivity|]. split; [reflexivity|]. split; [reflexivity|]. split; [reflexivity|].
  split; [cbn; congruence|].
  intros l i j k Hl Hc. unfold GridHierarchy.levelmin in Hl. rewrite Hmax in Hl.
  destruct (Hval l ltac:(lia)) as [_ Hv]. exact (Hv i j k Hc).
Qed.

(** X25. [add_refinement_mask] on a hierarchy with more than one level
    (even extents, one mask per grid) switches the mask on, leaves the
    grids and the levels as they are and gives every cell of the levels
    [levelmin .. levelmax] its flag: [2] when the cell lies under the next
    grid and the octet of its children is accepted by the region
    generator, otherwise [1] when its own octet is accepted or the level
    is [levelmin], otherwise [-1]. *)
Theorem add_refinement_mask_flags query_point gh :
  mask_ready gh →
  let gh' := GridHierarchy.add_refinement_mask query_point gh in
  GridHierarchy.bhave_refmask gh' = true
  ∧ GridHierarchy.m_pgrids gh' = GridHierarchy.m_pgrids gh
  ∧ GridHierarchy.levelmin gh' = GridHierarchy.levelmin gh
  ∧ GridHierarchy.levelmax gh' = GridHierarchy.levelmax gh
  ∧ length (GridHierarchy.m_ref_masks gh') = length (GridHierarchy.m_ref_masks gh)
  ∧ ∀ l i j k, GridHierarchy.levelmin gh ≤ l ≤ GridHierarchy.levelmax gh →
      in_level gh l i j k →
      refinement_mask.get (GridHierarchy.mask gh' l) i j k
      = if has_fine gh l i j k
           && flagged query_point gh (l + 1) (fine gh l 0 i) (fine gh l 1 j) (fine gh l 2 k)
        then 2
        else if flagged query_point gh l (base i) (base j) (base k) then 1 else -1.
Proof. intros Hready. exact (add_refinement_mask_result query_point gh Hready). Qed.

Lemma shrink_example_ready : mask_ready shrink_example.
Proof.
  split.
  - vm_compute. repeat split; congruence.
  - reflexivity.
  - intros l Hl.
    change (GridHierarchy.m_levelmin shrink_example) with 2 in Hl.
    change (Z.of_nat (length (GridHierarchy.m_pgrids shrink_example))) with 4 in Hl.
    assert (l = 2 ∨ l = 3) as [-> | ->] by lia.
    + split; [|vm_compute; reflexivity]. intros d Hd.
      assert (d = 0 ∨ d = 1 ∨ d = 2) as [-> | [-> | ->]] by lia;
        vm_compute; repeat split; congruence.
    + split; [|vm_compute; reflexivity]. intros d Hd.
      assert (d = 0 ∨ d = 1 ∨ d = 2) as [-> | [-> | ->]] by lia;
        vm_compute; repeat split; congruence.
  - intros l d Hl Hd.
    change (GridHierarchy.m_levelmin shrink_example) with 2 in Hl.
    change (Z.of_nat (length (GridHierarchy.m_pgrids shrink_example))) with 4 in Hl.
    assert (l = 3) as -> by lia.
    assert (d = 0 ∨ d = 1 ∨ d = 2) as [-> | [-> | ->]] by lia;
      vm_compute; repeat split; congruence.
Qed.

Lemma add_refinement_mask_flags_witness :
  let query_point := fun l x y z : Z => (l =? 3) && (x <? 4) in
  let gh' := GridHierarchy.add_refinement_mask query_point shrink_example in
  GridHierarchy.bhave_refmask gh' = true
  ∧ GridHierarchy.m_pgrids gh' = GridHierarchy.m_pgrids shrink_example
  ∧ GridHierarchy.levelmin gh' = GridHierarchy.levelmin shrink_example
  ∧ GridHierarchy.levelmax gh' = GridHierarchy.levelmax shrink_example
  ∧ length (GridHierarchy.m_ref_masks gh') = length (GridHierarchy.m_ref_masks shrink_example)
  ∧ ∀ l i j k,
      GridHierarchy.levelmin shrink_example ≤ l ≤ GridHierarchy.levelmax shrink_example →
      in_level shrink_example l i j k →
      refinement_mask.get (GridHierarchy.mask gh' l) i j k
      = if has_fine shrink_example l i j k
           && flagged query_point shrink_example (l + 1) (fine shrink_example l 0 i)
                (fine shrink_example l 1 j) (fine shrink_example l 2 k)
        then 2
        else if flagged query_point shrink_example l (base i) (base j) (base k)
             then 1 else -1.
Proof.
  exact (add_refinement_mask_flags (fun l x y z : Z => (l =? 3) && (x <? 4)) shrink_example
           shrink_example_ready).
Defined.

Example add_refinement_mask_example :
  let gh' := GridHierarchy.add_refinement_mask (fun l x y z : Z => (l =? 3) && (x <? 4))
               shrink_example in
  (refinement_mask.get (GridHierarchy.mask gh' 2) 1 1 1,
   refinement_mask.get (GridHierarchy.mask gh' 2) 2 1 1,
   refinement_mask.get (GridHierarchy.mask gh' 2) 0 1 1,
   refinement_mask.get (GridHierarchy.mask gh' 3) 1 0 0,
   refinement_mask.get (GridHierarchy.mask gh' 3) 2 0 0)
  = (2, 1, 1, 1, -1).
Proof. vm_compute. reflexivity. Qed.

(** X26. After [add_refinement_mask] on a hierarchy with more than one
    level, every cell of [levelmin] is in the mask, no cell of [levelmax]
    is refined, and a refined cell is in the mask, lies below [levelmax]
    and has all eight children inside the next grid and in the mask. *)
Theorem refined_cells_have_children query_point gh :
  mask_ready gh →
  let gh' := GridHierarchy.add_refinement_mask query_point gh in
  (∀ i j k, in_level gh (GridHierarchy.levelmin gh) i j k →
     GridHierarchy.is_in_mask gh' (GridHierarchy.levelmin gh) i j k = true)
  ∧ (∀ i j k, in_level gh (GridHierarchy.levelmax gh) i j k →
       GridHierarchy.is_refined gh' (GridHierarchy.levelmax gh) i j k = false)
  ∧ ∀ l i j k, GridHierarchy.levelmin gh ≤ l ≤ GridHierarchy.levelmax gh →
      in_level gh l i j k → GridHierarchy.is_refined gh' l i j k = true →
      GridHierarchy.is_in_mask gh' l i j k = true
      ∧ l < GridHierarchy.levelmax gh
      ∧ ∀ a b c, (a, b, c) ∈ octet (fine gh l 0 i) (fine gh l 1 j) (fine gh l 2 k) →
          in_level gh (l + 1) a b c
          ∧ GridHierarchy.is_in_mask gh' (l + 1) a b c = true.
Proof.
  intros Hready gh'.
  destruct (add_refinement_mask_result query_point gh Hready)
    as (Hb & _ & _ & _ & _ & Hval). fold gh' in Hb, Hval.
  pose proof (ready_levelmax gh Hready) as Hmax.
  pose proof Hready as [(H0 & H1 & H2) _ Hsizes Hoffsets].
  unfold GridHierarchy.levelmin in *. rewrite Hmax in *.
  unfold GridHierarchy.is_in_mask, GridHierarchy.is_refined. rewrite Hb.
  assert (∀ l i j k, flag_at query_point gh l i j k = 1 ∨ flag_at query_point gh l i j k = -1)
    as Hflag.
  { intros l i j k. unfold flag_at, flag_value. destruct (flagged _ _ _ _ _ _); lia. }
  split; [|split].
  - intros i j k Hc.
    rewrite (Hval (GridHierarchy.m_levelmin gh) i j k ltac:(lia) Hc). unfold mask_value.
    destruct (_ && _); [reflexivity|]. unfold flag_at, flag_value, flagged.
    unfold GridHierarchy.levelmin. rewrite (to_int_small (GridHierarchy.m_levelmin gh)) by lia.
    rewrite Z.eqb_refl, orb_true_r. reflexivity.
  - intros i j k Hc.
    rewrite (Hval (Z.of_nat (length (GridHierarchy.m_pgrids gh)) - 1) i j k ltac:(lia) Hc).
    unfold mask_value, has_fine.
    rewrite Hmax, Z.ltb_irrefl. cbn [andb].
    destruct (Hflag (Z.of_nat (length (GridHierarchy.m_pgrids gh)) - 1) i j k) as [-> | ->];
      reflexivity.
  - intros l i j k Hl Hc. rewrite (Hval l i j k Hl Hc). unfold mask_value.
    destruct (has_fine gh l i j k && _) eqn:E; cycle 1.
    { destruct (Hflag l i j k) as [-> | ->]; discriminate. }
    intros _. split; [reflexivity|].
    apply andb_true_iff in E as [Hfine Hflagged].
    unfold has_fine in Hfine. rewrite Hmax, !andb_true_iff in Hfine.
    destruct Hfine as (Hlt & ((((F0 & F0') & F1) & F1') & F2) & F2').
    apply Z.ltb_lt in Hlt. apply Z.leb_le in F0, F1, F2. apply Z.ltb_lt in F0', F1', F2'.
    split; [exact Hlt|]. intros a b c Ho.
    destruct (Hsizes (l + 1) ltac:(lia)) as [Hs _].
    destruct (Hs 0 ltac:(lia)) as [S0 _]. destruct (Hs 1 ltac:(lia)) as [S1 _].
    destruct (Hs 2 ltac:(lia)) as [S2 _].
    assert (∀ d c, Z.even (fine gh l d c) = true) as Heven.
    { intros d c'. unfold fine. rewrite <- Z.mul_sub_distr_l.
      apply Z.even_spec. eexists. reflexivity. }
    assert (in_level gh (l + 1) a b c) as Hc'.
    { apply elem_of_octet in Ho.
      pose proof (Heven 0 i) as E0. pose proof (Heven 1 j) as E1. pose proof (Heven 2 k) as E2.
      apply Z.even_spec in E0 as [? E0], E1 as [? E1], E2 as [? E2].
      apply Z.even_spec in S0 as [? S0], S1 as [? S1], S2 as [? S2].
      unfold in_level. lia. }
    split; [exact Hc'|]. rewrite (Hval (l + 1) a b c ltac:(lia) Hc'). unfold mask_value.
    destruct (_ && _); [reflexivity|]. unfold flag_at.
    apply base_octet in Ho; try apply Heven. injection Ho as -> -> ->.
    unfold flag_value. rewrite Hflagged. reflexivity.
Qed.

Lemma refined_cells_have_children_witness :
  let query_point := fun l x y z : Z => (l =? 3) && (x <? 4) in
  let gh' := GridHierarchy.add_refinement_mask query_point shrink_example in
  (∀ i j k, in_level shrink_example (GridHierarchy.levelmin shrink_example) i j k →
     GridHierarchy.is_in_mask gh' (GridHierarchy.levelmin shrink_example) i j k = true)
  ∧ (∀ i j k, in_level shrink_example (GridHierarchy.levelmax shrink_example) i j k →
       GridHierarchy.is_refined gh' (GridHierarchy.levelmax shrink_example) i j k = false)
  ∧ ∀ l i j k,
      GridHierarchy.levelmin shrink_example ≤ l ≤ GridHierarchy.levelmax shrink_example →
      in_level shrink_example l i j k → GridHierarchy.is_refined gh' l i j k = true →
      GridHierarchy.is_in_mask gh' l i j k = true
      ∧ l < GridHierarchy.levelmax shrink_example
      ∧ ∀ a b c, (a, b, c) ∈ octet (fine shrink_example l 0 i) (fine shrink_example l 1 j)
                               (fine shrink_example l 2 k) →
          in_level shrink_example (l + 1) a b c
          ∧ GridHierarchy.is_in_mask gh' (l + 1) a b c = true.
Proof.
  exact (refined_cells_have_children (fun l x y z : Z => (l =? 3) && (x <? 4)) shrink_example
           shrink_example_ready).
Defined.

(** ** Operators of [GridHierarchy] with a hierarchy on the right *)

(** a loop over the stored levels that replaces the grid of level [i] by
    [G i] and may throw *)
Lemma levels_loop_res (body : Z → GridHierarchy.t → res GridHierarchy.t)
    (G : Z → MeshvarBnd.t) this (k : nat) :
  (k ≤ length (GridHierarchy.m_pgrids this))%nat →
  (∀ i pg, 0 ≤ i < Z.of_nat k → length pg = length (GridHierarchy.m_pgrids this) →
     vec_at MeshvarBnd.none pg i = GridHierarchy.grid this i →
     body i (GridHierarchy.with_pgrids this pg)
     = Ok (GridHierarchy.with_pgrids this (vec_set pg i (G i)))) →
  ∃ pg, for_range_res 0 (Z.of_nat k) body this = Ok (GridHierarchy.with_pgrids this pg)
        ∧ length pg = length (GridHierarchy.m_pgrids this)
        ∧ ∀ l, vec_at MeshvarBnd.none pg l
               = if decide (0 ≤ l < Z.of_nat k) then G l else GridHierarchy.grid this l.
Proof.
  unfold for_range_res. induction k as [|k IH]; intros Hk Hbody.
  - exists (GridHierarchy.m_pgrids this). cbn [seqZ for_each_res].
    split; [destruct this; reflexivity|]. split; [reflexivity|].
    intros l. destruct (decide _) as [H|_]; [exfalso; lia | reflexivity].
  - destruct IH as (pg & Hrun & Hlen & Hat); [lia | intros i pg Hi; apply Hbody; lia |].
    rewrite seqZ_S, Z.add_0_l, for_each_res_app, Hrun. cbn [mbind res_bind for_each_res].
    rewrite Hbody; [|lia | exact Hlen |].
    + cbn [mbind res_bind]. eexists. split; [reflexivity|].
      split; [rewrite length_vec_set; exact Hlen|].
      intros l. destruct (decide (l = Z.of_nat k)) as [-> | Hne].
      * rewrite vec_at_set_eq by lia.
        destruct (decide _) as [_|Hn]; [reflexivity | exfalso; lia].
      * rewrite vec_at_set_ne by congruence. rewrite Hat.
        destruct (decide (0 ≤ l < Z.of_nat k)) as [H|H];
          destruct (decide (0 ≤ l < Z.of_nat (S k))) as [H'|H'];
          try reflexivity; exfalso; lia.
    + rewrite Hat. destruct (decide _) as [H|_]; [exfalso; lia | reflexivity].
Qed.

(** the cells of [g] combined with the cells of [v], position by position *)
Definition combined (op : Qc → Qc → Qc) (g v : MeshvarBnd.t) : MeshvarBnd.t :=
  MeshvarBnd.with_data g
    (for_range 0 (MeshvarBnd.count g)
       (fun i d => vec_set d i (op (vec_at 0%Qc d i) (vec_at 0%Qc (MeshvarBnd.m_pdata v) i)))
       (MeshvarBnd.m_pdata g)).

Lemma meshvar_elementwise_ok name op g v :
  MeshvarBnd.count v = MeshvarBnd.count g →
  MeshvarBnd.elementwise name op g v = Ok (combined op g v).
Proof. intros H. unfold MeshvarBnd.elementwise. rewrite H, Z.eqb_refl. reflexivity. Qed.

Lemma meshvar_elementwise_throw name op g v :
  MeshvarBnd.count v ≠ MeshvarBnd.count g →
  MeshvarBnd.elementwise name op g v
  = Throw (runtime_error
             ("Meshvar::operator" +:+ name +:+ " : attempt to operate on incompatible data")).
Proof.
  intros H. unfold MeshvarBnd.elementwise. apply Z.eqb_neq in H. rewrite H. reflexivity.
Qed.

Lemma combined_cells op g v :
  Z.of_nat (length (MeshvarBnd.m_pdata g)) = MeshvarBnd.count g →
  same_shape g (combined op g v)
  ∧ ∀ i, 0 ≤ i < MeshvarBnd.count g →
      vec_at 0%Qc (MeshvarBnd.m_pdata (combined op g v)) i
      = op (vec_at 0%Qc (MeshvarBnd.m_pdata g) i) (vec_at 0%Qc (MeshvarBnd.m_pdata v) i).
Proof.
  intros Hlen. unfold combined. pose proof (count_range g) as Hr.
  destruct (pointwise_loop 0%Qc
              (fun i x => op x (vec_at 0%Qc (MeshvarBnd.m_pdata v) i))
              (Z.to_nat (MeshvarBnd.count g)) (MeshvarBnd.m_pdata g)) as [Hl Hat].
  rewrite Z2Nat.id in Hl, Hat by lia.
  split.
  - split; [reflexivity|]. cbn [MeshvarBnd.m_pdata MeshvarBnd.with_data]. symmetry. exact Hl.
  - intros i Hi. cbn [MeshvarBnd.m_pdata MeshvarBnd.with_data]. rewrite Hat.
    destruct (decide _) as [_|Hn]; [reflexivity | exfalso; lia].
Qed.

(** X27. The operators of [GridHierarchy] with a hierarchy on the right,
    on hierarchies that [is_consistent] accepts: when every stored level
    has as many allocated cells on the right as on the left, the call
    returns, keeps the shape of every grid and combines the cells of
    every stored level position by position; when the counts of some
    level differ, as they can below [levelmin()] or with different ghost
    widths, the call throws the error of [Meshvar], not the one of
    [GridHierarchy]. *)
Theorem hierarchy_elementwise_levels name op this gh :
  GridHierarchy.is_consistent this gh = true →
  (length (GridHierarchy.m_pgrids this) ≤ length (GridHierarchy.m_pgrids gh))%nat →
  (∀ l, 0 ≤ l < Z.of_nat (length (GridHierarchy.m_pgrids this)) →
     Z.of_nat (length (MeshvarBnd.m_pdata (GridHierarchy.grid this l)))
     = MeshvarBnd.count (GridHierarchy.grid this l)) →
  ((∀ l, 0 ≤ l < Z.of_nat (length (GridHierarchy.m_pgrids this)) →
      MeshvarBnd.count (GridHierarchy.grid gh l) = MeshvarBnd.count (GridHierarchy.grid this l)) →
   ∃ this',
     GridHierarchy.elementwise name op this gh = Ok this'
     ∧ this' = GridHierarchy.with_pgrids this (GridHierarchy.m_pgrids this')
     ∧ length (GridHierarchy.m_pgrids this') = length (GridHierarchy.m_pgrids this)
     ∧ ∀ l, 0 ≤ l < Z.of_nat (length (GridHierarchy.m_pgrids this)) →
         same_shape (GridHierarchy.grid this l) (GridHierarchy.grid this' l)
         ∧ ∀ i, 0 ≤ i < MeshvarBnd.count (GridHierarchy.grid this l) →
             vec_at 0%Qc (MeshvarBnd.m_pdata (GridHierarchy.grid this' l)) i
             = op (vec_at 0%Qc (MeshvarBnd.m_pdata (GridHierarchy.grid this l)) i)
                  (vec_at 0%Qc (MeshvarBnd.m_pdata (GridHierarchy.grid gh l)) i))
  ∧ (∀ l0, 0 ≤ l0 < Z.of_nat (length (GridHierarchy.m_pgrids this)) →
       MeshvarBnd.count (GridHierarchy.grid gh l0)
       ≠ MeshvarBnd.count (GridHierarchy.grid this l0) →
       (∀ l, 0 ≤ l < l0 →
          MeshvarBnd.count (GridHierarchy.grid gh l)
          = MeshvarBnd.count (GridHierarchy.grid this l)) →
       GridHierarchy.elementwise name op this gh
       = Throw (runtime_error
                  ("Meshvar::operator" +:+ name
                   +:+ " : attempt to operate on incompatible data"))).
Proof.
  intros Hcons Hlen Hdata. unfold GridHierarchy.elementwise. rewrite Hcons. cbn [negb].
  set (body := fun i this0 => _).
  assert (∀ (k : nat),
            (k ≤ length (GridHierarchy.m_pgrids this))%nat →
            (∀ l, 0 ≤ l < Z.of_nat k →
               MeshvarBnd.count (GridHierarchy.grid gh l)
               = MeshvarBnd.count (GridHierarchy.grid this l)) →
            ∃ pg, for_range_res 0 (Z.of_nat k) body this
                  = Ok (GridHierarchy.with_pgrids this pg)
                  ∧ length pg = length (GridHierarchy.m_pgrids this)
                  ∧ ∀ l, vec_at MeshvarBnd.none pg l
                         = if decide (0 ≤ l < Z.of_nat k)
                           then combined op (GridHierarchy.grid this l) (GridHierarchy.grid gh l)
                           else GridHierarchy.grid this l) as Hloop.
  { intros k Hk Hcount. apply levels_loop_res; [exact Hk|].
    intros i pg Hi Hpg Hgrid. unfold body.
    rewrite get_grid_in_range by lia. cbn [mbind res_bind].
    change (GridHierarchy.grid (GridHierarchy.with_pgrids this pg) i)
      with (vec_at MeshvarBnd.none pg i).
    rewrite Hgrid, meshvar_elementwise_ok by (apply Hcount; lia). reflexivity. }
  split.
  - intros Hcount.
    destruct (Hloop (length (GridHierarchy.m_pgrids this)) ltac:(lia) Hcount)
      as (pg & Hrun & Hpg & Hat).
    exists (GridHierarchy.with_pgrids this pg). split; [exact Hrun|].
    split; [reflexivity|]. split; [exact Hpg|].
    intros l Hl.
    change (GridHierarchy.grid (GridHierarchy.with_pgrids this pg) l)
      with (vec_at MeshvarBnd.none pg l).
    rewrite Hat. destruct (decide _) as [_|Hn]; [|exfalso; lia].
    apply combined_cells, Hdata, Hl.
  - intros l0 Hl0 Hne Hbelow.
    destruct (Hloop (Z.to_nat l0) ltac:(lia)) as (pg & Hrun & Hpg & Hat).
    { intros l Hl. apply Hbelow. lia. }
    rewrite Z2Nat.id in Hrun, Hat by lia.
    unfold for_range_res in *.
    replace (Z.of_nat (length (GridHierarchy.m_pgrids this)))
      with (l0 + (Z.of_nat (length (GridHierarchy.m_pgrids this)) - l0)) by lia.
    rewrite seqZ_app, for_each_res_app, Hrun by lia. cbn [mbind res_bind].
    rewrite Z.add_0_l, seqZ_cons by lia.
    apply for_each_res_throw_first. unfold body.
    rewrite get_grid_in_range by lia. cbn [mbind res_bind].
    change (GridHierarchy.grid (GridHierarchy.with_pgrids this pg) l0)
      with (vec_at MeshvarBnd.none pg l0).
    rewrite Hat. destruct (decide _) as [?|_]; [exfalso; lia|].
    rewrite meshvar_elementwise_throw by exact Hne. reflexivity.
Qed.

Lemma hierarchy_elementwise_levels_witness :
  let n := Z.of_nat (length (GridHierarchy.m_pgrids cut_example)) in
  ((∀ l, 0 ≤ l < n →
      MeshvarBnd.count (GridHierarchy.grid cut_example l)
      = MeshvarBnd.count (GridHierarchy.grid cut_example l)) →
   ∃ this',
     GridHierarchy.elementwise "+=" Qcplus cut_example cut_example = Ok this'
     ∧ this' = GridHierarchy.with_pgrids cut_example (GridHierarchy.m_pgrids this')
     ∧ length (GridHierarchy.m_pgrids this') = length (GridHierarchy.m_pgrids cut_example)
     ∧ ∀ l, 0 ≤ l < n →
         same_shape (GridHierarchy.grid cut_example l) (GridHierarchy.grid this' l)
         ∧ ∀ i, 0 ≤ i < MeshvarBnd.count (GridHierarchy.grid cut_example l) →
             vec_at 0%Qc (MeshvarBnd.m_pdata (GridHierarchy.grid this' l)) i
             = (vec_at 0%Qc (MeshvarBnd.m_pdata (GridHierarchy.grid cut_example l)) i
                + vec_at 0%Qc (MeshvarBnd.m_pdata (GridHierarchy.grid cut_example l)) i)%Qc)
  ∧ (∀ l0, 0 ≤ l0 < n →
       MeshvarBnd.count (GridHierarchy.grid cut_example l0)
       ≠ MeshvarBnd.count (GridHierarchy.grid cut_example l0) →
       (∀ l, 0 ≤ l < l0 →
          MeshvarBnd.count (GridHierarchy.grid cut_example l)
          = MeshvarBnd.count (GridHierarchy.grid cut_example l)) →
       GridHierarchy.elementwise "+=" Qcplus cut_example cut_example
       = Throw (runtime_error
                  ("Meshvar::operator" +:+ "+="
                   +:+ " : attempt to operate on incompatible data"))).
Proof.
  apply (hierarchy_elementwise_levels "+=" Qcplus cut_example cut_example).
  - vm_compute. reflexivity.
  - lia.
  - intros l Hl. change (Z.of_nat (length (GridHierarchy.m_pgrids cut_example))) with 3 in Hl.
    assert (l = 0 ∨ l = 1 ∨ l = 2) as [-> | [-> | ->]] by lia; vm_compute; reflexivity.
Defined.

(** two base hierarchies that differ in the ghost width only: the test of
    [GridHierarchy] passes and the one of [Meshvar] fails *)
Example hierarchy_elementwise_ghost_width :
  let this := GridHierarchy.create_base_hierarchy (GridHierarchy.new 1) 1 in
  let gh := GridHierarchy.create_base_hierarchy (GridHierarchy.new 2) 1 in
  GridHierarchy.is_consistent this gh = true
  ∧ GridHierarchy.operator_add_assign this gh
    = Throw (runtime_error "Meshvar::operator+= : attempt to operate on incompatible data").
Proof. vm_compute. split; reflexivity. Qed.

(** X28. [operator=] between hierarchies that [is_consistent] accepts
    returns and assigns the grids level by level with
    [MeshvarBnd::operator=]; it keeps [m_levelmin], [m_nbnd] and the
    absolute offsets of the target, takes [bhave_refmask] from the
    source, and when that is set it appends the masks of the source
    behind the masks the target holds already, so that the masks of the
    target stay in front. *)
Theorem operator_assign_consistent this gh :
  GridHierarchy.is_consistent this gh = true →
  (length (GridHierarchy.m_pgrids this) ≤ length (GridHierarchy.m_pgrids gh))%nat →
  1 ≤ Z.of_nat (length (GridHierarchy.m_pgrids gh)) ≤ 2 ^ 32 →
  length (GridHierarchy.m_ref_masks gh) = length (GridHierarchy.m_pgrids gh) →
  ∃ this',
    GridHierarchy.operator_assign this gh = Ok this'
    ∧ GridHierarchy.bhave_refmask this' = GridHierarchy.bhave_refmask gh
    ∧ GridHierarchy.m_ref_masks this'
      = GridHierarchy.m_ref_masks this
        ++ (if GridHierarchy.bhave_refmask gh then GridHierarchy.m_ref_masks gh else [])
    ∧ GridHierarchy.m_levelmin this' = GridHierarchy.m_levelmin this
    ∧ GridHierarchy.m_nbnd this' = GridHierarchy.m_nbnd this
    ∧ GridHierarchy.m_xoffabs this' = GridHierarchy.m_xoffabs this
    ∧ GridHierarchy.m_yoffabs this' = GridHierarchy.m_yoffabs this
    ∧ GridHierarchy.m_zoffabs this' = GridHierarchy.m_zoffabs this
    ∧ length (GridHierarchy.m_pgrids this') = length (GridHierarchy.m_pgrids this)
    ∧ ∀ l, 0 ≤ l < Z.of_nat (length (GridHierarchy.m_pgrids this)) →
        GridHierarchy.grid this' l
        = MeshvarBnd.assign (GridHierarchy.grid this l) (GridHierarchy.grid gh l).
Proof.
  intros Hcons Hlen Hgh Hmasks. unfold GridHierarchy.operator_assign.
  set (this1 := if GridHierarchy.bhave_refmask _ then _ else _).
  assert (this1 = GridHierarchy.with_bhave_refmask
                    (GridHierarchy.with_ref_masks this
                       (GridHierarchy.m_ref_masks this
                        ++ (if GridHierarchy.bhave_refmask gh
                            then GridHierarchy.m_ref_masks gh else [])))
                    (GridHierarchy.bhave_refmask gh)) as Hthis1.
  { unfold this1.
    change (GridHierarchy.bhave_refmask (GridHierarchy.with_bhave_refmask _ ?b)) with b.
    destruct (GridHierarchy.bhave_refmask gh) eqn:Hb.
    - rewrite (levelmax_of_levels gh Hgh).
      replace (Z.of_nat (length (GridHierarchy.m_pgrids gh)) - 1 + 1)
        with (Z.of_nat (length (GridHierarchy.m_ref_masks gh))) by lia.
      rewrite copy_masks_loop by lia. rewrite firstn_all. reflexivity.
    - rewrite app_nil_r. destruct this. reflexivity. }
  clearbody this1. subst this1.
  set (this1 := GridHierarchy.with_bhave_refmask _ _).
  rewrite (is_consistent_same_grids this1 this gh eq_refl eq_refl), Hcons. cbn [negb].
  destruct (levels_loop_res
              (fun i this0 =>
                 g ← GridHierarchy.get_grid gh i;
                 Ok (GridHierarchy.upd_grid this0 i (fun mine => MeshvarBnd.assign mine g)))
              (fun i => MeshvarBnd.assign (GridHierarchy.grid this i) (GridHierarchy.grid gh i))
              this1 (length (GridHierarchy.m_pgrids this1))) as (pg & Hrun & Hpg & Hat).
  { lia. }
  { intros i pg Hi Hpg Hgrid.
    change (length (GridHierarchy.m_pgrids this1)) with (length (GridHierarchy.m_pgrids this))
      in Hi.
    rewrite get_grid_in_range by lia. cbn [mbind res_bind].
    unfold GridHierarchy.upd_grid.
    change (GridHierarchy.grid (GridHierarchy.with_pgrids this1 pg) i)
      with (vec_at MeshvarBnd.none pg i).
    rewrite Hgrid. reflexivity. }
  rewrite Hrun. eexists. split; [reflexivity|].
  split; [reflexivity|]. split; [reflexivity|]. split; [reflexivity|].
  split; [reflexivity|]. split; [reflexivity|]. split; [reflexivity|].
  split; [reflexivity|]. split; [exact Hpg|].
  intros l Hl.
  change (GridHierarchy.grid (GridHierarchy.with_pgrids this1 pg) l)
    with (vec_at MeshvarBnd.none pg l).
  rewrite Hat. destruct (decide _) as [_|Hn]; [reflexivity|].
  exfalso. apply Hn. exact Hl.
Qed.

Lemma operator_assign_consistent_witness :
  let this := cut_example in
  let gh := GridHierarchy.add_refinement_mask (fun _ _ _ _ => true) cut_example in
  ∃ this',
    GridHierarchy.operator_assign this gh = Ok this'
    ∧ GridHierarchy.bhave_refmask this' = GridHierarchy.bhave_refmask gh
    ∧ GridHierarchy.m_ref_masks this'
      = GridHierarchy.m_ref_masks this
        ++ (if GridHierarchy.bhave_refmask gh then GridHierarchy.m_ref_masks gh else [])
    ∧ GridHierarchy.m_levelmin this' = GridHierarchy.m_levelmin this
    ∧ GridHierarchy.m_nbnd this' = GridHierarchy.m_nbnd this
    ∧ GridHierarchy.m_xoffabs this' = GridHierarchy.m_xoffabs this
    ∧ GridHierarchy.m_yoffabs this' = GridHierarchy.m_yoffabs this
    ∧ GridHierarchy.m_zoffabs this' = GridHierarchy.m_zoffabs this
    ∧ length (GridHierarchy.m_pgrids this') = length (GridHierarchy.m_pgrids this)
    ∧ ∀ l, 0 ≤ l < Z.of_nat (length (GridHierarchy.m_pgrids this)) →
        GridHierarchy.grid this' l
        = MeshvarBnd.assign (GridHierarchy.grid this l) (GridHierarchy.grid gh l).
Proof.
  apply (operator_assign_consistent cut_example
           (GridHierarchy.add_refinement_mask (fun _ _ _ _ => true) cut_example)).
  - vm_compute. reflexivity.
  - vm_compute. lia.
  - vm_compute. split; congruence.
  - vm_compute. reflexivity.
Defined.

(** the masks of the target stay in front: level 1 of the result still
    reads the mask the target had *)
Example operator_assign_keeps_old_masks :
  let this := cut_example in
  let gh := GridHierarchy.add_refinement_mask (fun _ _ _ _ => true) cut_example in
  match GridHierarchy.operator_assign this gh with
  | Ok this' =>
      GridHierarchy.bhave_refmask this' = true
      ∧ refinement_mask.get (GridHierarchy.mask gh 1) 0 0 0 = 2
      ∧ refinement_mask.get (GridHierarchy.mask this' 1) 0 0 0
        = refinement_mask.get (GridHierarchy.mask this 1) 0 0 0
      ∧ refinement_mask.get (GridHierarchy.mask this 1) 0 0 0 = 0
      ∧ length (GridHierarchy.m_ref_masks this') = 6%nat
  | Throw _ => False
  end.
Proof. vm_compute. repeat split; reflexivity. Qed.

(** ** A region generator that accepts every point *)

Lemma tally_ext {A} (p q : A → bool) (l : list A) :
  (∀ a, a ∈ l → p a = q a) → tally p l = tally q l.
Proof.
  unfold tally. induction l as [|a l IH]; intros H; [reflexivity|].
  cbn [sum_list_with]. rewrite (H a) by apply list_elem_of_here.
  rewrite !Nat2Z.inj_add, IH by (intros b Hb; apply H, list_elem_of_further, Hb). reflexivity.
Qed.

Lemma leaves_of_ext gh gh' (ls : list Z) :
  (∀ l, l ∈ ls → leaves gh l = leaves gh' l) → leaves_of gh ls = leaves_of gh' ls.
Proof.
  unfold leaves_of. induction ls as [|l ls IH]; intros H; [reflexivity|].
  cbn [fmap list_fmap foldr].
  change (foldr Z.add 0 (list_fmap _ _ (leaves gh) ls)) with (foldr Z.add 0 (leaves gh <$> ls)).
  change (foldr Z.add 0 (list_fmap _ _ (leaves gh') ls)) with (foldr Z.add 0 (leaves gh' <$> ls)).
  rewrite IH by (intros l' Hl'; apply H, list_elem_of_further, Hl').
  rewrite (H l) by apply list_elem_of_here. reflexivity.
Qed.

(** the test of [is_refined] without a mask, on a cell of level [l] *)
Lemma is_refined_has_fine gh l i j k :
  mask_ready gh → GridHierarchy.bhave_refmask gh = false →
  GridHierarchy.levelmin gh ≤ l ≤ GridHierarchy.levelmax gh → in_level gh l i j k →
  GridHierarchy.is_refined gh l i j k = has_fine gh l i j k.
Proof.
  intros Hready Hb Hl (Hi & Hj & Hk).
  pose proof (ready_levelmax gh Hready) as Hmax.
  pose proof Hready as [(H0 & H1 & H2) _ Hsizes Hoffsets].
  unfold GridHierarchy.levelmin in Hl. rewrite Hmax in Hl.
  unfold GridHierarchy.is_refined, has_fine. rewrite Hb, Hmax.
  destruct (Z.eqb_spec l (Z.of_nat (length (GridHierarchy.m_pgrids gh)) - 1)) as [-> | Hne].
  { rewrite Z.ltb_irrefl. reflexivity. }
  assert ((l <? Z.of_nat (length (GridHierarchy.m_pgrids gh)) - 1) = true) as ->
    by (apply Z.ltb_lt; lia).
  cbn [andb].
  rewrite (to_unsigned_small (l + 1)) by lia. rewrite (to_int_small (l + 1)) by lia.
  destruct (Hsizes (l + 1) ltac:(lia)) as [Hs _].
  assert (∀ d c, 0 ≤ d ≤ 2 → 0 ≤ c →
            (c <? GridHierarchy.offset gh (l + 1) d)
            || (to_int (GridHierarchy.offset gh (l + 1) d
                        + Z.quot (to_int (GridHierarchy.size gh (l + 1) d)) 2) <=? c)
            = negb ((0 <=? fine gh l d c)
                    && (fine gh l d c <? GridHierarchy.size gh (l + 1) d))) as Hdim.
  { intros d c Hd Hc. destruct (Hs d Hd) as [He Hb'].
    pose proof (Hoffsets (l + 1) d ltac:(lia) Hd) as Ho.
    apply Z.even_spec in He as [h He].
    rewrite (to_int_small (GridHierarchy.size gh (l + 1) d)) by lia.
    rewrite He. rewrite (Z.mul_comm 2 h), Z.quot_mul by lia.
    rewrite to_int_small by lia. unfold fine.
    destruct (Z.ltb_spec c (GridHierarchy.offset gh (l + 1) d));
      destruct (Z.leb_spec (GridHierarchy.offset gh (l + 1) d + h) c);
      destruct (Z.leb_spec 0 (2 * c - 2 * GridHierarchy.offset gh (l + 1) d));
      destruct (Z.ltb_spec (2 * c - 2 * GridHierarchy.offset gh (l + 1) d) (h * 2));
      try reflexivity; exfalso; lia. }
  pose proof (Hdim 0 i ltac:(lia) ltac:(lia)) as D0.
  pose proof (Hdim 1 j ltac:(lia) ltac:(lia)) as D1.
  pose proof (Hdim 2 k ltac:(lia) ltac:(lia)) as D2.
  rewrite <- !orb_assoc. rewrite !orb_assoc. rewrite D0.
  rewrite <- (orb_assoc _ (j <? _)), D1. rewrite <- (orb_assoc _ (k <? _)), D2.
  destruct ((0 <=? fine gh l 0 i) && (fine gh l 0 i <? GridHierarchy.size gh (l + 1) 0)) eqn:E0;
    destruct ((0 <=? fine gh l 1 j) && (fine gh l 1 j <? GridHierarchy.size gh (l + 1) 1)) eqn:E1;
    destruct ((0 <=? fine gh l 2 k) && (fine gh l 2 k <? GridHierarchy.size gh (l + 1) 2)) eqn:E2;
    cbn [negb orb];
    repeat match goal with
           | H : (_ && _) = true |- _ => apply andb_true_iff in H as [? ?]
           end;
    repeat match goal with
           | H : ?b = true |- context [?b] => rewrite H
           end; cbn [andb]; try reflexivity.
  all: repeat match goal with
           | H : (?a && ?b) = false |- _ => apply andb_false_iff in H as [H|H]; rewrite H
           end; cbn [andb]; rewrite ?andb_false_r; reflexivity.
Qed.

(** X29. With a region generator that accepts every point, the mask that
    [add_refinement_mask] builds tells the same as the geometry: every
    cell of the levels [levelmin .. levelmax] is in the mask, [is_refined]
    answers as it does without a mask (the cell lies under the next
    grid), and [count_leaf_cells()] returns the same number with and
    without the mask. *)
Theorem accepting_region_keeps_leaves gh :
  mask_ready gh → GridHierarchy.bhave_refmask gh = false →
  let gh' := GridHierarchy.add_refinement_mask (fun _ _ _ _ => true) gh in
  (∀ l i j k, GridHierarchy.levelmin gh ≤ l ≤ GridHierarchy.levelmax gh →
     in_level gh l i j k →
     GridHierarchy.is_in_mask gh' l i j k = true
     ∧ GridHierarchy.is_refined gh' l i j k = GridHierarchy.is_refined gh l i j k)
  ∧ ∃ count, GridHierarchy.count_leaf_cells_all gh = Ok count
             ∧ GridHierarchy.count_leaf_cells_all gh' = Ok count.
Proof.
  intros Hready Hb gh'.
  destruct (add_refinement_mask_result (fun _ _ _ _ => true) gh Hready)
    as (Hb' & Hpg & Hmin' & Hmax' & _ & Hval). fold gh' in Hb', Hpg, Hmin', Hmax', Hval.
  pose proof (ready_levelmax gh Hready) as Hmax.
  pose proof Hready as [(H0 & H1 & H2) _ Hsizes _].
  assert (∀ l i j k, GridHierarchy.levelmin gh ≤ l ≤ GridHierarchy.levelmax gh →
            in_level gh l i j k →
            GridHierarchy.is_in_mask gh' l i j k = true
            ∧ GridHierarchy.is_refined gh' l i j k = GridHierarchy.is_refined gh l i j k)
    as Hcells.
  { intros l i j k Hl Hc.
    rewrite (is_refined_has_fine gh l i j k Hready Hb Hl Hc).
    unfold GridHierarchy.is_in_mask, GridHierarchy.is_refined. rewrite Hb'.
    rewrite (Hval l i j k Hl Hc). unfold mask_value, flag_at, flag_value, flagged.
    cbn [orb]. rewrite andb_true_r.
    destruct (has_fine gh l i j k); split; reflexivity. }
  split; [exact Hcells|].
  unfold GridHierarchy.count_leaf_cells_all. rewrite Hmin', Hmax', Hmax.
  unfold GridHierarchy.levelmin.
  rewrite (count_leaf_cells_levels gh) by lia.
  rewrite (count_leaf_cells_levels gh') by (rewrite ?Hpg; lia).
  eexists. split; [reflexivity|]. do 2 f_equal. symmetry. apply leaves_of_ext.
  intros l Hl. apply elem_of_reverse, elem_of_seqZ in Hl.
  unfold leaves, level_cells, GridHierarchy.size, GridHierarchy.grid. rewrite Hpg.
  apply tally_ext. intros [[i j] k] Hc. apply elem_of_cells in Hc.
  destruct (Hsizes l ltac:(lia)) as [Hs _].
  destruct (Hs 0 ltac:(lia)) as [_ B0]. destruct (Hs 1 ltac:(lia)) as [_ B1].
  destruct (Hs 2 ltac:(lia)) as [_ B2].
  unfold GridHierarchy.size, GridHierarchy.grid in B0, B1, B2.
  unfold leaf. rewrite (to_int_small i), (to_int_small j), (to_int_small k) by lia.
  destruct (Hcells l i j k) as [-> ->].
  - unfold GridHierarchy.levelmin. rewrite Hmax. lia.
  - exact Hc.
  - unfold GridHierarchy.is_in_mask. rewrite Hb. reflexivity.
Qed.

Lemma accepting_region_keeps_leaves_witness :
  let gh' := GridHierarchy.add_refinement_mask (fun _ _ _ _ => true) shrink_example in
  (∀ l i j k,
     GridHierarchy.levelmin shrink_example ≤ l ≤ GridHierarchy.levelmax shrink_example →
     in_level shrink_example l i j k →
     GridHierarchy.is_in_mask gh' l i j k = true
     ∧ GridHierarchy.is_refined gh' l i j k = GridHierarchy.is_refined shrink_example l i j k)
  ∧ ∃ count, GridHierarchy.count_leaf_cells_all shrink_example = Ok count
             ∧ GridHierarchy.count_leaf_cells_all gh' = Ok count.
Proof.
  apply (accepting_region_keeps_leaves shrink_example shrink_example_ready). reflexivity.
Defined.

Example accepting_region_leaf_count :
  GridHierarchy.count_leaf_cells_all
    (GridHierarchy.add_refinement_mask (fun _ _ _ _ => true) shrink_example)
  = Ok (4 * 4 * 4 - 2 * 2 * 2 + 4 * 4 * 4).
Proof. vm_compute. reflexivity. Qed.
